(** * avl_file: file-based threaded AVL trees with several keys

    A shallow embedding of [avl_file.c] (version 0.5.0) and the proofs of
    the properties stated about it.

    Modelling conventions.
    - The file is a header ([hdr_struct]) followed by fixed-length records
      ([avl_struct]); the records are kept in a finite map from their file
      offset to their contents, and the file length is a field of its own.
      [avl_file_lread] and [avl_file_lwrite] are the two I/O primitives of
      the source; [abort ()] is the result [Fatal]. A store outside the
      bounds of one of the 128-element path arrays is the result [Undef];
      so is a read of [reclen] bytes at an offset inside the file where
      no record starts: the source goes on with the bytes that lie there,
      which the map of records does not tell.
    - [off_t] values are integers ([Z]); [int64_t] counters wrap around
      ([wrap64]); the balance byte is a signed [char] ([wrap8]).
    - The payload of a record is a value of an abstract type [data] with a
      decidable equality: [memcpy] of [len] bytes is assignment, [memcmp]
      of [len] bytes is the equality test.
    - Every [while] loop and [goto] cycle of the source is a [Fixpoint] on
      a fuel argument; running out of fuel is the result [Timeout].
    - The diagnostic string ([setenv (AVL_FILE_EMSG_VNAME, ...)]) is not
      part of the model, apart from the message number of a fatal error
      and of the checks of [avl_file_scan]. *)

From stdpp Require Import gmap list list_tactics functions sorting.
From Stdlib Require Import ZArith Lia.

Open Scope Z_scope.

#[local] Set Warnings "-clear-no-such-hyp".

(** ** Results of the I/O layer *)

Inductive res (A : Type) : Type :=
| Ok (a : A)
| Fatal (code : Z)
| Undef
| Timeout.
Arguments Ok {A} a.
Arguments Fatal {A} code.
Arguments Undef {A}.
Arguments Timeout {A}.

Definition res_bind {A B} (f : A → res B) (m : res A) : res B :=
  match m with
  | Ok a => f a
  | Fatal c => Fatal c
  | Undef => Undef
  | Timeout => Timeout
  end.

#[global] Instance res_mbind : MBind res := @res_bind.
#[global] Instance res_mret : MRet res := @Ok.

(** ** Machine integers *)

Definition wrap64 (x : Z) : Z := (x + 2 ^ 63) mod 2 ^ 64 - 2 ^ 63.
Definition wrap8 (x : Z) : Z := (x + 128) mod 256 - 128.
Definition wrap32 (x : Z) : Z := (x + 2 ^ 31) mod 2 ^ 32 - 2 ^ 31.

(** ** On-disk structures *)

(** [struct avl_node_struct { char b; off_t l, r; }] *)
Record avl_node_struct : Type := mk_node { nb : Z; nl : Z; nr : Z }.

#[global] Instance avl_node_struct_eq_dec : EqDecision avl_node_struct.
Proof. solve_decision. Defined.
#[global] Instance avl_node_struct_inhabited : Inhabited avl_node_struct :=
  populate (mk_node 0 0 0).

Definition set_b (v : Z) (x : avl_node_struct) := mk_node v (nl x) (nr x).
Definition set_l (v : Z) (x : avl_node_struct) := mk_node (nb x) v (nr x).
Definition set_r (v : Z) (x : avl_node_struct) := mk_node (nb x) (nl x) v.

(** The header, without the magic string (which the source writes and
    never reads back). *)
Record hdr_struct : Type := mk_hdr {
  h_n_keys : Z;
  h_len : Z;
  h_reclen : Z;
  n_avl : Z;
  nextnum : Z;
  root : list Z;
  head_seq : Z;
  head_empty : Z;
  head_cpr : Z
}.

#[global] Instance hdr_struct_eq_dec : EqDecision hdr_struct.
Proof. solve_decision. Defined.

Definition set_n_avl (v : Z) (h : hdr_struct) :=
  mk_hdr (h_n_keys h) (h_len h) (h_reclen h) v (nextnum h) (root h)
         (head_seq h) (head_empty h) (head_cpr h).
Definition set_nextnum (v : Z) (h : hdr_struct) :=
  mk_hdr (h_n_keys h) (h_len h) (h_reclen h) (n_avl h) v (root h)
         (head_seq h) (head_empty h) (head_cpr h).
Definition set_roots (v : list Z) (h : hdr_struct) :=
  mk_hdr (h_n_keys h) (h_len h) (h_reclen h) (n_avl h) (nextnum h) v
         (head_seq h) (head_empty h) (head_cpr h).
Definition set_root (k : nat) (v : Z) (h : hdr_struct) :=
  set_roots (<[k := v]> (root h)) h.
Definition set_head_seq (v : Z) (h : hdr_struct) :=
  mk_hdr (h_n_keys h) (h_len h) (h_reclen h) (n_avl h) (nextnum h) (root h)
         v (head_empty h) (head_cpr h).
Definition set_head_empty (v : Z) (h : hdr_struct) :=
  mk_hdr (h_n_keys h) (h_len h) (h_reclen h) (n_avl h) (nextnum h) (root h)
         (head_seq h) v (head_cpr h).
Definition set_head_cpr (v : Z) (h : hdr_struct) :=
  mk_hdr (h_n_keys h) (h_len h) (h_reclen h) (n_avl h) (nextnum h) (root h)
         (head_seq h) (head_empty h) v.

Definition root_k (h : hdr_struct) (k : nat) : Z := root h !!! k.

Section AvlFile.

(** The payload type, the comparison callback, and the sizes fixed when
    the file is opened. *)
Context {data : Type} `{EqDecision data}.
Variable cmp : Z → data → data → Z.
Variable n_keys : nat.
Variable len : Z.
Variable reclen : Z.
Variable hdr_size : Z.

(** [struct avl_struct { struct avl_node_struct n[n_keys]; off_t prev, next;
    char b[len]; }] *)
Record avl_struct : Type := mk_rec {
  n : list avl_node_struct;
  prev : Z;
  next : Z;
  b : data
}.

#[global] Instance avl_struct_eq_dec : EqDecision avl_struct.
Proof. solve_decision. Defined.

Definition nk (s : avl_struct) (k : nat) : avl_node_struct := n s !!! k.
Definition set_nk (k : nat) (x : avl_node_struct) (s : avl_struct) :=
  mk_rec (<[k := x]> (n s)) (prev s) (next s) (b s).
Definition set_prev (v : Z) (s : avl_struct) := mk_rec (n s) v (next s) (b s).
Definition set_next (v : Z) (s : avl_struct) := mk_rec (n s) (prev s) v (b s).
Definition set_data (v : data) (s : avl_struct) := mk_rec (n s) (prev s) (next s) v.

(** Field-wise assignments [r.n[k].b = v], [r.n[k].l = v], [r.n[k].r = v]. *)
Definition set_kb (k : nat) (v : Z) (s : avl_struct) := set_nk k (set_b v (nk s k)) s.
Definition set_kl (k : nat) (v : Z) (s : avl_struct) := set_nk k (set_l v (nk s k)) s.
Definition set_kr (k : nat) (v : Z) (s : avl_struct) := set_nk k (set_r v (nk s k)) s.

(** The contents of an automatic [struct avl_struct] that has not been
    assigned yet. *)
Variable uninit : avl_struct.

(** The process ID at the start of the payload of a current-pointer
    record: [pid_fits] is [sizeof (cpr.b) >= sizeof (pid_t)], [put_pid] is
    [memcpy (&cpr.b, &pid, sizeof (pid_t))] and [has_pid] is
    [memcmp (&cpr.b, &pid, sizeof (pid_t)) == 0]. *)
Variable pid_fits : bool.
Variable put_pid : Z → data → data.
Variable has_pid : Z → data → bool.

Record file : Type := mk_file {
  hdr : hdr_struct;
  slots : gmap Z avl_struct;
  flen : Z
}.

(** *** avl_file_lread, avl_file_lwrite

    [lim] of the source is the length of the file at the start of the
    operation, raised by every write: it is always the current length. A
    read of [reclen] bytes fails ([read (...) != len]) when the file ends
    before [pos + reclen]; otherwise it gives the record that starts at
    [pos], and at an offset where no record starts it gives bytes that
    are not those of one record, which is outside the model. *)
Definition lread (f : file) (pos : Z) : res avl_struct :=
  if flen f <? pos then Fatal 10
  else if flen f <? pos + reclen then Fatal 12
  else match slots f !! pos with
       | Some s => Ok s
       | None => Undef
       end.

Definition lwrite (f : file) (pos : Z) (s : avl_struct) : res file :=
  if flen f <? pos then Fatal 13
  else Ok (mk_file (hdr f) (<[pos := s]> (slots f)) (Z.max (flen f) (pos + reclen))).

(** Writing the header at offset 0. *)
Definition hwrite (f : file) (h : hdr_struct) : file :=
  mk_file h (slots f) (Z.max (flen f) hdr_size).

(** [ftruncate (fd, lim)] *)
Definition truncate (f : file) (lim : Z) : file :=
  mk_file (hdr f) (filter (λ p, p.1 < lim) (slots f)) lim.

(** *** avl_file_getnum *)
Definition avl_file_getnum (f : file) : Z * file :=
  let h := set_nextnum (wrap64 (nextnum (hdr f) + 1)) (hdr f) in
  (nextnum h, mk_file h (slots f) (flen f)).

(** *** avl_file_startseq *)
Definition avl_file_startseq (cp : Z) (f : file) : res file :=
  cpr ← lread f cp;
  lwrite f cp (set_prev (head_seq (hdr f)) cpr).

(** *** avl_file_readseq

    The result is the return value, the caller's buffer and the file. *)
Definition avl_file_readseq (cp : Z) (f : file) (buf : data) : res (Z * data * file) :=
  cpr ← lread f cp;
  if prev cpr =? 0 then Ok (-1, buf, f)
  else
    ar ← lread f (prev cpr);
    f' ← lwrite f cp (set_prev (next ar) cpr);
    Ok (0, b ar, f').


(** *** In-order neighbours through the threads

    [sp = ar.n[k].l; if (sp > 0) { read sp; while (sr.n[k].r > 0) ... }
     else sp = -ar.n[k].l;] and its mirror image. *)
Fixpoint walk_right (fuel : nat) (f : file) (k : nat) (sp : Z) (sr : avl_struct)
  : res (Z * avl_struct) :=
  match fuel with
  | O => Timeout
  | S fuel =>
      if 0 <? nr (nk sr k) then
        let sp := nr (nk sr k) in
        sr ← lread f sp;
        walk_right fuel f k sp sr
      else Ok (sp, sr)
  end.

Fixpoint walk_left (fuel : nat) (f : file) (k : nat) (sp : Z) (sr : avl_struct)
  : res (Z * avl_struct) :=
  match fuel with
  | O => Timeout
  | S fuel =>
      if 0 <? nl (nk sr k) then
        let sp := nl (nk sr k) in
        sr ← lread f sp;
        walk_left fuel f k sp sr
      else Ok (sp, sr)
  end.

Definition find_prev (fuel : nat) (f : file) (k : nat) (ar : avl_struct) : res Z :=
  let sp := nl (nk ar k) in
  if 0 <? sp then
    sr ← lread f sp;
    r ← walk_right fuel f k sp sr;
    Ok r.1
  else Ok (- nl (nk ar k)).

Definition find_next (fuel : nat) (f : file) (k : nat) (ar : avl_struct) : res Z :=
  let sp := nr (nk ar k) in
  if 0 <? sp then
    sr ← lread f sp;
    r ← walk_left fuel f k sp sr;
    Ok r.1
  else Ok (- nr (nk ar k)).

(** *** The descents of startge and startlt *)
Fixpoint ge_descend (fuel : nat) (f : file) (k : nat) (probe : data) (a : Z) : res Z :=
  match fuel with
  | O => Timeout
  | S fuel =>
      if 0 <? a then
        ar ← lread f a;
        if cmp (Z.of_nat k) probe (b ar) <=? 0 then
          if 0 <? nl (nk ar k) then ge_descend fuel f k probe (nl (nk ar k))
          else Ok a
        else
          if 0 <? nr (nk ar k) then ge_descend fuel f k probe (nr (nk ar k))
          else Ok (- nr (nk ar k))
      else Ok a
  end.

Fixpoint lt_descend (fuel : nat) (f : file) (k : nat) (probe : data) (a : Z) : res Z :=
  match fuel with
  | O => Timeout
  | S fuel =>
      if 0 <? a then
        ar ← lread f a;
        if cmp (Z.of_nat k) probe (b ar) <=? 0 then
          if 0 <? nl (nk ar k) then lt_descend fuel f k probe (nl (nk ar k))
          else Ok (- nl (nk ar k))
        else
          if 0 <? nr (nk ar k) then lt_descend fuel f k probe (nr (nk ar k))
          else Ok a
      else Ok a
  end.

Definition key_out_of_bounds (k : Z) : bool := (k <? 0) || (Z.of_nat n_keys <=? k).

(** The common tail of startlt and startge: copy the record found out and
    seed the handle's pointers for key [k]. *)
Definition start_at (fuel : nat) (cp : Z) (f : file) (buf : data) (k : nat) (a : Z)
  : res (Z * data * file) :=
  cpr ← lread f cp;
  if 0 <? a then
    ar ← lread f a;
    l ← find_prev fuel f k ar;
    r ← find_next fuel f k ar;
    f' ← lwrite f cp (set_kr k r (set_kl k l cpr));
    Ok (0, b ar, f')
  else
    f' ← lwrite f cp (set_kr k 0 (set_kl k 0 cpr));
    Ok (-1, buf, f').

(** *** avl_file_startlt *)
Definition avl_file_startlt (fuel : nat) (cp : Z) (f : file) (buf : data) (k : Z)
  : res (Z * data * file) :=
  if key_out_of_bounds k then Ok (-1, buf, f)
  else
    let k := Z.to_nat k in
    a ← lt_descend fuel f k buf (root_k (hdr f) k);
    start_at fuel cp f buf k a.

(** *** avl_file_startge *)
Definition avl_file_startge (fuel : nat) (cp : Z) (f : file) (buf : data) (k : Z)
  : res (Z * data * file) :=
  if key_out_of_bounds k then Ok (-1, buf, f)
  else
    let k := Z.to_nat k in
    a ← ge_descend fuel f k buf (root_k (hdr f) k);
    start_at fuel cp f buf k a.

(** *** avl_file_next *)
Definition avl_file_next (fuel : nat) (cp : Z) (f : file) (buf : data) (k : Z)
  : res (Z * data * file) :=
  if key_out_of_bounds k then Ok (-1, buf, f)
  else
    let k := Z.to_nat k in
    cpr ← lread f cp;
    let a := nr (nk cpr k) in
    if 0 <? a then
      ar ← lread f a;
      r ← find_next fuel f k ar;
      f' ← lwrite f cp (set_kr k r cpr);
      Ok (0, b ar, f')
    else Ok (-1, buf, f).

(** *** avl_file_prev *)
Definition avl_file_prev (fuel : nat) (cp : Z) (f : file) (buf : data) (k : Z)
  : res (Z * data * file) :=
  if key_out_of_bounds k then Ok (-1, buf, f)
  else
    let k := Z.to_nat k in
    cpr ← lread f cp;
    let a := nl (nk cpr k) in
    if 0 <? a then
      ar ← lread f a;
      l ← find_prev fuel f k ar;
      f' ← lwrite f cp (set_kl k l cpr);
      Ok (0, b ar, f')
    else Ok (-1, buf, f).

(** *** avl_file_find

    The search runs on a private copy [b] of the caller's buffer. *)
Definition avl_file_find (fuel : nat) (cp : Z) (f : file) (buf : data) (k : Z)
  : res (Z * data * file) :=
  '(ret, b', f') ← avl_file_startge fuel cp f buf k;
  if ret =? 0 then
    if cmp k b' buf =? 0 then Ok (0, b', f')
    else Ok (-1, buf, f')
  else Ok (-1, buf, f').

(** *** The search for a path to a record among duplicate keys

    The [goto] cycle shared by update ([af_update_loop1/2]), delete
    ([af_delete_loop1/2], [afd_findloop1/2]) and squash
    ([af_squash_loop1/2]): descend by key [k], remembering on [stack] the
    levels at which the record compared equal; at the bottom, go back to
    the last such level and accept it when [hit] holds, else continue to
    its right. [pa], [par] and [stack] are arrays of 128 elements; the
    indices into [par] and [stack] never exceed the one into [pa]. *)
Definition path_max : Z := 128.

Definition in_bounds (i : Z) : bool := (0 <=? i) && (i <? path_max).

Fixpoint path_search (fuel : nat) (f : file) (k : nat) (yb : data)
    (hit : Z → avl_struct → bool)
    (pa : Z → Z) (par : Z → avl_struct) (stack : Z → Z) (l m : Z) (at_loop2 : bool)
  : res (option (Z * (Z → Z) * (Z → avl_struct))) :=
  match fuel with
  | O => Timeout
  | S fuel =>
      if at_loop2 then
        if in_bounds (l + 1) then
          path_search fuel f k yb hit (<[l + 1 := nr (nk (par l) k)]> pa) par stack
                      (l + 1) m false
        else Undef
      else if 0 <? pa l then
        r ← lread f (pa l);
        let par := <[l := r]> par in
        let i := cmp (Z.of_nat k) yb (b r) in
        if i <=? 0 then
          let stack' := if i =? 0 then <[m := l]> stack else stack in
          let m' := if i =? 0 then m + 1 else m in
          if in_bounds (l + 1) then
            path_search fuel f k yb hit (<[l + 1 := nl (nk r k)]> pa) par stack'
                        (l + 1) m' false
          else Undef
        else path_search fuel f k yb hit pa par stack l m true
      else if 0 <? m then
        let l := stack (m - 1) in
        if hit (pa l) (par l) then Ok (Some (l, pa, par))
        else path_search fuel f k yb hit pa par stack l (m - 1) true
      else Ok None
  end.

Definition path_start (fuel : nat) (f : file) (h : hdr_struct) (k : nat) (yb : data)
    (hit : Z → avl_struct → bool)
  : res (option (Z * (Z → Z) * (Z → avl_struct))) :=
  path_search fuel f k yb hit (<[0 := root_k h k]> (λ _, 0)) (λ _, uninit) (λ _, 0)
              0 0 false.

(** [for (i = 0; i < n_keys; i++) if (cmp (i, yr.b, par[l].b) != 0) break;]
    ran to the end. *)
Definition all_keys_equal (yb : data) (r : avl_struct) : bool :=
  forallb (λ i, cmp (Z.of_nat i) yb (b r) =? 0) (seq 0 n_keys).

(** *** avl_file_update *)
Definition avl_file_update (fuel : nat) (f : file) (buf : data) : res (Z * file) :=
  found ← (if (0 <? n_keys)%nat
           then path_start fuel f (hdr f) 0 buf (λ _ r, all_keys_equal buf r)
           else Ok None);
  match found with
  | Some (l, pa, par) =>
      let y := pa l in
      let yr := par l in
      if y =? 0 then Ok (-1, f)
      else
        f' ← lwrite f y (set_data buf yr);
        Ok (0, f')
  | None => Ok (-1, f)
  end.

(** *** avl_file_insert *)

(** The locals of the descent: [p], [q]/[qr] (the parent of [p]), [a]/[ar]
    (the last node met with a balance other than 0) and [f]/[fr] (its
    parent). *)
Record ins_vars : Type := mk_iv {
  iv_p : Z; iv_q : Z; iv_qr : avl_struct;
  iv_a : Z; iv_ar : avl_struct; iv_f : Z; iv_fr : avl_struct
}.

Fixpoint ins_descend (fuel : nat) (f : file) (k : nat) (yb : data) (v : ins_vars)
  : res ins_vars :=
  match fuel with
  | O => Timeout
  | S fuel =>
      let p := iv_p v in
      if 0 <? p then
        pr ← lread f p;
        let v1 := if nb (nk pr k) =? 0 then v
                  else mk_iv p (iv_q v) (iv_qr v) p pr (iv_q v) (iv_qr v) in
        if cmp (Z.of_nat k) yb (b pr) <? 0 then
          ins_descend fuel f k yb
            (mk_iv (nl (nk pr k)) p pr (iv_a v1) (iv_ar v1) (iv_f v1) (iv_fr v1))
        else
          ins_descend fuel f k yb
            (mk_iv (nr (nk pr k)) p pr (iv_a v1) (iv_ar v1) (iv_f v1) (iv_fr v1))
      else Ok v
  end.

(** [while (p != y)]: the nodes between [a] and the new leaf get balance
    +1 or -1 after the side the leaf went to. *)
Fixpoint ins_mark (fuel : nat) (f : file) (k : nat) (yb : data) (y p : Z) : res file :=
  match fuel with
  | O => Timeout
  | S fuel =>
      if p =? y then Ok f
      else
        pr ← lread f p;
        if cmp (Z.of_nat k) yb (b pr) <? 0 then
          f ← lwrite f p (set_kb k 1 pr);
          ins_mark fuel f k yb y (nl (nk pr k))
        else
          f ← lwrite f p (set_kb k (-1) pr);
          ins_mark fuel f k yb y (nr (nk pr k))
  end.

(** The double rotation through [c], the right child of [b], the left
    child of [a] (insert and delete have the same code for it); the result
    is the file, the offset [c] and the record written at [c]. The
    [default:] of the [switch] leaves the balances of [a] and [b] as they
    are. [rot_double_right] is the mirror image. *)
Definition rot_double_left_rec (k : nat) (f : file) (a : Z) (ar : avl_struct) (b_ : Z)
    (br : avl_struct) : res (file * Z * avl_struct) :=
  let c := nr (nk br k) in
  cr ← lread f c;
  let br := if 0 <? nl (nk cr k) then set_kr k (nl (nk cr k)) br
            else set_kr k (- c) br in
  let ar := if 0 <? nr (nk cr k) then set_kl k (nr (nk cr k)) ar
            else set_kl k (- c) ar in
  let cr := set_kl k b_ cr in
  let cr := set_kr k a cr in
  let '(ar, br) :=
    if nb (nk cr k) =? 1 then (set_kb k (-1) ar, set_kb k 0 br)
    else if nb (nk cr k) =? -1 then (set_kb k 0 ar, set_kb k 1 br)
    else if nb (nk cr k) =? 0 then (set_kb k 0 ar, set_kb k 0 br)
    else (ar, br) in
  let cr := set_kb k 0 cr in
  f ← lwrite f a ar;
  f ← lwrite f b_ br;
  f ← lwrite f c cr;
  Ok (f, c, cr).

Definition rot_double_right_rec (k : nat) (f : file) (a : Z) (ar : avl_struct) (b_ : Z)
    (br : avl_struct) : res (file * Z * avl_struct) :=
  let c := nl (nk br k) in
  cr ← lread f c;
  let ar := if 0 <? nl (nk cr k) then set_kr k (nl (nk cr k)) ar
            else set_kr k (- c) ar in
  let br := if 0 <? nr (nk cr k) then set_kl k (nr (nk cr k)) br
            else set_kl k (- c) br in
  let cr := set_kr k b_ cr in
  let cr := set_kl k a cr in
  let '(ar, br) :=
    if nb (nk cr k) =? 1 then (set_kb k 0 ar, set_kb k (-1) br)
    else if nb (nk cr k) =? -1 then (set_kb k 1 ar, set_kb k 0 br)
    else if nb (nk cr k) =? 0 then (set_kb k 0 ar, set_kb k 0 br)
    else (ar, br) in
  let cr := set_kb k 0 cr in
  f ← lwrite f a ar;
  f ← lwrite f b_ br;
  f ← lwrite f c cr;
  Ok (f, c, cr).

Definition rot_double_left (k : nat) (f : file) (a : Z) (ar : avl_struct) (b_ : Z)
    (br : avl_struct) : res (file * Z) :=
  r ← rot_double_left_rec k f a ar b_ br;
  Ok (r.1.1, r.1.2).

Definition rot_double_right (k : nat) (f : file) (a : Z) (ar : avl_struct) (b_ : Z)
    (br : avl_struct) : res (file * Z) :=
  r ← rot_double_right_rec k f a ar b_ br;
  Ok (r.1.1, r.1.2).

(** The rotation at [a] when its left side has grown too high ([d == +1]):
    single when [b] leans to the left, double through [c] otherwise. The
    result is the file and the new root of the subtree. The [default:] of
    the [switch] leaves the balances of [a] and [b] as they are. The
    right-heavy case ([d == -1]) is the mirror image. *)
Definition rot_left_heavy (k : nat) (f : file) (a : Z) (ar : avl_struct) (b_ : Z)
  : res (file * Z) :=
  br ← lread f b_;
  if nb (nk br k) =? 1 then
    let ar := if 0 <? nr (nk br k) then set_kl k (nr (nk br k)) ar
              else set_kl k (- b_) ar in
    let br := set_kr k a br in
    let ar := set_kb k 0 ar in
    let br := set_kb k 0 br in
    f ← lwrite f a ar;
    f ← lwrite f b_ br;
    Ok (f, b_)
  else rot_double_left k f a ar b_ br.

Definition rot_right_heavy (k : nat) (f : file) (a : Z) (ar : avl_struct) (b_ : Z)
  : res (file * Z) :=
  br ← lread f b_;
  if nb (nk br k) =? -1 then
    let ar := if 0 <? nl (nk br k) then set_kr k (nl (nk br k)) ar
              else set_kr k (- b_) ar in
    let br := set_kl k a br in
    let ar := set_kb k 0 ar in
    let br := set_kb k 0 br in
    f ← lwrite f a ar;
    f ← lwrite f b_ br;
    Ok (f, b_)
  else rot_double_right k f a ar b_ br.

(** [unbalanced = 1; if (ar.n[k].b == 0) ...; if ((ar.n[k].b + d) == 0) ...] *)
Definition ins_settle (f : file) (k : nat) (a : Z) (ar : avl_struct) (d : Z)
  : res (file * avl_struct * bool) :=
  '(f, ar, unbalanced) ←
    (if nb (nk ar k) =? 0 then
       f ← lwrite f a (set_kb k d ar);
       Ok (f, set_kb k d ar, false)
     else Ok (f, ar, true));
  if nb (nk ar k) + d =? 0 then
    f ← lwrite f a (set_kb k 0 ar);
    Ok (f, set_kb k 0 ar, false)
  else Ok (f, ar, unbalanced).

(** The end of the body of the loop over the keys: the balance of [a],
    the rotation when [a] is out of balance, and the link from [f_], the
    parent of [a], or the root; [h] is the header in memory. *)
Definition ins_rebalance (f : file) (h : hdr_struct) (k : nat) (a : Z) (ar : avl_struct)
    (d b_ f_ : Z) (fr : avl_struct) : res (file * hdr_struct) :=
  '(f, ar, unbalanced) ← ins_settle f k a ar d;
  if (unbalanced : bool) then
    '(f, b_) ← (if d =? 1 then rot_left_heavy k f a ar b_
                else rot_right_heavy k f a ar b_);
    if f_ =? 0 then Ok (f, set_root k b_ h)
    else
      let fr := if a =? nl (nk fr k) then set_kl k b_ fr
                else if a =? nr (nk fr k) then set_kr k b_ fr
                else fr in
      f ← lwrite f f_ fr;
      Ok (f, h)
  else Ok (f, h).

(** The body of [for (k = 0; k < n_keys; k++)] in insert, for a tree that
    is not empty. *)
Definition ins_key_nonempty (fuel : nat) (f : file) (h : hdr_struct) (y : Z) (k : nat)
    (yr : avl_struct) (a : Z) : res (file * hdr_struct) :=
  ar ← lread f a;
  v ← ins_descend fuel f k (b yr) (mk_iv a 0 uninit a ar 0 uninit);
  let p := iv_p v in
  let q := iv_q v in
  let qr := iv_qr v in
  let a := iv_a v in
  let f_ := iv_f v in
  let fr := iv_fr v in
  let '(yr, qr) :=
    if cmp (Z.of_nat k) (b yr) (b qr) <? 0
    then (set_nk k (mk_node 0 p (- q)) yr, set_kl k y qr)
    else (set_nk k (mk_node 0 (- q) p) yr, set_kr k y qr) in
  f ← lwrite f y yr;
  f ← lwrite f q qr;
  ar ← lread f a;
  let '(p, d) :=
    if cmp (Z.of_nat k) (b yr) (b ar) <? 0 then (nl (nk ar k), 1)
    else (nr (nk ar k), -1) in
  let b_ := p in
  f ← ins_mark fuel f k (b yr) y p;
  ins_rebalance f h k a ar d b_ f_ fr.

Definition ins_key (fuel : nat) (f : file) (h : hdr_struct) (y : Z) (k : nat)
  : res (file * hdr_struct) :=
  yr ← lread f y;
  let a := root_k h k in
  if 0 <? a then ins_key_nonempty fuel f h y k yr a
  else
    f ← lwrite f y (set_nk k (mk_node 0 0 0) yr);
    Ok (f, set_root k y h).

Fixpoint ins_keys (fuel : nat) (f : file) (h : hdr_struct) (y : Z) (ks : list nat)
  : res (file * hdr_struct) :=
  match ks with
  | [] => Ok (f, h)
  | k :: ks =>
      '(f, h) ← ins_key fuel f h y k;
      ins_keys fuel f h y ks
  end.

(** The record for the new data: the first of the empty list, or the end
    of the file; it goes to the head of the sequential list. *)
Definition ins_alloc (f : file) (h : hdr_struct) (y : Z) (buf : data)
  : res (file * hdr_struct) :=
  '(yr, h) ← (if head_empty h =? 0 then Ok (uninit, h)
              else yr ← lread f y; Ok (yr, set_head_empty (next yr) h)
              : res (avl_struct * hdr_struct));
  let yr := set_prev 0 yr in
  let yr := set_next (head_seq h) yr in
  f ← (if 0 <? next yr then
         let p := next yr in
         pr ← lread f p;
         lwrite f p (set_prev y pr)
       else Ok f);
  let h := set_head_seq y h in
  let yr := set_data buf yr in
  f ← lwrite f y yr;
  Ok (f, h).

Definition avl_file_insert (fuel : nat) (f : file) (buf : data) : res (Z * file) :=
  let h := hdr f in
  if wrap64 (n_avl h + 1) <? 0 then Ok (-1, f)
  else
    let y := if head_empty h =? 0 then flen f else head_empty h in
    if (head_empty h =? 0) && (y <? 0) then Ok (-1, f)
    else
      '(f, h) ← ins_alloc f h y buf;
      '(f, h) ← ins_keys fuel f h y (seq 0 n_keys);
      let h := set_n_avl (wrap64 (n_avl h + 1)) h in
      Ok (0, hwrite f h).

(** *** avl_file_delete *)

(** First search: by each key in turn, the first record not less than the
    buffer; it is the target when it has the same key and the same bytes. *)
Definition del_search_key (fuel : nat) (f : file) (h : hdr_struct) (yb : data) (k : nat)
  : res (option (Z * avl_struct)) :=
  a ← ge_descend fuel f k yb (root_k h k);
  if 0 <? a then
    ar ← lread f a;
    if (cmp (Z.of_nat k) yb (b ar) =? 0) && bool_decide (yb = b ar)
    then Ok (Some (a, ar))
    else Ok None
  else Ok None.

Fixpoint del_search_keys (fuel : nat) (f : file) (h : hdr_struct) (yb : data)
    (ks : list nat) : res (option (Z * avl_struct)) :=
  match ks with
  | [] => Ok None
  | k :: ks =>
      r ← del_search_key fuel f h yb k;
      match r with
      | Some x => Ok (Some x)
      | None => del_search_keys fuel f h yb ks
      end
  end.

(** Second search: through the duplicates of key 0. *)
Definition del_search_dups (fuel : nat) (f : file) (h : hdr_struct) (yb : data)
  : res (option (Z * avl_struct)) :=
  if (0 <? n_keys)%nat then
    found ← path_start fuel f h 0 yb
              (λ _ r, all_keys_equal yb r && bool_decide (yb = b r));
    match found with
    | Some (l, pa, par) => Ok (Some (pa l, par l))
    | None => Ok None
    end
  else Ok None.

(** Third search: along the sequential list. *)
Fixpoint del_search_seq (fuel : nat) (f : file) (yb : data) (a : Z)
  : res (option (Z * avl_struct)) :=
  match fuel with
  | O => Timeout
  | S fuel =>
      if 0 <? a then
        ar ← lread f a;
        if bool_decide (yb = b ar) then Ok (Some (a, ar))
        else del_search_seq fuel f yb (next ar)
      else Ok None
  end.

Definition del_search (fuel : nat) (f : file) (h : hdr_struct) (yb : data)
  : res (option (Z * avl_struct)) :=
  r1 ← del_search_keys fuel f h yb (seq 0 n_keys);
  r2 ← match r1 with
       | Some x => Ok (Some x)
       | None => del_search_dups fuel f h yb
       end;
  match r2 with
  | Some x => Ok (Some x)
  | None => del_search_seq fuel f yb (head_seq h)
  end.

(** [ur.n[k].l] and [ur.n[k].r]: the neighbours of [y] by every key. *)
Fixpoint del_neighbours (fuel : nat) (f : file) (yr : avl_struct) (ks : list nat)
  : res (list (Z * Z)) :=
  match ks with
  | [] => Ok []
  | k :: ks =>
      l ← find_prev fuel f k yr;
      r ← find_next fuel f k yr;
      rest ← del_neighbours fuel f yr ks;
      Ok ((l, r) :: rest)
  end.

Definition ur_l (ur : list (Z * Z)) (k : nat) : Z := (ur !!! k).1.
Definition ur_r (ur : list (Z * Z)) (k : nat) : Z := (ur !!! k).2.

(** Advancing the pointers of every handle that point to [y]. *)
Fixpoint advance_keys (y : Z) (ur : list (Z * Z)) (ks : list nat)
    (cpr : avl_struct) (updated : bool) : avl_struct * bool :=
  match ks with
  | [] => (cpr, updated)
  | k :: ks =>
      let '(cpr, updated) :=
        if nl (nk cpr k) =? y then (set_kl k (ur_l ur k) cpr, true)
        else (cpr, updated) in
      let '(cpr, updated) :=
        if nr (nk cpr k) =? y then (set_kr k (ur_r ur k) cpr, true)
        else (cpr, updated) in
      advance_keys y ur ks cpr updated
  end.

Fixpoint del_advance (fuel : nat) (f : file) (y : Z) (yr : avl_struct)
    (ur : list (Z * Z)) (cp : Z) : res file :=
  match fuel with
  | O => Timeout
  | S fuel =>
      if 0 <? cp then
        cpr ← lread f cp;
        let '(cpr, updated) :=
          if prev cpr =? y then (set_prev (next yr) cpr, true) else (cpr, false) in
        let '(cpr, updated) := advance_keys y ur (seq 0 n_keys) cpr updated in
        f ← (if (updated : bool) then lwrite f cp cpr else Ok f);
        del_advance fuel f y yr ur (next cpr)
      else Ok f
  end.

(** The locals that the removal of [y] from one tree works on. *)
Record del_vars : Type := mk_dv {
  dv_f : file; dv_h : hdr_struct; dv_yr : avl_struct;
  dv_l : Z; dv_pa : Z → Z; dv_par : Z → avl_struct
}.

(** [while (par[l].n[k].r > 0) { pa[l+1] = par[l].n[k].r; l++; read }] *)
Fixpoint del_go_right (fuel : nat) (f : file) (k : nat) (l : Z) (pa : Z → Z)
    (par : Z → avl_struct) : res (Z * (Z → Z) * (Z → avl_struct)) :=
  match fuel with
  | O => Timeout
  | S fuel =>
      if 0 <? nr (nk (par l) k) then
        if in_bounds (l + 1) then
          let pa := <[l + 1 := nr (nk (par l) k)]> pa in
          let l := l + 1 in
          r ← lread f (pa l);
          del_go_right fuel f k l pa (<[l := r]> par)
        else Undef
      else Ok (l, pa, par)
  end.

Fixpoint del_go_left (fuel : nat) (f : file) (k : nat) (l : Z) (pa : Z → Z)
    (par : Z → avl_struct) : res (Z * (Z → Z) * (Z → avl_struct)) :=
  match fuel with
  | O => Timeout
  | S fuel =>
      if 0 <? nl (nk (par l) k) then
        if in_bounds (l + 1) then
          let pa := <[l + 1 := nl (nk (par l) k)]> pa in
          let l := l + 1 in
          r ← lread f (pa l);
          del_go_left fuel f k l pa (<[l := r]> par)
        else Undef
      else Ok (l, pa, par)
  end.

(** The end of both replacement cases: the link from the parent of [y],
    or the root. *)
Definition del_relink (k : nat) (y m : Z) (v : del_vars) : res del_vars :=
  let pa := dv_pa v in
  let par := dv_par v in
  if m =? 0 then
    Ok (mk_dv (dv_f v) (set_root k (pa m) (dv_h v)) (dv_yr v) (dv_l v) pa par)
  else
    let pm := if nl (nk (par (m - 1)) k) =? y then set_kl k (pa m) (par (m - 1))
              else set_kr k (pa m) (par (m - 1)) in
    let par := <[m - 1 := pm]> par in
    f ← lwrite (dv_f v) (pa (m - 1)) (par (m - 1));
    Ok (mk_dv f (dv_h v) (dv_yr v) (dv_l v) pa par).

(** [y] has a left subtree: its in-order predecessor takes its place. *)
Definition del_replace_pred (fuel : nat) (k : nat) (y m : Z) (ur : list (Z * Z))
    (v : del_vars) : res del_vars :=
  let f := dv_f v in
  let yr := dv_yr v in
  let l := dv_l v in
  let pa := dv_pa v in
  let par := dv_par v in
  if in_bounds (l + 1) then
    let pa := <[l + 1 := nl (nk (par l) k)]> pa in
    let l := l + 1 in
    r ← lread f (pa l);
    let par := <[l := r]> par in
    '(f, yr, l, pa, par) ←
      (if 0 <? nr (nk (par l) k) then
         '(l, pa, par) ← del_go_right fuel f k l pa par;
         let p1 := if 0 <? nl (nk (par l) k)
                   then set_kr k (nl (nk (par l) k)) (par (l - 1))
                   else set_kr k (- pa l) (par (l - 1)) in
         let p1 := set_kb k (wrap8 (nb (nk p1 k) + 1)) p1 in
         let par := <[l - 1 := p1]> par in
         f ← lwrite f (pa (l - 1)) (par (l - 1));
         Ok (f, yr, l, pa, par)
       else
         let yr := set_kl k (nl (nk (par l) k)) yr in
         let yr := set_kb k (wrap8 (nb (nk yr k) - 1)) yr in
         Ok (f, yr, l, pa, par));
    let pa := <[m := pa l]> pa in
    let par := <[m := par l]> par in
    let l := l - 1 in
    let par := <[m := set_nk k (nk yr k) (par m)]> par in
    f ← lwrite f (pa m) (par m);
    f ← (if 0 <? nr (nk yr k) then
           let sp := ur_r ur k in
           spr ← lread f sp;
           lwrite f sp (set_kl k (- pa m) spr)
         else Ok f);
    del_relink k y m (mk_dv f (dv_h v) yr l pa par)
  else Undef.

(** [y] has a right subtree only: its in-order successor takes its place. *)
Definition del_replace_succ (fuel : nat) (k : nat) (y m : Z) (ur : list (Z * Z))
    (v : del_vars) : res del_vars :=
  let f := dv_f v in
  let yr := dv_yr v in
  let l := dv_l v in
  let pa := dv_pa v in
  let par := dv_par v in
  if in_bounds (l + 1) then
    let pa := <[l + 1 := nr (nk (par l) k)]> pa in
    let l := l + 1 in
    r ← lread f (pa l);
    let par := <[l := r]> par in
    '(f, yr, l, pa, par) ←
      (if 0 <? nl (nk (par l) k) then
         '(l, pa, par) ← del_go_left fuel f k l pa par;
         let p1 := if 0 <? nr (nk (par l) k)
                   then set_kl k (nr (nk (par l) k)) (par (l - 1))
                   else set_kl k (- pa l) (par (l - 1)) in
         let p1 := set_kb k (wrap8 (nb (nk p1 k) - 1)) p1 in
         let par := <[l - 1 := p1]> par in
         f ← lwrite f (pa (l - 1)) (par (l - 1));
         Ok (f, yr, l, pa, par)
       else
         let yr := set_kr k (nr (nk (par l) k)) yr in
         let yr := set_kb k (wrap8 (nb (nk yr k) + 1)) yr in
         Ok (f, yr, l, pa, par));
    let pa := <[m := pa l]> pa in
    let par := <[m := par l]> par in
    let l := l - 1 in
    let par := <[m := set_nk k (nk yr k) (par m)]> par in
    f ← lwrite f (pa m) (par m);
    f ← (if 0 <? nl (nk yr k) then
           let sp := ur_l ur k in
           spr ← lread f sp;
           lwrite f sp (set_kr k (- pa m) spr)
         else Ok f);
    del_relink k y m (mk_dv f (dv_h v) yr l pa par)
  else Undef.

(** [y] has no subtree. *)
Definition del_leaf (k : nat) (y m : Z) (v : del_vars) : res del_vars :=
  let yr := dv_yr v in
  let pa := dv_pa v in
  let par := dv_par v in
  if m =? 0 then
    Ok (mk_dv (dv_f v) (set_root k 0 (dv_h v)) yr (dv_l v - 1) pa par)
  else
    let pm := par (m - 1) in
    let pm :=
      if nl (nk pm k) =? y then
        let pm := set_kl k (nl (nk yr k)) pm in
        set_kb k (wrap8 (nb (nk pm k) - 1)) pm
      else if nr (nk pm k) =? y then
        let pm := set_kr k (nr (nk yr k)) pm in
        set_kb k (wrap8 (nb (nk pm k) + 1)) pm
      else pm in
    let par := <[m - 1 := pm]> par in
    f ← lwrite (dv_f v) (pa (m - 1)) (par (m - 1));
    Ok (mk_dv f (dv_h v) yr (dv_l v - 1) pa par).

Definition del_splice (fuel : nat) (k : nat) (y m : Z) (ur : list (Z * Z))
    (v : del_vars) : res del_vars :=
  let l := dv_l v in
  let par := dv_par v in
  if 0 <? nl (nk (par l) k) then del_replace_pred fuel k y m ur v
  else if 0 <? nr (nk (par l) k) then del_replace_succ fuel k y m ur v
  else del_leaf k y m v.

(** The link from the parent of [a] after a rotation, or the root. *)
Definition reb_relink (k : nat) (f : file) (h : hdr_struct) (a l : Z) (pa : Z → Z)
    (par : Z → avl_struct) : res (file * hdr_struct * (Z → avl_struct)) :=
  if l =? 0 then Ok (f, set_root k (pa l) h, par)
  else
    let pm := par (l - 1) in
    let pm := if nl (nk pm k) =? a then set_kl k (pa l) pm
              else if nr (nk pm k) =? a then set_kr k (pa l) pm
              else pm in
    let par := <[l - 1 := pm]> par in
    f ← lwrite f (pa (l - 1)) (par (l - 1));
    Ok (f, h, par).

(** The rotations of delete. The single rotation also serves a child [b]
    of balance 0, which insertion never meets. *)
Definition reb_rot_left (k : nat) (f : file) (a : Z) (ar : avl_struct)
  : res (file * Z * avl_struct) :=
  let b_ := nl (nk ar k) in
  br ← lread f b_;
  if (nb (nk br k) =? 0) || (nb (nk br k) =? 1) then
    let ar := if 0 <? nr (nk br k) then set_kl k (nr (nk br k)) ar
              else set_kl k (- b_) ar in
    let br := set_kr k a br in
    let '(ar, br) :=
      if nb (nk br k) =? 0 then (set_kb k 1 ar, set_kb k (-1) br)
      else (set_kb k 0 ar, set_kb k 0 br) in
    f ← lwrite f a ar;
    f ← lwrite f b_ br;
    Ok (f, b_, br)
  else rot_double_left_rec k f a ar b_ br.

Definition reb_rot_right (k : nat) (f : file) (a : Z) (ar : avl_struct)
  : res (file * Z * avl_struct) :=
  let b_ := nr (nk ar k) in
  br ← lread f b_;
  if (nb (nk br k) =? 0) || (nb (nk br k) =? -1) then
    let ar := if 0 <? nl (nk br k) then set_kr k (nl (nk br k)) ar
              else set_kr k (- b_) ar in
    let br := set_kl k a br in
    let '(ar, br) :=
      if nb (nk br k) =? 0 then (set_kb k (-1) ar, set_kb k 1 br)
      else (set_kb k 0 ar, set_kb k 0 br) in
    f ← lwrite f a ar;
    f ← lwrite f b_ br;
    Ok (f, b_, br)
  else rot_double_right_rec k f a ar b_ br.

(** [while (l >= 0)]: back up the path, until a subtree keeps its height. *)
Fixpoint del_rebalance (fuel : nat) (k : nat) (f : file) (h : hdr_struct) (l : Z)
    (pa : Z → Z) (par : Z → avl_struct) : res (file * hdr_struct) :=
  match fuel with
  | O => Timeout
  | S fuel =>
      if l <? 0 then Ok (f, h)
      else
        let a := pa l in
        let ar := par l in
        if (nb (nk ar k) =? 1) || (nb (nk ar k) =? -1) then Ok (f, h)
        else if nb (nk ar k) =? 0 then
          '(f, par) ←
            (if 0 <? l then
               let pm := par (l - 1) in
               let pm :=
                 if nl (nk pm k) =? a then set_kb k (wrap8 (nb (nk pm k) - 1)) pm
                 else if nr (nk pm k) =? a then set_kb k (wrap8 (nb (nk pm k) + 1)) pm
                 else pm in
               let par := <[l - 1 := pm]> par in
               f ← lwrite f (pa (l - 1)) (par (l - 1));
               Ok (f, par)
             else Ok (f, par));
          del_rebalance fuel k f h (l - 1) pa par
        else if nb (nk ar k) =? 2 then
          '(f, c, cr) ← reb_rot_left k f a ar;
          let pa := <[l := c]> pa in
          let par := <[l := cr]> par in
          '(f, h, par) ← reb_relink k f h a l pa par;
          del_rebalance fuel k f h l pa par
        else if nb (nk ar k) =? -2 then
          '(f, c, cr) ← reb_rot_right k f a ar;
          let pa := <[l := c]> pa in
          let par := <[l := cr]> par in
          '(f, h, par) ← reb_relink k f h a l pa par;
          del_rebalance fuel k f h l pa par
        else Ok (f, h)
  end.

(** The body of [for (k = 0; k < n_keys; k++)] that takes [y] out of the
    tree of key [k]. When the path to [y] is not found the source goes on
    to the next key. *)
Definition del_key (fuel : nat) (f : file) (h : hdr_struct) (y : Z) (yr : avl_struct)
    (ur : list (Z * Z)) (k : nat) : res (file * hdr_struct * avl_struct) :=
  found ← path_start fuel f h k (b yr) (λ p _, p =? y);
  match found with
  | None => Ok (f, h, yr)
  | Some (l, pa, par) =>
      v ← del_splice fuel k y l ur (mk_dv f h yr l pa par);
      '(f, h) ← del_rebalance fuel k (dv_f v) (dv_h v) (dv_l v) (dv_pa v) (dv_par v);
      Ok (f, h, dv_yr v)
  end.

Fixpoint del_keys (fuel : nat) (f : file) (h : hdr_struct) (y : Z) (yr : avl_struct)
    (ur : list (Z * Z)) (ks : list nat) : res (file * hdr_struct * avl_struct) :=
  match ks with
  | [] => Ok (f, h, yr)
  | k :: ks =>
      '(f, h, yr) ← del_key fuel f h y yr ur k;
      del_keys fuel f h y yr ur ks
  end.

(** [for (i = 0; i < n_keys; i++) { r.n[i].b = v; r.n[i].l = 0; r.n[i].r = 0; }] *)
Definition clear_nodes (v : Z) (r : avl_struct) : avl_struct :=
  foldl (λ r i, set_nk i (mk_node v 0 0) r) r (seq 0 n_keys).

Definition avl_file_delete (fuel : nat) (f : file) (buf : data) : res (Z * file) :=
  let h := hdr f in
  found ← del_search fuel f h buf;
  match found with
  | None => Ok (-1, f)
  | Some (y, yr) =>
      if y =? 0 then Ok (-1, f)
      else
        ur ← del_neighbours fuel f yr (seq 0 n_keys);
        f ← del_advance fuel f y yr ur (head_cpr h);
        '(f, h, yr) ← del_keys fuel f h y yr ur (seq 0 n_keys);
        f ← (if 0 <? next yr then
               let a := next yr in
               ar ← lread f a;
               lwrite f a (set_prev (prev yr) ar)
             else Ok f);
        '(f, h) ←
          (if head_seq h =? y then Ok (f, set_head_seq (next yr) h)
           else
             let a := prev yr in
             ar ← lread f a;
             f ← lwrite f a (set_next (next yr) ar);
             Ok (f, h));
        let yr := set_next (head_empty h) yr in
        let h := set_head_empty y h in
        let yr := set_prev 0 yr in
        let yr := clear_nodes 64 yr in
        f ← lwrite f y yr;
        let h := set_n_avl (wrap64 (n_avl h - 1)) h in
        Ok (0, hwrite f h)
  end.

(** *** avl_file_scan

    The recursion of the source on the subtree at [sp > 0], which returns
    its height and counts its records, and the whole function, whose call
    with [sp == 0] scans the tree from its root. [emsg] is the number of
    the message that the checks of the function leave in the environment
    ([setenv (AVL_FILE_EMSG_VNAME, ...)]): 51 for a balance that is not
    the difference of the heights, 50 for a count other than LiveCount,
    110 for a key index out of bounds. The heights are [int32_t]
    ([wrap32]). *)
Fixpoint scan_from (fuel : nat) (f : file) (k : nat) (sp : Z) (count : Z)
    (emsg : option Z) : res (Z * Z * option Z) :=
  match fuel with
  | O => Timeout
  | S fuel =>
      if 0 <? sp then
        sr ← lread f sp;
        let count := wrap64 (count + 1) in
        '(hl, count, emsg) ←
          (if 0 <? nl (nk sr k) then
             '(h', c, e) ← scan_from fuel f k (nl (nk sr k)) count emsg;
             Ok (wrap32 (1 + h'), c, e)
           else Ok (1, count, emsg));
        '(hr, count, emsg) ←
          (if 0 <? nr (nk sr k) then
             '(h', c, e) ← scan_from fuel f k (nr (nk sr k)) count emsg;
             Ok (wrap32 (1 + h'), c, e)
           else Ok (1, count, emsg));
        let emsg := if nb (nk sr k) =? hl - hr then emsg else Some 51 in
        Ok (Z.max hl hr, count, emsg)
      else Ok (0, count, emsg)
  end.

Definition avl_file_scan (fuel : nat) (f : file) (k : Z) (sp : Z) (count : Z)
    (emsg : option Z) : res (Z * Z * option Z) :=
  if key_out_of_bounds k then Ok (-1, count, Some 110)
  else
    let k := Z.to_nat k in
    if sp =? 0 then
      '(h, count, emsg) ←
        (if 0 <? root_k (hdr f) k then scan_from fuel f k (root_k (hdr f) k) count emsg
         else Ok (0, count, emsg));
      let emsg := if count =? n_avl (hdr f) then emsg else Some 50 in
      Ok (h, count, emsg)
    else scan_from fuel f k sp count emsg.

(** *** avl_file_open

    [fo] is the file found ([None] when it is empty or new), [pid] the
    caller's process ID and [unlocked cp] the outcome of
    [lockf (fd, F_TEST, reclen) == 0] at [cp]. The result is [None] for a
    [NULL] return, else the offset of the handle's current-pointer record
    ([avl_fp->cpr]) and the file. *)

(** The search for a current-pointer record left behind by another
    process; the result is [cp] and [cpr] at the end of the [for]. *)
Fixpoint open_find_cpr (fuel : nat) (f : file) (pid : Z) (unlocked : Z → bool)
    (cp : Z) (cpr : avl_struct) : res (Z * avl_struct) :=
  match fuel with
  | O => Timeout
  | S fuel =>
      if 0 <? cp then
        cpr ← lread f cp;
        if pid_fits && negb (has_pid pid (b cpr)) && unlocked cp then Ok (cp, cpr)
        else open_find_cpr fuel f pid unlocked (next cpr) cpr
      else Ok (cp, cpr)
  end.

Definition new_hdr : hdr_struct :=
  mk_hdr (Z.of_nat n_keys) len reclen 0 0 (replicate n_keys 0) 0 0 0.

Definition avl_file_open (fuel : nat) (fo : option file) (pid : Z) (unlocked : Z → bool)
  : res (option (Z * file)) :=
  let f := match fo with
           | Some f => f
           | None => mk_file new_hdr ∅ hdr_size
           end in
  let h := hdr f in
  if negb (h_reclen h =? reclen) then Ok None
  else if negb (h_n_keys h =? Z.of_nat n_keys) then Ok None
  else
    '(cp, cpr) ← open_find_cpr fuel f pid unlocked (head_cpr h) uninit;
    '(cp, cpr, h) ←
      (if cp =? 0 then
         '(cp, cpr, h) ←
           (if head_empty h =? 0 then Ok (flen f, cpr, h)
            else
              cpr ← lread f (head_empty h);
              Ok (head_empty h, cpr, set_head_empty (next cpr) h)
            : res (Z * avl_struct * hdr_struct));
         Ok (cp, set_next (head_cpr h) cpr, set_head_cpr cp h)
       else Ok (cp, cpr, h));
    let cpr := clear_nodes 32 cpr in
    let cpr := if pid_fits then set_data (put_pid pid (b cpr)) cpr else cpr in
    let cpr := set_prev 0 cpr in
    f ← lwrite f cp cpr;
    Ok (Some (cp, hwrite f h)).

(** *** avl_file_close *)

(** [for (sp = hdr.head_cpr; sp > 0; sp = spr.next)], which takes [cp] out
    of the list that starts at [sp]. *)
Fixpoint unlink_cpr (fuel : nat) (f : file) (cp : Z) (nxt : Z) (sp : Z) : res file :=
  match fuel with
  | O => Timeout
  | S fuel =>
      if 0 <? sp then
        spr ← lread f sp;
        if next spr =? cp then lwrite f sp (set_next nxt spr)
        else unlink_cpr fuel f cp nxt (next spr)
      else Ok f
  end.

Definition avl_file_close (fuel : nat) (cp : Z) (f : file) : res file :=
  let h := hdr f in
  cpr ← lread f cp;
  '(f, h) ←
    (if head_cpr h =? cp then Ok (f, set_head_cpr (next cpr) h)
     else
       f ← unlink_cpr fuel f cp (next cpr) (head_cpr h);
       Ok (f, h));
  let cpr := clear_nodes 64 cpr in
  let cpr := set_next (head_empty h) cpr in
  let h := set_head_empty cp h in
  f ← lwrite f cp cpr;
  Ok (hwrite f h).

(** *** avl_file_squash *)

(** The first loop: current-pointer records of other processes that are
    not locked go to the empty list. [sp] is the last record kept. *)
Fixpoint sq_reap (fuel : nat) (f : file) (h : hdr_struct) (pid : Z)
    (unlocked : Z → bool) (sp cp : Z) : res (file * hdr_struct) :=
  match fuel with
  | O => Timeout
  | S fuel =>
      if 0 <? cp then
        cpr ← lread f cp;
        if pid_fits && negb (has_pid pid (b cpr)) && unlocked cp then
          '(f, h) ←
            (if 0 <? sp then
               spr ← lread f sp;
               f ← lwrite f sp (set_next (next cpr) spr);
               Ok (f, h)
             else Ok (f, set_head_cpr (next cpr) h));
          let ar := clear_nodes 64 cpr in
          let ar := set_next (head_empty h) ar in
          let h := set_head_empty cp h in
          f ← lwrite f cp ar;
          sq_reap fuel f h pid unlocked sp (next cpr)
        else sq_reap fuel f h pid unlocked cp (next cpr)
      else Ok (f, h)
  end.

(** The scan of the empty list for its lowest record [b] and its highest
    record [q], with their predecessors [a] and [p] in the list. *)
Record sq_scan : Type := mk_sq {
  sq_a : Z; sq_ar : avl_struct; sq_b : Z; sq_br : avl_struct;
  sq_p : Z; sq_pr : avl_struct; sq_q : Z; sq_qr : avl_struct;
  sq_y : Z; sq_yr : avl_struct
}.

Fixpoint sq_minmax (fuel : nat) (f : file) (sp : Z) (v : sq_scan) : res sq_scan :=
  match fuel with
  | O => Timeout
  | S fuel =>
      if 0 <? sp then
        spr ← lread f sp;
        let v := if sp <=? sq_b v
                 then mk_sq (sq_y v) (sq_yr v) sp spr (sq_p v) (sq_pr v) (sq_q v) (sq_qr v)
                            (sq_y v) (sq_yr v)
                 else v in
        let v := if sq_q v <=? sp
                 then mk_sq (sq_a v) (sq_ar v) (sq_b v) (sq_br v) (sq_y v) (sq_yr v) sp spr
                            (sq_y v) (sq_yr v)
                 else v in
        sq_minmax fuel f (next spr)
          (mk_sq (sq_a v) (sq_ar v) (sq_b v) (sq_br v) (sq_p v) (sq_pr v) (sq_q v) (sq_qr v)
                 sp spr)
      else Ok v
  end.

(** Taking the lowest empty record [b] off the empty list. *)
Definition sq_take_low (f : file) (h : hdr_struct) (v : sq_scan) : res (file * hdr_struct) :=
  if 0 <? sq_a v then
    f ← lwrite f (sq_a v) (set_next (next (sq_br v)) (sq_ar v));
    Ok (f, h)
  else Ok (f, set_head_empty (next (sq_br v)) h).

(** [for (cp = hdr.head_cpr; cp > 0; cp = cpr.next) { read; if (y == cp) break; }];
    the result is [cp] at the end. *)
Fixpoint sq_is_cpr (fuel : nat) (f : file) (y cp : Z) : res Z :=
  match fuel with
  | O => Timeout
  | S fuel =>
      if 0 <? cp then
        cpr ← lread f cp;
        if y =? cp then Ok cp
        else sq_is_cpr fuel f y (next cpr)
      else Ok cp
  end.

(** The move of the tree node [y] to [b], key by key: the link from its
    parent (or the root) and the two threads that point to it. *)
Definition sq_move_key (fuel : nat) (f : file) (h : hdr_struct) (y b_ : Z)
    (yr : avl_struct) (k : nat) : res (file * hdr_struct) :=
  found ← path_start fuel f h k (b yr) (λ p _, p =? y);
  match found with
  | None => Ok (f, h)
  | Some (l, pa, par) =>
      '(f, h) ←
        (if 0 <? l then
           let pm := if nl (nk (par (l - 1)) k) =? y then set_kl k b_ (par (l - 1))
                     else set_kr k b_ (par (l - 1)) in
           f ← lwrite f (pa (l - 1)) pm;
           Ok (f, h)
         else Ok (f, set_root k b_ h));
      f ← (let sp := nl (nk yr k) in
           if 0 <? sp then
             spr ← lread f sp;
             '(sp, spr) ← walk_right fuel f k sp spr;
             lwrite f sp (set_kr k (- b_) spr)
           else Ok f);
      f ← (let sp := nr (nk yr k) in
           if 0 <? sp then
             spr ← lread f sp;
             '(sp, spr) ← walk_left fuel f k sp spr;
             lwrite f sp (set_kl k (- b_) spr)
           else Ok f);
      Ok (f, h)
  end.

Fixpoint sq_move_keys (fuel : nat) (f : file) (h : hdr_struct) (y b_ : Z)
    (yr : avl_struct) (ks : list nat) : res (file * hdr_struct) :=
  match ks with
  | [] => Ok (f, h)
  | k :: ks =>
      '(f, h) ← sq_move_key fuel f h y b_ yr k;
      sq_move_keys fuel f h y b_ yr ks
  end.

(** The pointers of every handle that point to [y] now point to [b]. *)
Fixpoint sq_repoint (fuel : nat) (f : file) (y b_ : Z) (cp : Z) : res file :=
  match fuel with
  | O => Timeout
  | S fuel =>
      if 0 <? cp then
        cpr ← lread f cp;
        let '(cpr, updated) :=
          if prev cpr =? y then (set_prev b_ cpr, true) else (cpr, false) in
        let '(cpr, updated) :=
          advance_keys y (replicate n_keys (b_, b_)) (seq 0 n_keys) cpr updated in
        f ← (if (updated : bool) then lwrite f cp cpr else Ok f);
        sq_repoint fuel f y b_ (next cpr)
      else Ok f
  end.

(** One turn of [while (hdr.head_empty > 0)]; the result says whether the
    loop goes on ([true]) or was left by [break]. [cpr0] is [avl_fp->cpr].
    The records [ar], [pr] and [yr] of the scan are not assigned before
    it; they are only read when [a], [p] or [y] are set. [ftruncate] is
    taken to succeed. *)
Definition sq_turn (fuel : nat) (f : file) (h : hdr_struct) (cpr0 : Z)
  : res (bool * Z * file * hdr_struct) :=
  let f := hwrite f h in
  v ← sq_minmax fuel f (head_empty h)
        (mk_sq 0 uninit (head_empty h) uninit 0 uninit (head_empty h) uninit 0 uninit);
  let y := flen f - reclen in
  yr ← lread f y;
  if y =? sq_q v then
    '(f, h) ←
      (if 0 <? sq_p v then
         f ← lwrite f (sq_p v) (set_next (next (sq_qr v)) (sq_pr v));
         Ok (f, h)
       else Ok (f, set_head_empty (next (sq_qr v)) h));
    Ok (true, cpr0, truncate f y, h)
  else if y =? cpr0 then
    '(f, h) ←
      (if head_cpr h =? y then Ok (f, set_head_cpr (next yr) h)
       else
         f ← unlink_cpr fuel f y (next yr) (head_cpr h);
         Ok (f, h));
    '(f, h) ← sq_take_low f h v;
    let br := set_next (head_cpr h) yr in
    let h := set_head_cpr (sq_b v) h in
    f ← lwrite f (sq_b v) br;
    Ok (true, sq_b v, truncate f y, h)
  else
    stop ←
      (if (n_keys =? 0)%nat then
         cp ← sq_is_cpr fuel f y (head_cpr h);
         Ok (y =? cp)
       else Ok (1 <? Z.abs (nb (nk yr 0))));
    if (stop : bool) then Ok (false, cpr0, f, h)
    else
      '(f, h) ← sq_take_low f h v;
      let b_ := sq_b v in
      f ← lwrite f b_ yr;
      r1 ←
        (if 0 <? next yr then
           let z := next yr in
           zr ← lread f z;
           if negb (prev zr =? y) then Ok (false, f)
           else
             f ← lwrite f z (set_prev b_ zr);
             Ok (true, f)
         else Ok (true, f));
      let '(go, f) := r1 in
      if negb go then Ok (false, cpr0, f, h)
      else
        r2 ←
          (if 0 <? prev yr then
             let z := prev yr in
             zr ← lread f z;
             if negb (next zr =? y) then Ok (false, f, h)
             else
               f ← lwrite f z (set_next b_ zr);
               Ok (true, f, h)
           else Ok (true, f, set_head_seq b_ h));
        let '(go, f, h) := r2 in
        if negb go then Ok (false, cpr0, f, h)
        else
          '(f, h) ← sq_move_keys fuel f h y b_ yr (seq 0 n_keys);
          f ← sq_repoint fuel f y b_ (head_cpr h);
          Ok (true, cpr0, truncate f y, h).

Fixpoint sq_loop (fuel : nat) (fuel' : nat) (f : file) (h : hdr_struct) (cpr0 : Z)
  : res (Z * file * hdr_struct) :=
  match fuel with
  | O => Timeout
  | S fuel =>
      if 0 <? head_empty h then
        '(go, cpr0, f, h) ← sq_turn fuel' f h cpr0;
        if (go : bool) then sq_loop fuel fuel' f h cpr0
        else Ok (cpr0, f, h)
      else Ok (cpr0, f, h)
  end.

(** The result is the new value of [avl_fp->cpr] and the file. *)
Definition avl_file_squash (fuel : nat) (cpr0 : Z) (pid : Z) (unlocked : Z → bool)
    (f : file) : res (Z * file) :=
  '(f, h) ← sq_reap fuel f (hdr f) pid unlocked 0 (head_cpr (hdr f));
  '(cpr0, f, h) ← sq_loop fuel fuel f h cpr0;
  Ok (cpr0, hwrite f h).

(** [n] calls of getnum in a row: the values returned, and the file. *)
Fixpoint getnums (n : nat) (f : file) : list Z * file :=
  match n with
  | O => ([], f)
  | S n =>
      let '(v, f) := avl_file_getnum f in
      let '(vs, f) := getnums n f in
      (v :: vs, f)
  end.

(** The numbers [m + 1, ..., m + n]. *)
Fixpoint count_from (m : Z) (n : nat) : list Z :=
  match n with
  | O => []
  | S n => (m + 1) :: count_from (m + 1) n
  end.

(** ** The processes that hold the file open

    A handle is the process that opened the file and the offset of its
    current-pointer record ([avl_fp->cpr]), which the process keeps locked
    as long as the handle is open. [F_TEST] by process [pid] succeeds on a
    record that no other process has locked. *)
Record handle : Type := mk_handle { h_pid : Z; h_cpr : Z }.

#[global] Instance handle_eq_dec : EqDecision handle.
Proof. solve_decision. Defined.

Definition lock_free (hs : list handle) (pid : Z) (cp : Z) : bool :=
  forallb (λ h, negb (h_cpr h =? cp) || (h_pid h =? pid)) hs.

Record sys : Type := mk_sys { s_file : file; s_handles : list handle }.

(** The states that calls of the public functions lead to, from the
    creation of the file on. A process may end without closing its
    handles ([reach_exit]). [avl_file_scan], [avl_file_lock],
    [avl_file_unlock] and [avl_file_dump] do not write to the file. *)
Inductive reachable : sys → Prop :=
| reach_create fuel pid cp f :
    avl_file_open fuel None pid (λ _, true) = Ok (Some (cp, f)) →
    reachable (mk_sys f [mk_handle pid cp])
| reach_open s fuel pid cp f :
    reachable s →
    avl_file_open fuel (Some (s_file s)) pid (lock_free (s_handles s) pid)
      = Ok (Some (cp, f)) →
    reachable (mk_sys f (mk_handle pid cp :: s_handles s))
| reach_close s fuel h f :
    reachable s → h ∈ s_handles s →
    avl_file_close fuel (h_cpr h) (s_file s) = Ok f →
    reachable (mk_sys f (filter (λ h', h' ≠ h) (s_handles s)))
| reach_exit s pid :
    reachable s →
    reachable (mk_sys (s_file s) (filter (λ h, h_pid h ≠ pid) (s_handles s)))
| reach_getnum s h :
    reachable s → h ∈ s_handles s →
    reachable (mk_sys (avl_file_getnum (s_file s)).2 (s_handles s))
| reach_startseq s h f :
    reachable s → h ∈ s_handles s →
    avl_file_startseq (h_cpr h) (s_file s) = Ok f →
    reachable (mk_sys f (s_handles s))
| reach_readseq s h buf ret buf' f :
    reachable s → h ∈ s_handles s →
    avl_file_readseq (h_cpr h) (s_file s) buf = Ok (ret, buf', f) →
    reachable (mk_sys f (s_handles s))
| reach_insert s fuel h buf ret f :
    reachable s → h ∈ s_handles s →
    avl_file_insert fuel (s_file s) buf = Ok (ret, f) →
    reachable (mk_sys f (s_handles s))
| reach_delete s fuel h buf ret f :
    reachable s → h ∈ s_handles s →
    avl_file_delete fuel (s_file s) buf = Ok (ret, f) →
    reachable (mk_sys f (s_handles s))
| reach_update s fuel h buf ret f :
    reachable s → h ∈ s_handles s →
    avl_file_update fuel (s_file s) buf = Ok (ret, f) →
    reachable (mk_sys f (s_handles s))
| reach_startlt s fuel h buf k ret buf' f :
    reachable s → h ∈ s_handles s →
    avl_file_startlt fuel (h_cpr h) (s_file s) buf k = Ok (ret, buf', f) →
    reachable (mk_sys f (s_handles s))
| reach_startge s fuel h buf k ret buf' f :
    reachable s → h ∈ s_handles s →
    avl_file_startge fuel (h_cpr h) (s_file s) buf k = Ok (ret, buf', f) →
    reachable (mk_sys f (s_handles s))
| reach_next s fuel h buf k ret buf' f :
    reachable s → h ∈ s_handles s →
    avl_file_next fuel (h_cpr h) (s_file s) buf k = Ok (ret, buf', f) →
    reachable (mk_sys f (s_handles s))
| reach_prev s fuel h buf k ret buf' f :
    reachable s → h ∈ s_handles s →
    avl_file_prev fuel (h_cpr h) (s_file s) buf k = Ok (ret, buf', f) →
    reachable (mk_sys f (s_handles s))
| reach_find s fuel h buf k ret buf' f :
    reachable s → h ∈ s_handles s →
    avl_file_find fuel (h_cpr h) (s_file s) buf k = Ok (ret, buf', f) →
    reachable (mk_sys f (s_handles s))
| reach_squash s fuel h cp f :
    reachable s → h ∈ s_handles s →
    avl_file_squash fuel (h_cpr h) (h_pid h) (lock_free (s_handles s) (h_pid h))
                    (s_file s) = Ok (cp, f) →
    reachable (mk_sys f (mk_handle (h_pid h) cp :: filter (λ h', h' ≠ h) (s_handles s))).

(** ** The trees behind the records

    The tree of one key, as it is laid out in the file: every node is the
    offset of a record, with the balance stored for the key and the
    payload of the record. *)
Inductive tree : Type :=
| E
| T (l : tree) (x : Z) (bal : Z) (d : data) (r : tree).

Fixpoint nodes (t : tree) : list Z :=
  match t with
  | E => []
  | T l x _ _ r => nodes l ++ x :: nodes r
  end.

Fixpoint pays (t : tree) : list data :=
  match t with
  | E => []
  | T l _ _ d r => pays l ++ d :: pays r
  end.

Fixpoint height (t : tree) : Z :=
  match t with
  | E => 0
  | T l _ _ _ r => 1 + Z.max (height l) (height r)
  end.

Fixpoint avl (t : tree) : Prop :=
  match t with
  | E => True
  | T l _ bal _ r => bal = height l - height r ∧ -1 ≤ bal ≤ 1 ∧ avl l ∧ avl r
  end.

(** The child field that stands for the subtree [t]: its root, or the
    negated offset [thr] of the in-order neighbour when it is empty. *)
Definition link (t : tree) (thr : Z) : Z :=
  match t with
  | E => - thr
  | T _ x _ _ _ => x
  end.

(** What the file holds at [x] for key [k]. *)
Definition view (f : file) (k : nat) (x : Z) : option (avl_node_struct * data) :=
  (λ s, (nk s k, b s)) <$> slots f !! x.

(** [repr S lo hi t]: the records hold the tree [t], whose in-order
    neighbours on the left and on the right are [lo] and [hi] (0 for
    none). *)
Fixpoint repr (S : Z → option (avl_node_struct * data)) (lo hi : Z) (t : tree) : Prop :=
  match t with
  | E => True
  | T l x bal d r =>
      S x = Some (mk_node bal (link l lo) (link r hi), d) ∧
      repr S lo x l ∧ repr S x hi r
  end.

Definition kle (k : nat) (a c : data) : Prop := cmp (Z.of_nat k) a c ≤ 0.

Definition sorted (k : nat) (t : tree) : Prop := StronglySorted (kle k) (pays t).

(** The lists through the [next] fields, and the sequential list with
    its [prev] fields. *)
Fixpoint chain (f : file) (p : Z) (L : list Z) : Prop :=
  match L with
  | [] => p = 0
  | x :: L => p = x ∧ ∃ s, slots f !! x = Some s ∧ chain f (next s) L
  end.

Fixpoint dchain (f : file) (pv p : Z) (L : list Z) : Prop :=
  match L with
  | [] => p = 0
  | x :: L => p = x ∧ ∃ s, slots f !! x = Some s ∧ prev s = pv ∧ dchain f x (next s) L
  end.

(** ** The invariant of the file

    [Ls], [Lf] and [Lc] are the tree records in the order of the
    sequential list, the empty records and the current-pointer records;
    [ts k] is the tree of key [k]. *)
Record lists_ok (f : file) (h : hdr_struct) (hs : list handle) (Ls Lf Lc : list Z)
  : Prop := mk_lists_ok {
  lo_nkeys : h_n_keys h = Z.of_nat n_keys;
  lo_reclen : h_reclen h = reclen;
  lo_roots : length (root h) = n_keys;
  lo_geom : ∃ N : nat,
      flen f = hdr_size + Z.of_nat N * reclen ∧
      ∀ x, is_Some (slots f !! x) ↔
           ∃ i : nat, (i < N)%nat ∧ x = hdr_size + Z.of_nat i * reclen;
  lo_nlen : ∀ x s, slots f !! x = Some s → length (n s) = n_keys;
  lo_seq : dchain f 0 (head_seq h) Ls;
  lo_empty : chain f (head_empty h) Lf;
  lo_cpr : chain f (head_cpr h) Lc;
  lo_nodup : NoDup (Ls ++ Lf ++ Lc);
  lo_cover : ∀ x, is_Some (slots f !! x) ↔ x ∈ Ls ++ Lf ++ Lc;
  lo_tags : ∀ c s, c ∈ Lc → slots f !! c = Some s → (0 < n_keys)%nat →
      nb (nk s 0) = 32;
  lo_handles : NoDup (h_cpr <$> hs) ∧
      ∀ h, h ∈ hs →
           h_cpr h ∈ Lc ∧
           (pid_fits = true → ∀ s, slots f !! h_cpr h = Some s →
                              has_pid (h_pid h) (b s) = true)
}.

Record inv_with (f : file) (hs : list handle) (Ls Lf Lc : list Z) (ts : nat → tree)
  : Prop := mk_inv {
  iw_lists : lists_ok f (hdr f) hs Ls Lf Lc;
  iw_count : n_avl (hdr f) = Z.of_nat (length Ls) ∧ Z.of_nat (length Ls) < 2 ^ 63;
  iw_trees : ∀ k, (k < n_keys)%nat →
      repr (view f k) 0 0 (ts k) ∧ root_k (hdr f) k = link (ts k) 0 ∧
      nodes (ts k) ≡ₚ Ls ∧ avl (ts k) ∧ sorted k (ts k)
}.

Definition Inv (s : sys) : Prop :=
  ∃ Ls Lf Lc ts, inv_with (s_file s) (s_handles s) Ls Lf Lc ts.

(** Fuel that lets every loop on the file run to its end. *)
Definition enough (f : file) (fuel : nat) : Prop :=
  (3 * size (slots f) + 8 ≤ fuel)%nat.

(** * Properties *)

Lemma wrap64_small x : - 2 ^ 63 ≤ x < 2 ^ 63 → wrap64 x = x.
Proof.
  intros Hx. unfold wrap64.
  rewrite Z.mod_small by lia. lia.
Qed.

Lemma getnums_nextnum (n : nat) (f : file) :
  - 2 ^ 63 ≤ nextnum (hdr f) →
  nextnum (hdr f) + Z.of_nat n < 2 ^ 63 →
  (getnums n f).1 = count_from (nextnum (hdr f)) n ∧
  nextnum (hdr (getnums n f).2) = nextnum (hdr f) + Z.of_nat n ∧
  slots (getnums n f).2 = slots f ∧ flen (getnums n f).2 = flen f.
Proof.
  revert f. induction n as [|n IH]; intros f Hlo Hhi; simpl.
  - repeat split; lia.
  - specialize (IH (avl_file_getnum f).2).
    simpl in IH. rewrite wrap64_small in IH by lia.
    destruct IH as (IH1 & IH2 & IH3 & IH4); [lia | lia |].
    rewrite wrap64_small by lia.
    destruct (getnums n _) as [vs f'] eqn:E. simpl in *.
    repeat split; [by rewrite IH1 | lia | done | done].
Qed.

Lemma close_nextnum fuel cp (f f' : file) :
  avl_file_close fuel cp f = Ok f' →
  nextnum (hdr f') = nextnum (hdr f).
Proof.
  unfold avl_file_close. intros Hc.
  destruct (lread f cp) as [cpr| | |]; simpl in Hc; try discriminate.
  destruct (head_cpr (hdr f) =? cp); simpl in Hc.
  - destruct (lwrite f cp _) as [f1| | |]; simpl in Hc; try discriminate.
    by inversion Hc.
  - destruct (unlink_cpr _ _ _ _ _) as [f1| | |]; simpl in Hc; try discriminate.
    destruct (lwrite f1 cp _) as [f2| | |]; simpl in Hc; try discriminate.
    by inversion Hc.
Qed.

Lemma open_nextnum fuel pid unlocked cp (f f' : file) :
  avl_file_open fuel (Some f) pid unlocked = Ok (Some (cp, f')) →
  nextnum (hdr f') = nextnum (hdr f).
Proof.
  unfold avl_file_open. intros Ho.
  destruct (negb (h_reclen (hdr f) =? reclen)); [discriminate|].
  destruct (negb (h_n_keys (hdr f) =? Z.of_nat n_keys)); [discriminate|].
  destruct (open_find_cpr _ _ _ _ _ _) as [[cp1 cpr1]| | |]; simpl in Ho;
    try discriminate.
  destruct (cp1 =? 0); simpl in Ho.
  - destruct (head_empty (hdr f) =? 0); simpl in Ho.
    + destruct (lwrite _ _ _) as [f1| | |]; simpl in Ho; try discriminate.
      by inversion Ho.
    + destruct (lread f (head_empty (hdr f))) as [r| | |]; simpl in Ho; try discriminate.
      destruct (lwrite _ _ _) as [f1| | |]; simpl in Ho; try discriminate.
      by inversion Ho.
  - destruct (lwrite _ _ _) as [f1| | |]; simpl in Ho; try discriminate.
    by inversion Ho.
Qed.

(** C8, as the code has it: from a file whose NextNumber is [m], [n1]
    calls of getnum, a close, an open and [n2] further calls return
    [m + 1, ..., m + n1 + n2], as long as the counter stays below 2^63. *)
Theorem getnum_consecutive (n1 n2 : nat) (f f1 f2 : file)
    fuel cp fuel' pid unlocked cp' :
  - 2 ^ 63 ≤ nextnum (hdr f) →
  nextnum (hdr f) + Z.of_nat n1 + Z.of_nat n2 < 2 ^ 63 →
  avl_file_close fuel cp (getnums n1 f).2 = Ok f1 →
  avl_file_open fuel' (Some f1) pid unlocked = Ok (Some (cp', f2)) →
  (getnums n1 f).1 ++ (getnums n2 f2).1
  = count_from (nextnum (hdr f)) (n1 + n2).
Proof.
  intros Hlo Hhi Hc Ho.
  destruct (getnums_nextnum n1 f) as (E1 & E2 & _); [lia | lia |].
  apply close_nextnum in Hc. apply open_nextnum in Ho.
  destruct (getnums_nextnum n2 f2) as (E3 & _); [lia | lia |].
  rewrite E1, E3, Ho, Hc, E2.
  clear. generalize (nextnum (hdr f)) as m.
  induction n1 as [|n1 IH]; intros m; simpl.
  - by replace (m + Z.of_nat 0) with m by lia.
  - f_equal. rewrite <- IH. do 2 f_equal. lia.
Qed.

(** The sizes are positive, an automatic record has [n_keys] nodes, the
    process ID written into a payload is the one read back, and the
    comparison callback is the sign of a total preorder for every key. *)
Hypothesis reclen_pos : 0 < reclen.
Hypothesis hdr_size_pos : 0 < hdr_size.
Hypothesis uninit_nodes : (length (n uninit) =? n_keys)%nat = true.
Hypothesis has_put_pid : ∀ p d, has_pid p (put_pid p d) = true.
Hypothesis cmp_refl : ∀ k a, cmp k a a = 0.
Hypothesis cmp_sym : ∀ k a c, cmp k a c < 0 ↔ 0 < cmp k c a.
Hypothesis cmp_trans : ∀ k a c e, cmp k a c ≤ 0 → cmp k c e ≤ 0 → cmp k a e ≤ 0.


(** ** Records and their fields *)

Lemma nk_set_nk_eq k x s : (k < length (n s))%nat → nk (set_nk k x s) k = x.
Proof.
  intros Hk. unfold nk, set_nk. simpl.
  by rewrite list_lookup_total_insert_eq.
Qed.

Lemma nk_set_nk_ne k j x s : j ≠ k → nk (set_nk k x s) j = nk s j.
Proof.
  intros Hk. unfold nk, set_nk. simpl.
  by rewrite list_lookup_total_insert_ne.
Qed.

Lemma length_set_nk k x s : length (n (set_nk k x s)) = length (n s).
Proof. unfold set_nk. simpl. apply length_insert. Qed.

(** Two records that differ at most in their node for key [k]. *)
Definition eqv (k : nat) (s s' : avl_struct) : Prop :=
  prev s = prev s' ∧ next s = next s' ∧ b s = b s' ∧
  length (n s) = length (n s') ∧ ∀ j, j ≠ k → n s !! j = n s' !! j.

Lemma eqv_refl k s : eqv k s s.
Proof. by repeat split. Qed.

Lemma eqv_sym k s s' : eqv k s s' → eqv k s' s.
Proof.
  intros (? & ? & ? & ? & Hj). repeat split; try done.
  intros j Hne. by rewrite Hj.
Qed.

Lemma eqv_trans k s1 s2 s3 : eqv k s1 s2 → eqv k s2 s3 → eqv k s1 s3.
Proof.
  intros (? & ? & ? & ? & Hj) (? & ? & ? & ? & Hj'). repeat split; try congruence.
  intros j Hne. rewrite Hj by done. by apply Hj'.
Qed.

Lemma eqv_set_nk k x s : eqv k s (set_nk k x s).
Proof.
  repeat split; simpl; try done.
  - by rewrite length_insert.
  - intros j Hne. by rewrite list_lookup_insert_ne.
Qed.

Lemma eqv_set_nk_l k x s s' : eqv k s s' → eqv k (set_nk k x s) s'.
Proof. intros He. eapply eqv_trans; [apply eqv_sym, eqv_set_nk | done]. Qed.

Lemma eqv_nk k j s s' : eqv k s s' → j ≠ k → nk s j = nk s' j.
Proof.
  intros (_ & _ & _ & _ & Hj) Hne. unfold nk.
  rewrite !list_lookup_total_alt. by rewrite Hj.
Qed.

(** ** Reading and writing records of a well-formed file *)

(** Every record lies after the header and within the file, and has
    [n_keys] nodes. *)
Definition fwf (f : file) : Prop :=
  ∀ x s, slots f !! x = Some s →
         0 < x ∧ x + reclen ≤ flen f ∧ length (n s) = n_keys.

(** The file with the record at [x] replaced. *)
Definition upd (f : file) (x : Z) (s : avl_struct) : file :=
  mk_file (hdr f) (<[x := s]> (slots f)) (flen f).

Lemma lread_ok f x s : fwf f → slots f !! x = Some s → lread f x = Ok s.
Proof.
  intros Hf Hx. unfold lread. rewrite Hx.
  destruct (Hf _ _ Hx) as (_ & ? & _).
  rewrite (proj2 (Z.ltb_ge _ x)) by lia.
  by rewrite (proj2 (Z.ltb_ge _ (x + reclen))) by lia.
Qed.

Lemma lread_inv f x s : lread f x = Ok s → slots f !! x = Some s.
Proof.
  unfold lread. destruct (flen f <? x); [done|].
  destruct (flen f <? x + reclen); [done|].
  destruct (slots f !! x); [by intros [= ->]|done].
Qed.

Lemma lwrite_ok f x s0 s : fwf f → slots f !! x = Some s0 → lwrite f x s = Ok (upd f x s).
Proof.
  intros Hf Hx. unfold lwrite, upd.
  destruct (Hf _ _ Hx) as (_ & ? & _).
  rewrite (proj2 (Z.ltb_ge _ _)) by lia.
  by rewrite Z.max_l by lia.
Qed.

Lemma fwf_upd f x s0 s :
  fwf f → slots f !! x = Some s0 → length (n s) = n_keys → fwf (upd f x s).
Proof.
  intros Hf Hx Hn y t. unfold upd; simpl.
  destruct (decide (x = y)) as [->|Hne].
  - rewrite lookup_insert_eq. intros [= <-].
    destruct (Hf _ _ Hx) as (? & ? & _). done.
  - rewrite lookup_insert_ne by done. apply Hf.
Qed.

Lemma view_upd_eq f k x s : view (upd f x s) k x = Some (nk s k, b s).
Proof. unfold view, upd. simpl. by rewrite lookup_insert_eq. Qed.

Lemma view_upd_ne f k x y s : x ≠ y → view (upd f x s) k y = view f k y.
Proof. intros Hne. unfold view, upd. simpl. by rewrite lookup_insert_ne. Qed.

Lemma view_Some f k x nd d :
  view f k x = Some (nd, d) ↔ ∃ s, slots f !! x = Some s ∧ nk s k = nd ∧ b s = d.
Proof.
  unfold view. destruct (slots f !! x) as [s|]; simpl; split.
  - intros [= <- <-]. eauto.
  - intros (s' & [= <-] & <- & <-). done.
  - done.
  - intros (s' & ? & _). done.
Qed.

(** ** Trees and paths *)

Lemma repr_ext S S' lo hi t :
  (∀ x, x ∈ nodes t → S' x = S x) → repr S lo hi t → repr S' lo hi t.
Proof.
  revert lo hi. induction t as [|l IHl x bal d r IHr]; intros lo hi Hx; simpl; [done|].
  intros (Hn & Hl & Hr). split; [|split].
  - rewrite Hx; [done|]. simpl. apply elem_of_app. right. by left.
  - apply IHl; [|done]. intros y Hy. apply Hx. simpl. apply elem_of_app. by left.
  - apply IHr; [|done]. intros y Hy. apply Hx. simpl. apply elem_of_app. right. by right.
Qed.

Lemma height_nonneg t : 0 ≤ height t.
Proof. induction t; simpl; lia. Qed.

Lemma repr_nodes_Some S lo hi t x :
  repr S lo hi t → x ∈ nodes t → is_Some (S x).
Proof.
  revert lo hi. induction t as [|l IHl y bal d r IHr]; intros lo hi; simpl.
  - intros _ Hx. by apply elem_of_nil in Hx.
  - intros (Hn & Hl & Hr) Hx.
    apply elem_of_app in Hx as [Hx|Hx]; [by eapply IHl|].
    apply elem_of_cons in Hx as [->|Hx]; [by rewrite Hn|by eapply IHr].
Qed.

(** A path from the root: the frames passed, innermost first. A frame is
    a node with the side on which the path goes on and the subtree on the
    other side. *)
Inductive dir : Type := L | R.

Record frame : Type := F { fdir : dir; fx : Z; fbal : Z; fd : data; fsib : tree }.

Definition fill (g : frame) (s : tree) : tree :=
  match fdir g with
  | L => T s (fx g) (fbal g) (fd g) (fsib g)
  | R => T (fsib g) (fx g) (fbal g) (fd g) s
  end.

Fixpoint plug (c : list frame) (s : tree) : tree :=
  match c with
  | [] => s
  | g :: c => plug c (fill g s)
  end.

(** The in-order neighbours of the hole of a path. *)
Fixpoint cbounds (c : list frame) : Z * Z :=
  match c with
  | [] => (0, 0)
  | g :: c =>
      match fdir g with
      | L => ((cbounds c).1, fx g)
      | R => (fx g, (cbounds c).2)
      end
  end.

(** The thread that an empty hole holds, and the child field that stands
    for the subtree [s] in the hole. *)
Definition hthr (c : list frame) : Z :=
  match c with
  | [] => 0
  | g :: _ =>
      match fdir g with
      | L => (cbounds c).1
      | R => (cbounds c).2
      end
  end.

Definition hlink (c : list frame) (s : tree) : Z := link s (hthr c).

(** The node that the records must hold for the frame [g] under the path
    [c], when its child field on the side of the hole is [child]. *)
Definition fnode (g : frame) (c : list frame) (child : Z) : avl_node_struct :=
  match fdir g with
  | L => mk_node (fbal g) child (link (fsib g) (cbounds c).2)
  | R => mk_node (fbal g) (link (fsib g) (cbounds c).1) child
  end.

Definition frepr (S : Z → option (avl_node_struct * data)) (g : frame) (c : list frame)
  : Prop :=
  match fdir g with
  | L => repr S (fx g) (cbounds c).2 (fsib g)
  | R => repr S (cbounds c).1 (fx g) (fsib g)
  end.

Fixpoint crepr (S : Z → option (avl_node_struct * data)) (c : list frame) (child : Z)
  : Prop :=
  match c with
  | [] => True
  | g :: c =>
      S (fx g) = Some (fnode g c child, fd g) ∧ frepr S g c ∧ crepr S c (fx g)
  end.

Lemma repr_plug S c s :
  repr S 0 0 (plug c s) ↔
  crepr S c (hlink c s) ∧ repr S (cbounds c).1 (cbounds c).2 s.
Proof.
  revert s. induction c as [|g c IH]; intros s; simpl.
  - tauto.
  - rewrite IH. unfold hlink, hthr, fnode, frepr, fill.
    destruct g as [[] x bal d sib]; simpl; tauto.
Qed.

Fixpoint cnodes (c : list frame) : list Z :=
  match c with
  | [] => []
  | g :: c => fx g :: nodes (fsib g) ++ cnodes c
  end.

Lemma nodes_plug c s : nodes (plug c s) ≡ₚ nodes s ++ cnodes c.
Proof.
  revert s. induction c as [|g c IH]; intros s; simpl.
  - by rewrite app_nil_r.
  - rewrite IH. destruct g as [[] x bal d sib]; simpl; solve_Permutation.
Qed.

Lemma crepr_ext S S' c child :
  (∀ x, x ∈ cnodes c → S' x = S x) → crepr S c child → crepr S' c child.
Proof.
  revert child. induction c as [|g c IH]; intros child Hx; simpl; [done|].
  intros (Hn & Hs & Hc). split; [|split].
  - rewrite Hx; [done|]. simpl. by left.
  - unfold frepr in *. destruct (fdir g);
      (eapply repr_ext; [|done]); intros y Hy; apply Hx; simpl;
      right; apply elem_of_app; by left.
  - apply IH; [|done]. intros y Hy. apply Hx. simpl.
    right. apply elem_of_app. by right.
Qed.

(** ** Insertion on trees

    What insert does to the tree of key [k], phase by phase as the source
    does it: the descent to the place of the new leaf, the balances on the
    way back up to the last node [a] that was out of balance, the rotation
    at [a]. *)
Fixpoint descend (k : nat) (yb : data) (c : list frame) (s : tree) : list frame :=
  match s with
  | E => c
  | T l x bal d r =>
      if cmp (Z.of_nat k) yb d <? 0 then descend k yb (F L x bal d r :: c) l
      else descend k yb (F R x bal d l :: c) r
  end.

Definition dsign (d : dir) : Z :=
  match d with
  | L => 1
  | R => -1
  end.

Definition set_fbal (v : Z) (g : frame) : frame := F (fdir g) (fx g) v (fd g) (fsib g).

Definition mark (g : frame) : frame := set_fbal (dsign (fdir g)) g.

Definition leaf (y : Z) (yb : data) : tree := T E y 0 yb E.

(** The balances of [a] and [b] after a double rotation through [c],
    when the left side of [a] was too high. *)
Definition dbl_left_bals (cb ab bb : Z) : Z * Z :=
  if cb =? 1 then (-1, 0)
  else if cb =? -1 then (0, 1)
  else if cb =? 0 then (0, 0)
  else (ab, bb).

Definition dbl_right_bals (cb ab bb : Z) : Z * Z :=
  if cb =? 1 then (0, -1)
  else if cb =? -1 then (1, 0)
  else if cb =? 0 then (0, 0)
  else (ab, bb).

Definition dbl_left (a : Z) (ab : Z) (ad : data) (sub sib : tree) : tree :=
  match sub with
  | T bl b_ bb bd (T cl c cb cd cr) =>
      let '(ab', bb') := dbl_left_bals cb ab bb in
      T (T bl b_ bb' bd cl) c 0 cd (T cr a ab' ad sib)
  | _ => E
  end.

Definition dbl_right (a : Z) (ab : Z) (ad : data) (sub sib : tree) : tree :=
  match sub with
  | T (T cl c cb cd cr) b_ bb bd brt =>
      let '(ab', bb') := dbl_right_bals cb ab bb in
      T (T sib a ab' ad cl) c 0 cd (T cr b_ bb' bd brt)
  | _ => E
  end.

Definition ins_rot (g : frame) (sub : tree) : tree :=
  match fdir g, sub with
  | L, T bl b_ bb bd brt =>
      if bb =? 1 then T bl b_ 0 bd (T brt (fx g) 0 (fd g) (fsib g))
      else dbl_left (fx g) (fbal g) (fd g) sub (fsib g)
  | R, T bl b_ bb bd brt =>
      if bb =? -1 then T (T (fsib g) (fx g) 0 (fd g) bl) b_ 0 bd brt
      else dbl_right (fx g) (fbal g) (fd g) sub (fsib g)
  | _, E => E
  end.

Definition settle (g : frame) (sub : tree) : tree :=
  if fbal g =? 0 then fill (mark g) sub
  else if fbal g + dsign (fdir g) =? 0 then fill (set_fbal 0 g) sub
  else ins_rot g sub.

(** The path split at [a]: the frames below it (all of balance 0), the
    frame of [a] (the deepest one of another balance, or else the root),
    and the frames above. *)
Fixpoint asplit (c : list frame) : option (list frame * frame * list frame) :=
  match c with
  | [] => None
  | g :: c' =>
      if fbal g =? 0 then
        match asplit c' with
        | Some (below, a, above) => Some (g :: below, a, above)
        | None => Some ([], g, [])
        end
      else Some ([], g, c')
  end.

Definition tins (k : nat) (y : Z) (yb : data) (t : tree) : tree :=
  match asplit (descend k yb [] t) with
  | None => leaf y yb
  | Some (below, g, above) => plug above (settle g (plug (mark <$> below) (leaf y yb)))
  end.

Lemma asplit_spec c below g above :
  asplit c = Some (below, g, above) →
  c = below ++ g :: above ∧ Forall (λ g', fbal g' = 0) below ∧
  (fbal g = 0 → above = []).
Proof.
  revert below g above. induction c as [|g0 c IH]; intros below g above; simpl; [done|].
  destruct (fbal g0 =? 0) eqn:E0.
  - apply Z.eqb_eq in E0.
    destruct (asplit c) as [[[bl a] ab]|] eqn:Ea.
    + intros [= <- <- <-]. destruct (IH _ _ _ eq_refl) as (-> & Hz & Ha).
      repeat split; [|done]. by constructor.
    + intros [= <- <- <-]. destruct c; [done|]. simpl in Ea.
      destruct (fbal f =? 0); [destruct (asplit c) as [[[? ?] ?]|]|]; done.
  - apply Z.eqb_neq in E0. intros [= <- <- <-]. repeat split; [by constructor|done].
Qed.

Lemma asplit_None c : asplit c = None → c = [].
Proof.
  destruct c as [|g c]; [done|]. simpl.
  destruct (fbal g =? 0); [destruct (asplit c) as [[[? ?] ?]|]|]; done.
Qed.

Lemma plug_app c1 c2 s : plug (c1 ++ c2) s = plug c2 (plug c1 s).
Proof. revert s. induction c1 as [|g c1 IH]; intros s; simpl; [done|apply IH]. Qed.

Lemma descend_plug k yb c s : plug (descend k yb c s) E = plug c s.
Proof.
  revert c. induction s as [|l IHl x bal d r IHr]; intros c; simpl; [done|].
  destruct (cmp (Z.of_nat k) yb d <? 0); [rewrite IHl|rewrite IHr]; done.
Qed.

Lemma descend_dirs k yb c s :
  Forall (λ g, fdir g = L ↔ cmp (Z.of_nat k) yb (fd g) < 0) c →
  Forall (λ g, fdir g = L ↔ cmp (Z.of_nat k) yb (fd g) < 0) (descend k yb c s).
Proof.
  revert c. induction s as [|l IHl x bal d r IHr]; intros c Hc; simpl; [done|].
  destruct (cmp (Z.of_nat k) yb d <? 0) eqn:Ec.
  - apply IHl. constructor; [|done]. simpl. apply Z.ltb_lt in Ec. tauto.
  - apply IHr. constructor; [|done]. simpl. apply Z.ltb_ge in Ec.
    split; [done|lia].
Qed.

Lemma avl_fill_inv g s : avl (fill g s) → avl s ∧ avl (fsib g).
Proof. unfold fill. destruct (fdir g); simpl; tauto. Qed.

Lemma avl_plug_inv c s : avl (plug c s) → avl s.
Proof.
  revert s. induction c as [|g c IH]; intros s; simpl; [done|].
  intros Ha. apply IH in Ha. by apply avl_fill_inv in Ha as [? _].
Qed.

Lemma height_fill g s :
  height (fill g s) = 1 + Z.max (height s) (height (fsib g)).
Proof. unfold fill. destruct (fdir g); simpl; lia. Qed.

Lemma avl_plug_replace c s s' :
  avl (plug c s) → avl s' → height s' = height s →
  avl (plug c s') ∧ height (plug c s') = height (plug c s).
Proof.
  revert s s'. induction c as [|g c IH]; intros s s' Ha Hs' Hh; simpl; [done|].
  simpl in Ha. apply IH; [done| |].
  - pose proof (avl_plug_inv _ _ Ha) as Hg.
    unfold fill in *. destruct (fdir g); simpl in *; rewrite Hh; tauto.
  - rewrite !height_fill. by rewrite Hh.
Qed.

(** Below [a] the balances were 0: every subtree on the path gets one
    higher, and leans to the side of the new leaf. *)
Lemma avl_grow below s s' :
  Forall (λ g, fbal g = 0) below →
  avl (plug below s) → avl s' → height s' = height s + 1 →
  avl (plug (mark <$> below) s') ∧
  height (plug (mark <$> below) s') = height (plug below s) + 1.
Proof.
  revert s s'. induction below as [|g below IH]; intros s s' Hz Ha Hs' Hh; simpl; [done|].
  inversion Hz as [|? ? Hg Hz']; subst. simpl in Ha.
  pose proof (avl_plug_inv _ _ Ha) as Hfg.
  pose proof (height_nonneg s). pose proof (height_nonneg (fsib g)).
  apply IH; [done|done| |].
  - unfold fill, mark in *. destruct g as [[] x bal d sib]; simpl in *; subst;
      repeat split; try tauto; lia.
  - unfold fill, mark in *. destruct g as [[] x bal d sib]; simpl in *; lia.
Qed.

Lemma height_plug_zero below s :
  Forall (λ g, fbal g = 0) below → avl (plug below s) →
  height (plug below s) = height s + Z.of_nat (length below).
Proof.
  revert s. induction below as [|g below IH]; intros s Hz Ha; simpl; [lia|].
  inversion Hz as [|? ? Hg Hz']; subst. simpl in Ha.
  rewrite IH by done.
  apply avl_plug_inv in Ha.
  pose proof (height_nonneg s). pose proof (height_nonneg (fsib g)).
  unfold fill in *. destruct g as [[] x bal d sib]; simpl in *; lia.
Qed.

Definition root_bal (t : tree) : Z :=
  match t with
  | E => 0
  | T _ _ bal _ _ => bal
  end.

Lemma root_bal_plug_mark below s :
  below ≠ [] → root_bal (plug (mark <$> below) s) ≠ 0.
Proof.
  revert s. induction below as [|g below IH]; intros s Hne; [done|]. simpl.
  destruct below as [|g' below].
  - simpl. unfold fill, mark. destruct g as [[] x bal d sib]; simpl; lia.
  - apply IH. done.
Qed.

(** The rotation brings the subtree at [a] back to the height it had. *)
Lemma ins_rot_avl g s s' :
  avl (fill g s) → avl s' → height s' = height s + 1 →
  fbal g = dsign (fdir g) → root_bal s' ≠ 0 →
  avl (ins_rot g s') ∧ height (ins_rot g s') = height (fill g s).
Proof.
  intros Ha Hs' Hh Hb Hr.
  pose proof (height_nonneg s). pose proof (height_nonneg (fsib g)).
  destruct s' as [|bl b_ bb bd brt]; [done|]. simpl in Hr.
  pose proof (height_nonneg bl). pose proof (height_nonneg brt).
  unfold ins_rot, fill in *. destruct g as [[] a ab ad sib]; simpl in *.
  - destruct (bb =? 1) eqn:Eb.
    + apply Z.eqb_eq in Eb. simpl. repeat split; try tauto; lia.
    + apply Z.eqb_neq in Eb. unfold dbl_left.
      destruct brt as [|cl c cb cd cr]; [simpl in *; lia|].
      pose proof (height_nonneg cl). pose proof (height_nonneg cr).
      unfold dbl_left_bals.
      destruct (cb =? 1) eqn:E1; [apply Z.eqb_eq in E1|apply Z.eqb_neq in E1;
        destruct (cb =? -1) eqn:E2; [apply Z.eqb_eq in E2|apply Z.eqb_neq in E2;
          destruct (cb =? 0) eqn:E3; [apply Z.eqb_eq in E3|apply Z.eqb_neq in E3]]];
        simpl in *; repeat split; try tauto; lia.
  - destruct (bb =? -1) eqn:Eb.
    + apply Z.eqb_eq in Eb. simpl. repeat split; try tauto; lia.
    + apply Z.eqb_neq in Eb. unfold dbl_right.
      destruct bl as [|cl c cb cd cr]; [simpl in *; lia|].
      pose proof (height_nonneg cl). pose proof (height_nonneg cr).
      unfold dbl_right_bals.
      destruct (cb =? 1) eqn:E1; [apply Z.eqb_eq in E1|apply Z.eqb_neq in E1;
        destruct (cb =? -1) eqn:E2; [apply Z.eqb_eq in E2|apply Z.eqb_neq in E2;
          destruct (cb =? 0) eqn:E3; [apply Z.eqb_eq in E3|apply Z.eqb_neq in E3]]];
        simpl in *; repeat split; try tauto; lia.
Qed.

Lemma settle_avl g s s' :
  avl (fill g s) → avl s' → height s' = height s + 1 →
  (fbal g ≠ 0 → fbal g + dsign (fdir g) ≠ 0 → root_bal s' ≠ 0) →
  avl (settle g s') ∧
  height (settle g s') = height (fill g s) + (if fbal g =? 0 then 1 else 0).
Proof.
  intros Ha Hs' Hh Hr.
  pose proof (height_nonneg s). pose proof (height_nonneg (fsib g)).
  unfold settle.
  destruct (fbal g =? 0) eqn:E0.
  - apply Z.eqb_eq in E0.
    unfold fill, mark in *. destruct g as [[] a ab ad sib]; simpl in *;
      repeat split; try tauto; lia.
  - apply Z.eqb_neq in E0.
    destruct (fbal g + dsign (fdir g) =? 0) eqn:E1.
    + apply Z.eqb_eq in E1.
      unfold fill in *. destruct g as [[] a ab ad sib]; simpl in *;
        repeat split; try tauto; lia.
    + apply Z.eqb_neq in E1. rewrite Z.add_0_r.
      apply ins_rot_avl; try done; [|by apply Hr].
      unfold fill in Ha. destruct g as [[] a ab ad sib]; simpl in *; lia.
Qed.

Lemma tins_avl k y yb t : avl t → avl (tins k y yb t).
Proof.
  intros Ha. unfold tins.
  destruct (asplit _) as [[[below g] above]|] eqn:Es; [|simpl; lia].
  apply asplit_spec in Es as (Hc & Hz & Hroot).
  pose proof (descend_plug k yb [] t) as Hp. simpl in Hp.
  rewrite Hc, plug_app in Hp. simpl in Hp. rewrite <- Hp in Ha.
  pose proof (avl_plug_inv _ _ Ha) as Hg.
  pose proof (proj1 (avl_fill_inv _ _ Hg)) as Hb.
  destruct (avl_grow below E (leaf y yb) Hz Hb) as (Hm & Hmh); [simpl; lia|done|].
  destruct (settle_avl g _ _ Hg Hm Hmh) as (Hs & Hsh).
  { intros Hn0 Hn1. apply root_bal_plug_mark. intros ->. simpl in *.
    unfold fill in Hg. destruct g as [[] a ab ad sib]; simpl in *;
      pose proof (height_nonneg sib); lia. }
  destruct (fbal g =? 0) eqn:E0.
  - apply Z.eqb_eq in E0. rewrite (Hroot E0). done.
  - by apply (avl_plug_replace above _ _ Ha Hs); lia.
Qed.

(** The records of a tree in order, with their payloads. *)
Fixpoint inord (t : tree) : list (Z * data) :=
  match t with
  | E => []
  | T l x _ d r => inord l ++ (x, d) :: inord r
  end.

Lemma nodes_inord t : nodes t = (inord t).*1.
Proof.
  induction t as [|l IHl x bal d r IHr]; simpl; [done|].
  by rewrite fmap_app, fmap_cons, IHl, IHr.
Qed.

Lemma pays_inord t : pays t = (inord t).*2.
Proof.
  induction t as [|l IHl x bal d r IHr]; simpl; [done|].
  by rewrite fmap_app, fmap_cons, IHl, IHr.
Qed.

(** What lies to the left and to the right of the hole of a path. *)
Fixpoint cl (c : list frame) : list (Z * data) :=
  match c with
  | [] => []
  | g :: c =>
      cl c ++ match fdir g with
              | L => []
              | R => inord (fsib g) ++ [(fx g, fd g)]
              end
  end.

Fixpoint cr (c : list frame) : list (Z * data) :=
  match c with
  | [] => []
  | g :: c =>
      match fdir g with
      | L => (fx g, fd g) :: inord (fsib g)
      | R => []
      end ++ cr c
  end.

Lemma inord_plug c s : inord (plug c s) = cl c ++ inord s ++ cr c.
Proof.
  revert s. induction c as [|g c IH]; intros s; simpl.
  - by rewrite app_nil_r.
  - rewrite IH. unfold fill. destruct g as [[] x bal d sib]; simpl.
    + by rewrite app_nil_r, <- !app_assoc.
    + by rewrite <- !app_assoc.
Qed.

Lemma cl_mark c : cl (mark <$> c) = cl c.
Proof. induction c as [|g c IH]; csimpl; [done|]. by rewrite IH. Qed.

Lemma cr_mark c : cr (mark <$> c) = cr c.
Proof. induction c as [|g c IH]; csimpl; [done|]. by rewrite IH. Qed.

Lemma cl_app c1 c2 : cl (c1 ++ c2) = cl c2 ++ cl c1.
Proof.
  induction c1 as [|g c1 IH]; simpl; [by rewrite app_nil_r|].
  by rewrite IH, app_assoc.
Qed.

Lemma cr_app c1 c2 : cr (c1 ++ c2) = cr c1 ++ cr c2.
Proof.
  induction c1 as [|g c1 IH]; simpl; [done|].
  by rewrite IH, app_assoc.
Qed.

Lemma ins_rot_inord g s s' :
  avl (fill g s) → avl s' → height s' = height s + 1 →
  fbal g = dsign (fdir g) → root_bal s' ≠ 0 →
  inord (ins_rot g s') = inord (fill g s').
Proof.
  intros Ha Hs' Hh Hb Hr.
  pose proof (height_nonneg s). pose proof (height_nonneg (fsib g)).
  destruct s' as [|bl b_ bb bd brt]; [done|]. simpl in Hr.
  pose proof (height_nonneg bl). pose proof (height_nonneg brt).
  unfold ins_rot, fill in *. destruct g as [[] a ab ad sib]; simpl in *.
  - destruct (bb =? 1) eqn:Eb.
    + by repeat (rewrite <- ?app_assoc; simpl).
    + apply Z.eqb_neq in Eb. unfold dbl_left.
      destruct brt as [|cl0 c cb cd cr0]; [simpl in *; lia|].
      destruct (dbl_left_bals cb ab bb) as [ab' bb']. simpl.
      by repeat (rewrite <- ?app_assoc; simpl).
  - destruct (bb =? -1) eqn:Eb.
    + by repeat (rewrite <- ?app_assoc; simpl).
    + apply Z.eqb_neq in Eb. unfold dbl_right.
      destruct bl as [|cl0 c cb cd cr0]; [simpl in *; lia|].
      destruct (dbl_right_bals cb ab bb) as [ab' bb']. simpl.
      by repeat (rewrite <- ?app_assoc; simpl).
Qed.

Lemma settle_inord g s s' :
  avl (fill g s) → avl s' → height s' = height s + 1 →
  (fbal g ≠ 0 → fbal g + dsign (fdir g) ≠ 0 → root_bal s' ≠ 0) →
  inord (settle g s') = inord (fill g s').
Proof.
  intros Ha Hs' Hh Hr. unfold settle.
  destruct (fbal g =? 0) eqn:E0.
  - unfold fill, mark. by destruct g as [[] a ab ad sib].
  - apply Z.eqb_neq in E0.
    destruct (fbal g + dsign (fdir g) =? 0) eqn:E1.
    + unfold fill. by destruct g as [[] a ab ad sib].
    + apply Z.eqb_neq in E1.
      eapply ins_rot_inord; try done; [|by apply Hr].
      unfold fill in Ha. destruct g as [[] a ab ad sib]; simpl in *; lia.
Qed.

Lemma tins_inord k y yb t :
  avl t →
  inord t = cl (descend k yb [] t) ++ cr (descend k yb [] t) ∧
  inord (tins k y yb t)
  = cl (descend k yb [] t) ++ (y, yb) :: cr (descend k yb [] t).
Proof.
  intros Ha.
  pose proof (descend_plug k yb [] t) as Hp. simpl in Hp.
  split; [by rewrite <- Hp at 1; rewrite inord_plug|].
  unfold tins.
  destruct (asplit _) as [[[below g] above]|] eqn:Es.
  2:{ apply asplit_None in Es. by rewrite Es. }
  apply asplit_spec in Es as (Hc & Hz & Hroot).
  rewrite Hc, plug_app in Hp. simpl in Hp. rewrite <- Hp in Ha.
  pose proof (avl_plug_inv _ _ Ha) as Hg.
  pose proof (proj1 (avl_fill_inv _ _ Hg)) as Hb.
  destruct (avl_grow below E (leaf y yb) Hz Hb) as (Hm & Hmh); [simpl; lia|done|].
  rewrite inord_plug, (settle_inord g _ _ Hg Hm Hmh).
  2:{ intros Hn0 Hn1. apply root_bal_plug_mark. intros ->. simpl in *.
      unfold fill in Hg. destruct g as [[] a ab ad sib]; simpl in *;
        pose proof (height_nonneg sib); lia. }
  rewrite Hc, cl_app, cr_app. simpl.
  unfold fill. destruct g as [[] a ab ad sib]; simpl;
    rewrite inord_plug, cl_mark, cr_mark; simpl;
    rewrite <- !app_assoc; simpl; by rewrite ?app_nil_r, <- ?app_assoc.
Qed.

Lemma tins_nodes k y yb t : avl t → nodes (tins k y yb t) ≡ₚ y :: nodes t.
Proof.
  intros Ha. destruct (tins_inord k y yb t Ha) as (E1 & E2).
  rewrite !nodes_inord, E1, E2, !fmap_app, fmap_cons. simpl.
  by rewrite Permutation_middle.
Qed.

Lemma kle_of_not_lt k a c : ¬ cmp (Z.of_nat k) a c < 0 → kle k c a.
Proof. intros Hn. unfold kle. pose proof (cmp_sym (Z.of_nat k) a c). lia. Qed.

Lemma kle_of_lt k a c : cmp (Z.of_nat k) a c < 0 → kle k a c.
Proof. unfold kle. lia. Qed.

Lemma kle_trans k a c e : kle k a c → kle k c e → kle k a e.
Proof. apply cmp_trans. Qed.

Lemma kle_refl k a : kle k a a.
Proof. unfold kle. rewrite cmp_refl. lia. Qed.

Definition kle2 (k : nat) (e1 e2 : Z * data) : Prop := kle k e1.2 e2.2.

Lemma sorted_inord k t : sorted k t ↔ StronglySorted (kle2 k) (inord t).
Proof.
  unfold sorted. rewrite pays_inord.
  induction (inord t) as [|e l IH]; csimpl.
  - split; constructor.
  - rewrite !StronglySorted_cons, IH, Forall_fmap. done.
Qed.

Lemma descend_sorted k yb c :
  Forall (λ g, fdir g = L ↔ cmp (Z.of_nat k) yb (fd g) < 0) c →
  StronglySorted (kle2 k) (cl c ++ cr c) →
  Forall (λ e, kle k e.2 yb) (cl c) ∧ Forall (λ e, kle k yb e.2) (cr c).
Proof.
  induction c as [|g c IH]; intros Hd Hs; simpl; [by split|].
  inversion Hd as [|? ? Hg Hd']; subst.
  simpl in Hs.
  destruct g as [[] x bal d sib]; simpl in *.
  - rewrite app_nil_r in *.
    apply StronglySorted_app in Hs as (H12 & H1 & H2).
    apply StronglySorted_cons in H2 as (Hx & H2).
    apply Forall_app in Hx as [Hx1 Hx2].
    apply StronglySorted_app in H2 as (H23 & H2' & H3).
    destruct IH as [IHl IHr]; [done| |].
    { apply StronglySorted_app. repeat split; [|done|done].
      intros a e Ha He. apply H12; [done|]. right.
      apply elem_of_app. by right. }
    split; [done|].
    assert (kle k yb d) as Hyd by (apply kle_of_lt; tauto).
    constructor; [done|]. apply Forall_app. split; [|done].
    eapply Forall_impl; [exact Hx1|]. intros e He. unfold kle2 in He. simpl in He.
    by eapply kle_trans.
  - rewrite <- app_assoc in Hs.
    apply StronglySorted_app in Hs as (H12 & H1 & H2).
    rewrite <- app_assoc in H2.
    apply StronglySorted_app in H2 as (H23 & H2' & H3). simpl in H3.
    apply StronglySorted_cons in H3 as (Hx & H3).
    destruct IH as [IHl IHr]; [done| |].
    { apply StronglySorted_app. repeat split; [|done|done].
      intros a e Ha He. apply H12; [done|].
      apply elem_of_app. by right. }
    split; [|done]. apply Forall_app. split; [done|].
    assert (kle k d yb) as Hdy.
    { apply kle_of_not_lt. intros Hlt. apply Hg in Hlt. done. }
    apply Forall_app. split; [|by repeat constructor].
    apply Forall_forall. intros e He. eapply kle_trans; [|exact Hdy].
    apply (H23 e (x, d)); [done|]. by left.
Qed.

Lemma tins_sorted k y yb t : avl t → sorted k t → sorted k (tins k y yb t).
Proof.
  intros Ha Hs. rewrite sorted_inord in *.
  destruct (tins_inord k y yb t Ha) as (E1 & E2).
  rewrite E2. rewrite E1 in Hs.
  destruct (descend_sorted k yb (descend k yb [] t)) as [Hl Hr]; [|done|].
  { by apply descend_dirs. }
  apply StronglySorted_app in Hs as (H12 & H1 & H2).
  apply StronglySorted_app. repeat split; [|done|].
  - intros a e Ha' He. apply elem_of_cons in He as [->|He]; [|by apply H12].
    by eapply Forall_forall in Hl.
  - apply StronglySorted_cons. split; [|done]. exact Hr.
Qed.

(** ** Insertion on the file: the descent *)

Definition hdx (c : list frame) : Z :=
  match c with
  | [] => 0
  | g :: _ => fx g
  end.

Definition cpos (c : list frame) : Prop := Forall (λ g, 0 < fx g) c.

Lemma cbounds_nonneg c : cpos c → 0 ≤ (cbounds c).1 ∧ 0 ≤ (cbounds c).2.
Proof.
  induction c as [|g c IH]; intros Hc; simpl; [lia|].
  inversion Hc as [|? ? Hg Hc']; subst. specialize (IH Hc').
  destruct (fdir g); simpl; lia.
Qed.

Lemma hthr_nonneg c : cpos c → 0 ≤ hthr c.
Proof.
  intros Hc. destruct c as [|g c]; simpl; [lia|].
  pose proof (cbounds_nonneg _ Hc) as Hb. simpl in Hb.
  destruct (fdir g); simpl in *; lia.
Qed.

Lemma view_slot f k x nd d :
  fwf f → view f k x = Some (nd, d) →
  ∃ s, slots f !! x = Some s ∧ lread f x = Ok s ∧ nk s k = nd ∧ b s = d ∧ 0 < x.
Proof.
  intros Hf Hv. apply view_Some in Hv as (s & Hs & Hn & Hb).
  exists s. repeat split; try done.
  - by apply lread_ok.
  - by destruct (Hf _ _ Hs).
Qed.

(** The locals of the descent after the frames [c], with [s] still to go
    through; [a0] is the root. *)
Definition dinv (f : file) (a0 : Z) (c : list frame) (s : tree) (v : ins_vars) : Prop :=
  iv_p v = hlink c s ∧
  iv_q v = hdx c ∧
  (c ≠ [] → slots f !! iv_q v = Some (iv_qr v)) ∧
  slots f !! iv_a v = Some (iv_ar v) ∧
  match asplit c with
  | Some (_, g, above) =>
      iv_a v = fx g ∧ iv_f v = hdx above ∧
      (above ≠ [] → slots f !! iv_f v = Some (iv_fr v))
  | None => iv_a v = a0 ∧ iv_f v = 0 ∧ link s 0 = a0
  end.

Lemma ins_descend_spec f k yb a0 s :
  fwf f →
  ∀ c v fuel,
    cpos c →
    repr (view f k) (cbounds c).1 (cbounds c).2 s →
    (Z.to_nat (height s) < fuel)%nat →
    dinv f a0 c s v →
    ∃ v', ins_descend fuel f k yb v = Ok v' ∧
          dinv f a0 (descend k yb c s) E v' ∧ cpos (descend k yb c s).
Proof.
  intros Hf. induction s as [|l IHl x bal d r IHr]; intros c v fuel Hc Hr Hfu Hv.
  - destruct fuel as [|fuel]; [lia|]. simpl.
    destruct Hv as (Hp & Hv). rewrite Hp. unfold hlink. simpl.
    pose proof (hthr_nonneg _ Hc).
    rewrite (proj2 (Z.ltb_ge _ _)) by lia.
    exists v. split; [done|]. split; [|done]. unfold dinv. tauto.
  - destruct fuel as [|fuel]; [lia|].
    pose proof (height_nonneg l). pose proof (height_nonneg r).
    simpl in Hfu. simpl in Hr. destruct Hr as (Hx & Hl & Hrr).
    apply (view_slot _ _ _ _ _ Hf) in Hx as (sx & Hsx & Hrd & Hnk & Hb & Hpos).
    destruct Hv as (Hp & Hq & Hqr & Har & Ha).
    cbn [ins_descend]. rewrite Hp. change (hlink c (T l x bal d r)) with x.
    rewrite (proj2 (Z.ltb_lt _ _)) by lia.
    rewrite Hrd. cbn [mbind res_mbind res_bind]. rewrite Hnk, Hb. cbn [nb nl nr].
    destruct (cmp (Z.of_nat k) yb d <? 0) eqn:Ec; cbn [descend]; rewrite Ec.
    + apply IHl; [by constructor|done|lia|].
      unfold dinv. cbn [iv_p iv_q iv_qr iv_a iv_ar iv_f iv_fr hdx asplit fbal].
      split; [done|]. split; [done|]. split; [done|].
      destruct (bal =? 0) eqn:Eb; cbn [iv_a iv_ar iv_f iv_fr].
      * split; [done|].
        destruct (asplit c) as [[[bl a] ab]|] eqn:Es; [done|].
        destruct Ha as (Ha1 & Ha2 & Ha3). simpl in Ha3.
        simpl. repeat split; [congruence|done|done].
      * split; [done|]. repeat split; [done|].
        exact Hqr.
    + apply IHr; [by constructor|done|lia|].
      unfold dinv. cbn [iv_p iv_q iv_qr iv_a iv_ar iv_f iv_fr hdx asplit fbal].
      split; [done|]. split; [done|]. split; [done|].
      destruct (bal =? 0) eqn:Eb; cbn [iv_a iv_ar iv_f iv_fr].
      * split; [done|].
        destruct (asplit c) as [[[bl a] ab]|] eqn:Es; [done|].
        destruct Ha as (Ha1 & Ha2 & Ha3). simpl in Ha3.
        simpl. repeat split; [congruence|done|done].
      * split; [done|]. repeat split; [done|].
        exact Hqr.
Qed.

(** ** Changes of the file that touch one key only *)

(** [fframe k X f f']: from [f] to [f'], only the nodes for key [k] of the
    records at the offsets [X] have changed. *)
Definition fframe (k : nat) (X : list Z) (f f' : file) : Prop :=
  hdr f' = hdr f ∧ flen f' = flen f ∧
  (∀ x, x ∉ X → slots f' !! x = slots f !! x) ∧
  (∀ x s, slots f !! x = Some s → ∃ s', slots f' !! x = Some s' ∧ eqv k s s') ∧
  (∀ x, slots f !! x = None → slots f' !! x = None).

Lemma fframe_refl k X f : fframe k X f f.
Proof.
  repeat split; try done. intros x s Hs. exists s. split; [done|apply eqv_refl].
Qed.

Lemma fframe_trans k X f1 f2 f3 :
  fframe k X f1 f2 → fframe k X f2 f3 → fframe k X f1 f3.
Proof.
  intros (Hh & Hl & Ho & He & Hn) (Hh' & Hl' & Ho' & He' & Hn').
  repeat split; try congruence.
  - intros x Hx. rewrite Ho' by done. by apply Ho.
  - intros x s Hs. destruct (He _ _ Hs) as (s' & Hs' & E1).
    destruct (He' _ _ Hs') as (s'' & Hs'' & E2).
    exists s''. split; [done|]. by eapply eqv_trans.
  - intros x Hx. apply Hn'. by apply Hn.
Qed.

Lemma fframe_mono k X Y f f' : X ⊆ Y → fframe k X f f' → fframe k Y f f'.
Proof.
  intros HXY (Hh & Hl & Ho & He & Hn). repeat split; try done.
  intros x Hx. apply Ho. intros Hin. apply Hx. by apply HXY.
Qed.

Lemma fframe_upd k X f x s s' :
  slots f !! x = Some s → eqv k s s' → x ∈ X → fframe k X f (upd f x s').
Proof.
  intros Hs He Hx. unfold upd. repeat split; simpl; try done.
  - intros y Hy. rewrite lookup_insert_ne; [done|]. by intros ->.
  - intros y t Ht. destruct (decide (x = y)) as [->|Hne].
    + rewrite lookup_insert_eq. exists s'. split; [done|]. congruence.
    + rewrite lookup_insert_ne by done. exists t. split; [done|apply eqv_refl].
  - intros y Hy. rewrite lookup_insert_ne; [done|]. intros ->. congruence.
Qed.

Lemma fframe_fwf k X f f' : fwf f → fframe k X f f' → fwf f'.
Proof.
  intros Hf (Hh & Hl & Ho & He & Hn) x s' Hs'.
  destruct (slots f !! x) as [s|] eqn:Hs.
  - destruct (He _ _ Hs) as (s'' & Hs'' & (_ & _ & _ & Hlen & _)).
    destruct (Hf _ _ Hs) as (? & ? & ?).
    assert (s'' = s') as -> by congruence.
    rewrite Hl. repeat split; [done|done|congruence].
  - rewrite (Hn _ Hs) in Hs'. done.
Qed.

Lemma fframe_view_other k j X f f' x :
  fframe k X f f' → j ≠ k → view f' j x = view f j x.
Proof.
  intros (Hh & Hl & Ho & He & Hn) Hne. unfold view.
  destruct (slots f !! x) as [s|] eqn:Hs.
  - destruct (He _ _ Hs) as (s' & -> & Hv). simpl.
    rewrite (eqv_nk _ _ _ _ Hv Hne). by destruct Hv as (_ & _ & -> & _).
  - by rewrite (Hn _ Hs).
Qed.

Lemma fframe_view_out k X f f' x :
  fframe k X f f' → x ∉ X → view f' k x = view f k x.
Proof. intros (Hh & Hl & Ho & He & Hn) Hx. unfold view. by rewrite Ho. Qed.

(** Reading a record, changing its node for key [k] and writing it back. *)
Lemma rmw k X f x s xr :
  fwf f → slots f !! x = Some s → eqv k s xr → x ∈ X →
  lwrite f x xr = Ok (upd f x xr) ∧ fframe k X f (upd f x xr) ∧
  fwf (upd f x xr) ∧ slots (upd f x xr) !! x = Some xr ∧
  view (upd f x xr) k x = Some (nk xr k, b s).
Proof.
  intros Hf Hs He Hx. split; [by eapply lwrite_ok|].
  split; [by eapply fframe_upd|]. split; [|split].
  - eapply fframe_fwf; [done|]. by eapply (fframe_upd k [x]); [| |left].
  - unfold upd. simpl. by rewrite lookup_insert_eq.
  - rewrite view_upd_eq. by destruct He as (_ & _ & -> & _).
Qed.

Lemma eqv_set_kb k v s s' : eqv k s s' → eqv k s (set_kb k v s').
Proof. intros He. eapply eqv_trans; [done|apply eqv_set_nk]. Qed.

Lemma eqv_set_kl k v s s' : eqv k s s' → eqv k s (set_kl k v s').
Proof. intros He. eapply eqv_trans; [done|apply eqv_set_nk]. Qed.

Lemma eqv_set_kr k v s s' : eqv k s s' → eqv k s (set_kr k v s').
Proof. intros He. eapply eqv_trans; [done|apply eqv_set_nk]. Qed.

Lemma eqv_set_nk_r k x s s' : eqv k s s' → eqv k s (set_nk k x s').
Proof. intros He. eapply eqv_trans; [done|apply eqv_set_nk]. Qed.

Lemma nk_set_kb k v s : (k < length (n s))%nat → nk (set_kb k v s) k = set_b v (nk s k).
Proof. apply nk_set_nk_eq. Qed.

Lemma nk_set_kl k v s : (k < length (n s))%nat → nk (set_kl k v s) k = set_l v (nk s k).
Proof. apply nk_set_nk_eq. Qed.

Lemma nk_set_kr k v s : (k < length (n s))%nat → nk (set_kr k v s) k = set_r v (nk s k).
Proof. apply nk_set_nk_eq. Qed.

Lemma elem_of_nodes_plug x c s : x ∈ nodes (plug c s) ↔ x ∈ nodes s ∨ x ∈ cnodes c.
Proof. rewrite nodes_plug. apply elem_of_app. Qed.

Lemma cnodes_app c1 c2 : cnodes (c1 ++ c2) = cnodes c1 ++ cnodes c2.
Proof.
  induction c1 as [|g c1 IH]; simpl; [done|].
  by rewrite IH, <- app_assoc.
Qed.

Lemma cnodes_mark c : cnodes (mark <$> c) = cnodes c.
Proof. induction c as [|g c IH]; csimpl; [done|]. by rewrite IH. Qed.

Lemma cbounds_mark c c1 : cbounds ((mark <$> c) ++ c1) = cbounds (c ++ c1).
Proof.
  induction c as [|g c IH]; csimpl; [done|].
  rewrite IH. by destruct g as [[] ? ? ? ?].
Qed.

Lemma link_plug c s thr :
  link (plug c s) thr = match last c with
                        | Some g => fx g
                        | None => link s thr
                        end.
Proof.
  revert s. induction c as [|g c IH]; intros s; simpl; [done|].
  rewrite IH. destruct c as [|g' c].
  - simpl. unfold fill. by destruct (fdir g).
  - change (last (g :: g' :: c)) with (last (g' :: c)).
    destruct (last (g' :: c)) eqn:El; [done|]. by apply last_None in El.
Qed.

Lemma nodup_plug_cons g c s :
  NoDup (nodes (plug (g :: c) s)) →
  (fx g ∉ nodes s) ∧ (fx g ∉ nodes (fsib g)) ∧ (fx g ∉ cnodes c) ∧
  NoDup (nodes s) ∧ NoDup (nodes (fsib g)) ∧ NoDup (cnodes c) ∧
  (∀ x, x ∈ nodes s → (x ∉ nodes (fsib g)) ∧ (x ∉ cnodes c)) ∧
  (∀ x, x ∈ nodes (fsib g) → x ∉ cnodes c).
Proof.
  rewrite nodes_plug. simpl.
  rewrite NoDup_app, NoDup_cons, NoDup_app.
  intros (Hs & Hd & Hx & Hsib & Hd' & Hc).
  split; [|split; [|split; [|split; [|split; [|split; [|split]]]]]]; try done.
  - intros Hin. apply (Hd _ Hin). by left.
  - intros Hin. apply Hx. apply elem_of_app. by left.
  - intros Hin. apply Hx. apply elem_of_app. by right.
  - intros x Hin. split; intros Hin'; apply (Hd _ Hin); right; apply elem_of_app;
      [by left|by right].
Qed.

Lemma link_T_plug c l x bal d r thr thr' :
  link (plug c (T l x bal d r)) thr = link (plug c (T l x bal d r)) thr'.
Proof. rewrite !link_plug. by destruct (last c). Qed.

Lemma fnode_mark g c child :
  fnode (mark g) c child = set_b (dsign (fdir g)) (fnode g c child).
Proof. by destruct g as [[] ? ? ? ?]. Qed.

Lemma hlink_mark g c s : hlink (mark g :: c) s = hlink (g :: c) s.
Proof. by destruct g as [[] ? ? ? ?]. Qed.

Lemma fnode_set_fbal v g c child :
  fnode (set_fbal v g) c child = set_b v (fnode g c child).
Proof. by destruct g as [[] ? ? ? ?]. Qed.

Lemma fwf_len f x s k : fwf f → slots f !! x = Some s → (k < n_keys)%nat →
  (k < length (n s))%nat.
Proof. intros Hf Hs Hk. destruct (Hf _ _ Hs) as (_ & _ & ->). done. Qed.

(** ** Insertion on the file: the balances between [a] and the leaf *)
Lemma ins_mark_spec k yb y sl sb sd sr below :
  (k < n_keys)%nat →
  ∀ c1 f fuel,
    fwf f →
    Forall (λ g, fdir g = L ↔ cmp (Z.of_nat k) yb (fd g) < 0) below →
    repr (view f k) 0 0 (plug (below ++ c1) (T sl y sb sd sr)) →
    NoDup (nodes (plug (below ++ c1) (T sl y sb sd sr))) →
    (length below < fuel)%nat →
    ∃ f', ins_mark fuel f k yb y (link (plug below (T sl y sb sd sr)) 0) = Ok f' ∧
          repr (view f' k) 0 0 (plug ((mark <$> below) ++ c1) (T sl y sb sd sr)) ∧
          fframe k (fx <$> below) f f' ∧ fwf f'.
Proof.
  intros Hk. induction below as [|g bl IH] using rev_ind;
    intros c1 f fuel Hf Hd Hr Hnd Hfu.
  - destruct fuel as [|fuel]; [simpl in Hfu; lia|]. simpl.
    rewrite Z.eqb_refl. exists f. split; [done|]. split; [done|].
    split; [apply fframe_refl|done].
  - destruct fuel as [|fuel]; [simpl in Hfu; lia|].
    rewrite length_app in Hfu. simpl in Hfu.
    apply Forall_app in Hd as [Hdbl Hdg]. inversion Hdg as [|? ? Hg _]; subst.
    rewrite <- app_assoc in Hr, Hnd. simpl in Hr, Hnd.
    rewrite plug_app in Hr, Hnd.
    pose proof (nodup_plug_cons _ _ _ Hnd) as (Hn1 & Hn2 & Hn3 & _).
    pose proof Hr as Hr0.
    apply repr_plug in Hr as (Hc & Hs). simpl in Hc. destruct Hc as (Hx & Hsib & Hc1).
    apply (view_slot _ _ _ _ _ Hf) in Hx as (sg & Hsg & Hrd & Hnk & Hb & Hpos).
    assert (fx g ≠ y) as Hgy.
    { intros Heq. apply Hn1. rewrite Heq. apply elem_of_nodes_plug. left. simpl.
      apply elem_of_app. right. by left. }
    pose proof (fwf_len _ _ _ _ Hf Hsg Hk) as Hlen.
    cbn [ins_mark]. rewrite link_plug, last_snoc.
    rewrite (proj2 (Z.eqb_neq _ _) Hgy).
    rewrite Hrd. cbn [mbind res_mbind res_bind]. rewrite Hb, Hnk.
    set (child := hlink (g :: c1) (plug bl (T sl y sb sd sr))) in *.
    assert (child = link (plug bl (T sl y sb sd sr)) 0) as Hchild.
    { unfold child, hlink. apply link_T_plug. }
    destruct (cmp (Z.of_nat k) yb (fd g) <? 0) eqn:Ec.
    + assert (fdir g = L) as Hdir by (apply Hg; by apply Z.ltb_lt).
      destruct (rmw k [fx g] f (fx g) sg (set_kb k 1 sg)) as (Hw & Hff & Hf1 & Hs1 & Hv1);
        [done|done|apply eqv_set_nk|by left|].
      rewrite Hw. cbn [mbind res_mbind res_bind].
      replace (nl (fnode g c1 child)) with (link (plug bl (T sl y sb sd sr)) 0)
        by (unfold fnode; rewrite Hdir; done).
      destruct (IH (mark g :: c1) (upd f (fx g) (set_kb k 1 sg)) fuel)
        as (f' & Hrun & Hr' & Hff' & Hf'); [done|done| | |lia|].
      * rewrite plug_app. apply repr_plug. simpl. split; [split; [|split]|].
        -- rewrite Hv1, nk_set_kb, Hnk, fnode_mark, Hdir, Hb, hlink_mark by done. done.
        -- unfold frepr in *. simpl. rewrite Hdir in *.
           eapply repr_ext; [|exact Hsib]. intros x Hx.
           apply view_upd_ne. intros <-. done.
        -- eapply crepr_ext; [|exact Hc1]. intros x Hx.
           apply view_upd_ne. intros <-. done.
        -- destruct g as [gd gx gb gdd gs]. simpl in *. subst gd. simpl.
           eapply repr_ext; [|exact Hs]. intros x Hx.
           apply view_upd_ne. intros <-. done.
      * rewrite plug_app. rewrite nodes_plug in *. simpl. done.
      * exists f'. split; [done|]. split; [|split; [|done]].
        -- by rewrite fmap_app, <- app_assoc.
        -- rewrite fmap_app. simpl. eapply fframe_trans.
           ++ eapply fframe_mono; [|exact Hff]. intros x Hx.
              apply elem_of_app. by right.
           ++ eapply fframe_mono; [|exact Hff']. intros x Hx.
              apply elem_of_app. by left.
    + assert (fdir g = R) as Hdir.
      { destruct (fdir g) eqn:Ed; [|done]. apply Z.ltb_ge in Ec.
        assert (cmp (Z.of_nat k) yb (fd g) < 0) by (by apply Hg). lia. }
      destruct (rmw k [fx g] f (fx g) sg (set_kb k (-1) sg)) as (Hw & Hff & Hf1 & Hs1 & Hv1);
        [done|done|apply eqv_set_nk|by left|].
      rewrite Hw. cbn [mbind res_mbind res_bind].
      replace (nr (fnode g c1 child)) with (link (plug bl (T sl y sb sd sr)) 0)
        by (unfold fnode; rewrite Hdir; done).
      destruct (IH (mark g :: c1) (upd f (fx g) (set_kb k (-1) sg)) fuel)
        as (f' & Hrun & Hr' & Hff' & Hf'); [done|done| | |lia|].
      * rewrite plug_app. apply repr_plug. simpl. split; [split; [|split]|].
        -- rewrite Hv1, nk_set_kb, Hnk, fnode_mark, Hdir, Hb, hlink_mark by done. done.
        -- unfold frepr in *. simpl. rewrite Hdir in *.
           eapply repr_ext; [|exact Hsib]. intros x Hx.
           apply view_upd_ne. intros <-. done.
        -- eapply crepr_ext; [|exact Hc1]. intros x Hx.
           apply view_upd_ne. intros <-. done.
        -- destruct g as [gd gx gb gdd gs]. simpl in *. subst gd. simpl.
           eapply repr_ext; [|exact Hs]. intros x Hx.
           apply view_upd_ne. intros <-. done.
      * rewrite plug_app. rewrite nodes_plug in *. simpl. done.
      * exists f'. split; [done|]. split; [|split; [|done]].
        -- by rewrite fmap_app, <- app_assoc.
        -- rewrite fmap_app. simpl. eapply fframe_trans.
           ++ eapply fframe_mono; [|exact Hff]. intros x Hx.
              apply elem_of_app. by right.
           ++ eapply fframe_mono; [|exact Hff']. intros x Hx.
              apply elem_of_app. by left.
Qed.

(** ** Rotations on the file *)

Definition is_T (t : tree) : bool :=
  match t with
  | E => false
  | T _ _ _ _ _ => true
  end.

Lemma repr_root_pos f k lo hi l x bal d r :
  fwf f → repr (view f k) lo hi (T l x bal d r) → 0 < x.
Proof.
  intros Hf (Hx & _). by apply (view_slot _ _ _ _ _ Hf) in Hx as (? & ? & ? & ? & ? & ?).
Qed.

Lemma link_test f k lo hi t thr :
  fwf f → repr (view f k) lo hi t → 0 ≤ thr → (0 <? link t thr) = is_T t.
Proof.
  intros Hf Hr Ht. destruct t as [|l x bal d r]; simpl.
  - apply Z.ltb_ge. lia.
  - apply Z.ltb_lt. by eapply repr_root_pos.
Qed.

(** [if (cr.n[k].l > 0) br.n[k].r = cr.n[k].l; else br.n[k].r = -c;] and
    the like: a subtree that moves keeps its root, an empty one gets the
    thread to its new neighbour. *)
Lemma relink {A} (F : Z → A) f k lo hi t thr thr' :
  fwf f → repr (view f k) lo hi t → 0 ≤ thr →
  (if 0 <? link t thr then F (link t thr) else F (- thr')) = F (link t thr').
Proof.
  intros Hf Hr Ht. rewrite (link_test f k lo hi) by done. by destruct t.
Qed.

(** Turns a hypothesis [NoDup (nodes t)] for an explicit tree into its
    elementary facts. *)
Ltac nd_at H t :=
  exfalso;
  let H' := fresh "Hnd" in
  pose proof H as H'; simpl in H';
  repeat (rewrite ?NoDup_app, ?NoDup_cons in H');
  repeat match goal with
    | H0 : _ ∧ _ |- _ => destruct H0
    | H0 : ∀ y : Z, y ∈ _ → _ |- _ => specialize (H0 t)
    end;
  repeat match goal with
    | H0 : context [_ ∈ _ ++ _] |- _ => rewrite elem_of_app in H0
    | H0 : context [_ ∈ _ :: _] |- _ => rewrite elem_of_cons in H0
    end;
  intuition congruence.

(** [x ≠ y] for two nodes of a tree without duplicates, and [x ∉ l]. *)
Ltac nd_ne H :=
  let Heq := fresh in
  intros Heq;
  match type of Heq with
  | ?x = ?y => rewrite Heq in H; nd_at H y
  | ?x ∈ _ => nd_at H x
  end.

Ltac nd_ext H :=
  let x := fresh "x" in
  let Hx := fresh "Hx" in
  let Heq := fresh "Heq" in
  intros x Hx; rewrite ?view_upd_ne; [done|intros Heq; rewrite <- Heq in Hx; clear Heq..];
  match type of Hx with ?t ∈ _ => clear -H Hx; nd_at H t end.

Lemma view_slot_eq f k x s nd d :
  slots f !! x = Some s → view f k x = Some (nd, d) → nk s k = nd ∧ b s = d.
Proof. unfold view. intros ->. simpl. by intros [= <- <-]. Qed.

Lemma set_nk_id k s : (k < length (n s))%nat → set_nk k (nk s k) s = s.
Proof.
  intros Hk. destruct s as [ns p nx d]. unfold set_nk, nk. simpl in *. f_equal.
  apply list_insert_id. by apply list_lookup_lookup_total_lt.
Qed.

Lemma set_kb_id k v s : (k < length (n s))%nat → nb (nk s k) = v → set_kb k v s = s.
Proof.
  intros Hk <-. unfold set_kb.
  replace (set_b (nb (nk s k)) (nk s k)) with (nk s k) by (by destruct (nk s k)).
  by apply set_nk_id.
Qed.

Ltac solve_len :=
  unfold set_kb, set_kl, set_kr; rewrite ?length_set_nk; assumption.

Ltac nk_norm :=
  repeat first
    [ rewrite nk_set_kb by solve_len
    | rewrite nk_set_kl by solve_len
    | rewrite nk_set_kr by solve_len
    | rewrite nk_set_nk_eq by solve_len ].

Lemma dbl_left_code k cb ab bb ar1 br1 :
  (k < length (n ar1))%nat → (k < length (n br1))%nat →
  nb (nk ar1 k) = ab → nb (nk br1 k) = bb →
  (if cb =? 1 then (set_kb k (-1) ar1, set_kb k 0 br1)
   else if cb =? -1 then (set_kb k 0 ar1, set_kb k 1 br1)
   else if cb =? 0 then (set_kb k 0 ar1, set_kb k 0 br1)
   else (ar1, br1))
  = (set_kb k (dbl_left_bals cb ab bb).1 ar1, set_kb k (dbl_left_bals cb ab bb).2 br1).
Proof.
  intros. unfold dbl_left_bals.
  destruct (cb =? 1); [done|]. destruct (cb =? -1); [done|].
  destruct (cb =? 0); [done|]. simpl. by rewrite !set_kb_id.
Qed.

Lemma dbl_right_code k cb ab bb ar1 br1 :
  (k < length (n ar1))%nat → (k < length (n br1))%nat →
  nb (nk ar1 k) = ab → nb (nk br1 k) = bb →
  (if cb =? 1 then (set_kb k 0 ar1, set_kb k (-1) br1)
   else if cb =? -1 then (set_kb k 1 ar1, set_kb k 0 br1)
   else if cb =? 0 then (set_kb k 0 ar1, set_kb k 0 br1)
   else (ar1, br1))
  = (set_kb k (dbl_right_bals cb ab bb).1 ar1, set_kb k (dbl_right_bals cb ab bb).2 br1).
Proof.
  intros. unfold dbl_right_bals.
  destruct (cb =? 1); [done|]. destruct (cb =? -1); [done|].
  destruct (cb =? 0); [done|]. simpl. by rewrite !set_kb_id.
Qed.

Lemma upd_lookup_ne f x y s : x ≠ y → slots (upd f x s) !! y = slots f !! y.
Proof. intros. unfold upd. simpl. by rewrite lookup_insert_ne. Qed.

Lemma rot_double_left_spec k f a ar b_ br lo hi bl bb bd cl c cb cd cr ab ad sib :
  fwf f → (k < n_keys)%nat → 0 ≤ lo → 0 ≤ hi →
  repr (view f k) lo hi (T (T bl b_ bb bd (T cl c cb cd cr)) a ab ad sib) →
  NoDup (nodes (T (T bl b_ bb bd (T cl c cb cd cr)) a ab ad sib)) →
  slots f !! a = Some ar →
  slots f !! b_ = Some br →
  ∃ f' cr',
    rot_double_left_rec k f a ar b_ br = Ok (f', c, cr') ∧
    slots f' !! c = Some cr' ∧
    repr (view f' k) lo hi (dbl_left a ab ad (T bl b_ bb bd (T cl c cb cd cr)) sib) ∧
    fframe k [a; b_; c] f f' ∧ fwf f'.
Proof.
  intros Hf Hk Hlo Hhi Hr Hnd Ha Hb.
  simpl in Hr. destruct Hr as (Hva & (Hvb & Hbl & Hvc & Hcl & Hcr) & Hsib).
  destruct (view_slot_eq _ _ _ _ _ _ Ha Hva) as (Hna & Hda).
  destruct (view_slot_eq _ _ _ _ _ _ Hb Hvb) as (Hnb & Hdb).
  apply (view_slot _ _ _ _ _ Hf) in Hvc as (cr0 & Hc & Hrc & Hnc & Hdc & Hcpos).
  assert (0 < a ∧ 0 < b_) as (Hapos & Hbpos).
  { split; [by destruct (Hf _ _ Ha)|by destruct (Hf _ _ Hb)]. }
  assert (a ≠ b_ ∧ a ≠ c ∧ b_ ≠ c) as (Hab & Hac & Hbc)
    by (clear -Hnd; repeat split; nd_ne Hnd).
  pose proof (fwf_len _ _ _ _ Hf Ha Hk) as Hla.
  pose proof (fwf_len _ _ _ _ Hf Hb Hk) as Hlb.
  pose proof (fwf_len _ _ _ _ Hf Hc Hk) as Hlc.
  unfold rot_double_left_rec. rewrite Hnb. cbn [nr].
  rewrite Hrc. cbn [mbind res_mbind res_bind]. rewrite Hnc. cbn [nl nr].
  rewrite (relink (λ v, set_kr k v br) f k b_ c cl b_ c) by (done || lia).
  rewrite (relink (λ v, set_kl k v ar) f k c a cr a c) by (done || lia).
  nk_norm. rewrite Hnc. cbn [set_l set_r nb].
  rewrite (dbl_left_code k cb ab bb) by (solve_len || (nk_norm; rewrite ?Hna, ?Hnb; done)).
  unfold dbl_left. destruct (dbl_left_bals cb ab bb) as [ab' bb']. cbn [fst snd].
  set (ar' := set_kb k ab' (set_kl k (link cr c) ar)).
  set (br' := set_kb k bb' (set_kr k (link cl c) br)).
  set (cr' := set_kb k 0 (set_kr k a (set_kl k b_ cr0))).
  destruct (rmw k [a; b_; c] f a ar ar') as (Hw1 & Hff1 & Hf1 & Hs1 & Hv1);
    [done|done|by apply eqv_set_kb, eqv_set_kl, eqv_refl|by left|].
  rewrite Hw1. cbn [mbind res_mbind res_bind].
  destruct (rmw k [a; b_; c] (upd f a ar') b_ br br') as (Hw2 & Hff2 & Hf2 & Hs2 & Hv2);
    [done|by rewrite upd_lookup_ne|by apply eqv_set_kb, eqv_set_kr, eqv_refl
    |by right; left|].
  rewrite Hw2. cbn [mbind res_mbind res_bind].
  destruct (rmw k [a; b_; c] (upd (upd f a ar') b_ br') c cr0 cr')
    as (Hw3 & Hff3 & Hf3 & Hs3 & Hv3);
    [done|by rewrite !upd_lookup_ne|by apply eqv_set_kb, eqv_set_kr, eqv_set_kl, eqv_refl
    |by right; right; left|].
  rewrite Hw3. cbn [mbind res_mbind res_bind].
  eexists _, _. split; [done|]. split; [done|]. split; [|split; [|done]].
  2:{ eapply fframe_trans; [|exact Hff3]. eapply fframe_trans; [exact Hff1|exact Hff2]. }
  simpl. repeat split.
  - rewrite Hv3. unfold cr'. nk_norm. rewrite Hnc. by rewrite Hdc.
  - rewrite view_upd_ne, Hv2 by done. unfold br'. nk_norm. rewrite Hnb. by rewrite Hdb.
  - eapply repr_ext; [|exact Hbl]. nd_ext Hnd.
  - eapply repr_ext; [|exact Hcl]. nd_ext Hnd.
  - rewrite !view_upd_ne, Hv1 by done. unfold ar'. nk_norm. rewrite Hna. by rewrite Hda.
  - eapply repr_ext; [|exact Hcr]. nd_ext Hnd.
  - eapply repr_ext; [|exact Hsib]. nd_ext Hnd.
Qed.

(** [X ⊆ nodes t] for an explicit list [X] of nodes of [t]. *)
Ltac sub_nodes :=
  let x := fresh "x" in
  let Hx := fresh "Hx" in
  intros x Hx;
  repeat match goal with
    | H : _ ∈ _ :: _ |- _ => apply elem_of_cons in H as [->|H]
    | H : _ ∈ [] |- _ => by apply elem_of_nil in H
    end;
  simpl; repeat (progress (rewrite ?elem_of_app, ?elem_of_cons)); solve [intuition auto].

Lemma rot_double_right_spec k f a ar b_ br lo hi brt bb bd cl c cb cd cr ab ad sib :
  fwf f → (k < n_keys)%nat → 0 ≤ lo → 0 ≤ hi →
  repr (view f k) lo hi (T sib a ab ad (T (T cl c cb cd cr) b_ bb bd brt)) →
  NoDup (nodes (T sib a ab ad (T (T cl c cb cd cr) b_ bb bd brt))) →
  slots f !! a = Some ar →
  slots f !! b_ = Some br →
  ∃ f' cr',
    rot_double_right_rec k f a ar b_ br = Ok (f', c, cr') ∧
    slots f' !! c = Some cr' ∧
    repr (view f' k) lo hi (dbl_right a ab ad (T (T cl c cb cd cr) b_ bb bd brt) sib) ∧
    fframe k [a; b_; c] f f' ∧ fwf f'.
Proof.
  intros Hf Hk Hlo Hhi Hr Hnd Ha Hb.
  simpl in Hr. destruct Hr as (Hva & Hsib & Hvb & (Hvc & Hcl & Hcr) & Hbrt).
  destruct (view_slot_eq _ _ _ _ _ _ Ha Hva) as (Hna & Hda).
  destruct (view_slot_eq _ _ _ _ _ _ Hb Hvb) as (Hnb & Hdb).
  apply (view_slot _ _ _ _ _ Hf) in Hvc as (cr0 & Hc & Hrc & Hnc & Hdc & Hcpos).
  assert (0 < a ∧ 0 < b_) as (Hapos & Hbpos).
  { split; [by destruct (Hf _ _ Ha)|by destruct (Hf _ _ Hb)]. }
  assert (a ≠ b_ ∧ a ≠ c ∧ b_ ≠ c) as (Hab & Hac & Hbc)
    by (clear -Hnd; repeat split; nd_ne Hnd).
  pose proof (fwf_len _ _ _ _ Hf Ha Hk) as Hla.
  pose proof (fwf_len _ _ _ _ Hf Hb Hk) as Hlb.
  pose proof (fwf_len _ _ _ _ Hf Hc Hk) as Hlc.
  unfold rot_double_right_rec. rewrite Hnb. cbn [nl].
  rewrite Hrc. cbn [mbind res_mbind res_bind]. rewrite Hnc. cbn [nl nr].
  rewrite (relink (λ v, set_kr k v ar) f k a c cl a c) by (done || lia).
  rewrite (relink (λ v, set_kl k v br) f k c b_ cr b_ c) by (done || lia).
  nk_norm. rewrite Hnc. cbn [set_l set_r nb].
  rewrite (dbl_right_code k cb ab bb) by (solve_len || (nk_norm; rewrite ?Hna, ?Hnb; done)).
  unfold dbl_right. destruct (dbl_right_bals cb ab bb) as [ab' bb']. cbn [fst snd].
  set (ar' := set_kb k ab' (set_kr k (link cl c) ar)).
  set (br' := set_kb k bb' (set_kl k (link cr c) br)).
  set (cr' := set_kb k 0 (set_kl k a (set_kr k b_ cr0))).
  destruct (rmw k [a; b_; c] f a ar ar') as (Hw1 & Hff1 & Hf1 & Hs1 & Hv1);
    [done|done|by apply eqv_set_kb, eqv_set_kr, eqv_refl|by left|].
  rewrite Hw1. cbn [mbind res_mbind res_bind].
  destruct (rmw k [a; b_; c] (upd f a ar') b_ br br') as (Hw2 & Hff2 & Hf2 & Hs2 & Hv2);
    [done|by rewrite upd_lookup_ne|by apply eqv_set_kb, eqv_set_kl, eqv_refl
    |by right; left|].
  rewrite Hw2. cbn [mbind res_mbind res_bind].
  destruct (rmw k [a; b_; c] (upd (upd f a ar') b_ br') c cr0 cr')
    as (Hw3 & Hff3 & Hf3 & Hs3 & Hv3);
    [done|by rewrite !upd_lookup_ne|by apply eqv_set_kb, eqv_set_kl, eqv_set_kr, eqv_refl
    |by right; right; left|].
  rewrite Hw3. cbn [mbind res_mbind res_bind].
  eexists _, _. split; [done|]. split; [done|]. split; [|split; [|done]].
  2:{ eapply fframe_trans; [|exact Hff3]. eapply fframe_trans; [exact Hff1|exact Hff2]. }
  simpl. repeat split.
  - rewrite Hv3. unfold cr'. nk_norm. rewrite Hnc. by rewrite Hdc.
  - rewrite !view_upd_ne, Hv1 by done. unfold ar'. nk_norm. rewrite Hna. by rewrite Hda.
  - eapply repr_ext; [|exact Hsib]. nd_ext Hnd.
  - eapply repr_ext; [|exact Hcl]. nd_ext Hnd.
  - rewrite view_upd_ne, Hv2 by done. unfold br'. nk_norm. rewrite Hnb. by rewrite Hdb.
  - eapply repr_ext; [|exact Hcr]. nd_ext Hnd.
  - eapply repr_ext; [|exact Hbrt]. nd_ext Hnd.
Qed.

Lemma rot_left_heavy_spec k f a ar b_ lo hi bl bb bd brt ab ad sib :
  fwf f → (k < n_keys)%nat → 0 ≤ lo → 0 ≤ hi →
  repr (view f k) lo hi (T (T bl b_ bb bd brt) a ab ad sib) →
  NoDup (nodes (T (T bl b_ bb bd brt) a ab ad sib)) →
  slots f !! a = Some ar →
  (bb ≠ 1 → is_T brt = true) →
  ∃ f' r',
    rot_left_heavy k f a ar b_ = Ok (f', r') ∧
    r' = link (ins_rot (F L a ab ad sib) (T bl b_ bb bd brt)) 0 ∧
    repr (view f' k) lo hi (ins_rot (F L a ab ad sib) (T bl b_ bb bd brt)) ∧
    fframe k (nodes (T (T bl b_ bb bd brt) a ab ad sib)) f f' ∧ fwf f'.
Proof.
  intros Hf Hk Hlo Hhi Hr Hnd Ha Hsh.
  pose proof Hr as Hr0.
  simpl in Hr. destruct Hr as (Hva & (Hvb & Hbl & Hbrt) & Hsib).
  destruct (view_slot_eq _ _ _ _ _ _ Ha Hva) as (Hna & Hda).
  apply (view_slot _ _ _ _ _ Hf) in Hvb as (br & Hb & Hrb & Hnb & Hdb & Hbpos).
  assert (0 < a) as Hapos by (by destruct (Hf _ _ Ha)).
  assert (a ≠ b_) as Hab by (clear -Hnd; nd_ne Hnd).
  pose proof (fwf_len _ _ _ _ Hf Ha Hk) as Hla.
  pose proof (fwf_len _ _ _ _ Hf Hb Hk) as Hlb.
  unfold rot_left_heavy, ins_rot. cbn [fdir fx fbal fd fsib].
  rewrite Hrb. cbn [mbind res_mbind res_bind]. rewrite Hnb. cbn [nb nl nr].
  destruct (bb =? 1) eqn:Ebb.
  - rewrite (relink (λ v, set_kl k v ar) f k b_ a brt a b_) by (done || lia).
    set (ar' := set_kb k 0 (set_kl k (link brt b_) ar)).
    set (br' := set_kb k 0 (set_kr k a br)).
    destruct (rmw k [a; b_] f a ar ar') as (Hw1 & Hff1 & Hf1 & Hs1 & Hv1);
      [done|done|by apply eqv_set_kb, eqv_set_kl, eqv_refl|by left|].
    rewrite Hw1. cbn [mbind res_mbind res_bind].
    destruct (rmw k [a; b_] (upd f a ar') b_ br br') as (Hw2 & Hff2 & Hf2 & Hs2 & Hv2);
      [done|by rewrite upd_lookup_ne|by apply eqv_set_kb, eqv_set_kr, eqv_refl
      |by right; left|].
    rewrite Hw2. cbn [mbind res_mbind res_bind].
    eexists _, _. split; [done|]. split; [done|]. split; [|split; [|done]].
    2:{ eapply fframe_mono; [|eapply fframe_trans; [exact Hff1|exact Hff2]].
        sub_nodes. }
    simpl. repeat split.
    + rewrite Hv2. unfold br'. nk_norm. rewrite Hnb. by rewrite Hdb.
    + eapply repr_ext; [|exact Hbl]. nd_ext Hnd.
    + rewrite view_upd_ne, Hv1 by done. unfold ar'. nk_norm. rewrite Hna. by rewrite Hda.
    + eapply repr_ext; [|exact Hbrt]. nd_ext Hnd.
    + eapply repr_ext; [|exact Hsib]. nd_ext Hnd.
  - apply Z.eqb_neq in Ebb. specialize (Hsh Ebb).
    destruct brt as [|cl c cb cd cr]; [done|].
    destruct (rot_double_left_spec k f a ar b_ br lo hi bl bb bd cl c cb cd cr ab ad sib)
      as (f' & cr' & Hrun & Hc' & Hr' & Hff & Hf'); try done.
    unfold rot_double_left. rewrite Hrun. cbn [mbind res_mbind res_bind fst snd].
    eexists _, _. split; [done|]. split; [|split; [done|split; [|done]]].
    + unfold dbl_left. by destruct (dbl_left_bals cb ab bb).
    + eapply fframe_mono; [|exact Hff].
      sub_nodes.
Qed.

Lemma rot_right_heavy_spec k f a ar b_ lo hi bl bb bd brt ab ad sib :
  fwf f → (k < n_keys)%nat → 0 ≤ lo → 0 ≤ hi →
  repr (view f k) lo hi (T sib a ab ad (T bl b_ bb bd brt)) →
  NoDup (nodes (T sib a ab ad (T bl b_ bb bd brt))) →
  slots f !! a = Some ar →
  (bb ≠ -1 → is_T bl = true) →
  ∃ f' r',
    rot_right_heavy k f a ar b_ = Ok (f', r') ∧
    r' = link (ins_rot (F R a ab ad sib) (T bl b_ bb bd brt)) 0 ∧
    repr (view f' k) lo hi (ins_rot (F R a ab ad sib) (T bl b_ bb bd brt)) ∧
    fframe k (nodes (T sib a ab ad (T bl b_ bb bd brt))) f f' ∧ fwf f'.
Proof.
  intros Hf Hk Hlo Hhi Hr Hnd Ha Hsh.
  pose proof Hr as Hr0.
  simpl in Hr. destruct Hr as (Hva & Hsib & Hvb & Hbl & Hbrt).
  destruct (view_slot_eq _ _ _ _ _ _ Ha Hva) as (Hna & Hda).
  apply (view_slot _ _ _ _ _ Hf) in Hvb as (br & Hb & Hrb & Hnb & Hdb & Hbpos).
  assert (0 < a) as Hapos by (by destruct (Hf _ _ Ha)).
  assert (a ≠ b_) as Hab by (clear -Hnd; nd_ne Hnd).
  pose proof (fwf_len _ _ _ _ Hf Ha Hk) as Hla.
  pose proof (fwf_len _ _ _ _ Hf Hb Hk) as Hlb.
  unfold rot_right_heavy, ins_rot. cbn [fdir fx fbal fd fsib].
  rewrite Hrb. cbn [mbind res_mbind res_bind]. rewrite Hnb. cbn [nb nl nr].
  destruct (bb =? -1) eqn:Ebb.
  - rewrite (relink (λ v, set_kr k v ar) f k a b_ bl a b_) by (done || lia).
    set (ar' := set_kb k 0 (set_kr k (link bl b_) ar)).
    set (br' := set_kb k 0 (set_kl k a br)).
    destruct (rmw k [a; b_] f a ar ar') as (Hw1 & Hff1 & Hf1 & Hs1 & Hv1);
      [done|done|by apply eqv_set_kb, eqv_set_kr, eqv_refl|by left|].
    rewrite Hw1. cbn [mbind res_mbind res_bind].
    destruct (rmw k [a; b_] (upd f a ar') b_ br br') as (Hw2 & Hff2 & Hf2 & Hs2 & Hv2);
      [done|by rewrite upd_lookup_ne|by apply eqv_set_kb, eqv_set_kl, eqv_refl
      |by right; left|].
    rewrite Hw2. cbn [mbind res_mbind res_bind].
    eexists _, _. split; [done|]. split; [done|]. split; [|split; [|done]].
    2:{ eapply fframe_mono; [|eapply fframe_trans; [exact Hff1|exact Hff2]].
        sub_nodes. }
    simpl. repeat split.
    + rewrite Hv2. unfold br'. nk_norm. rewrite Hnb. by rewrite Hdb.
    + rewrite view_upd_ne, Hv1 by done. unfold ar'. nk_norm. rewrite Hna. by rewrite Hda.
    + eapply repr_ext; [|exact Hsib]. nd_ext Hnd.
    + eapply repr_ext; [|exact Hbl]. nd_ext Hnd.
    + eapply repr_ext; [|exact Hbrt]. nd_ext Hnd.
  - apply Z.eqb_neq in Ebb. specialize (Hsh Ebb).
    destruct bl as [|cl c cb cd cr]; [done|].
    destruct (rot_double_right_spec k f a ar b_ br lo hi brt bb bd cl c cb cd cr ab ad sib)
      as (f' & cr' & Hrun & Hc' & Hr' & Hff & Hf'); try done.
    unfold rot_double_right. rewrite Hrun. cbn [mbind res_mbind res_bind fst snd].
    eexists _, _. split; [done|]. split; [|split; [done|split; [|done]]].
    + unfold dbl_right. by destruct (dbl_right_bals cb ab bb).
    + eapply fframe_mono; [|exact Hff]. sub_nodes.
Qed.

(** ** One key of an insertion on the file *)

Lemma descend_length k yb c s :
  (length c + (if is_T s then 1 else 0) ≤ length (descend k yb c s))%nat.
Proof.
  revert c. induction s as [|l IHl x bal d r IHr]; intros c; simpl; [lia|].
  destruct (cmp (Z.of_nat k) yb d <? 0).
  - specialize (IHl (F L x bal d r :: c)). destruct (is_T l); simpl in *; lia.
  - specialize (IHr (F R x bal d l :: c)). destruct (is_T r); simpl in *; lia.
Qed.

Lemma plug_is_T c s : is_T s = true → is_T (plug c s) = true.
Proof.
  revert s. induction c as [|g c IH]; intros s Hs; simpl; [done|].
  apply IH. unfold fill. by destruct (fdir g).
Qed.

Lemma height_is_T t : 0 < height t → is_T t = true.
Proof. destruct t; simpl; [lia|done]. Qed.

Lemma set_root_id k h : (k < length (root h))%nat → set_root k (root_k h k) h = h.
Proof.
  intros Hk. unfold set_root, set_roots, root_k. destruct h as [? ? ? ? ? rt ? ? ?].
  simpl in *. f_equal. apply list_insert_id.
  by apply list_lookup_lookup_total_lt.
Qed.

Lemma ins_rot_nodes_sub g sub x :
  x ∈ nodes (ins_rot g sub) → x ∈ nodes (fill g sub).
Proof.
  unfold ins_rot, fill. destruct g as [[] a ab ad sib]; simpl.
  - destruct sub as [|bl b_ bb bd brt]; simpl; [by intros ?%elem_of_nil|].
    destruct (bb =? 1).
    + simpl. repeat (progress (rewrite ?elem_of_app, ?elem_of_cons)). tauto.
    + destruct brt as [|cl c cb cd cr]; simpl; [by intros ?%elem_of_nil|].
      destruct (dbl_left_bals cb ab bb). simpl.
      repeat (progress (rewrite ?elem_of_app, ?elem_of_cons)). tauto.
  - destruct sub as [|bl b_ bb bd brt]; simpl; [by intros ?%elem_of_nil|].
    destruct (bb =? -1).
    + simpl. repeat (progress (rewrite ?elem_of_app, ?elem_of_cons)). tauto.
    + destruct bl as [|cl c cb cd cr]; simpl; [by intros ?%elem_of_nil|].
      destruct (dbl_right_bals cb ab bb). simpl.
      repeat (progress (rewrite ?elem_of_app, ?elem_of_cons)). tauto.
Qed.

(** The new leaf [y] takes the place of the thread that the descent ended
    on, and the parent [q] gets [y] as its child. *)
Lemma ins_link_spec k f y yr g0 c qr :
  fwf f → (k < n_keys)%nat → slots f !! y = Some yr →
  cpos (g0 :: c) →
  repr (view f k) 0 0 (plug (g0 :: c) E) →
  NoDup (y :: nodes (plug (g0 :: c) E)) →
  slots f !! fx g0 = Some qr →
  (fdir g0 = L ↔ cmp (Z.of_nat k) (b yr) (fd g0) < 0) →
  ∃ yr1 qr1,
    (if cmp (Z.of_nat k) (b yr) (b qr) <? 0
     then (set_nk k (mk_node 0 (hlink (g0 :: c) E) (- fx g0)) yr, set_kl k y qr)
     else (set_nk k (mk_node 0 (- fx g0) (hlink (g0 :: c) E)) yr, set_kr k y qr))
    = (yr1, qr1) ∧
    b yr1 = b yr ∧
    lwrite f y yr1 = Ok (upd f y yr1) ∧
    lwrite (upd f y yr1) (fx g0) qr1 = Ok (upd (upd f y yr1) (fx g0) qr1) ∧
    repr (view (upd (upd f y yr1) (fx g0) qr1) k) 0 0 (plug (g0 :: c) (leaf y (b yr))) ∧
    fframe k [y; fx g0] f (upd (upd f y yr1) (fx g0) qr1) ∧
    fwf (upd (upd f y yr1) (fx g0) qr1).
Proof.
  intros Hf Hk Hy Hpos Hr Hnd Hq Hdir.
  apply NoDup_cons in Hnd as [Hyn Hnd].
  pose proof (nodup_plug_cons _ _ _ Hnd) as (_ & Hn2 & Hn3 & _).
  apply repr_plug in Hr as (Hc & _). simpl in Hc. destruct Hc as (Hx & Hsib & Hc).
  destruct (view_slot_eq _ _ _ _ _ _ Hq Hx) as (Hnq & Hdq).
  assert (y ≠ fx g0) as Hyq.
  { intros ->. apply Hyn, elem_of_nodes_plug. right. simpl. by left. }
  assert (∀ x, x ∈ nodes (fsib g0) → x ≠ y) as Hsy.
  { intros x Hx' ->. apply Hyn, elem_of_nodes_plug. right. simpl.
    right. apply elem_of_app. by left. }
  assert (∀ x, x ∈ cnodes c → x ≠ y) as Hcy.
  { intros x Hx' ->. apply Hyn, elem_of_nodes_plug. right. simpl.
    right. apply elem_of_app. by right. }
  pose proof (fwf_len _ _ _ _ Hf Hy Hk) as Hly.
  pose proof (fwf_len _ _ _ _ Hf Hq Hk) as Hlq.
  rewrite Hdq.
  set (yr1 := if cmp (Z.of_nat k) (b yr) (fd g0) <? 0
              then set_nk k (mk_node 0 (hlink (g0 :: c) E) (- fx g0)) yr
              else set_nk k (mk_node 0 (- fx g0) (hlink (g0 :: c) E)) yr).
  set (qr1 := if cmp (Z.of_nat k) (b yr) (fd g0) <? 0
              then set_kl k y qr else set_kr k y qr).
  exists yr1, qr1.
  assert (eqv k yr yr1) as Hey.
  { unfold yr1. destruct (_ <? 0); apply eqv_set_nk. }
  assert (eqv k qr qr1) as Heq.
  { unfold qr1. destruct (_ <? 0); apply eqv_set_nk. }
  destruct (rmw k [y; fx g0] f y yr yr1) as (Hw1 & Hff1 & Hf1 & Hs1 & Hv1);
    [done|done|done|by left|].
  destruct (rmw k [y; fx g0] (upd f y yr1) (fx g0) qr qr1)
    as (Hw2 & Hff2 & Hf2 & Hs2 & Hv2);
    [done|by rewrite upd_lookup_ne|done|by right; left|].
  split; [unfold yr1, qr1; by destruct (_ <? 0)|].
  split; [by destruct Hey as (_ & _ & <- & _)|].
  split; [done|]. split; [done|].
  split; [|split; [by eapply fframe_trans|done]].
  apply repr_plug. split.
  - simpl. split; [|split].
    + rewrite Hv2. f_equal. f_equal; [|done]. unfold qr1.
      destruct (cmp (Z.of_nat k) (b yr) (fd g0) <? 0) eqn:Ec.
      * assert (fdir g0 = L) as Hd by (apply Hdir; by apply Z.ltb_lt).
        nk_norm. rewrite Hnq. unfold fnode, hlink. by rewrite Hd.
      * assert (fdir g0 = R) as Hd.
        { destruct (fdir g0) eqn:Ed; [|done]. apply Z.ltb_ge in Ec.
          assert (cmp (Z.of_nat k) (b yr) (fd g0) < 0) by (by apply Hdir). lia. }
        nk_norm. rewrite Hnq. unfold fnode, hlink. by rewrite Hd.
    + unfold frepr in *.
      destruct (fdir g0); (eapply repr_ext; [|exact Hsib]); intros x Hx';
        rewrite !view_upd_ne; try done; try (by apply not_eq_sym, Hsy);
        by intros <-.
    + eapply crepr_ext; [|exact Hc]. intros x Hx'.
      rewrite !view_upd_ne; try done; try (by apply not_eq_sym, Hcy).
      by intros <-.
  - simpl. split; [|done].
    rewrite view_upd_ne, Hv1 by done. f_equal. f_equal. unfold yr1.
    destruct (cmp (Z.of_nat k) (b yr) (fd g0) <? 0) eqn:Ec.
    + assert (fdir g0 = L) as Hd by (apply Hdir; by apply Z.ltb_lt).
      nk_norm. unfold hlink, hthr. simpl. by rewrite Hd.
    + assert (fdir g0 = R) as Hd.
      { destruct (fdir g0) eqn:Ed; [|done]. apply Z.ltb_ge in Ec.
        assert (cmp (Z.of_nat k) (b yr) (fd g0) < 0) by (by apply Hdir). lia. }
      nk_norm. unfold hlink, hthr. simpl. by rewrite Hd.
Qed.

(** Replacing the subtree in the hole of a context. *)
Lemma repr_plug_replace S S' c s s' :
  repr S 0 0 (plug c s) →
  (∀ x, x ∈ cnodes c → S' x = S x) →
  hlink c s' = hlink c s →
  repr S' (cbounds c).1 (cbounds c).2 s' →
  repr S' 0 0 (plug c s').
Proof.
  intros Hr Hext Hl Hs'. apply repr_plug in Hr as (Hc & _).
  apply repr_plug. split; [|done]. rewrite Hl.
  by eapply crepr_ext.
Qed.

Lemma hlink_T c l x bal d r : hlink c (T l x bal d r) = x.
Proof. done. Qed.

Lemma link_is_T t thr thr' : is_T t = true → link t thr = link t thr'.
Proof. by destruct t. Qed.

Lemma nb_fnode g c child : nb (fnode g c child) = fbal g.
Proof. unfold fnode. by destruct (fdir g). Qed.

(** The shape that the rotations of insert rely on. *)
Definition rot_shape (g : frame) (sub : tree) : Prop :=
  match fdir g, sub with
  | L, T _ _ bb _ brt => bb ≠ 1 → is_T brt = true
  | R, T bl _ bb _ _ => bb ≠ -1 → is_T bl = true
  | _, E => False
  end.

Lemma ins_rot_is_T g sub : rot_shape g sub → is_T (ins_rot g sub) = true.
Proof.
  unfold rot_shape, ins_rot. destruct g as [[] a ab ad sib]; simpl;
    destruct sub as [|bl b_ bb bd brt]; try done; intros Hs.
  - destruct (bb =? 1) eqn:Eb; [done|]. apply Z.eqb_neq in Eb.
    destruct brt; [by specialize (Hs Eb)|]. simpl. by destruct (dbl_left_bals _ _ _).
  - destruct (bb =? -1) eqn:Eb; [done|]. apply Z.eqb_neq in Eb.
    destruct bl; [by specialize (Hs Eb)|]. simpl. by destruct (dbl_right_bals _ _ _).
Qed.

(** The child field of the parent that pointed to [a] now points to [a']. *)
Lemma relink_child k g c a a' fr :
  (k < length (n fr))%nat → nk fr k = fnode g c a →
  (fdir g = R → a ≠ link (fsib g) (cbounds c).1) →
  nk (if a =? nl (nk fr k) then set_kl k a' fr
      else if a =? nr (nk fr k) then set_kr k a' fr
      else fr) k = fnode g c a'.
Proof.
  intros Hl Hn Hne. rewrite Hn. unfold fnode in *.
  destruct (fdir g); cbn [nl nr].
  - rewrite Z.eqb_refl. nk_norm. by rewrite Hn.
  - rewrite (proj2 (Z.eqb_neq _ _)) by auto. rewrite Z.eqb_refl.
    nk_norm. by rewrite Hn.
Qed.

Lemma relink_child_eqv k a a' fr :
  eqv k fr (if a =? nl (nk fr k) then set_kl k a' fr
            else if a =? nr (nk fr k) then set_kr k a' fr
            else fr).
Proof.
  destruct (_ =? _); [apply eqv_set_nk|].
  destruct (_ =? _); [apply eqv_set_nk|apply eqv_refl].
Qed.

Lemma ins_rot_spec k f g sub ar lo hi :
  fwf f → (k < n_keys)%nat → 0 ≤ lo → 0 ≤ hi →
  repr (view f k) lo hi (fill g sub) →
  NoDup (nodes (fill g sub)) →
  slots f !! fx g = Some ar →
  rot_shape g sub →
  ∃ f' r',
    (if dsign (fdir g) =? 1 then rot_left_heavy k f (fx g) ar (link sub 0)
     else rot_right_heavy k f (fx g) ar (link sub 0)) = Ok (f', r') ∧
    r' = link (ins_rot g sub) 0 ∧
    repr (view f' k) lo hi (ins_rot g sub) ∧
    fframe k (nodes (fill g sub)) f f' ∧ fwf f'.
Proof.
  intros Hf Hk Hlo Hhi Hr Hnd Ha Hsh.
  destruct g as [[] a ab ad sib]; destruct sub as [|bl b_ bb bd brt]; try done;
    unfold fill, rot_shape in *; cbn [fdir fx fbal fd fsib dsign link] in *.
  - change (1 =? 1) with true. cbn iota.
    by apply rot_left_heavy_spec.
  - change (-1 =? 1) with false. cbn iota.
    by apply rot_right_heavy_spec.
Qed.

(** Writing a new balance into the node at the head of a context. *)
Lemma set_bal_spec k f g above sub ar v :
  fwf f → (k < n_keys)%nat →
  repr (view f k) 0 0 (plug (g :: above) sub) →
  NoDup (nodes (plug (g :: above) sub)) →
  slots f !! fx g = Some ar →
  lwrite f (fx g) (set_kb k v ar) = Ok (upd f (fx g) (set_kb k v ar)) ∧
  repr (view (upd f (fx g) (set_kb k v ar)) k) 0 0 (plug (set_fbal v g :: above) sub) ∧
  fframe k [fx g] f (upd f (fx g) (set_kb k v ar)) ∧
  fwf (upd f (fx g) (set_kb k v ar)).
Proof.
  intros Hf Hk Hr Hnd Ha.
  pose proof (nodup_plug_cons _ _ _ Hnd) as (Hn1 & Hn2 & Hn3 & _).
  pose proof (fwf_len _ _ _ _ Hf Ha Hk) as Hla.
  destruct (rmw k [fx g] f (fx g) ar (set_kb k v ar)) as (Hw & Hff & Hf1 & Hs1 & Hv1);
    [done|done|apply eqv_set_nk|by left|].
  split; [done|]. split; [|done].
  apply repr_plug in Hr as (Hc & Hs). simpl in Hc. destruct Hc as (Hx & Hsib & Hc).
  destruct (view_slot_eq _ _ _ _ _ _ Ha Hx) as (Hna & Hda).
  apply repr_plug. split.
  - simpl. split; [|split].
    + rewrite Hv1. nk_norm. rewrite Hna, Hda, fnode_set_fbal.
      by destruct g as [[] ? ? ? ?].
    + unfold frepr in *. destruct g as [[] a ab ad sib]; simpl in *;
        (eapply repr_ext; [|exact Hsib]); intros x Hx';
        apply view_upd_ne; by intros <-.
    + eapply crepr_ext; [|exact Hc]. intros x Hx'.
      apply view_upd_ne. by intros <-.
  - destruct g as [[] a ab ad sib]; simpl in *;
      (eapply repr_ext; [|exact Hs]); intros x Hx';
      apply view_upd_ne; by intros <-.
Qed.

Lemma link_plug_cons g c s s' thr thr' :
  link (plug (g :: c) s) thr = link (plug c (fill (set_fbal thr' g) s')) thr.
Proof.
  simpl. rewrite !link_plug. destruct (last c); [done|].
  unfold fill. by destruct g as [[] ? ? ? ?].
Qed.

Lemma ins_rebalance_spec k f h g above sub ar fr :
  fwf f → (k < n_keys)%nat → (k < length (root h))%nat →
  cpos (g :: above) →
  repr (view f k) 0 0 (plug (g :: above) sub) →
  NoDup (nodes (plug (g :: above) sub)) →
  slots f !! fx g = Some ar →
  (above ≠ [] → slots f !! hdx above = Some fr) →
  (fbal g = 0 → above = []) →
  root_k h k = link (plug (g :: above) sub) 0 →
  is_T sub = true →
  (fbal g ≠ 0 → fbal g + dsign (fdir g) ≠ 0 → rot_shape g sub) →
  ∃ f', ins_rebalance f h k (fx g) ar (dsign (fdir g)) (link sub 0) (hdx above) fr
        = Ok (f', set_root k (link (plug above (settle g sub)) 0) h) ∧
        repr (view f' k) 0 0 (plug above (settle g sub)) ∧
        fframe k (nodes (plug (g :: above) sub)) f f' ∧ fwf f'.
Proof.
  intros Hf Hk Hkr Hpos Hr Hnd Ha Hfr Hab Hroot HT Hshape.
  inversion Hpos as [|? ? Hgpos Hapos]; subst.
  pose proof (cbounds_nonneg _ Hapos) as [Hlo Hhi].
  pose proof (nodup_plug_cons _ _ _ Hnd) as (Hn1 & Hn2 & Hn3 & Hn4 & Hn5 & Hn6 & Hn7 & Hn8).
  pose proof Hr as Hr0. simpl in Hr.
  apply repr_plug in Hr as (Hc & Hs).
  pose proof (fwf_len _ _ _ _ Hf Ha Hk) as Hla.
  assert (nk ar k = fnode g above (link sub 0) ∧ b ar = fd g) as [Hna Hda].
  { apply repr_plug in Hr0 as (Hc0 & _). simpl in Hc0. destruct Hc0 as (Hx & _).
    destruct (view_slot_eq _ _ _ _ _ _ Ha Hx) as (-> & ->). split; [|done].
    f_equal. unfold hlink. by apply link_is_T. }
  assert (nodes (plug (g :: above) sub) ≡ₚ nodes (fill g sub) ++ cnodes above) as Hperm.
  { simpl. apply nodes_plug. }
  assert (NoDup (nodes (fill g sub))) as Hndl.
  { rewrite Hperm in Hnd. by apply NoDup_app in Hnd as (? & _). }
  assert (∀ x, x ∈ cnodes above → x ∉ nodes (fill g sub)) as Hdisj.
  { rewrite Hperm in Hnd. apply NoDup_app in Hnd as (_ & Hd & _).
    intros x Hx Hx'. by apply (Hd x). }
  assert (fx g ∈ nodes (plug (g :: above) sub)) as Hgin.
  { apply elem_of_nodes_plug. right. by left. }
  assert (∀ v, set_root k (link (plug above (fill (set_fbal v g) sub)) 0) h = h) as Hsame.
  { intros v. rewrite <- (link_plug_cons g above sub sub 0 v), <- Hroot.
    by apply set_root_id. }
  unfold ins_rebalance, ins_settle, settle, mark. rewrite Hna, nb_fnode.
  destruct (fbal g =? 0) eqn:E0.
  - destruct (set_bal_spec k f g above sub ar (dsign (fdir g))) as (Hw & Hr1 & Hff & Hf1);
      try done.
    rewrite Hw. cbn [mbind res_mbind res_bind]. nk_norm. rewrite Hna.
    cbn [nb set_b].
    replace (dsign (fdir g) + dsign (fdir g) =? 0) with false
      by (by destruct (fdir g)).
    eexists. split; [by rewrite (Hsame (dsign (fdir g)))|].
    split; [done|]. split; [|done].
    eapply fframe_mono; [|exact Hff]. sub_nodes.
  - cbn [mbind res_mbind res_bind]. rewrite Hna, nb_fnode.
    destruct (fbal g + dsign (fdir g) =? 0) eqn:E1.
    + destruct (set_bal_spec k f g above sub ar 0) as (Hw & Hr1 & Hff & Hf1);
        try done.
      rewrite Hw. cbn [mbind res_mbind res_bind].
      eexists. split; [by rewrite (Hsame 0)|].
      split; [done|]. split; [|done].
      eapply fframe_mono; [|exact Hff]. sub_nodes.
    + apply Z.eqb_neq in E0, E1. specialize (Hshape E0 E1).
      destruct (ins_rot_spec k f g sub ar _ _ Hf Hk Hlo Hhi Hs Hndl Ha Hshape)
        as (f' & r' & Hrun & Hr' & Hrep & Hff & Hf').
      subst r'. set (r' := link (ins_rot g sub) 0) in *.
      cbn [mbind res_mbind res_bind]. rewrite Hrun. cbn [mbind res_mbind res_bind].
      pose proof (ins_rot_is_T _ _ Hshape) as HT'.
      destruct above as [|g1 above'].
      * simpl. eexists. split; [done|]. split; [done|]. split; [|done].
        simpl in Hff. done.
      * inversion Hapos as [|? ? Hg1pos Hapos']; subst.
        cbn [hdx]. rewrite (proj2 (Z.eqb_neq _ _)) by lia.
        specialize (Hfr ltac:(done)). cbn [hdx] in Hfr.
        simpl in Hc. destruct Hc as (Hx1 & Hsib1 & Hc1).
        destruct (view_slot_eq _ _ _ _ _ _ Hfr Hx1) as (Hnf & Hdf).
        assert (hlink (g1 :: above') (fill g sub) = fx g) as Hhl.
        { unfold hlink, fill. by destruct (fdir g). }
        rewrite Hhl in Hnf.
        assert (fx g1 ∉ nodes (fill g sub)) as Hg1.
        { apply Hdisj. by left. }
        assert (slots f' !! fx g1 = Some fr) as Hfr'.
        { destruct Hff as (_ & _ & Ho & _). by rewrite Ho. }
        pose proof (fwf_len _ _ _ _ Hf Hfr Hk) as Hlf.
        set (fr' := if fx g =? nl (nk fr k) then set_kl k r' fr
                    else if fx g =? nr (nk fr k) then set_kr k r' fr else fr).
        assert (nk fr' k = fnode g1 above' r') as Hnf'.
        { apply relink_child; [done|done|]. intros Hd.
          destruct (fsib g1) as [|sl sx sb sd sr] eqn:Es; simpl.
          - pose proof (cbounds_nonneg _ Hapos'). lia.
          - intros Heq. apply Hn3. simpl. right. rewrite Es. simpl.
            rewrite Heq. apply elem_of_app. left. apply elem_of_app. right. by left. }
        destruct (rmw k (nodes (plug (g :: g1 :: above') sub)) f' (fx g1) fr fr')
          as (Hw2 & Hff2 & Hf2 & Hs2 & Hv2);
          [done|done|apply relink_child_eqv| |].
        { apply elem_of_nodes_plug. right. right. apply elem_of_app. right. by left. }
        rewrite Hw2. cbn [mbind res_mbind res_bind].
        eexists. split; [|split; [|split; [|done]]].
        -- f_equal. f_equal. symmetry.
           replace (link (plug (g1 :: above') (ins_rot g sub)) 0) with (root_k h k).
           ++ by apply set_root_id.
           ++ rewrite Hroot. change (plug (g :: g1 :: above') sub)
                with (plug (g1 :: above') (fill g sub)).
              rewrite !link_plug.
              destruct (last (g1 :: above')) eqn:El; [done|]. by apply last_None in El.
        -- assert (NoDup (cnodes (g1 :: above'))) as Hnd1 by done.
           simpl in Hnd1. apply NoDup_cons in Hnd1 as [Hg1a Hnd1].
           apply repr_plug. split.
           ++ simpl. split; [|split].
              ** rewrite Hv2, Hnf', Hdf. do 3 f_equal.
                 unfold hlink, r'. by apply link_is_T.
              ** unfold frepr in *. destruct (fdir g1);
                   (eapply repr_ext; [|exact Hsib1]); intros x Hx;
                   (rewrite view_upd_ne;
                    [apply (fframe_view_out _ _ _ _ _ Hff), Hdisj; simpl;
                     right; apply elem_of_app; by left
                    |intros <-; apply Hg1a, elem_of_app; by left]).
              ** eapply crepr_ext; [|exact Hc1]. intros x Hx.
                 rewrite view_upd_ne;
                   [apply (fframe_view_out _ _ _ _ _ Hff), Hdisj; simpl;
                    right; apply elem_of_app; by right
                   |intros <-; apply Hg1a, elem_of_app; by right].
           ++ eapply repr_ext; [|exact Hrep]. intros x Hx.
              apply view_upd_ne. intros <-. by apply Hg1, ins_rot_nodes_sub.
        -- eapply fframe_trans; [|exact Hff2].
           eapply fframe_mono; [|exact Hff]. intros x Hx.
           change (plug (g :: g1 :: above') sub) with (plug (g1 :: above') (fill g sub)).
           apply elem_of_nodes_plug. by left.
Qed.

Lemma descend_height k yb c s :
  Z.of_nat (length (descend k yb c s)) ≤ Z.of_nat (length c) + height s.
Proof.
  revert c. induction s as [|l IHl x bal d r IHr]; intros c; simpl; [lia|].
  pose proof (height_nonneg l). pose proof (height_nonneg r).
  destruct (cmp (Z.of_nat k) yb d <? 0).
  - specialize (IHl (F L x bal d r :: c)). simpl in IHl. lia.
  - specialize (IHr (F R x bal d l :: c)). simpl in IHr. lia.
Qed.

Lemma rot_shape_grow g below y yb :
  Forall (λ g, fbal g = 0) below → avl (fill g (plug below E)) →
  fbal g ≠ 0 → fbal g + dsign (fdir g) ≠ 0 →
  rot_shape g (plug (mark <$> below) (leaf y yb)).
Proof.
  intros Hz Hg Hn0 Hn1.
  pose proof (proj1 (avl_fill_inv _ _ Hg)) as Hb.
  destruct (avl_grow below E (leaf y yb) Hz Hb) as (Hm & Hmh); [simpl; lia|done|].
  assert (root_bal (plug (mark <$> below) (leaf y yb)) ≠ 0) as Hrb.
  { apply root_bal_plug_mark. intros ->. simpl in *.
    unfold fill in Hg. destruct g as [[] a ab ad sib]; simpl in *;
      pose proof (height_nonneg sib); lia. }
  pose proof (height_nonneg (plug below E)) as Hh.
  destruct (plug (mark <$> below) (leaf y yb)) as [|bl b_ bb bd brt]; [done|].
  simpl in Hrb, Hm, Hmh.
  pose proof (height_nonneg bl). pose proof (height_nonneg brt).
  unfold rot_shape. destruct (fdir g); intros Hne; apply height_is_T; lia.
Qed.

Lemma link_plug_mark c s thr : link (plug (mark <$> c) s) thr = link (plug c s) thr.
Proof.
  rewrite !link_plug, fmap_last. by destruct (last c).
Qed.

Lemma fx_cnodes c x : x ∈ fx <$> c → x ∈ cnodes c.
Proof.
  induction c as [|g c IH]; csimpl; [done|].
  rewrite !elem_of_cons, elem_of_app. tauto.
Qed.

Lemma nodes_plug_mark below c1 s :
  nodes (plug ((mark <$> below) ++ c1) s) ≡ₚ nodes (plug (below ++ c1) s).
Proof. by rewrite !nodes_plug, !cnodes_app, cnodes_mark. Qed.

Lemma hdx_cnodes c : c ≠ [] → hdx c ∈ cnodes c.
Proof. destruct c; [done|]. intros _. by left. Qed.

(** The body of the loop over the keys puts [y] into the tree of key [k]
    as [tins] does. *)
Lemma ins_key_spec f h y k yr t fuel :
  fwf f → (k < n_keys)%nat → slots f !! y = Some yr →
  repr (view f k) 0 0 t → NoDup (y :: nodes t) → avl t →
  root_k h k = link t 0 → (k < length (root h))%nat →
  (Z.to_nat (height t) + 1 < fuel)%nat →
  ∃ f', ins_key fuel f h y k = Ok (f', set_root k (link (tins k y (b yr) t) 0) h) ∧
        repr (view f' k) 0 0 (tins k y (b yr) t) ∧
        fframe k (y :: nodes t) f f' ∧ fwf f'.
Proof.
  intros Hf Hk Hy Hr Hnd Havl Hroot Hkr Hfu.
  unfold ins_key. rewrite (lread_ok f y yr Hf Hy). cbn [mbind res_mbind res_bind].
  rewrite Hroot.
  pose proof (fwf_len _ _ _ _ Hf Hy Hk) as Hly.
  destruct t as [|l x bal d r].
  { change (0 <? link E 0) with false. cbn iota.
    destruct (rmw k [y] f y yr (set_nk k (mk_node 0 0 0) yr)) as (Hw & Hff & Hf1 & Hs1 & Hv1);
      [done|done|apply eqv_set_nk|by left|].
    rewrite Hw. cbn [mbind res_mbind res_bind].
    eexists. split; [done|]. split; [|split; [|done]].
    - unfold tins. simpl. split; [|done]. rewrite Hv1. by nk_norm.
    - done. }
  pose proof (repr_root_pos _ _ _ _ _ _ _ _ _ Hf Hr) as Hxpos.
  cbn [link]. rewrite (proj2 (Z.ltb_lt _ _) Hxpos).
  unfold ins_key_nonempty.
  pose proof Hr as Hr0. simpl in Hr. destruct Hr as (Hvx & _).
  apply (view_slot _ _ _ _ _ Hf) in Hvx as (ar0 & Hax & Hrdx & _).
  rewrite Hrdx. cbn [mbind res_mbind res_bind].
  set (t := T l x bal d r) in *.
  destruct (ins_descend_spec f k (b yr) x t Hf [] (mk_iv x 0 uninit x ar0 0 uninit) fuel)
    as (v & Hrun & Hdinv & Hcpos); [constructor|done|lia|by repeat split|].
  rewrite Hrun. cbn [mbind res_mbind res_bind].
  set (c := descend k (b yr) [] t) in *.
  assert (Forall (λ g, fdir g = L ↔ cmp (Z.of_nat k) (b yr) (fd g) < 0) c) as Hdirs
    by (apply descend_dirs; constructor).
  assert (plug c E = t) as Hplug by apply (descend_plug k (b yr) [] t).
  assert (Z.of_nat (length c) ≤ height t) as Hclen
    by (unfold c; pose proof (descend_height k (b yr) [] t) as Hdh;
        cbn [length Z.of_nat] in Hdh; lia).
  assert (c ≠ []) as Hcne.
  { pose proof (descend_length k (b yr) [] t) as Hl.
    intros Hc. fold c in Hl. rewrite Hc in Hl. simpl in Hl. lia. }
  destruct Hdinv as (Hp & Hq & Hqr & Har & Ha). specialize (Hqr Hcne).
  destruct (asplit c) as [[[below g] above]|] eqn:Es; [|by apply asplit_None in Es].
  destruct Ha as (Ha & Hf_ & Hfr).
  pose proof (asplit_spec _ _ _ _ Es) as (Hc & Hz & Hab).
  destruct c as [|g0 c'] eqn:Ec; [done|]. rewrite <- Ec in *.
  assert (hdx c = fx g0) as Hhd by (by rewrite Ec).
  rewrite Hhd in Hq. rewrite Hq in Hqr.
  destruct (ins_link_spec k f y yr g0 c' (iv_qr v)) as
    (yr1 & qr1 & Hif & Hby & Hw1 & Hw2 & Hr1 & Hff1 & Hf1); try done.
  { by rewrite <- Ec. }
  { by rewrite <- Ec, Hplug. }
  { by rewrite <- Ec, Hplug. }
  { rewrite Ec in Hdirs. by inversion Hdirs. }
  rewrite <- Ec in *.
  rewrite Hp, Hq, Hif, Hw1. cbn [mbind res_mbind res_bind].
  rewrite Hw2. cbn [mbind res_mbind res_bind].
  set (f1 := upd (upd f y yr1) (fx g0) qr1) in *.
  rewrite Ha, Hf_, Hby. rewrite Hf_ in Hfr.
  assert (nodes t ≡ₚ cnodes c) as Hpt by (by rewrite <- Hplug, nodes_plug).
  assert (NoDup (y :: cnodes below ++ fx g :: nodes (fsib g) ++ cnodes above)) as Hndc.
  { rewrite Hpt, Hc, cnodes_app in Hnd. exact Hnd. }
  assert (NoDup (nodes (plug c (leaf y (b yr))))) as Hnd1.
  { rewrite nodes_plug. simpl. by rewrite <- Hpt. }
  pose proof Hr1 as Hr1'. rewrite Hc, plug_app in Hr1'.
  apply repr_plug in Hr1' as (Hcg & _). simpl in Hcg. destruct Hcg as (Hvg & _).
  apply (view_slot _ _ _ _ _ Hf1) in Hvg as (ar1 & Hag & Hrdg & Hng & Hdg & Hgpos).
  rewrite Hrdg. cbn [mbind res_mbind res_bind]. rewrite Hdg.
  assert (fdir g = L ↔ cmp (Z.of_nat k) (b yr) (fd g) < 0) as Hdg'.
  { rewrite Hc in Hdirs. apply Forall_app in Hdirs as [_ Hd]. by inversion Hd. }
  set (sub0 := plug below (leaf y (b yr))) in *.
  assert (is_T sub0 = true) as HT0 by (by apply plug_is_T).
  assert ((if cmp (Z.of_nat k) (b yr) (fd g) <? 0 then (nl (nk ar1 k), 1)
           else (nr (nk ar1 k), -1)) = (link sub0 0, dsign (fdir g))) as Hpd.
  { rewrite Hng. unfold fnode, hlink.
    destruct (cmp (Z.of_nat k) (b yr) (fd g) <? 0) eqn:Ecg.
    - assert (fdir g = L) as Hd by (apply Hdg'; by apply Z.ltb_lt).
      rewrite Hd. simpl. f_equal. by apply link_is_T.
    - assert (fdir g = R) as Hd.
      { destruct (fdir g) eqn:Ed; [|done]. apply Z.ltb_ge in Ecg.
        assert (cmp (Z.of_nat k) (b yr) (fd g) < 0) by (by apply Hdg'). lia. }
      rewrite Hd. simpl. f_equal. by apply link_is_T. }
  rewrite Hpd.
  destruct (ins_mark_spec k (b yr) y E 0 (b yr) E below Hk (g :: above) f1 fuel)
    as (f2 & Hrun2 & Hr2 & Hff2 & Hf2).
  { done. }
  { rewrite Hc in Hdirs. by apply Forall_app in Hdirs as [? _]. }
  { rewrite <- Hc. exact Hr1. }
  { rewrite <- Hc. exact Hnd1. }
  { rewrite Hc, length_app in Hclen. cbn [length] in Hclen. lia. }
  change (T E y 0 (b yr) E) with (leaf y (b yr)) in *. fold sub0 in Hrun2.
  rewrite Hrun2. cbn [mbind res_mbind res_bind].
  set (sub := plug (mark <$> below) (leaf y (b yr))) in *.
  assert (link sub0 0 = link sub 0) as Hls by (symmetry; apply link_plug_mark).
  rewrite Hls.
  assert (nodes (plug (g :: above) sub) ≡ₚ y :: nodes t) as Hperm.
  { unfold sub. rewrite <- plug_app, nodes_plug_mark, <- Hc, nodes_plug.
    rewrite Hpt. reflexivity. }
  assert (avl (fill g (plug below E))) as Hag'.
  { rewrite <- Hplug, Hc, plug_app in Havl. simpl in Havl.
    by apply avl_plug_inv in Havl. }
  destruct (ins_rebalance_spec k f2 h g above sub ar1 (iv_fr v))
    as (f' & Hrun3 & Hr3 & Hff3 & Hf3).
  { done. }
  { done. }
  { done. }
  { rewrite Hc in Hcpos. by apply Forall_app in Hcpos as [_ ?]. }
  { by rewrite plug_app in Hr2. }
  { by rewrite Hperm. }
  { destruct Hff2 as (_ & _ & Ho & _). rewrite Ho; [done|].
    intros Hin%fx_cnodes. clear -Hndc Hin. nd_at Hndc (fx g). }
  { intros Hne. pose proof (hdx_cnodes _ Hne) as Hin.
    destruct Hff2 as (_ & _ & Ho2 & _). destruct Hff1 as (_ & _ & Ho1 & _).
    rewrite Ho2, Ho1; [by apply Hfr| |].
    - intros [Heqy|[Heq|[]%elem_of_nil]%elem_of_cons]%elem_of_cons.
      + rewrite Heqy in Hin. clear -Hndc Hin. nd_at Hndc y.
      + assert (fx g0 ∈ cnodes below ∨ fx g0 = fx g) as Hg0.
        { rewrite Ec in Hc. destruct below as [|g' below']; simpl in Hc.
          - right. congruence.
          - left. injection Hc as -> _. by left. }
        rewrite <- Heq in Hg0. clear -Hndc Hin Hg0. nd_at Hndc (hdx above).
    - intros Hin2%fx_cnodes. clear -Hndc Hin Hin2. nd_at Hndc (hdx above). }
  { done. }
  { rewrite Hroot, <- Hplug, Hc, plug_app. simpl. rewrite !link_plug.
    destruct (last above); [done|]. unfold fill. by destruct (fdir g). }
  { by apply plug_is_T. }
  { by apply rot_shape_grow. }
  rewrite Hrun3. exists f'. unfold tins. fold c. rewrite Es. fold sub.
  split; [done|]. split; [done|]. split; [|done].
  eapply fframe_trans; [|eapply fframe_trans].
  - eapply fframe_mono; [|exact Hff1]. intros z Hz'.
    rewrite Hpt.
    apply elem_of_cons in Hz' as [->|Hz']; [by left|].
    apply list_elem_of_singleton in Hz' as ->. right. rewrite <- Hhd.
    by apply hdx_cnodes.
  - eapply fframe_mono; [|exact Hff2]. intros z Hz'%fx_cnodes.
    right. rewrite Hpt, Hc, cnodes_app. apply elem_of_app. by left.
  - eapply fframe_mono; [|exact Hff3]. intros z Hz'. by rewrite <- Hperm.
Qed.

(** ** All the keys of an insertion *)

(** [kframe X f f']: from [f] to [f'], only tree nodes of the records at
    the offsets [X] have changed. *)
Definition kframe (X : list Z) (f f' : file) : Prop :=
  hdr f' = hdr f ∧ flen f' = flen f ∧
  (∀ x, x ∉ X → slots f' !! x = slots f !! x) ∧
  (∀ x s, slots f !! x = Some s →
          ∃ s', slots f' !! x = Some s' ∧ prev s' = prev s ∧ next s' = next s ∧
                b s' = b s ∧ length (n s') = length (n s)) ∧
  (∀ x, slots f !! x = None → slots f' !! x = None).

Lemma kframe_refl X f : kframe X f f.
Proof. repeat split; try done. intros x s Hs. by exists s. Qed.

Lemma kframe_trans X f1 f2 f3 : kframe X f1 f2 → kframe X f2 f3 → kframe X f1 f3.
Proof.
  intros (Hh1 & Hl1 & Ho1 & He1 & Hn1) (Hh2 & Hl2 & Ho2 & He2 & Hn2).
  split; [congruence|]. split; [congruence|]. split; [|split].
  - intros x Hx. rewrite Ho2, Ho1; done.
  - intros x s Hs. destruct (He1 _ _ Hs) as (s1 & Hs1 & ? & ? & ? & ?).
    destruct (He2 _ _ Hs1) as (s2 & Hs2 & ? & ? & ? & ?).
    exists s2. repeat split; congruence.
  - intros x Hx. by apply Hn2, Hn1.
Qed.

Lemma fframe_kframe k X Y f f' : fframe k X f f' → X ⊆ Y → kframe Y f f'.
Proof.
  intros (Hh & Hl & Ho & He & Hn) Hsub.
  split; [done|]. split; [done|]. split; [|split; [|done]].
  - intros x Hx. apply Ho. intros Hx'. by apply Hx, Hsub.
  - intros x s Hs. destruct (He _ _ Hs) as (s' & Hs' & Hp & Hnx & Hb & Hlen & _).
    exists s'. repeat split; congruence.
Qed.

Lemma root_k_set_root_eq k v h : (k < length (root h))%nat → root_k (set_root k v h) k = v.
Proof.
  intros Hk. unfold root_k, set_root. simpl.
  apply list_lookup_total_correct. by apply list_lookup_insert_eq.
Qed.

Lemma root_k_set_root_ne k j v h : j ≠ k → root_k (set_root k v h) j = root_k h j.
Proof.
  intros Hne. unfold root_k, set_root. simpl.
  by rewrite list_lookup_total_insert_ne.
Qed.

(** The header [h'] is [h] with other roots for the keys in [ks]. *)
Definition roots_changed (ks : list nat) (h h' : hdr_struct) : Prop :=
  h' = set_roots (root h') h ∧ length (root h') = length (root h) ∧
  ∀ j, j ∉ ks → root_k h' j = root_k h j.

Lemma roots_changed_refl ks h : roots_changed ks h h.
Proof. split; [by destruct h|done]. Qed.

Lemma roots_changed_set_root k v ks h h' :
  roots_changed ks (set_root k v h) h' → roots_changed (k :: ks) h h'.
Proof.
  intros (Hh & Hl & Hr). split; [|split].
  - rewrite Hh at 1. done.
  - rewrite Hl. unfold set_root. simpl. by rewrite length_insert.
  - intros j Hj. apply not_elem_of_cons in Hj as [Hjk Hj].
    rewrite Hr by done. by apply root_k_set_root_ne.
Qed.

Lemma ins_keys_spec fuel y b0 X (ts : nat → tree) ks :
  NoDup ks →
  ∀ f h yr,
    fwf f → slots f !! y = Some yr → b yr = b0 →
    (∀ k, k ∈ ks →
       (k < n_keys)%nat ∧ (k < length (root h))%nat ∧
       repr (view f k) 0 0 (ts k) ∧ NoDup (y :: nodes (ts k)) ∧
       y :: nodes (ts k) ⊆ X ∧ avl (ts k) ∧ root_k h k = link (ts k) 0 ∧
       (Z.to_nat (height (ts k)) + 1 < fuel)%nat) →
    ∃ f' h',
      ins_keys fuel f h y ks = Ok (f', h') ∧ fwf f' ∧ kframe X f f' ∧
      (∀ j x, j ∉ ks → view f' j x = view f j x) ∧
      roots_changed ks h h' ∧
      ∀ k, k ∈ ks →
        repr (view f' k) 0 0 (tins k y b0 (ts k)) ∧
        root_k h' k = link (tins k y b0 (ts k)) 0.
Proof.
  induction 1 as [|k ks Hk Hnd IH]; intros f h yr Hf Hy Hb Hall.
  - exists f, h. simpl. split; [done|]. split; [done|]. split; [apply kframe_refl|].
    split; [done|]. split; [apply roots_changed_refl|]. by intros k ?%elem_of_nil.
  - destruct (Hall k) as (Hkn & Hkr & Hr & Hndk & Hsub & Havl & Hroot & Hfu); [by left|].
    destruct (ins_key_spec f h y k yr (ts k) fuel) as (f1 & Hrun & Hr1 & Hff & Hf1);
      try done.
    pose proof Hff as (_ & _ & _ & He & _).
    destruct (He _ _ Hy) as (yr1 & Hy1 & Hev).
    assert (b yr1 = b0) as Hb1 by (destruct Hev as (_ & _ & <- & _); done).
    destruct (IH f1 (set_root k (link (tins k y (b yr) (ts k)) 0) h) yr1)
      as (f' & h' & Hrun' & Hf' & Hkf & Hview & Hrc & Hall'); try done.
    { intros k' Hk'. destruct (Hall k') as (? & ? & ? & ? & ? & ? & ? & ?); [by right|].
      assert (k' ≠ k) as Hne by (by intros ->).
      split; [done|]. split; [by unfold set_root; simpl; rewrite length_insert|].
      split; [|split; [done|split; [done|split; [done|split; [|done]]]]].
      - eapply repr_ext; [|done]. intros x _. by eapply fframe_view_other.
      - by rewrite root_k_set_root_ne. }
    exists f', h'. cbn [ins_keys]. rewrite Hrun. cbn [mbind res_mbind res_bind].
    split; [done|]. split; [done|]. split; [|split; [|split]].
    + eapply kframe_trans; [|done]. by eapply fframe_kframe.
    + intros j x Hj. apply not_elem_of_cons in Hj as [Hjk Hj].
      rewrite Hview by done. by eapply fframe_view_other.
    + by eapply roots_changed_set_root.
    + intros k' [->|Hk']%elem_of_cons.
      * rewrite <- Hb. split.
        -- eapply repr_ext; [|done]. intros x _. by apply Hview.
        -- destruct Hrc as (_ & _ & Hrc). rewrite Hrc by done.
           by apply root_k_set_root_eq.
      * by apply Hall'.
Qed.

(** ** The lists of the file *)

Lemma chain_next_ext f f' p L :
  (∀ x s, x ∈ L → slots f !! x = Some s →
          ∃ s', slots f' !! x = Some s' ∧ next s' = next s) →
  chain f p L → chain f' p L.
Proof.
  revert p. induction L as [|x L IH]; intros p Hext Hc; simpl in *; [done|].
  destruct Hc as (-> & s & Hs & Hc). split; [done|].
  destruct (Hext x s) as (s' & Hs' & Hn); [by left|done|].
  exists s'. split; [done|]. rewrite Hn. apply IH; [|done].
  intros z sz Hz. apply Hext. by right.
Qed.

Lemma chain_ext f f' p L :
  (∀ x, x ∈ L → slots f' !! x = slots f !! x) → chain f p L → chain f' p L.
Proof.
  intros Hext. apply chain_next_ext. intros x s Hx Hs. exists s.
  by rewrite Hext.
Qed.

Lemma dchain_ext f f' pv p L :
  (∀ x s, x ∈ L → slots f !! x = Some s →
          ∃ s', slots f' !! x = Some s' ∧ next s' = next s ∧ prev s' = prev s) →
  dchain f pv p L → dchain f' pv p L.
Proof.
  revert pv p. induction L as [|x L IH]; intros pv p Hext Hc; simpl in *; [done|].
  destruct Hc as (-> & s & Hs & Hp & Hc). split; [done|].
  destruct (Hext x s) as (s' & Hs' & Hn & Hp'); [by left|done|].
  exists s'. split; [done|]. split; [congruence|]. rewrite Hn. apply IH; [|done].
  intros z sz Hz. apply Hext. by right.
Qed.

Lemma chain_slots f p L x : chain f p L → x ∈ L → is_Some (slots f !! x).
Proof.
  revert p. induction L as [|z L IH]; intros p Hc Hx; [by apply elem_of_nil in Hx|].
  simpl in Hc. destruct Hc as (-> & s & Hs & Hc).
  apply elem_of_cons in Hx as [->|Hx]; [by exists s|by eapply IH].
Qed.

Lemma dchain_chain f pv p L : dchain f pv p L → chain f p L.
Proof.
  revert pv p. induction L as [|z L IH]; intros pv p Hc; simpl in *; [done|].
  destruct Hc as (-> & s & Hs & _ & Hc). split; [done|]. exists s. split; [done|].
  by eapply IH.
Qed.

Lemma chain_head_pos f p L : fwf f → chain f p L → (0 <? p) = negb (p =? 0).
Proof.
  intros Hf Hc. destruct L as [|x L]; simpl in Hc.
  - by subst.
  - destruct Hc as (-> & s & Hs & _). destruct (Hf _ _ Hs) as (Hx & _).
    rewrite (proj2 (Z.ltb_lt _ _)) by done. by rewrite (proj2 (Z.eqb_neq _ _)) by lia.
Qed.

Lemma chain_nil f p L : fwf f → chain f p L → p = 0 → L = [].
Proof.
  intros Hf Hc ->. destruct L as [|x L]; [done|]. simpl in Hc.
  destruct Hc as (<- & s & Hs & _). destruct (Hf _ _ Hs). lia.
Qed.

Lemma chain_cons f p L : fwf f → chain f p L → p ≠ 0 → ∃ L', L = p :: L'.
Proof.
  intros Hf Hc Hp. destruct L as [|x L]; [done|]. simpl in Hc.
  destruct Hc as (-> & _). by exists L.
Qed.

(** ** Sizes *)

Lemma height_le_nodes t : height t ≤ Z.of_nat (length (nodes t)).
Proof.
  induction t as [|l IHl x bal d r IHr]; simpl; [lia|].
  rewrite length_app. simpl. lia.
Qed.

Lemma nodup_length_size (m : gmap Z avl_struct) (L : list Z) :
  NoDup L → (∀ x, x ∈ L → is_Some (m !! x)) → (length L ≤ size m)%nat.
Proof.
  intros Hnd Hin. rewrite <- (size_dom (D := gset Z)).
  rewrite <- (size_list_to_set (C := gset Z) L) by done.
  apply subseteq_size. intros x Hx%elem_of_list_to_set.
  by apply elem_of_dom, Hin.
Qed.

(** Writing a record at or before the end of the file. *)
Lemma lwrite_upto f x s :
  x ≤ flen f →
  lwrite f x s = Ok (mk_file (hdr f) (<[x := s]> (slots f)) (Z.max (flen f) (x + reclen))).
Proof.
  intros Hx. unfold lwrite. by rewrite (proj2 (Z.ltb_ge _ _)) by lia.
Qed.

(** ** The invariant along an insertion *)

Lemma lists_fwf f h hs Ls Lf Lc : lists_ok f h hs Ls Lf Lc → fwf f.
Proof.
  intros Hlo x s Hs. destruct (lo_geom _ _ _ _ _ _ Hlo) as (N & Hlen & Hdom).
  destruct (proj1 (Hdom x)) as (i & Hi & ->); [by exists s|].
  split; [nia|]. split; [rewrite Hlen; nia|].
  by eapply lo_nlen.
Qed.

Lemma lists_end_free f h hs Ls Lf Lc : lists_ok f h hs Ls Lf Lc → slots f !! flen f = None.
Proof.
  intros Hlo. destruct (lo_geom _ _ _ _ _ _ Hlo) as (N & Hlen & Hdom).
  destruct (slots f !! flen f) as [s|] eqn:Es; [|done].
  destruct (proj1 (Hdom (flen f))) as (i & Hi & Heq); [by exists s|].
  rewrite Hlen in Heq. nia.
Qed.

Lemma lists_hdr_size f h hs Ls Lf Lc : lists_ok f h hs Ls Lf Lc → hdr_size ≤ flen f.
Proof.
  intros Hlo. destruct (lo_geom _ _ _ _ _ _ Hlo) as (N & Hlen & Hdom). nia.
Qed.

(** The lists do not depend on the tree nodes of the tree records. *)
Lemma lists_kframe X f f' h hs Ls Lf Lc :
  lists_ok f h hs Ls Lf Lc → kframe X f f' → (∀ x, x ∈ X → x ∉ Lc) →
  lists_ok f' h hs Ls Lf Lc.
Proof.
  intros Hlo (Hh & Hl & Ho & He & Hn) HX.
  assert (∀ x, is_Some (slots f' !! x) ↔ is_Some (slots f !! x)) as Hdom.
  { intros x. split; intros [s Hs].
    - destruct (slots f !! x) eqn:E; [done|]. apply Hn in E. congruence.
    - destruct (He _ _ Hs) as (s' & ? & _). by exists s'. }
  assert (∀ x s, slots f !! x = Some s →
            ∃ s', slots f' !! x = Some s' ∧ next s' = next s ∧ prev s' = prev s) as Hlk.
  { intros x s Hs. destruct (He _ _ Hs) as (s' & ? & ? & ? & _). by exists s'. }
  destruct Hlo as [H1 H2 H3 H4 H5 H6 H7 H8 H9 H10 H11 H12].
  split; try done.
  - destruct H4 as (N & HN & Hd). exists N. split; [congruence|].
    intros x. by rewrite Hdom.
  - intros x s' Hs'.
    destruct (slots f !! x) as [s|] eqn:E; [|apply Hn in E; congruence].
    destruct (He _ _ E) as (s'' & Hs'' & _ & _ & _ & Hlen).
    assert (s'' = s') as -> by congruence. rewrite Hlen. by eapply H5.
  - eapply dchain_ext; [|done]. intros x s _ Hs. by apply Hlk.
  - eapply chain_next_ext; [|done]. intros x s _ Hs.
    destruct (Hlk x s Hs) as (s' & ? & ? & _). by exists s'.
  - eapply chain_next_ext; [|done]. intros x s _ Hs.
    destruct (Hlk x s Hs) as (s' & ? & ? & _). by exists s'.
  - intros x. by rewrite Hdom.
  - intros c s Hc Hs. rewrite Ho in Hs; [by eapply H11|].
    intros Hx. by apply (HX c).
  - destruct H12 as [Hnd Hall]. split; [done|]. intros hd Hhd.
    destruct (Hall hd Hhd) as [Hin Hpid]. split; [done|].
    intros Hfit s Hs. rewrite Ho in Hs; [by apply Hpid|].
    intros Hx. by apply (HX (h_cpr hd)).
Qed.

(** The lists depend on the header through the three list heads only. *)
Lemma lists_hdr f f' h h' hs Ls Lf Lc :
  lists_ok f h hs Ls Lf Lc →
  slots f' = slots f → flen f' = flen f →
  h_n_keys h' = h_n_keys h → h_reclen h' = h_reclen h →
  length (root h') = length (root h) →
  head_seq h' = head_seq h → head_empty h' = head_empty h → head_cpr h' = head_cpr h →
  lists_ok f' h' hs Ls Lf Lc.
Proof.
  intros [H1 H2 H3 H4 H5 H6 H7 H8 H9 H10 H11 H12] Hs Hl E1 E2 E3 E4 E5 E6.
  assert (∀ p L, chain f p L → chain f' p L) as Hch.
  { intros p L. apply chain_ext. intros x _. by rewrite Hs. }
  split; try congruence.
  - rewrite Hl, Hs. done.
  - by rewrite Hs.
  - rewrite E4. eapply dchain_ext; [|done]. intros x s _ Hx. exists s. by rewrite Hs.
  - rewrite E5. by apply Hch.
  - rewrite E6. by apply Hch.
  - by rewrite Hs.
  - by rewrite Hs.
  - by rewrite Hs.
Qed.

Lemma size_insert_le (m : gmap Z avl_struct) x s : (size (<[x := s]> m) ≤ size m + 1)%nat.
Proof. rewrite map_size_insert. destruct (m !! x); simpl; lia. Qed.

Lemma hdr_set_head_empty_id (h : hdr_struct) : h = set_head_empty (head_empty h) h.
Proof. by destruct h. Qed.

(** The record that an insertion takes: the first of the empty list, or
    the end of the file. *)
Lemma ins_take_spec f hs Ls Lf Lc dflt :
  lists_ok f (hdr f) hs Ls Lf Lc → length (n dflt) = n_keys →
  ∃ y yr0 h0,
    y = (if head_empty (hdr f) =? 0 then flen f else head_empty (hdr f)) ∧
    (if head_empty (hdr f) =? 0 then Ok (dflt, hdr f)
     else lread f y ≫= λ yr, Ok (yr, set_head_empty (next yr) (hdr f)))
    = Ok (yr0, h0) ∧
    h0 = set_head_empty (head_empty h0) (hdr f) ∧
    chain f (head_empty h0) (tail Lf) ∧ length (n yr0) = n_keys ∧
    0 < y ≤ flen f ∧
    (y ∉ Ls ++ tail Lf ++ Lc) ∧
    (∀ x, x = y ∨ is_Some (slots f !! x) ↔ x ∈ (y :: Ls) ++ tail Lf ++ Lc) ∧
    (∃ N : nat, Z.max (flen f) (y + reclen) = hdr_size + Z.of_nat N * reclen ∧
       ∀ x, x = y ∨ is_Some (slots f !! x) ↔
            ∃ i : nat, (i < N)%nat ∧ x = hdr_size + Z.of_nat i * reclen) ∧
    NoDup (Ls ++ tail Lf ++ Lc) ∧
    ((head_empty (hdr f) = 0 ∧ yr0 = dflt ∧ h0 = hdr f) ∨
     (head_empty (hdr f) ≠ 0 ∧ lread f (head_empty (hdr f)) = Ok yr0 ∧
      h0 = set_head_empty (next yr0) (hdr f))).
Proof.
  intros Hlo Hdl. pose proof (lists_fwf _ _ _ _ _ _ Hlo) as Hf.
  pose proof (lists_end_free _ _ _ _ _ _ Hlo) as Hend.
  pose proof (lists_hdr_size _ _ _ _ _ _ Hlo) as Hhs.
  destruct Hlo as [H1 H2 H3 H4 H5 H6 H7 H8 H9 H10 H11 H12].
  destruct Lf as [|e Lf']; simpl in H7.
  - exists (flen f), dflt, (hdr f). rewrite H7. simpl.
    split; [done|]. split; [done|].
    split; [by pose proof (hdr_set_head_empty_id (hdr f)) as Hid; rewrite H7 in Hid|].
    split; [done|]. split; [done|]. split; [lia|].
    assert (flen f ∉ Ls ++ Lc) as Hfresh.
    { intros Hin. apply (H10 (flen f)) in Hin. rewrite Hend in Hin.
      by destruct Hin. }
    split; [done|]. split; [|split; [|split; [done|]]].
    + intros x. rewrite (H10 x). simpl. rewrite elem_of_cons. tauto.
    + destruct H4 as (N & HN & Hd). exists (S N). split; [lia|].
      intros x. rewrite (Hd x). split.
      * intros [->|(i & Hi & ->)]; [exists N; split; [lia|done]|exists i; split; [lia|done]].
      * intros (i & Hi & ->). destruct (decide (i = N)) as [->|Hne]; [by left|].
        right. exists i. split; [lia|done].
    + by left.
  - destruct H7 as (He & er & Her & Hch).
    destruct (Hf _ _ Her) as (Hepos & Heend & Helen).
    exists e, er, (set_head_empty (next er) (hdr f)). rewrite He.
    rewrite (proj2 (Z.eqb_neq _ _)) by lia.
    rewrite (lread_ok _ _ _ Hf Her). simpl.
    split; [done|]. split; [done|]. split; [by destruct (hdr f)|].
    split; [done|]. split; [done|]. split; [lia|].
    assert (Ls ++ (e :: Lf') ++ Lc ≡ₚ e :: Ls ++ Lf' ++ Lc) as Hperm
      by (simpl; solve_Permutation).
    rewrite Hperm in H9. apply NoDup_cons in H9 as [Hfresh Hnd].
    split; [done|]. split; [|split; [|split; [done|]]].
    + intros x. rewrite (H10 x), Hperm. simpl. rewrite !elem_of_cons.
      split; [tauto|]. intros [->|?]; [by left|]. by right; right.
    + destruct H4 as (N & HN & Hd). exists N. split; [lia|].
      intros x. rewrite <- (Hd x). split; [|by right].
      intros [->|?]; [by exists er|done].
    + right. split; [lia|]. by split.
Qed.

Lemma ins_alloc_spec f hs Ls Lf Lc buf :
  lists_ok f (hdr f) hs Ls Lf Lc →
  ∃ y f1 h1 yr,
    y = (if head_empty (hdr f) =? 0 then flen f else head_empty (hdr f)) ∧
    ins_alloc f (hdr f) y buf = Ok (f1, h1) ∧
    lists_ok f1 h1 hs (y :: Ls) (tail Lf) Lc ∧
    hdr f1 = hdr f ∧ root h1 = root (hdr f) ∧ n_avl h1 = n_avl (hdr f) ∧
    nextnum h1 = nextnum (hdr f) ∧ h_len h1 = h_len (hdr f) ∧
    (y ∉ Ls ++ tail Lf ++ Lc) ∧
    slots f1 !! y = Some yr ∧ b yr = buf ∧
    (∀ x s, slots f !! x = Some s → x ≠ y →
       ∃ s', slots f1 !! x = Some s' ∧ b s' = b s ∧ n s' = n s) ∧
    (size (slots f1) ≤ size (slots f) + 1)%nat.
Proof.
  intros Hlo. pose proof (lists_fwf _ _ _ _ _ _ Hlo) as Hf.
  destruct (ins_take_spec _ _ _ _ _ uninit Hlo)
    as (y & yr0 & h0 & Hy & Hsel & Hh0 & Hce & Hlen0 & Hyb & Hfresh & Hcov & Hgeo & Hnd & _);
    [by apply Nat.eqb_eq|].
  destruct Hlo as [H1 H2 H3 H4 H5 H6 H7 H8 H9 H10 H11 H12].
  assert (head_seq h0 = head_seq (hdr f)) as Ehs by (by rewrite Hh0).
  assert (head_cpr h0 = head_cpr (hdr f)) as Ehc by (by rewrite Hh0).
  set (yr2 := set_data buf (set_next (head_seq (hdr f)) (set_prev 0 yr0))).
  assert (∃ f1,
    ins_alloc f (hdr f) y buf = Ok (f1, set_head_seq y h0) ∧
    hdr f1 = hdr f ∧ flen f1 = Z.max (flen f) (y + reclen) ∧
    (∀ x, is_Some (slots f1 !! x) ↔ x = y ∨ is_Some (slots f !! x)) ∧
    (∀ x, x ≠ y → x ∉ Ls → slots f1 !! x = slots f !! x) ∧
    slots f1 !! y = Some yr2 ∧
    dchain f1 0 y (y :: Ls) ∧
    (∀ x s, slots f !! x = Some s → x ≠ y →
       ∃ s', slots f1 !! x = Some s' ∧ b s' = b s ∧ n s' = n s) ∧
    (size (slots f1) ≤ size (slots f) + 1)%nat)
    as (f1 & Hrun & Hhdr & Hflen & Hdom & Hsame & Hyr & Hseq & Hother & Hsize).
  { unfold ins_alloc. rewrite Hsel. cbn [mbind res_mbind res_bind].
    cbn [next set_next set_prev]. rewrite Ehs.
    assert (y ∉ Ls) as HyLs by (intros ?; apply Hfresh, elem_of_app; by left).
    destruct Ls as [|p Ls']; simpl in H6.
    - rewrite H6. change (0 <? 0) with false. cbn [mbind res_mbind res_bind].
      rewrite lwrite_upto by lia. cbn [mbind res_mbind res_bind].
      eexists. split; [done|]. cbn [hdr flen slots].
      split; [done|]. split; [done|]. split; [|split; [|split; [|split; [|split]]]].
      + intros x. rewrite lookup_insert_is_Some. split; [intros [->|[_ ?]]; [by left|by right]|].
        intros [->|?]; [by left|]. destruct (decide (y = x)); [by left|by right].
      + intros x Hx _. by rewrite lookup_insert_ne.
      + rewrite lookup_insert_eq. unfold yr2. by rewrite H6.
      + simpl. split; [done|]. eexists. rewrite lookup_insert_eq.
        split; [done|]. split; [done|]. done.
      + intros x s Hs Hx. exists s. by rewrite lookup_insert_ne.
      + apply size_insert_le.
    - destruct H6 as (Hp & pr & Hpr & Hpp & Hch).
      destruct (Hf _ _ Hpr) as (Hppos & _).
      assert (p ≠ y) as Hpy by (intros ->; apply HyLs; by left).
      rewrite Hp. rewrite (proj2 (Z.ltb_lt _ _)) by done.
      rewrite (lread_ok _ _ _ Hf Hpr). cbn [mbind res_mbind res_bind].
      rewrite (lwrite_ok _ _ _ _ Hf Hpr). cbn [mbind res_mbind res_bind].
      rewrite lwrite_upto by (simpl; lia). cbn [mbind res_mbind res_bind].
      eexists. split; [done|]. cbn [hdr flen slots upd].
      split; [done|]. split; [done|]. split; [|split; [|split; [|split; [|split]]]].
      + intros x. rewrite !lookup_insert_is_Some. split.
        * intros [->|[_ [->|[_ ?]]]]; [by left|right; by exists pr|by right].
        * intros [->|Hx]; [by left|]. destruct (decide (y = x)); [by left|].
          right. split; [done|]. destruct (decide (p = x)); [by left|by right].
      + intros x Hx HxL. rewrite !lookup_insert_ne; [done| |done].
        intros <-. apply HxL. by left.
      + rewrite lookup_insert_eq. unfold yr2. by rewrite Hp.
      + assert (NoDup (p :: Ls')) as Hndl by (by apply NoDup_app in H9 as [? _]).
        apply NoDup_cons in Hndl as [HpL _].
        simpl. split; [done|]. eexists. rewrite lookup_insert_eq.
        split; [done|]. split; [done|]. split; [done|].
        exists (set_prev y pr). rewrite lookup_insert_ne, lookup_insert_eq by done.
        split; [done|]. split; [done|]. simpl.
        eapply dchain_ext; [|exact Hch]. intros x s Hx Hs. exists s.
        cbn [slots]. rewrite !lookup_insert_ne; [done| |].
        * intros <-. done.
        * intros <-. apply HyLs. by right.
      + intros x s Hs Hx. destruct (decide (x = p)) as [->|Hxp].
        * exists (set_prev y pr). rewrite lookup_insert_ne, lookup_insert_eq by done.
          assert (s = pr) as -> by congruence. done.
        * exists s. by rewrite !lookup_insert_ne.
      + etrans; [apply size_insert_le|]. rewrite map_size_insert_Some; [done|].
        by exists pr. }
  assert (∀ x, x ∈ tail Lf ++ Lc → slots f1 !! x = slots f !! x) as Hsame'.
  { intros x Hx. apply Hsame.
    - intros ->. apply Hfresh, elem_of_app. by right.
    - intros HxL. apply NoDup_app in Hnd as (_ & Hd & _). by apply (Hd x). }
  exists y, f1, (set_head_seq y h0), yr2.
  split; [done|]. split; [done|]. split.
  { split.
    - by rewrite Hh0.
    - by rewrite Hh0.
    - by rewrite Hh0.
    - destruct Hgeo as (N & HN & Hd). exists N. split; [congruence|].
      intros x. by rewrite Hdom, Hd.
    - intros x s Hs. destruct (decide (x = y)) as [->|Hx].
      + assert (s = yr2) as -> by congruence. done.
      + destruct (slots f !! x) as [s0|] eqn:E.
        * destruct (Hother _ _ E Hx) as (s' & Hs' & _ & Hn).
          assert (s' = s) as -> by congruence. rewrite Hn. by eapply H5.
        * assert (is_Some (slots f1 !! x)) as Hi by (by exists s).
          apply Hdom in Hi as [?|Hi]; [done|]. rewrite E in Hi. by destruct Hi.
    - done.
    - simpl. eapply chain_ext; [|exact Hce]. intros x Hx. apply Hsame', elem_of_app.
      by left.
    - simpl. rewrite Ehc. eapply chain_ext; [|exact H8]. intros x Hx.
      apply Hsame', elem_of_app. by right.
    - simpl. by apply NoDup_cons.
    - intros x. by rewrite Hdom, Hcov.
    - intros c s Hc Hs. rewrite Hsame' in Hs by (apply elem_of_app; by right).
      by eapply H11.
    - destruct H12 as [Hndh Hall]. split; [done|]. intros hd Hhd.
      destruct (Hall hd Hhd) as [Hin Hpid]. split; [done|].
      intros Hfit s Hs. rewrite Hsame' in Hs by (apply elem_of_app; by right).
      by apply Hpid. }
  split; [done|]. split; [by rewrite Hh0|]. split; [by rewrite Hh0|].
  split; [by rewrite Hh0|]. split; [by rewrite Hh0|].
  split; [done|]. split; [done|]. split; [done|]. split; done.
Qed.

Lemma roots_changed_fields ks h h' :
  roots_changed ks h h' →
  h_n_keys h' = h_n_keys h ∧ h_len h' = h_len h ∧ h_reclen h' = h_reclen h ∧
  n_avl h' = n_avl h ∧ nextnum h' = nextnum h ∧ head_seq h' = head_seq h ∧
  head_empty h' = head_empty h ∧ head_cpr h' = head_cpr h.
Proof. intros (-> & _). done. Qed.

Lemma inv_height_fuel f hs Ls Lf Lc ts fuel k :
  inv_with f hs Ls Lf Lc ts → enough f fuel → (k < n_keys)%nat →
  (Z.to_nat (height (ts k)) + 1 < fuel)%nat.
Proof.
  intros [Hlo Hcnt Htr] Hfu Hk.
  destruct (Htr k Hk) as (_ & _ & Hperm & _).
  pose proof (height_le_nodes (ts k)) as Hh. rewrite Hperm in Hh.
  assert (length Ls ≤ size (slots f))%nat as Hsz.
  { apply nodup_length_size.
    - by destruct (proj1 (NoDup_app _ _) (lo_nodup _ _ _ _ _ _ Hlo)).
    - intros x Hx. apply (lo_cover _ _ _ _ _ _ Hlo), elem_of_app. by left. }
  unfold enough in Hfu. lia.
Qed.

(** An insertion keeps the invariant: the new record is at the head of
    the sequential list and in every tree. *)
Lemma insert_inv f hs Ls Lf Lc ts fuel buf :
  inv_with f hs Ls Lf Lc ts → enough f fuel →
  Z.of_nat (length Ls) + 1 < 2 ^ 63 →
  ∃ y f', avl_file_insert fuel f buf = Ok (0, f') ∧
    inv_with f' hs (y :: Ls) (tail Lf) Lc (λ k, tins k y buf (ts k)) ∧
    (∃ yr, slots f' !! y = Some yr ∧ b yr = buf) ∧
    (∀ x s, slots f !! x = Some s → x ≠ y →
       ∃ s', slots f' !! x = Some s' ∧ b s' = b s) ∧
    nextnum (hdr f') = nextnum (hdr f).
Proof.
  intros Hinv Hfu Hn. pose proof Hinv as [Hlo Hcnt Htr].
  destruct (ins_alloc_spec _ _ _ _ _ buf Hlo)
    as (y & f1 & h1 & yr & Hy & Hrun & Hlo1 & Hhdr1 & Hroot1 & Hnavl1 & Hnext1 & _ &
        Hfresh & Hyr & Hbyr & Hother & Hsize).
  pose proof (lists_fwf _ _ _ _ _ _ Hlo) as Hf.
  pose proof (lists_fwf _ _ _ _ _ _ Hlo1) as Hf1.
  assert (0 < y) as Hypos by (by destruct (Hf1 _ _ Hyr)).
  assert (NoDup Ls) as HndL by (by destruct (proj1 (NoDup_app _ _) (lo_nodup _ _ _ _ _ _ Hlo))).
  assert (y ∉ Ls) as HyL by (intros ?; apply Hfresh, elem_of_app; by left).
  unfold avl_file_insert. destruct Hcnt as [Hcnt _]. rewrite Hcnt.
  rewrite wrap64_small by lia. rewrite (proj2 (Z.ltb_ge _ _)) by lia.
  rewrite <- Hy. rewrite (proj2 (Z.ltb_ge y 0)) by lia. rewrite andb_false_r.
  rewrite Hrun. cbn [mbind res_mbind res_bind].
  destruct (ins_keys_spec fuel y buf (y :: Ls) ts (seq 0 n_keys) (NoDup_seq _ _) f1 h1 yr)
    as (f2 & h2 & Hrun2 & Hf2 & Hkf & Hview & Hrc & Hall); try done.
  { intros k Hk%elem_of_seq.
    destruct (Htr k) as (Hr & Hrt & Hperm & Havl & Hsort); [lia|].
    split; [lia|]. split; [rewrite Hroot1, (lo_roots _ _ _ _ _ _ Hlo); lia|].
    split; [|split; [|split; [|split; [done|split]]]].
    - eapply repr_ext; [|exact Hr]. intros x Hx.
      destruct (repr_nodes_Some _ _ _ _ _ Hr Hx) as [[nd d] Hv].
      apply view_Some in Hv as (s & Hs & _).
      destruct (Hother x s Hs) as (s' & Hs' & Hb' & Hn').
      { intros ->. apply HyL. by rewrite <- Hperm. }
      unfold view, nk. rewrite Hs, Hs'. simpl. by rewrite Hb', Hn'.
    - rewrite Hperm. by apply NoDup_cons.
    - intros x. rewrite !elem_of_cons, Hperm. tauto.
    - unfold root_k. rewrite Hroot1. exact Hrt.
    - eapply inv_height_fuel; [done|done|lia]. }
  rewrite Hrun2. cbn [mbind res_mbind res_bind].
  destruct (roots_changed_fields _ _ _ Hrc) as (E1 & E2 & E3 & E4 & E5 & E6 & E7 & E8).
  pose proof Hrc as (_ & Hrlen & _).
  eexists y, _. split; [done|].
  pose proof Hkf as (Hh2 & Hl2 & Ho2 & He2 & Hn2).
  split; [split|].
  - eapply lists_hdr; [eapply lists_kframe; [exact Hlo1|exact Hkf|]|..]; try done.
    + intros x [->|Hx]%elem_of_cons Hc.
      * apply Hfresh. apply elem_of_app. right. apply elem_of_app. by right.
      * pose proof (lo_nodup _ _ _ _ _ _ Hlo) as Hnd.
        apply NoDup_app in Hnd as (_ & Hd & _). apply (Hd x Hx).
        apply elem_of_app. by right.
    + simpl. pose proof (lists_hdr_size _ _ _ _ _ _ Hlo1). lia.
  - simpl. rewrite E4, Hnavl1, Hcnt. rewrite wrap64_small by lia. split; lia.
  - intros k Hk. destruct (Htr k Hk) as (Hr & Hrt & Hperm & Havl & Hsort).
    destruct (Hall k) as (Hr' & Hrt'); [apply elem_of_seq; lia|].
    split; [done|]. split; [done|]. split; [|split].
    + by rewrite tins_nodes, Hperm.
    + by apply tins_avl.
    + by apply tins_sorted.
  - split; [|split].
    + destruct (He2 _ _ Hyr) as (yr' & Hyr' & _ & _ & Hb' & _).
      exists yr'. split; [done|congruence].
    + intros x s Hs Hx. destruct (Hother x s Hs Hx) as (s1 & Hs1 & Hb1 & _).
      destruct (He2 _ _ Hs1) as (s2 & Hs2 & _ & _ & Hb2 & _).
      exists s2. split; [done|congruence].
    + simpl. congruence.
Qed.

(** ** Changes outside the trees *)

Lemma trees_ext f f' Ls ts :
  (∀ x s, x ∈ Ls → slots f !! x = Some s →
          ∃ s', slots f' !! x = Some s' ∧ n s' = n s ∧ b s' = b s) →
  root (hdr f') = root (hdr f) →
  (∀ k, (k < n_keys)%nat →
     repr (view f k) 0 0 (ts k) ∧ root_k (hdr f) k = link (ts k) 0 ∧
     nodes (ts k) ≡ₚ Ls ∧ avl (ts k) ∧ sorted k (ts k)) →
  ∀ k, (k < n_keys)%nat →
     repr (view f' k) 0 0 (ts k) ∧ root_k (hdr f') k = link (ts k) 0 ∧
     nodes (ts k) ≡ₚ Ls ∧ avl (ts k) ∧ sorted k (ts k).
Proof.
  intros Hext Hroot Htr k Hk. destruct (Htr k Hk) as (Hr & Hrt & Hperm & Havl & Hsort).
  split; [|split; [|done]].
  - eapply repr_ext; [|exact Hr]. intros x Hx.
    destruct (repr_nodes_Some _ _ _ _ _ Hr Hx) as [[nd d] Hv].
    apply view_Some in Hv as (s & Hs & _).
    destruct (Hext x s) as (s' & Hs' & Hn' & Hb'); [by rewrite <- Hperm|done|].
    unfold view, nk. rewrite Hs, Hs'. simpl. by rewrite Hb', Hn'.
  - unfold root_k. by rewrite Hroot.
Qed.

Lemma lists_disjoint_sc f h hs Ls Lf Lc x :
  lists_ok f h hs Ls Lf Lc → x ∈ Ls → x ∉ Lc.
Proof.
  intros Hlo Hx Hc. pose proof (lo_nodup _ _ _ _ _ _ Hlo) as Hnd.
  apply NoDup_app in Hnd as (_ & Hd & _). apply (Hd x Hx).
  apply elem_of_app. by right.
Qed.

Lemma lists_disjoint_fc f h hs Ls Lf Lc x :
  lists_ok f h hs Ls Lf Lc → x ∈ Lf → x ∉ Lc.
Proof.
  intros Hlo Hx Hc. pose proof (lo_nodup _ _ _ _ _ _ Hlo) as Hnd.
  apply NoDup_app in Hnd as (_ & _ & Hnd). apply NoDup_app in Hnd as (_ & Hd & _).
  by apply (Hd x Hx).
Qed.

Lemma lists_disjoint_sf f h hs Ls Lf Lc x :
  lists_ok f h hs Ls Lf Lc → x ∈ Ls → x ∉ Lf.
Proof.
  intros Hlo Hx Hc. pose proof (lo_nodup _ _ _ _ _ _ Hlo) as Hnd.
  apply NoDup_app in Hnd as (_ & Hd & _). apply (Hd x Hx).
  apply elem_of_app. by left.
Qed.

(** A handle's current-pointer record may be rewritten as long as it
    stays in its list and keeps its tag and its process ID. *)
Lemma lists_cursor_write f h hs Ls Lf Lc cp cpr cpr' :
  lists_ok f h hs Ls Lf Lc → cp ∈ Lc → slots f !! cp = Some cpr →
  next cpr' = next cpr → length (n cpr') = n_keys →
  ((0 < n_keys)%nat → nb (nk cpr' 0) = 32) →
  (pid_fits = true → ∀ hd, hd ∈ hs → h_cpr hd = cp →
     has_pid (h_pid hd) (b cpr') = true) →
  lists_ok (upd f cp cpr') h hs Ls Lf Lc.
Proof.
  intros Hlo Hcp Hcpr Hnx Hlen Htag Hpid.
  assert (∀ x, is_Some (slots (upd f cp cpr') !! x) ↔ is_Some (slots f !! x)) as Hdom.
  { intros x. unfold upd. simpl. rewrite lookup_insert_is_Some.
    split; [intros [<-|[_ ?]]; [by exists cpr|done]|].
    intros Hx. destruct (decide (cp = x)); [by left|by right]. }
  assert (∀ x, x ≠ cp → slots (upd f cp cpr') !! x = slots f !! x) as Hne.
  { intros x Hx. unfold upd. simpl. by rewrite lookup_insert_ne. }
  assert (slots (upd f cp cpr') !! cp = Some cpr') as Heq.
  { unfold upd. simpl. by rewrite lookup_insert_eq. }
  pose proof (lo_nodup _ _ _ _ _ _ Hlo) as Hnd.
  assert (cp ∉ Ls) as HcS by (intros ?; by eapply lists_disjoint_sc).
  assert (cp ∉ Lf) as HcF by (intros ?; by eapply lists_disjoint_fc).
  destruct Hlo as [H1 H2 H3 H4 H5 H6 H7 H8 H9 H10 H11 H12].
  split; try done.
  - destruct H4 as (N & HN & Hd). exists N. split; [done|]. intros x. by rewrite Hdom.
  - intros x s Hs. destruct (decide (x = cp)) as [->|Hx].
    + by assert (s = cpr') as -> by congruence.
    + rewrite Hne in Hs by done. by eapply H5.
  - eapply dchain_ext; [|done]. intros x s Hx Hs. exists s.
    rewrite Hne; [done|]. by intros ->.
  - eapply chain_ext; [|done]. intros x Hx. apply Hne. by intros ->.
  - eapply chain_next_ext; [|done]. intros x s Hx Hs.
    destruct (decide (x = cp)) as [->|Hxc].
    + exists cpr'. split; [done|]. congruence.
    + exists s. by rewrite Hne.
  - intros x. by rewrite Hdom.
  - intros c s Hc Hs. destruct (decide (c = cp)) as [->|Hx].
    + assert (s = cpr') as -> by congruence. done.
    + rewrite Hne in Hs by done. by eapply H11.
  - destruct H12 as [Hndh Hall]. split; [done|]. intros hd Hhd.
    destruct (Hall hd Hhd) as [Hin Hp]. split; [done|].
    intros Hfit s Hs. destruct (decide (h_cpr hd = cp)) as [Hx|Hx].
    + rewrite Hx, Heq in Hs. injection Hs as <-. by apply Hpid.
    + rewrite Hne in Hs by done. by apply Hp.
Qed.

Lemma inv_cursor_write f hs Ls Lf Lc ts cp cpr cpr' :
  inv_with f hs Ls Lf Lc ts → cp ∈ Lc → slots f !! cp = Some cpr →
  next cpr' = next cpr → length (n cpr') = n_keys →
  ((0 < n_keys)%nat → nb (nk cpr' 0) = 32) →
  (pid_fits = true → ∀ hd, hd ∈ hs → h_cpr hd = cp →
     has_pid (h_pid hd) (b cpr') = true) →
  inv_with (upd f cp cpr') hs Ls Lf Lc ts.
Proof.
  intros [Hlo Hcnt Htr] Hcp Hcpr Hnx Hlen Htag Hpid. split.
  - by eapply lists_cursor_write.
  - done.
  - apply (trees_ext f (upd f cp cpr') Ls ts); [|done|exact Htr].
    intros x s Hx Hs. exists s.
    unfold upd. simpl. rewrite lookup_insert_ne; [done|].
    intros <-. by eapply lists_disjoint_sc.
Qed.

(** ** The operations that only write the handle's record *)

(** [ceq c c']: the current-pointer record [c'] is [c] with other
    pointers. *)
Definition ceq (c c' : avl_struct) : Prop :=
  next c' = next c ∧ b c' = b c ∧ length (n c') = length (n c) ∧
  ∀ k, nb (nk c' k) = nb (nk c k).

Lemma ceq_refl c : ceq c c.
Proof. by repeat split. Qed.

Lemma ceq_trans c1 c2 c3 : ceq c1 c2 → ceq c2 c3 → ceq c1 c3.
Proof.
  intros (? & ? & ? & Ha) (? & ? & ? & Hb). repeat split; congruence.
Qed.

Lemma nk_set_nk_total k j x s :
  nk (set_nk k x s) j = if decide (j = k ∧ (k < length (n s))%nat) then x else nk s j.
Proof.
  unfold nk, set_nk. simpl. destruct (decide _) as [[-> Hl]|Hn].
  - apply list_lookup_total_correct. by apply list_lookup_insert_eq.
  - destruct (decide (j = k)) as [->|Hjk].
    + rewrite list_insert_ge; [done|]. apply Nat.nlt_ge. intros ?. by apply Hn.
    + by rewrite list_lookup_total_insert_ne.
Qed.

Lemma ceq_set_prev v c : ceq c (set_prev v c).
Proof. by repeat split. Qed.

Lemma ceq_set_kl k v c : ceq c (set_kl k v c).
Proof.
  unfold set_kl. repeat split; [by rewrite length_set_nk|].
  intros j. rewrite nk_set_nk_total. by destruct (decide _) as [[-> _]|].
Qed.

Lemma ceq_set_kr k v c : ceq c (set_kr k v c).
Proof.
  unfold set_kr. repeat split; [by rewrite length_set_nk|].
  intros j. rewrite nk_set_nk_total. by destruct (decide _) as [[-> _]|].
Qed.

(** [cstep cp f f']: from [f] to [f'], at most the pointers of the
    current-pointer record at [cp] have changed. *)
Definition cstep (cp : Z) (f f' : file) : Prop :=
  f' = f ∨ ∃ cpr cpr', slots f !! cp = Some cpr ∧ ceq cpr cpr' ∧ f' = upd f cp cpr'.

Lemma lwrite_cstep f cp cpr cpr' f' :
  fwf f → lread f cp = Ok cpr → ceq cpr cpr' → lwrite f cp cpr' = Ok f' → cstep cp f f'.
Proof.
  intros Hf Hr Hc Hw. apply lread_inv in Hr.
  rewrite (lwrite_ok _ _ _ _ Hf Hr) in Hw. injection Hw as <-.
  right. by exists cpr, cpr'.
Qed.

Lemma inv_cstep f f' hs Ls Lf Lc ts hd :
  inv_with f hs Ls Lf Lc ts → hd ∈ hs → cstep (h_cpr hd) f f' →
  inv_with f' hs Ls Lf Lc ts.
Proof.
  intros Hinv Hhd [->|(cpr & cpr' & Hs & (Hnx & Hb & Hlen & Hnb) & ->)]; [done|].
  pose proof (iw_lists _ _ _ _ _ _ Hinv) as Hlo.
  destruct (lo_handles _ _ _ _ _ _ Hlo) as [_ Hall].
  destruct (Hall hd Hhd) as [Hin Hpid].
  eapply inv_cursor_write; try done.
  - rewrite Hlen. by eapply lo_nlen.
  - intros Hk. rewrite Hnb. by eapply (lo_tags _ _ _ _ _ _ Hlo).
  - intros Hfit hd' Hhd' Heq. rewrite Hb.
    destruct (Hall hd' Hhd') as [_ Hpid']. apply Hpid'; [done|]. by rewrite Heq.
Qed.

Lemma startseq_cstep cp f f' :
  fwf f → avl_file_startseq cp f = Ok f' → cstep cp f f'.
Proof.
  intros Hf. unfold avl_file_startseq.
  destruct (lread f cp) as [cpr| | |] eqn:Er; simpl; try discriminate.
  intros Hw. eapply lwrite_cstep; [done|done| |done]. apply ceq_set_prev.
Qed.

Lemma readseq_cstep cp f buf ret buf' f' :
  fwf f → avl_file_readseq cp f buf = Ok (ret, buf', f') → cstep cp f f'.
Proof.
  intros Hf. unfold avl_file_readseq.
  destruct (lread f cp) as [cpr| | |] eqn:Er; simpl; try discriminate.
  destruct (prev cpr =? 0); [intros [= _ _ <-]; by left|].
  destruct (lread f (prev cpr)) as [ar| | |]; simpl; try discriminate.
  destruct (lwrite f cp _) as [f1| | |] eqn:Ew; simpl; try discriminate.
  intros [= _ _ <-]. eapply lwrite_cstep; [done|done| |done]. apply ceq_set_prev.
Qed.

Lemma start_at_cstep fuel cp f buf k a ret buf' f' :
  fwf f → start_at fuel cp f buf k a = Ok (ret, buf', f') → cstep cp f f'.
Proof.
  intros Hf. unfold start_at.
  destruct (lread f cp) as [cpr| | |] eqn:Er; simpl; try discriminate.
  destruct (0 <? a).
  - destruct (lread f a) as [ar| | |]; simpl; try discriminate.
    destruct (find_prev fuel f k ar) as [l| | |]; simpl; try discriminate.
    destruct (find_next fuel f k ar) as [r| | |]; simpl; try discriminate.
    destruct (lwrite f cp _) as [f1| | |] eqn:Ew; simpl; try discriminate.
    intros [= _ _ <-]. eapply lwrite_cstep; [done|done| |done].
    eapply ceq_trans; [apply ceq_set_kl|apply ceq_set_kr].
  - destruct (lwrite f cp _) as [f1| | |] eqn:Ew; simpl; try discriminate.
    intros [= _ _ <-]. eapply lwrite_cstep; [done|done| |done].
    eapply ceq_trans; [apply ceq_set_kl|apply ceq_set_kr].
Qed.

Lemma startge_cstep fuel cp f buf k ret buf' f' :
  fwf f → avl_file_startge fuel cp f buf k = Ok (ret, buf', f') → cstep cp f f'.
Proof.
  intros Hf. unfold avl_file_startge.
  destruct (key_out_of_bounds k); [intros [= _ _ <-]; by left|].
  destruct (ge_descend _ _ _ _ _) as [a| | |]; simpl; try discriminate.
  by apply start_at_cstep.
Qed.

Lemma startlt_cstep fuel cp f buf k ret buf' f' :
  fwf f → avl_file_startlt fuel cp f buf k = Ok (ret, buf', f') → cstep cp f f'.
Proof.
  intros Hf. unfold avl_file_startlt.
  destruct (key_out_of_bounds k); [intros [= _ _ <-]; by left|].
  destruct (lt_descend _ _ _ _ _) as [a| | |]; simpl; try discriminate.
  by apply start_at_cstep.
Qed.

Lemma next_cstep fuel cp f buf k ret buf' f' :
  fwf f → avl_file_next fuel cp f buf k = Ok (ret, buf', f') → cstep cp f f'.
Proof.
  intros Hf. unfold avl_file_next.
  destruct (key_out_of_bounds k); [intros [= _ _ <-]; by left|].
  destruct (lread f cp) as [cpr| | |] eqn:Er; simpl; try discriminate.
  destruct (0 <? _); [|intros [= _ _ <-]; by left].
  destruct (lread f (nr _)) as [ar| | |]; simpl; try discriminate.
  destruct (find_next _ _ _ _) as [r| | |]; simpl; try discriminate.
  destruct (lwrite f cp _) as [f1| | |] eqn:Ew; simpl; try discriminate.
  intros [= _ _ <-]. eapply lwrite_cstep; [done|done| |done]. apply ceq_set_kr.
Qed.

Lemma prev_cstep fuel cp f buf k ret buf' f' :
  fwf f → avl_file_prev fuel cp f buf k = Ok (ret, buf', f') → cstep cp f f'.
Proof.
  intros Hf. unfold avl_file_prev.
  destruct (key_out_of_bounds k); [intros [= _ _ <-]; by left|].
  destruct (lread f cp) as [cpr| | |] eqn:Er; simpl; try discriminate.
  destruct (0 <? _); [|intros [= _ _ <-]; by left].
  destruct (lread f (nl _)) as [ar| | |]; simpl; try discriminate.
  destruct (find_prev _ _ _ _) as [r| | |]; simpl; try discriminate.
  destruct (lwrite f cp _) as [f1| | |] eqn:Ew; simpl; try discriminate.
  intros [= _ _ <-]. eapply lwrite_cstep; [done|done| |done]. apply ceq_set_kl.
Qed.

Lemma find_cstep fuel cp f buf k ret buf' f' :
  fwf f → avl_file_find fuel cp f buf k = Ok (ret, buf', f') → cstep cp f f'.
Proof.
  intros Hf. unfold avl_file_find.
  destruct (avl_file_startge fuel cp f buf k) as [[[r b1] f1]| | |] eqn:Es;
    simpl; try discriminate.
  apply startge_cstep in Es; [|done].
  destruct (r =? 0); [destruct (cmp k b1 buf =? 0)|]; by intros [= _ _ <-].
Qed.

(** ** getnum, the end of a process *)

Lemma getnum_inv f hs Ls Lf Lc ts :
  inv_with f hs Ls Lf Lc ts → inv_with (avl_file_getnum f).2 hs Ls Lf Lc ts.
Proof.
  intros [Hlo Hcnt Htr]. unfold avl_file_getnum. simpl. split.
  - eapply lists_hdr; [exact Hlo|..]; done.
  - done.
  - by apply (trees_ext f _ Ls ts); [intros x s _ Hs; exists s|..].
Qed.

Lemma lists_handles_sub f h hs hs' Ls Lf Lc :
  lists_ok f h hs Ls Lf Lc → hs' `sublist_of` hs → lists_ok f h hs' Ls Lf Lc.
Proof.
  intros [H1 H2 H3 H4 H5 H6 H7 H8 H9 H10 H11 [Hnd Hall]] Hsub. split; try done.
  split.
  - eapply sublist_NoDup; [exact Hnd|]. by apply fmap_sublist.
  - intros hd Hhd. apply Hall. by eapply elem_of_sublist.
Qed.

Lemma inv_handles_sub f hs hs' Ls Lf Lc ts :
  inv_with f hs Ls Lf Lc ts → hs' `sublist_of` hs → inv_with f hs' Ls Lf Lc ts.
Proof.
  intros [Hlo Hcnt Htr] Hsub. split; [|done|done]. by eapply lists_handles_sub.
Qed.

(** ** avl_file_open *)

Lemma clear_nodes_gen v ks : ∀ r,
  let r' := foldl (λ r i, set_nk i (mk_node v 0 0) r) r ks in
  prev r' = prev r ∧ next r' = next r ∧ b r' = b r ∧ length (n r') = length (n r) ∧
  ∀ k, nk r' k = if decide (k ∈ ks ∧ (k < length (n r))%nat) then mk_node v 0 0 else nk r k.
Proof.
  induction ks as [|j ks IH]; intros r; cbn [foldl].
  - do 4 (split; [done|]). intros k.
    destruct (decide _) as [[[]%elem_of_nil _]|]; done.
  - destruct (IH (set_nk j (mk_node v 0 0) r)) as (Hp & Hn & Hb & Hl & Hk).
    rewrite length_set_nk in Hl, Hk.
    split; [done|]. split; [done|]. split; [done|]. split; [done|].
    intros k. rewrite Hk, nk_set_nk_total.
    destruct (decide (k ∈ ks ∧ _)) as [[Hin Hlt]|Hn1].
    + rewrite decide_True; [done|]. split; [by right|done].
    + destruct (decide (k = j ∧ _)) as [[-> Hlt]|Hn2].
      * rewrite decide_True; [done|]. split; [by left|done].
      * rewrite decide_False; [done|]. intros [[->|Hin]%elem_of_cons Hlt]; tauto.
Qed.

Lemma clear_nodes_fields v r :
  prev (clear_nodes v r) = prev r ∧ next (clear_nodes v r) = next r ∧
  b (clear_nodes v r) = b r ∧ length (n (clear_nodes v r)) = length (n r).
Proof.
  destruct (clear_nodes_gen v (seq 0 n_keys) r) as (? & ? & ? & ? & _). done.
Qed.

Lemma clear_nodes_nk v r k :
  (k < n_keys)%nat → length (n r) = n_keys → nk (clear_nodes v r) k = mk_node v 0 0.
Proof.
  intros Hk Hl. destruct (clear_nodes_gen v (seq 0 n_keys) r) as (_ & _ & _ & _ & Hnk).
  unfold clear_nodes. rewrite Hnk, decide_True; [done|].
  split; [apply elem_of_seq; lia|lia].
Qed.

(** The record that open writes for the handle. *)
Definition open_stamp (pid : Z) (cpr : avl_struct) : avl_struct :=
  set_prev 0 (if pid_fits then set_data (put_pid pid (b (clear_nodes 32 cpr)))
                                        (clear_nodes 32 cpr)
              else clear_nodes 32 cpr).

Lemma open_stamp_spec pid cpr :
  length (n cpr) = n_keys →
  next (open_stamp pid cpr) = next cpr ∧
  length (n (open_stamp pid cpr)) = n_keys ∧
  ((0 < n_keys)%nat → nb (nk (open_stamp pid cpr) 0) = 32) ∧
  (pid_fits = true → has_pid pid (b (open_stamp pid cpr)) = true).
Proof.
  intros Hl. destruct (clear_nodes_fields 32 cpr) as (Hp & Hn & Hb & Hlen).
  unfold open_stamp. destruct pid_fits; simpl.
  - split; [done|]. split; [congruence|]. split.
    + intros Hk. change (nb (nk (clear_nodes 32 cpr) 0) = 32).
      by rewrite clear_nodes_nk.
    + intros _. apply has_put_pid.
  - split; [done|]. split; [congruence|]. split; [|done].
    intros Hk. change (nb (nk (clear_nodes 32 cpr) 0) = 32).
    by rewrite clear_nodes_nk.
Qed.

Lemma open_find_cpr_spec f pid unlocked L : ∀ fuel cp cpr0,
  fwf f → chain f cp L → (length L < fuel)%nat → length (n cpr0) = n_keys →
  ∃ cp' cpr',
    open_find_cpr fuel f pid unlocked cp cpr0 = Ok (cp', cpr') ∧
    length (n cpr') = n_keys ∧
    (cp' = 0 ∨
     (cp' ∈ L ∧ slots f !! cp' = Some cpr' ∧ pid_fits = true ∧
      has_pid pid (b cpr') = false ∧ unlocked cp' = true)).
Proof.
  induction L as [|x L IH]; intros fuel cp cpr0 Hf Hc Hfu Hl;
    (destruct fuel as [|fuel]; [simpl in Hfu; lia|]); simpl in Hc.
  - subst cp. simpl. exists 0, cpr0. split; [done|]. split; [done|]. by left.
  - destruct Hc as (-> & s & Hs & Hc). destruct (Hf _ _ Hs) as (Hx & _ & Hls).
    cbn [open_find_cpr]. rewrite (proj2 (Z.ltb_lt _ _) Hx).
    rewrite (lread_ok _ _ _ Hf Hs). cbn [mbind res_mbind res_bind].
    destruct (pid_fits && negb (has_pid pid (b s)) && unlocked x) eqn:Et.
    + exists x, s. split; [done|]. split; [done|]. right.
      apply andb_true_iff in Et as [Et ?]. apply andb_true_iff in Et as [? Et].
      apply negb_true_iff in Et. split; [by left|done].
    + destruct (IH fuel (next s) s Hf Hc) as (cp' & cpr' & Hrun & Hl' & Hres);
        [simpl in Hfu; lia|done|].
      exists cp', cpr'. split; [done|]. split; [done|].
      destruct Hres as [?|(? & ?)]; [by left|right]. split; [by right|done].
Qed.

Lemma lists_add_handle f h hs Ls Lf Lc pid cp :
  lists_ok f h hs Ls Lf Lc → cp ∈ Lc → cp ∉ h_cpr <$> hs →
  (pid_fits = true → ∀ s, slots f !! cp = Some s → has_pid pid (b s) = true) →
  lists_ok f h (mk_handle pid cp :: hs) Ls Lf Lc.
Proof.
  intros [H1 H2 H3 H4 H5 H6 H7 H8 H9 H10 H11 [Hnd Hall]] Hcp Hfresh Hpid.
  split; try done. split.
  - csimpl. by apply NoDup_cons.
  - intros hd [->|Hhd]%elem_of_cons; [done|by apply Hall].
Qed.

Lemma lock_free_owner hs pid cp hd :
  lock_free hs pid cp = true → hd ∈ hs → h_cpr hd = cp → h_pid hd = pid.
Proof.
  unfold lock_free. intros Hall Hhd Heq.
  apply Is_true_true, forallb_True in Hall. rewrite Forall_forall in Hall.
  specialize (Hall hd Hhd). apply Is_true_true in Hall.
  rewrite Heq, Z.eqb_refl in Hall. simpl in Hall. by apply Z.eqb_eq.
Qed.

(** The lists after the allocation of a current-pointer record. *)
Lemma lists_new_cpr f hs Ls Lf Lc y h0 cpr2 :
  lists_ok f (hdr f) hs Ls Lf Lc →
  h0 = set_head_empty (head_empty h0) (hdr f) →
  chain f (head_empty h0) (tail Lf) →
  0 < y ≤ flen f →
  (y ∉ Ls ++ tail Lf ++ Lc) →
  (∀ x, x = y ∨ is_Some (slots f !! x) ↔ x ∈ (y :: Ls) ++ tail Lf ++ Lc) →
  (∃ N : nat, Z.max (flen f) (y + reclen) = hdr_size + Z.of_nat N * reclen ∧
     ∀ x, x = y ∨ is_Some (slots f !! x) ↔
          ∃ i : nat, (i < N)%nat ∧ x = hdr_size + Z.of_nat i * reclen) →
  NoDup (Ls ++ tail Lf ++ Lc) →
  next cpr2 = head_cpr (hdr f) → length (n cpr2) = n_keys →
  ((0 < n_keys)%nat → nb (nk cpr2 0) = 32) →
  let f' := hwrite (mk_file (hdr f) (<[y := cpr2]> (slots f)) (Z.max (flen f) (y + reclen)))
                   (set_head_cpr y h0) in
  lists_ok f' (hdr f') hs Ls (tail Lf) (y :: Lc).
Proof.
  intros Hlo Hh0 Hce Hyb Hfresh Hcov Hgeo Hnd Hnx Hlen Htag f'.
  pose proof (lists_hdr_size _ _ _ _ _ _ Hlo) as Hhs.
  destruct Hlo as [H1 H2 H3 H4 H5 H6 H7 H8 H9 H10 H11 H12].
  assert (∀ x, is_Some (slots f' !! x) ↔ x = y ∨ is_Some (slots f !! x)) as Hdom.
  { intros x. unfold f'. simpl. rewrite lookup_insert_is_Some.
    split; [intros [->|[_ ?]]; [by left|by right]|].
    intros [->|?]; [by left|]. destruct (decide (y = x)); [by left|by right]. }
  assert (∀ x, x ∈ Ls ++ tail Lf ++ Lc → slots f' !! x = slots f !! x) as Hsame.
  { intros x Hx. unfold f'. simpl. rewrite lookup_insert_ne; [done|]. by intros <-. }
  assert (slots f' !! y = Some cpr2) as Hy.
  { unfold f'. simpl. by rewrite lookup_insert_eq. }
  split.
  - simpl. by rewrite Hh0.
  - simpl. by rewrite Hh0.
  - simpl. by rewrite Hh0.
  - destruct Hgeo as (N & HN & Hd). exists N. split; [simpl; lia|].
    intros x. by rewrite Hdom, Hd.
  - intros x s Hs. destruct (decide (x = y)) as [->|Hx].
    + by assert (s = cpr2) as -> by congruence.
    + unfold f' in Hs. simpl in Hs. rewrite lookup_insert_ne in Hs by done. by eapply H5.
  - simpl. rewrite Hh0. simpl. eapply dchain_ext; [|exact H6]. intros x s Hx Hs.
    exists s. rewrite Hsame; [done|]. apply elem_of_app. by left.
  - simpl. eapply chain_ext; [|exact Hce]. intros x Hx. apply Hsame.
    apply elem_of_app. right. apply elem_of_app. by left.
  - simpl. split; [done|]. exists cpr2. split; [done|]. rewrite Hnx.
    eapply chain_ext; [|exact H8]. intros x Hx. apply Hsame.
    apply elem_of_app. right. apply elem_of_app. by right.
  - assert (Ls ++ tail Lf ++ y :: Lc ≡ₚ y :: Ls ++ tail Lf ++ Lc) as ->
      by solve_Permutation.
    by apply NoDup_cons.
  - intros x. rewrite Hdom, Hcov.
    assert (Ls ++ tail Lf ++ y :: Lc ≡ₚ (y :: Ls) ++ tail Lf ++ Lc) as ->
      by (simpl; solve_Permutation).
    done.
  - intros c s [->|Hc]%elem_of_cons Hs.
    + by assert (s = cpr2) as -> by congruence.
    + rewrite Hsame in Hs by (apply elem_of_app; right; apply elem_of_app; by right).
      by eapply H11.
  - destruct H12 as [Hndh Hall]. split; [done|]. intros hd Hhd.
    destruct (Hall hd Hhd) as [Hin Hp]. split; [by right|].
    intros Hfit s Hs.
    rewrite Hsame in Hs by (apply elem_of_app; right; apply elem_of_app; by right).
    by apply Hp.
Qed.

Lemma open_lists fuel f hs Ls Lf Lc pid :
  lists_ok f (hdr f) hs Ls Lf Lc → (length Lc < fuel)%nat →
  ∃ cp f' Lf' Lc',
    avl_file_open fuel (Some f) pid (lock_free hs pid) = Ok (Some (cp, f')) ∧
    lists_ok f' (hdr f') (mk_handle pid cp :: hs) Ls Lf' Lc' ∧
    (∀ x, x ∈ Ls → slots f' !! x = slots f !! x) ∧
    root (hdr f') = root (hdr f) ∧ n_avl (hdr f') = n_avl (hdr f) ∧
    nextnum (hdr f') = nextnum (hdr f) ∧
    ((Lf' = Lf ∧ Lc' = Lc ∧ cp ∈ Lc) ∨
     (Lf' = tail Lf ∧ Lc' = cp :: Lc ∧
      cp = if head_empty (hdr f) =? 0 then flen f else head_empty (hdr f))).
Proof.
  intros Hlo Hfu. pose proof (lists_fwf _ _ _ _ _ _ Hlo) as Hf.
  unfold avl_file_open.
  rewrite (lo_reclen _ _ _ _ _ _ Hlo), (lo_nkeys _ _ _ _ _ _ Hlo), !Z.eqb_refl.
  cbn [negb].
  destruct (open_find_cpr_spec f pid (lock_free hs pid) Lc fuel (head_cpr (hdr f)) uninit)
    as (cp1 & cpr1 & Hrun & Hlen1 & Hres);
    [done|by apply (lo_cpr _ _ _ _ _ _ Hlo)|done|by apply Nat.eqb_eq|].
  rewrite Hrun. cbn [mbind res_mbind res_bind].
  destruct Hres as [->|(Hin & Hs & Hfit & Hhp & Hul)].
  - change (0 =? 0) with true. cbn iota.
    destruct (ins_take_spec _ _ _ _ _ cpr1 Hlo Hlen1)
      as (y & yr0 & h0 & Hy & Hsel & Hh0 & Hce & Hlen0 & Hyb & Hfresh & Hcov & Hgeo &
          Hnd & Hdisj).
    set (cpr2 := open_stamp pid (set_next (head_cpr h0) yr0)).
    destruct (open_stamp_spec pid (set_next (head_cpr h0) yr0)) as (Hn2 & Hl2 & Ht2 & Hp2);
      [done|].
    assert (head_cpr h0 = head_cpr (hdr f)) as Ehc by (by rewrite Hh0).
    exists y.
    exists (hwrite (mk_file (hdr f) (<[y := cpr2]> (slots f)) (Z.max (flen f) (y + reclen)))
                   (set_head_cpr y h0)).
    exists (tail Lf), (y :: Lc).
    split; [|split; [|split; [|split; [|split; [|split]]]]].
    + destruct Hdisj as [(He & -> & ->)|(He & Hrd & ->)].
      * rewrite He in Hy |- *. simpl in Hy. subst y.
        change (0 =? 0) with true. cbn [mbind res_mbind res_bind].
        change (lwrite f (flen f) cpr2
                ≫= (λ f0, Ok (Some (flen f, hwrite f0 (set_head_cpr (flen f) (hdr f)))))
                = Ok (Some (flen f,
                    hwrite (mk_file (hdr f) (<[flen f := cpr2]> (slots f))
                                    (Z.max (flen f) (flen f + reclen)))
                           (set_head_cpr (flen f) (hdr f))))).
        by rewrite lwrite_upto by lia.
      * rewrite (proj2 (Z.eqb_neq _ _) He) in Hy |- *. subst y.
        rewrite Hrd. cbn [mbind res_mbind res_bind].
        change (lwrite f (head_empty (hdr f)) cpr2
                ≫= (λ f0, Ok (Some (head_empty (hdr f),
                     hwrite f0 (set_head_cpr (head_empty (hdr f))
                                 (set_head_empty (next yr0) (hdr f))))))
                = Ok (Some (head_empty (hdr f),
                    hwrite (mk_file (hdr f) (<[head_empty (hdr f) := cpr2]> (slots f))
                                    (Z.max (flen f) (head_empty (hdr f) + reclen)))
                           (set_head_cpr (head_empty (hdr f))
                              (set_head_empty (next yr0) (hdr f)))))).
        by rewrite lwrite_upto by lia.
    + apply lists_add_handle.
      * apply lists_new_cpr; try done. unfold cpr2. rewrite Hn2. exact Ehc.
      * by left.
      * intros (hd & Heq & Hhd)%list_elem_of_fmap.
        destruct (lo_handles _ _ _ _ _ _ Hlo) as [_ Hall].
        destruct (Hall hd Hhd) as [Hc _]. apply Hfresh. rewrite Heq.
        apply elem_of_app. right. apply elem_of_app. by right.
      * intros Hfit s. cbn [hwrite slots]. rewrite lookup_insert_eq.
        intros [= <-]. by apply Hp2.
    + intros x Hx. cbn [hwrite slots]. rewrite lookup_insert_ne; [done|].
      intros <-. apply Hfresh, elem_of_app. by left.
    + simpl. by rewrite Hh0.
    + simpl. by rewrite Hh0.
    + simpl. by rewrite Hh0.
    + right; by repeat split.
  - destruct (Hf _ _ Hs) as (Hcpos & _).
    rewrite (proj2 (Z.eqb_neq _ _)) by lia. cbn [mbind res_mbind res_bind].
    destruct (open_stamp_spec pid cpr1 Hlen1) as (Hn2 & Hl2 & Ht2 & Hp2).
    exists cp1, (hwrite (upd f cp1 (open_stamp pid cpr1)) (hdr f)), Lf, Lc.
    assert (∀ hd, hd ∈ hs → h_cpr hd ≠ cp1) as Hnoh.
    { intros hd Hhd Heq.
      pose proof (lock_free_owner _ _ _ _ Hul Hhd Heq) as Hown.
      destruct (lo_handles _ _ _ _ _ _ Hlo) as [_ Hall].
      destruct (Hall hd Hhd) as [_ Hpid]. rewrite Heq, Hown in Hpid.
      rewrite (Hpid Hfit _ Hs) in Hhp. done. }
    split; [|split; [|split; [|split; [|split; [|split]]]]].
    + change (lwrite f cp1 (open_stamp pid cpr1)
              ≫= (λ f0, Ok (Some (cp1, hwrite f0 (hdr f))))
              = Ok (Some (cp1, hwrite (upd f cp1 (open_stamp pid cpr1)) (hdr f)))).
      by rewrite (lwrite_ok _ _ _ _ Hf Hs).
    + apply lists_add_handle.
      * eapply lists_hdr; [eapply (lists_cursor_write f (hdr f) hs Ls Lf Lc cp1 cpr1
                             (open_stamp pid cpr1)); try done|..]; try done.
        -- intros _ hd Hhd Heq. by destruct (Hnoh hd Hhd).
        -- simpl. pose proof (lists_hdr_size _ _ _ _ _ _ Hlo). lia.
      * done.
      * intros (hd & Heq & Hhd)%list_elem_of_fmap. by apply (Hnoh hd Hhd).
      * intros _ s. cbn [hwrite slots upd]. rewrite lookup_insert_eq.
        intros [= <-]. by apply Hp2.
    + intros x Hx. cbn [hwrite slots upd]. rewrite lookup_insert_ne; [done|].
      intros <-. by eapply lists_disjoint_sc.
    + done.
    + done.
    + done.
    + left. by repeat split.
Qed.

Lemma inv_list_fuel f hs Ls Lf Lc ts fuel :
  inv_with f hs Ls Lf Lc ts → enough f fuel →
  (length Ls + 2 < fuel)%nat ∧ (length Lf + 2 < fuel)%nat ∧ (length Lc + 2 < fuel)%nat.
Proof.
  intros [Hlo _ _] Hfu. pose proof (lo_nodup _ _ _ _ _ _ Hlo) as Hnd.
  pose proof (lo_cover _ _ _ _ _ _ Hlo) as Hcov.
  assert (length (Ls ++ Lf ++ Lc) ≤ size (slots f))%nat as Hsz.
  { apply nodup_length_size; [done|]. intros x Hx. by apply Hcov. }
  rewrite !length_app in Hsz. unfold enough in Hfu. lia.
Qed.

Lemma open_inv fuel f hs Ls Lf Lc ts pid :
  inv_with f hs Ls Lf Lc ts → enough f fuel →
  ∃ cp f' Lf' Lc',
    avl_file_open fuel (Some f) pid (lock_free hs pid) = Ok (Some (cp, f')) ∧
    inv_with f' (mk_handle pid cp :: hs) Ls Lf' Lc' ts ∧
    (∀ x, x ∈ Ls → slots f' !! x = slots f !! x) ∧
    nextnum (hdr f') = nextnum (hdr f).
Proof.
  intros Hinv Hfu. destruct (inv_list_fuel _ _ _ _ _ _ _ Hinv Hfu) as (_ & _ & Hfc).
  destruct Hinv as [Hlo Hcnt Htr].
  destruct (open_lists fuel f hs Ls Lf Lc pid Hlo) as
    (cp & f' & Lf' & Lc' & Hrun & Hlo' & Hsame & Hroot & Hnavl & Hnext & _); [lia|].
  exists cp, f', Lf', Lc'. split; [done|]. split; [|done]. split; [done|congruence|].
  apply (trees_ext f f' Ls ts); [|done|done].
  intros x s Hx Hs. exists s. by rewrite Hsame.
Qed.

(** The file that open creates. *)
Lemma new_file_lists : lists_ok (mk_file new_hdr ∅ hdr_size) new_hdr [] [] [] [].
Proof.
  split; simpl.
  - done.
  - done.
  - by rewrite length_replicate.
  - exists 0%nat. split; [lia|]. intros x. rewrite lookup_empty. split.
    + by intros [? ?].
    + intros (i & Hi & _). lia.
  - intros x s. by rewrite lookup_empty.
  - done.
  - done.
  - done.
  - constructor.
  - intros x. rewrite lookup_empty. split; [by intros [? ?]|by intros ?%elem_of_nil].
  - by intros c s ?%elem_of_nil.
  - split; [constructor|]. by intros hd ?%elem_of_nil.
Qed.

Lemma create_inv fuel pid :
  (0 < fuel)%nat →
  ∃ f',
    avl_file_open fuel None pid (λ _, true) = Ok (Some (hdr_size, f')) ∧
    inv_with f' [mk_handle pid hdr_size] [] [] [hdr_size] (λ _, E) ∧
    nextnum (hdr f') = 0.
Proof.
  intros Hfu.
  destruct (open_lists fuel (mk_file new_hdr ∅ hdr_size) [] [] [] [] pid new_file_lists)
    as (cp & f' & Lf' & Lc' & Hrun & Hlo' & Hsame & Hroot & Hnavl & Hnext & Hcp);
    [simpl; lia|].
  destruct Hcp as [(_ & _ & []%elem_of_nil)|(-> & -> & Hcp)]. simpl in Hcp. subst cp.
  exists f'. split; [exact Hrun|]. split; [|done]. split; [done| |].
  - rewrite Hnavl. simpl. split; [done|lia].
  - intros k Hk. split; [done|]. split; [|split; [done|split; [done|constructor]]].
    unfold root_k. rewrite Hroot. simpl. by rewrite lookup_total_replicate_2.
Qed.

(** ** The search for a path among duplicate keys *)

Lemma StronglySorted_sublist {A} (R : relation A) (l l' : list A) :
  l' `sublist_of` l → StronglySorted R l → StronglySorted R l'.
Proof.
  induction 1 as [|x l1 l2 Hsub IH|x l1 l2 Hsub IH]; intros Hs; [done| |].
  - apply StronglySorted_cons in Hs as (Hx & Hs). apply StronglySorted_cons.
    split; [|by apply IH]. eapply Forall_forall. intros y Hy.
    rewrite Forall_forall in Hx. apply Hx. by eapply elem_of_sublist.
  - apply StronglySorted_cons in Hs as (_ & Hs). by apply IH.
Qed.

Lemma cmp_eq_sym k a c : cmp k a c = 0 → cmp k c a = 0.
Proof.
  intros H0. pose proof (cmp_sym k a c). pose proof (cmp_sym k c a). lia.
Qed.

Lemma cmp_lt_le_trans k a c e :
  cmp (Z.of_nat k) a c < 0 → kle k c e → cmp (Z.of_nat k) a e < 0.
Proof.
  intros Hac Hce. unfold kle in Hce.
  destruct (Z.lt_ge_cases (cmp (Z.of_nat k) a e) 0) as [?|Hge]; [done|].
  assert (cmp (Z.of_nat k) e a ≤ 0) as Hea.
  { pose proof (cmp_sym (Z.of_nat k) a e). lia. }
  pose proof (cmp_trans _ _ _ _ Hce Hea) as Hca.
  pose proof (cmp_sym (Z.of_nat k) a c). lia.
Qed.

Lemma cmp_le_gt_trans k a c e :
  kle k e c → 0 < cmp (Z.of_nat k) a c → 0 < cmp (Z.of_nat k) a e.
Proof.
  intros Hec Hac. unfold kle in Hec.
  destruct (Z.lt_ge_cases 0 (cmp (Z.of_nat k) a e)) as [?|Hge]; [done|].
  pose proof (cmp_trans _ _ _ _ Hge Hec) as Hca.
  lia.
Qed.

(** The frames at which the search went to the left of a record with the
    key it looks for; [levels] are their indices in the path. *)
Definition eqL (k : nat) (yb : data) (g : frame) : bool :=
  match fdir g with
  | L => cmp (Z.of_nat k) yb (fd g) =? 0
  | R => false
  end.

Fixpoint levels (k : nat) (yb : data) (c : list frame) : list Z :=
  match c with
  | [] => []
  | g :: c' => levels k yb c' ++ (if eqL k yb g then [Z.of_nat (length c')] else [])
  end.

Definition stack_ok (k : nat) (yb : data) (c : list frame) (stack : Z → Z) (m : Z) : Prop :=
  m = Z.of_nat (length (levels k yb c)) ∧
  ∀ j : nat, (j < length (levels k yb c))%nat → stack (Z.of_nat j) = levels k yb c !!! j.

(** The path arrays hold the records of the context, the root first. *)
Definition pth (f : file) (c : list frame) (pa : Z → Z) (par : Z → avl_struct) : Prop :=
  ∀ (i : nat) g, c !! i = Some g →
    pa (Z.of_nat (length c - 1 - i)) = fx g ∧
    slots f !! fx g = Some (par (Z.of_nat (length c - 1 - i))).

Definition dirs_ok (k : nat) (yb : data) (c : list frame) : Prop :=
  Forall (λ g, match fdir g with
               | L => cmp (Z.of_nat k) yb (fd g) ≤ 0
               | R => 0 ≤ cmp (Z.of_nat k) yb (fd g)
               end) c.

Fixpoint nL (c : list frame) : nat :=
  match c with
  | [] => 0
  | g :: c => (match fdir g with L => 1 | R => 0 end) + nL c
  end.

Lemma nL_cr c : (nL c ≤ length (cr c))%nat.
Proof.
  induction c as [|g c IH]; simpl; [done|].
  rewrite length_app. destruct (fdir g); simpl; lia.
Qed.

Definition mu (c : list frame) (s : tree) : nat :=
  3 * (length (inord s) + length (cr c)) + 1 - nL c.

Lemma plug_height c s : Z.of_nat (length c) + height s ≤ height (plug c s).
Proof.
  revert s. induction c as [|g c IH]; intros s; simpl; [lia|].
  specialize (IH (fill g s)). rewrite height_fill in IH.
  pose proof (height_nonneg (fsib g)). lia.
Qed.

(** A tree that is balanced and has fewer than 2^63 nodes is less than
    128 high: the path arrays are long enough. *)
Lemma avl_size t : avl t → 2 ^ (height t / 2) ≤ Z.of_nat (length (nodes t)) + 1.
Proof.
  induction t as [|l IHl x bal d r IHr]; intros Ha; simpl; [done|].
  destruct Ha as (Hb & Hbal & Hal & Har).
  specialize (IHl Hal). specialize (IHr Har).
  pose proof (height_nonneg l) as Hl0. pose proof (height_nonneg r) as Hr0.
  rewrite length_app. simpl.
  set (hl := height l) in *. set (hr := height r) in *.
  destruct (Z.eq_dec (Z.max hl hr) 0) as [E0|E0].
  - replace ((1 + Z.max hl hr) / 2) with 0 by (rewrite E0; done). simpl. lia.
  - assert (1 ≤ Z.max hl hr) as Hm by lia.
    assert ((1 + Z.max hl hr) / 2 = (Z.max hl hr - 1) / 2 + 1) as ->.
    { replace (1 + Z.max hl hr) with ((Z.max hl hr - 1) + 1 * 2) by lia.
      by rewrite Z.div_add by lia. }
    rewrite Z.pow_add_r by (try apply Z.div_pos; lia). change (2 ^ 1) with 2.
    assert (2 ^ ((Z.max hl hr - 1) / 2) ≤ 2 ^ (hl / 2)) as H1.
    { apply Z.pow_le_mono_r; [lia|]. apply Z.div_le_mono; lia. }
    assert (2 ^ ((Z.max hl hr - 1) / 2) ≤ 2 ^ (hr / 2)) as H2.
    { apply Z.pow_le_mono_r; [lia|]. apply Z.div_le_mono; lia. }
    lia.
Qed.

Lemma avl_height_bound t :
  avl t → Z.of_nat (length (nodes t)) < 2 ^ 63 → height t < path_max.
Proof.
  intros Ha Hn. pose proof (avl_size t Ha) as Hs. unfold path_max.
  destruct (Z.lt_ge_cases (height t) 128) as [?|Hge]; [done|].
  assert (2 ^ 64 ≤ 2 ^ (height t / 2)) as Hp.
  { apply Z.pow_le_mono_r; [lia|].
    change 64 with (128 / 2). apply Z.div_le_mono; lia. }
  lia.
Qed.

Lemma levels_last k yb c :
  levels k yb c ≠ [] →
  ∃ below e above,
    c = below ++ e :: above ∧ eqL k yb e = true ∧
    Forall (λ g, eqL k yb g = false) below ∧
    levels k yb c = levels k yb above ++ [Z.of_nat (length above)].
Proof.
  induction c as [|g c IH]; [done|]. simpl. intros Hne.
  destruct (eqL k yb g) eqn:Eg.
  - exists [], g, c. by repeat split.
  - rewrite app_nil_r in Hne |- *.
    destruct (IH Hne) as (below & e & above & -> & He & Hb & Hl).
    exists (g :: below), e, above. split; [done|]. split; [done|].
    split; [by constructor|done].
Qed.

Lemma levels_nil k yb c : levels k yb c = [] → Forall (λ g, eqL k yb g = false) c.
Proof.
  induction c as [|g c IH]; [done|]. simpl. intros Hl.
  apply app_eq_nil in Hl as [Hl1 Hl2].
  constructor; [by destruct (eqL k yb g)|by apply IH].
Qed.

(** Without a frame of the key looked for, everything to the right of
    the hole is greater. *)
Lemma cr_strict k yb c :
  Forall (λ g, eqL k yb g = false) c → dirs_ok k yb c →
  StronglySorted (kle2 k) (cl c ++ cr c) →
  Forall (λ e, cmp (Z.of_nat k) yb e.2 < 0) (cr c).
Proof.
  induction c as [|g c IH]; intros He Hd Hs; simpl; [done|].
  inversion He as [|? ? Hg He']; subst. inversion Hd as [|? ? Hdg Hd']; subst.
  simpl in Hs. unfold eqL in Hg.
  destruct g as [[] x bal d sib]; simpl in *.
  - rewrite app_nil_r in Hs.
    assert (StronglySorted (kle2 k) (cl c ++ cr c)) as Hs'.
    { eapply StronglySorted_sublist; [|exact Hs]. apply sublist_app; [done|].
      apply sublist_cons. by apply sublist_inserts_l. }
    apply StronglySorted_app in Hs as (_ & _ & H2).
    apply StronglySorted_cons in H2 as (Hx & _).
    apply Forall_app in Hx as [Hx1 _].
    apply Z.eqb_neq in Hg.
    assert (cmp (Z.of_nat k) yb d < 0) as Hlt by lia.
    constructor; [done|]. apply Forall_app. split; [|by apply IH].
    eapply Forall_impl; [exact Hx1|]. intros e Hle. by eapply cmp_lt_le_trans.
  - apply IH; [done|done|].
    eapply StronglySorted_sublist; [|exact Hs]. apply sublist_app; [|done].
    by apply sublist_inserts_r.
Qed.

Lemma pth_ext f c pa par pa' par' :
  pth f c pa par →
  (∀ i : Z, 0 ≤ i < Z.of_nat (length c) → pa' i = pa i ∧ par' i = par i) →
  pth f c pa' par'.
Proof.
  intros Hp Hext i g Hi. destruct (Hp i g Hi) as [H1 H2].
  pose proof (lookup_lt_Some _ _ _ Hi) as Hlt.
  destruct (Hext (Z.of_nat (length c - 1 - i))) as [-> ->]; [lia|done].
Qed.

Lemma pth_cons f g c pa par :
  pth f c pa par → pa (Z.of_nat (length c)) = fx g →
  slots f !! fx g = Some (par (Z.of_nat (length c))) →
  pth f (g :: c) pa par.
Proof.
  intros Hp Ha Hr [|i] g' Hi; simpl in Hi.
  - injection Hi as <-.
    by replace (length (g :: c) - 1 - 0)%nat with (length c) by (simpl; lia).
  - pose proof (lookup_lt_Some _ _ _ Hi) as Hlt.
    destruct (Hp i g' Hi) as [H1 H2].
    replace (length (g :: c) - 1 - S i)%nat with (length c - 1 - i)%nat
      by (simpl; lia).
    done.
Qed.

Lemma pth_suffix f below e above pa par :
  pth f (below ++ e :: above) pa par →
  pth f above pa par ∧ pa (Z.of_nat (length above)) = fx e ∧
  slots f !! fx e = Some (par (Z.of_nat (length above))).
Proof.
  intros Hp. split.
  - intros i g Hi. pose proof (lookup_lt_Some _ _ _ Hi) as Hlt.
    destruct (Hp (length below + 1 + i)%nat g) as [H1 H2].
    { rewrite lookup_app_r by lia.
      replace (length below + 1 + i - length below)%nat with (S i) by lia. done. }
    rewrite length_app in H1, H2. simpl in H1, H2.
    replace (length below + S (length above) - 1 - (length below + 1 + i))%nat
      with (length above - 1 - i)%nat in * by lia.
    done.
  - destruct (Hp (length below) e) as [H1 H2].
    { rewrite lookup_app_r by lia. by rewrite Nat.sub_diag. }
    rewrite length_app in H1, H2. simpl in H1, H2.
    replace (length below + S (length above) - 1 - length below)%nat
      with (length above) in * by lia.
    done.
Qed.

(** No record of the list has the key looked for and is accepted. *)
Definition excl (f : file) (hit : Z → avl_struct → bool) (k : nat) (yb : data)
    (l : list (Z * data)) : Prop :=
  ∀ x d r, (x, d) ∈ l → cmp (Z.of_nat k) yb d = 0 → slots f !! x = Some r →
           hit x r = false.

Lemma excl_app f hit k yb l1 l2 :
  excl f hit k yb (l1 ++ l2) ↔ excl f hit k yb l1 ∧ excl f hit k yb l2.
Proof.
  unfold excl. split.
  - intros Hx. split; intros x d r Hin; apply Hx, elem_of_app; [by left|by right].
  - intros [H1 H2] x d r [Hin|Hin]%elem_of_app; [by apply H1|by apply H2].
Qed.

Lemma excl_strict f hit k yb l :
  Forall (λ e, cmp (Z.of_nat k) yb e.2 ≠ 0) l → excl f hit k yb l.
Proof.
  rewrite Forall_forall. intros Hl x d r Hin Hc. by destruct (Hl (x, d) Hin).
Qed.

Lemma nL_app c1 c2 : nL (c1 ++ c2) = (nL c1 + nL c2)%nat.
Proof. induction c1 as [|g c1 IH]; simpl; [done|]. rewrite IH. lia. Qed.

Lemma eqL_L k yb g :
  eqL k yb g = true → fdir g = L ∧ cmp (Z.of_nat k) yb (fd g) = 0.
Proof.
  unfold eqL. destruct (fdir g); [|done]. intros ?%Z.eqb_eq. done.
Qed.

(** The state of the search at [af_..._loop1]: the path so far is the
    context [c], and [pa[l]] is the link to the subtree [s]. *)
Definition psi (f : file) (k : nat) (yb : data) (hit : Z → avl_struct → bool)
    (c : list frame) (s : tree) (pa : Z → Z) (par : Z → avl_struct)
    (stack : Z → Z) (m : Z) : Prop :=
  repr (view f k) 0 0 (plug c s) ∧ cpos c ∧ pth f c pa par ∧
  pa (Z.of_nat (length c)) = hlink c s ∧
  stack_ok k yb c stack m ∧ dirs_ok k yb c ∧ excl f hit k yb (cl c) ∧
  StronglySorted (kle2 k) (inord (plug c s)) ∧ height (plug c s) < path_max.

(** What the search returns: the path to a record of the tree [t] that
    has the key looked for and is accepted, or nothing when there is no
    such record. *)
Definition path_post (f : file) (k : nat) (yb : data) (hit : Z → avl_struct → bool)
    (t : tree) (res : option (Z * (Z → Z) * (Z → avl_struct))) : Prop :=
  match res with
  | Some (l', pa', par') =>
      ∃ c' sl x bal d sr,
        plug c' (T sl x bal d sr) = t ∧ l' = Z.of_nat (length c') ∧
        pth f c' pa' par' ∧ pa' l' = x ∧ slots f !! x = Some (par' l') ∧
        hit x (par' l') = true ∧ cmp (Z.of_nat k) yb d = 0
  | None => excl f hit k yb (inord t)
  end.

Lemma path_search_null f k yb hit c pa par stack m :
  psi f k yb hit c E pa par stack m → levels k yb c = [] →
  (0 <? pa (Z.of_nat (length c))) = false ∧ (0 <? m) = false ∧
  path_post f k yb hit (plug c E) None.
Proof.
  intros (Hr & Hpos & Hp & Hpa & Hst & Hd & Hex & Hso & Hh) Hl.
  pose proof (hthr_nonneg _ Hpos) as Hthr.
  split; [rewrite Hpa; unfold hlink; simpl; apply Z.ltb_ge; lia|].
  destruct Hst as [Hm _]. rewrite Hl in Hm. simpl in Hm. subst m.
  split; [done|]. simpl. rewrite inord_plug in Hso |- *. simpl in *.
  apply excl_app. split; [done|]. apply excl_strict.
  eapply Forall_impl; [apply cr_strict; try done|].
  - by apply levels_nil.
  - intros e He. simpl in He. lia.
Qed.

Lemma psi_node f k yb hit c sl x bal d sr pa par stack m :
  fwf f →
  psi f k yb hit c (T sl x bal d sr) pa par stack m →
  ∃ r, slots f !! x = Some r ∧ lread f x = Ok r ∧
       nk r k = mk_node bal (link sl (cbounds c).1) (link sr (cbounds c).2) ∧
       b r = d ∧ 0 < x ∧ pa (Z.of_nat (length c)) = x ∧
       Z.of_nat (length c) + 1 < path_max.
Proof.
  intros Hf (Hr & Hpos & Hp & Hpa & Hst & Hd & Hex & Hso & Hh).
  apply repr_plug in Hr as (_ & Hs). simpl in Hs. destruct Hs as (Hx & _).
  apply (view_slot _ _ _ _ _ Hf) in Hx as (r & Hr & Hrd & Hnk & Hb & Hxp).
  exists r. repeat split; try done.
  pose proof (plug_height c (T sl x bal d sr)) as Hph. simpl in Hph.
  pose proof (height_nonneg sl). pose proof (height_nonneg sr). lia.
Qed.

Lemma psi_left f k yb hit c sl x bal d sr pa par stack m r :
  psi f k yb hit c (T sl x bal d sr) pa par stack m →
  slots f !! x = Some r → 0 < x →
  nk r k = mk_node bal (link sl (cbounds c).1) (link sr (cbounds c).2) →
  cmp (Z.of_nat k) yb d ≤ 0 →
  psi f k yb hit (F L x bal d sr :: c) sl
      (<[Z.of_nat (length c) + 1 := nl (nk r k)]> pa)
      (<[Z.of_nat (length c) := r]> par)
      (if cmp (Z.of_nat k) yb d =? 0 then <[m := Z.of_nat (length c)]> stack else stack)
      (if cmp (Z.of_nat k) yb d =? 0 then m + 1 else m).
Proof.
  intros (Hr & Hpos & Hp & Hpa & Hst & Hd & Hex & Hso & Hh) Hs Hx Hnk Hc.
  split; [done|]. split; [by constructor|]. split; [|split; [|split; [|split; [|split]]]].
  - apply pth_cons.
    + eapply pth_ext; [exact Hp|]. intros i Hi.
      rewrite !fn_lookup_insert_ne by lia. done.
    + rewrite fn_lookup_insert_ne by lia. by rewrite Hpa.
    + by rewrite fn_lookup_insert.
  - replace (Z.of_nat (length (F L x bal d sr :: c))) with (Z.of_nat (length c) + 1)
      by (simpl; lia).
    rewrite fn_lookup_insert, Hnk. done.
  - destruct Hst as [Hm Hstk]. unfold stack_ok. simpl. unfold eqL. simpl.
    destruct (cmp (Z.of_nat k) yb d =? 0).
    + rewrite length_app. simpl. split; [lia|]. intros j Hj.
      destruct (decide (j = length (levels k yb c))) as [->|Hne].
      * rewrite <- Hm, fn_lookup_insert.
        rewrite lookup_total_app_r by done. by rewrite Nat.sub_diag.
      * rewrite fn_lookup_insert_ne by lia.
        rewrite lookup_total_app_l by lia. apply Hstk. lia.
    + rewrite app_nil_r. done.
  - by constructor.
  - simpl. by rewrite app_nil_r.
  - done.
Qed.

Lemma psi_right f k yb hit c sl x bal d sr pa par par' stack m r :
  psi f k yb hit c (T sl x bal d sr) pa par stack m →
  slots f !! x = Some r → 0 < x →
  nk r k = mk_node bal (link sl (cbounds c).1) (link sr (cbounds c).2) →
  0 ≤ cmp (Z.of_nat k) yb d →
  excl f hit k yb (inord sl) → excl f hit k yb [(x, d)] →
  par' (Z.of_nat (length c)) = r →
  (∀ i, 0 ≤ i < Z.of_nat (length c) → par' i = par i) →
  psi f k yb hit (F R x bal d sl :: c) sr
      (<[Z.of_nat (length c) + 1 := nr (nk (par' (Z.of_nat (length c))) k)]> pa)
      par' stack m.
Proof.
  intros (Hr & Hpos & Hp & Hpa & Hst & Hd & Hex & Hso & Hh) Hs Hx Hnk Hc Hel Hex1 Hp1 Hp2.
  split; [done|]. split; [by constructor|]. split; [|split; [|split; [|split; [|split]]]].
  - apply pth_cons.
    + eapply pth_ext; [exact Hp|]. intros i Hi.
      rewrite !fn_lookup_insert_ne by lia. split; [done|by apply Hp2].
    + rewrite fn_lookup_insert_ne by lia. by rewrite Hpa.
    + by rewrite Hp1.
  - replace (Z.of_nat (length (F R x bal d sl :: c))) with (Z.of_nat (length c) + 1)
      by (simpl; lia).
    rewrite fn_lookup_insert, Hp1, Hnk. done.
  - destruct Hst as [Hm Hstk]. unfold stack_ok. simpl. unfold eqL. simpl.
    rewrite app_nil_r. done.
  - by constructor.
  - simpl. apply excl_app. split; [done|]. apply excl_app. by split.
  - done.
Qed.

Lemma psi_pop f k yb hit c pa par stack m below e above :
  psi f k yb hit c E pa par stack m →
  c = below ++ e :: above → eqL k yb e = true →
  Forall (λ g, eqL k yb g = false) below →
  levels k yb c = levels k yb above ++ [Z.of_nat (length above)] →
  (0 <? pa (Z.of_nat (length c))) = false ∧ (0 <? m) = true ∧
  stack (m - 1) = Z.of_nat (length above) ∧
  plug above (T (plug below E) (fx e) (fbal e) (fd e) (fsib e)) = plug c E ∧
  psi f k yb hit above (T (plug below E) (fx e) (fbal e) (fd e) (fsib e))
      pa par stack (m - 1) ∧
  excl f hit k yb (inord (plug below E)) ∧
  cmp (Z.of_nat k) yb (fd e) = 0.
Proof.
  intros (Hr & Hpos & Hp & Hpa & Hst & Hd & Hex & Hso & Hh) Hc He Hb Hl.
  destruct (eqL_L _ _ _ He) as [HeL He0].
  pose proof (hthr_nonneg _ Hpos) as Hthr.
  destruct Hst as [Hm Hstk].
  assert (plug above (T (plug below E) (fx e) (fbal e) (fd e) (fsib e)) = plug c E) as Hpl.
  { rewrite Hc, plug_app. simpl. unfold fill. by rewrite HeL. }
  split; [rewrite Hpa; unfold hlink; simpl; apply Z.ltb_ge; lia|].
  rewrite Hl, length_app in Hm. simpl in Hm.
  split; [apply Z.ltb_lt; lia|].
  split.
  { replace (m - 1) with (Z.of_nat (length (levels k yb above))) by lia.
    rewrite Hstk by (rewrite Hl, length_app; simpl; lia).
    rewrite Hl, lookup_total_app_r by done. by rewrite Nat.sub_diag. }
  split; [done|].
  subst c. destruct (pth_suffix _ _ _ _ _ _ Hp) as (Hpa' & Hpae & Hpar).
  apply Forall_app in Hpos as [Hposb Hpos']. inversion Hpos' as [|? ? Hepos Hposa]; subst.
  apply Forall_app in Hd as [Hdb Hd']. inversion Hd' as [|? ? Hde Hda]; subst.
  rewrite cl_app in Hex. simpl in Hex. rewrite HeL, app_nil_r in Hex.
  apply excl_app in Hex as [Hexa Hexb].
  split; [|split; [|done]].
  - split; [by rewrite Hpl|]. split; [done|]. split; [done|]. split; [done|].
    split; [|split; [done|split; [done|split; by rewrite Hpl]]].
    split; [lia|]. intros j Hj. rewrite Hstk by (rewrite Hl, length_app; simpl; lia).
    rewrite Hl. by rewrite lookup_total_app_l.
  - rewrite inord_plug. simpl. apply excl_app. split; [done|].
    apply excl_strict. eapply Forall_impl; [apply cr_strict; try done|].
    + rewrite inord_plug, cl_app, cr_app in Hso. simpl in Hso.
      eapply StronglySorted_sublist; [|exact Hso].
      apply sublist_app; [by apply sublist_inserts_l|by apply sublist_inserts_r].
    + intros e' He'. simpl in He'. lia.
Qed.

Lemma in_bounds_ok i : 0 ≤ i < path_max → in_bounds i = true.
Proof.
  intros Hi. unfold in_bounds. apply andb_true_iff. split; [apply Z.leb_le|apply Z.ltb_lt]; lia.
Qed.

Lemma path_search_spec f k yb hit :
  fwf f → (k < n_keys)%nat →
  ∀ fuel c s pa par stack m,
    (mu c s ≤ fuel)%nat → psi f k yb hit c s pa par stack m →
    ∃ res,
      path_search fuel f k yb hit pa par stack (Z.of_nat (length c)) m false = Ok res ∧
      path_post f k yb hit (plug c s) res.
Proof.
  intros Hf Hk fuel. induction fuel as [fuel IH] using lt_wf_ind.
  intros c s pa par stack m Hmu Hpsi.
  pose proof (nL_cr c) as HnL.
  destruct fuel as [|fuel]; [unfold mu in Hmu; lia|].
  cbn [path_search].
  destruct s as [|sl x bal d sr].
  - destruct (decide (levels k yb c = [])) as [Hl|Hl].
    + destruct (path_search_null _ _ _ _ _ _ _ _ _ Hpsi Hl) as (-> & -> & Hpost).
      by exists None.
    + destruct (levels_last _ _ _ Hl) as (below & e & above & Hc & He & Hb & Hlv).
      destruct (psi_pop _ _ _ _ _ _ _ _ _ _ _ _ Hpsi Hc He Hb Hlv)
        as (-> & -> & Hst & Hpl & Hpsi' & Hexb & He0).
      rewrite Hst.
      destruct (psi_node _ _ _ _ _ _ _ _ _ _ _ _ _ _ Hf Hpsi')
        as (r & Hr & Hrd & Hnk & Hbr & Hxp & Hpa & Hbd).
      pose proof Hpsi' as (_ & _ & Hp' & _).
      assert (par (Z.of_nat (length above)) = r) as Hpar.
      { destruct Hpsi as (_ & _ & Hp & _). rewrite Hc in Hp.
        destruct (pth_suffix _ _ _ _ _ _ Hp) as (_ & _ & Hs'). congruence. }
      destruct (hit (pa (Z.of_nat (length above))) (par (Z.of_nat (length above)))) eqn:Eh.
      * exists (Some (Z.of_nat (length above), pa, par)). split; [done|].
        exists above, (plug below E), (fx e), (fbal e), (fd e), (fsib e).
        rewrite Hpa, Hpar in Eh. rewrite Hpar. done.
      * assert (mu (F R (fx e) (fbal e) (fd e) (plug below E) :: above) (fsib e) + 2
                ≤ mu c E)%nat as Hmu'.
        { unfold mu. rewrite Hc, cr_app, nL_app. simpl.
          destruct (eqL_L _ _ _ He) as [-> _]. simpl.
          rewrite ?length_app. simpl. rewrite ?length_app.
          pose proof (nL_cr below). pose proof (nL_cr above). lia. }
        destruct fuel as [|fuel]; [lia|].
        cbn [path_search]. rewrite in_bounds_ok by lia.
        destruct (IH fuel ltac:(lia)
                    (F R (fx e) (fbal e) (fd e) (plug below E) :: above) (fsib e)
                    (<[Z.of_nat (length above) + 1
                       := nr (nk (par (Z.of_nat (length above))) k)]> pa)
                    par stack (m - 1)) as (res & Hrun & Hpost); [lia| |].
        { eapply psi_right; try done.
          - lia.
          - intros x' d' r' [[= -> ->]|[]%elem_of_nil]%elem_of_cons _ Hr'.
            rewrite Hpa, Hpar in Eh. congruence. }
        exists res. split.
        -- replace (Z.of_nat (length (F R (fx e) (fbal e) (fd e) (plug below E) :: above)))
             with (Z.of_nat (length above) + 1) in Hrun by (simpl; lia).
           exact Hrun.
        -- simpl in Hpost. unfold fill in Hpost. simpl in Hpost. by rewrite <- Hpl.
  - destruct (psi_node _ _ _ _ _ _ _ _ _ _ _ _ _ _ Hf Hpsi)
      as (r & Hr & Hrd & Hnk & Hbr & Hxp & Hpa & Hbd).
    rewrite Hpa. rewrite (proj2 (Z.ltb_lt _ _) Hxp). rewrite Hrd.
    cbn [mbind res_mbind res_bind]. rewrite Hbr.
    destruct (cmp (Z.of_nat k) yb d <=? 0) eqn:Ec.
    + apply Z.leb_le in Ec. rewrite in_bounds_ok by lia.
      destruct (IH fuel ltac:(lia) (F L x bal d sr :: c) sl
                  (<[Z.of_nat (length c) + 1 := nl (nk r k)]> pa)
                  (<[Z.of_nat (length c) := r]> par)
                  (if cmp (Z.of_nat k) yb d =? 0 then <[m := Z.of_nat (length c)]> stack
                   else stack)
                  (if cmp (Z.of_nat k) yb d =? 0 then m + 1 else m))
        as (res & Hrun & Hpost).
      { unfold mu in *. simpl in *. rewrite !length_app in *. simpl in *. lia. }
      { by eapply psi_left. }
      exists res. split; [|exact Hpost].
      replace (Z.of_nat (length (F L x bal d sr :: c))) with (Z.of_nat (length c) + 1)
        in Hrun by (simpl; lia).
      exact Hrun.
    + apply Z.leb_gt in Ec.
      destruct fuel as [|fuel];
        [unfold mu in Hmu; simpl in Hmu; rewrite !length_app in Hmu; simpl in Hmu; lia|].
      cbn [path_search]. rewrite in_bounds_ok by lia.
      rewrite fn_lookup_insert.
      destruct (IH fuel ltac:(lia) (F R x bal d sl :: c) sr
                  (<[Z.of_nat (length c) + 1
                     := nr (nk ((<[Z.of_nat (length c) := r]> par) (Z.of_nat (length c))) k)]> pa)
                  (<[Z.of_nat (length c) := r]> par) stack m)
        as (res & Hrun & Hpost).
      { unfold mu in *. simpl in *. rewrite !length_app in *. simpl in *. lia. }
      { eapply psi_right; try done.
        - lia.
        - apply excl_strict. destruct Hpsi as (_ & _ & _ & _ & _ & _ & _ & Hso & _).
          rewrite inord_plug in Hso. simpl in Hso.
          apply StronglySorted_app in Hso as (_ & _ & Hso).
          apply StronglySorted_app in Hso as (_ & Hso & _).
          apply StronglySorted_app in Hso as (H12 & _ & _).
          apply Forall_forall. intros e' He'.
          assert (0 < cmp (Z.of_nat k) yb e'.2); [|lia].
          eapply cmp_le_gt_trans; [|exact Ec]. apply (H12 e' (x, d)); [done|by left].
        - apply excl_strict. constructor; [simpl; lia|constructor].
        - by rewrite fn_lookup_insert.
        - intros i Hi. by rewrite fn_lookup_insert_ne by lia. }
      exists res. split; [|exact Hpost].
      rewrite fn_lookup_insert in Hrun.
      replace (Z.of_nat (length (F R x bal d sl :: c))) with (Z.of_nat (length c) + 1)
        in Hrun by (simpl; lia).
      exact Hrun.
Qed.

(** * The consistency of the file across the operations

    [live s Ls]: the file of [s] is consistent, and [Ls] are its tree
    records from the head of the sequential list on. Consistent means
    [inv_with]: the header has the sizes of the handle; the file is the
    header and a whole number of records; the sequential list (with its
    back pointers), the empty list and the list of current-pointer
    records are disjoint and cover the records; LiveCount is the length
    of the sequential list; for every key the records of the sequential
    list form a tree that starts at the root of the header, whose child
    fields are children or threads to the in-order neighbours ([repr]),
    whose balance fields are the differences of the heights and at most 1
    in size ([avl]), and whose payloads ascend in order ([sorted]); every
    handle owns a record of the list of current-pointer records. *)
Definition live (s : sys) (Ls : list Z) : Prop :=
  ∃ Lf Lc ts, inv_with (s_file s) (s_handles s) Ls Lf Lc ts.

(** The payload of the record at [x]. *)
Definition payload (f : file) (x : Z) : option data := b <$> slots f !! x.

Lemma live_Inv s Ls : live s Ls → Inv s.
Proof. intros (Lf & Lc & ts & Hinv). by exists Ls, Lf, Lc, ts. Qed.

(** X1: open on a file that does not exist yet writes a consistent file
    without tree records, whose only record after the header is the
    current-pointer record of the handle; the counters start at 0. *)
Theorem open_creates_consistent_file fuel pid :
  (0 < fuel)%nat →
  ∃ f', avl_file_open fuel None pid (λ _, true) = Ok (Some (hdr_size, f')) ∧
        live (mk_sys f' [mk_handle pid hdr_size]) [] ∧
        n_avl (hdr f') = 0 ∧ nextnum (hdr f') = 0 ∧
        (∀ x, is_Some (slots f' !! x) ↔ x = hdr_size).
Proof.
  intros Hfu. destruct (create_inv fuel pid Hfu) as (f' & Hrun & Hinv & Hnx).
  exists f'. split; [done|]. split; [by exists [], [hdr_size], (λ _, E)|].
  pose proof Hinv as [Hlo [Hcnt _] _]. split; [done|]. split; [done|].
  intros x. rewrite (lo_cover _ _ _ _ _ _ Hlo x). simpl.
  by rewrite list_elem_of_singleton.
Qed.

(** The record that the search of open stops at: the first record of
    the list of current-pointer records that does not start with the
    process ID of the caller and that no process has locked; 0 when
    there is none. *)
Definition left_behind (f : file) (pid : Z) (unlocked : Z → bool) (c : Z) : bool :=
  match slots f !! c with
  | Some s => pid_fits && negb (has_pid pid (b s)) && unlocked c
  | None => false
  end.

Fixpoint first_left (f : file) (pid : Z) (unlocked : Z → bool) (Lc : list Z) : Z :=
  match Lc with
  | [] => 0
  | c :: Lc => if left_behind f pid unlocked c then c else first_left f pid unlocked Lc
  end.

Lemma open_find_cpr_first f pid unlocked Lx : ∀ fuel cp cpr0,
  fwf f → chain f cp Lx → (length Lx < fuel)%nat →
  ∃ cpr', open_find_cpr fuel f pid unlocked cp cpr0
          = Ok (first_left f pid unlocked Lx, cpr').
Proof.
  induction Lx as [|x Lx IH]; intros fuel cp cpr0 Hf Hc Hfu;
    (destruct fuel as [|fuel]; [simpl in Hfu; lia|]); simpl in Hc.
  - subst cp. simpl. by exists cpr0.
  - destruct Hc as (-> & s & Hs & Hc). destruct (Hf _ _ Hs) as (Hx & _ & Hls).
    cbn [open_find_cpr first_left]. rewrite (proj2 (Z.ltb_lt _ _) Hx).
    rewrite (lread_ok _ _ _ Hf Hs). cbn [mbind res_mbind res_bind].
    unfold left_behind. rewrite Hs.
    destruct (pid_fits && negb (has_pid pid (b s)) && unlocked x); [by exists s|].
    apply IH; [done|done|simpl in Hfu; lia].
Qed.

Lemma open_cp fuel f pid unlocked cp f' cp1 cpr1 :
  avl_file_open fuel (Some f) pid unlocked = Ok (Some (cp, f')) →
  open_find_cpr fuel f pid unlocked (head_cpr (hdr f)) uninit = Ok (cp1, cpr1) →
  cp = if cp1 =? 0
       then (if head_empty (hdr f) =? 0 then flen f else head_empty (hdr f))
       else cp1.
Proof.
  unfold avl_file_open. intros Hrun Hfind.
  destruct (negb (h_reclen (hdr f) =? reclen)); [done|].
  destruct (negb (h_n_keys (hdr f) =? Z.of_nat n_keys)); [done|].
  rewrite Hfind in Hrun. cbn [mbind res_mbind res_bind] in Hrun.
  destruct (cp1 =? 0).
  - destruct (head_empty (hdr f) =? 0).
    + cbn [mbind res_mbind res_bind] in Hrun.
      destruct (lwrite _ _ _) as [f1| | |]; simpl in Hrun; try discriminate.
      by injection Hrun as <- _.
    + destruct (lread f (head_empty (hdr f))) as [er| | |]; simpl in Hrun;
        try discriminate.
      destruct (lwrite _ _ _) as [f1| | |]; simpl in Hrun; try discriminate.
      by injection Hrun as <- _.
  - cbn [mbind res_mbind res_bind] in Hrun.
    destruct (lwrite _ _ _) as [f1| | |]; simpl in Hrun; try discriminate.
    by injection Hrun as <- _.
Qed.

Lemma chain_inj f p L1 : fwf f → ∀ L2, chain f p L1 → chain f p L2 → L1 = L2.
Proof.
  intros Hf. revert p. induction L1 as [|x L1 IH]; intros p L2 H1 H2.
  - simpl in H1. symmetry. by eapply chain_nil.
  - simpl in H1. destruct H1 as (-> & s & Hs & H1).
    destruct (Hf _ _ Hs) as (Hx & _ & _).
    destruct (chain_cons _ _ _ Hf H2) as (L2' & ->); [lia|].
    simpl in H2. destruct H2 as (_ & s' & Hs' & H2).
    assert (s' = s) as -> by congruence.
    f_equal. by eapply IH.
Qed.

(** X2: open on a consistent file gives a further handle and keeps the
    file consistent; the tree records and NextNumber are as they were.
    The record of the handle is the first record of the list of
    current-pointer records [Lc] that another process has left behind
    (it does not start with the process ID of the caller and nobody has
    locked it); when there is none it is the head of the list of empty
    records, and the end of the file when that list is empty. *)
Theorem open_keeps_file_consistent fuel f hs Ls Lc pid :
  live (mk_sys f hs) Ls → enough f fuel → chain f (head_cpr (hdr f)) Lc →
  ∃ cp f',
    avl_file_open fuel (Some f) pid (lock_free hs pid) = Ok (Some (cp, f')) ∧
    cp = (if first_left f pid (lock_free hs pid) Lc =? 0
          then (if head_empty (hdr f) =? 0 then flen f else head_empty (hdr f))
          else first_left f pid (lock_free hs pid) Lc) ∧
    live (mk_sys f' (mk_handle pid cp :: hs)) Ls ∧
    (∀ x, x ∈ Ls → slots f' !! x = slots f !! x) ∧
    nextnum (hdr f') = nextnum (hdr f).
Proof.
  intros (Lf & Lc0 & ts & Hinv) Hfu Hc. simpl in Hinv.
  destruct (open_inv fuel f hs Ls Lf Lc0 ts pid Hinv Hfu)
    as (cp & f' & Lf' & Lc' & Hrun & Hinv' & Hsame & Hnx).
  pose proof (iw_lists _ _ _ _ _ _ Hinv) as Hlo.
  pose proof (lists_fwf _ _ _ _ _ _ Hlo) as Hf.
  assert (Lc0 = Lc) as -> by exact (chain_inj f _ Lc0 Hf Lc (lo_cpr _ _ _ _ _ _ Hlo) Hc).
  destruct (open_find_cpr_first f pid (lock_free hs pid) Lc fuel (head_cpr (hdr f)) uninit
              Hf Hc) as (cpr1 & Hfind).
  { destruct (inv_list_fuel _ _ _ _ _ _ _ Hinv Hfu) as (_ & _ & Hfc). lia. }
  exists cp, f'. split; [done|]. split; [exact (open_cp _ _ _ _ _ _ _ _ Hrun Hfind)|].
  split; [by exists Lf', Lc', ts|done].
Qed.

(** X3: insert into a consistent file returns 0 and keeps the file
    consistent: the new record holds the caller's data, it is the head of
    the sequential list and a node of every tree, and the data of the
    other tree records and NextNumber are as they were. *)
Theorem insert_keeps_file_consistent f hs Ls fuel buf :
  live (mk_sys f hs) Ls → enough f fuel → Z.of_nat (length Ls) + 1 < 2 ^ 63 →
  ∃ y f',
    avl_file_insert fuel f buf = Ok (0, f') ∧
    live (mk_sys f' hs) (y :: Ls) ∧
    head_seq (hdr f') = y ∧ payload f' y = Some buf ∧
    (∀ x, x ∈ Ls → payload f' x = payload f x) ∧
    nextnum (hdr f') = nextnum (hdr f).
Proof.
  intros (Lf & Lc & ts & Hinv) Hfu Hn. simpl in Hinv.
  destruct (insert_inv f hs Ls Lf Lc ts fuel buf Hinv Hfu Hn)
    as (y & f' & Hrun & Hinv' & (yr & Hyr & Hb) & Hother & Hnx).
  exists y, f'. split; [done|]. split; [by exists (tail Lf), Lc, (λ k, tins k y buf (ts k))|].
  pose proof (iw_lists _ _ _ _ _ _ Hinv') as Hlo'.
  split; [|split; [|split; [|done]]].
  - pose proof (lo_seq _ _ _ _ _ _ Hlo') as Hseq. simpl in Hseq. by destruct Hseq.
  - unfold payload. rewrite Hyr. simpl. by rewrite Hb.
  - intros x Hx.
    pose proof (iw_lists _ _ _ _ _ _ Hinv) as Hlo.
    destruct (proj2 (lo_cover _ _ _ _ _ _ Hlo x)) as [s Hs]; [apply elem_of_app; by left|].
    destruct (Hother x s Hs) as (s' & Hs' & Hb').
    { intros ->. pose proof (lo_nodup _ _ _ _ _ _ Hlo') as Hnd. simpl in Hnd.
      apply NoDup_cons in Hnd as [Hy _]. apply Hy, elem_of_app. by left. }
    unfold payload. rewrite Hs, Hs'. simpl. by rewrite Hb'.
Qed.

(** A call of one of the functions that move a handle's pointers. *)
Definition nav_call (cp : Z) (f f' : file) : Prop :=
  avl_file_startseq cp f = Ok f' ∨
  (∃ buf ret buf', avl_file_readseq cp f buf = Ok (ret, buf', f')) ∨
  (∃ fuel buf k ret buf', avl_file_startlt fuel cp f buf k = Ok (ret, buf', f')) ∨
  (∃ fuel buf k ret buf', avl_file_startge fuel cp f buf k = Ok (ret, buf', f')) ∨
  (∃ fuel buf k ret buf', avl_file_next fuel cp f buf k = Ok (ret, buf', f')) ∨
  (∃ fuel buf k ret buf', avl_file_prev fuel cp f buf k = Ok (ret, buf', f')) ∨
  (∃ fuel buf k ret buf', avl_file_find fuel cp f buf k = Ok (ret, buf', f')).

(** X4: startseq, readseq, startlt, startge, next, prev and find, whatever
    they return, write nothing but the current-pointer record of the
    handle: the header, the length of the file and every other record are
    as they were, and the file stays consistent. *)
Theorem navigation_writes_own_record f hs Ls hd f' :
  live (mk_sys f hs) Ls → hd ∈ hs → nav_call (h_cpr hd) f f' →
  live (mk_sys f' hs) Ls ∧ hdr f' = hdr f ∧ flen f' = flen f ∧
  ∀ x, x ≠ h_cpr hd → slots f' !! x = slots f !! x.
Proof.
  intros (Lf & Lc & ts & Hinv) Hhd Hcall. simpl in Hinv.
  pose proof (lists_fwf _ _ _ _ _ _ (iw_lists _ _ _ _ _ _ Hinv)) as Hf.
  assert (cstep (h_cpr hd) f f') as Hstep.
  { destruct Hcall as [Hc|[(buf & ret & buf' & Hc)|[(fuel & buf & k & ret & buf' & Hc)|
      [(fuel & buf & k & ret & buf' & Hc)|[(fuel & buf & k & ret & buf' & Hc)|
      [(fuel & buf & k & ret & buf' & Hc)|(fuel & buf & k & ret & buf' & Hc)]]]]]].
    - by eapply startseq_cstep.
    - by eapply readseq_cstep.
    - by eapply startlt_cstep.
    - by eapply startge_cstep.
    - by eapply next_cstep.
    - by eapply prev_cstep.
    - by eapply find_cstep. }
  split.
  - exists Lf, Lc, ts. simpl. by eapply inv_cstep.
  - destruct Hstep as [->|(cpr & cpr' & Hs & _ & ->)]; [done|].
    split; [done|]. split; [done|]. intros x Hx. unfold upd. simpl.
    by rewrite lookup_insert_ne.
Qed.

(** The steps from one consistent file to the next, for a call whose
    result is known. *)
Lemma live_create_step fuel pid cp f' :
  (0 < fuel)%nat →
  avl_file_open fuel None pid (λ _, true) = Ok (Some (cp, f')) →
  live (mk_sys f' [mk_handle pid cp]) [].
Proof.
  intros Hfu Hrun. destruct (create_inv fuel pid Hfu) as (f1 & Hrun1 & Hinv & _).
  rewrite Hrun in Hrun1. injection Hrun1 as -> ->.
  by exists [], [hdr_size], (λ _, E).
Qed.

Lemma live_insert_step f hs Ls fuel buf ret f' :
  live (mk_sys f hs) Ls → enough f fuel → Z.of_nat (length Ls) + 1 < 2 ^ 63 →
  avl_file_insert fuel f buf = Ok (ret, f') →
  live (mk_sys f' hs) (head_seq (hdr f') :: Ls).
Proof.
  intros (Lf & Lc & ts & Hinv) Hfu Hn Hrun. simpl in Hinv.
  destruct (insert_inv f hs Ls Lf Lc ts fuel buf Hinv Hfu Hn)
    as (y & f1 & Hrun1 & Hinv' & _).
  rewrite Hrun in Hrun1. injection Hrun1 as -> ->.
  pose proof (lo_seq _ _ _ _ _ _ (iw_lists _ _ _ _ _ _ Hinv')) as Hseq.
  simpl in Hseq. destruct Hseq as [-> _].
  by exists (tail Lf), Lc, (λ k, tins k y buf (ts k)).
Qed.

Lemma live_open_step fuel f hs Ls pid cp f' :
  live (mk_sys f hs) Ls → enough f fuel →
  avl_file_open fuel (Some f) pid (lock_free hs pid) = Ok (Some (cp, f')) →
  live (mk_sys f' (mk_handle pid cp :: hs)) Ls.
Proof.
  intros (Lf & Lc & ts & Hinv) Hfu Hrun. simpl in Hinv.
  destruct (open_inv fuel f hs Ls Lf Lc ts pid Hinv Hfu)
    as (cp1 & f1 & Lf' & Lc' & Hrun1 & Hinv' & _).
  rewrite Hrun in Hrun1. injection Hrun1 as -> ->.
  by exists Lf', Lc', ts.
Qed.

(** ** The check of a tree: avl_file_scan *)

(** Every balance field is the difference of the heights below it. *)
Fixpoint bals_ok (t : tree) : bool :=
  match t with
  | E => true
  | T l _ bal _ r => (bal =? height l - height r) && bals_ok l && bals_ok r
  end.

Lemma wrap32_small x : - 2 ^ 31 ≤ x < 2 ^ 31 → wrap32 x = x.
Proof.
  intros Hx. unfold wrap32.
  rewrite Z.mod_small by lia. lia.
Qed.

Lemma avl_bals_ok t : avl t → bals_ok t = true.
Proof.
  induction t as [|l IHl x bal d r IHr]; [done|].
  intros (Hb & _ & Hl & Hr). simpl.
  rewrite IHl, IHr by done. rewrite (proj2 (Z.eqb_eq _ _) Hb). done.
Qed.

(** The recursion on the records of a tree gives its height and adds the
    number of its records to the count; it leaves message 51 when a
    balance field is wrong, and the message it was given otherwise. *)
Lemma scan_from_spec f k :
  fwf f →
  ∀ t fuel lo hi thr count emsg,
    repr (view f k) lo hi t → 0 ≤ lo → 0 ≤ hi → 0 ≤ thr →
    height t < 2 ^ 31 - 1 →
    0 ≤ count → count + Z.of_nat (length (nodes t)) < 2 ^ 63 →
    (Z.to_nat (height t) < fuel)%nat →
    scan_from fuel f k (link t thr) count emsg =
    Ok (height t, count + Z.of_nat (length (nodes t)),
        if bals_ok t then emsg else Some 51).
Proof.
  intros Hf. induction t as [|l IHl x bal d r IHr];
    intros fuel lo hi thr count emsg Hr Hlo Hhi Hthr Hh Hc0 Hc Hfu.
  - destruct fuel as [|fuel]; [lia|]. simpl.
    rewrite (proj2 (Z.ltb_ge _ _)) by lia. by rewrite Z.add_0_r.
  - pose proof (height_nonneg l) as Hl0. pose proof (height_nonneg r) as Hr0.
    pose proof (repr_root_pos _ _ _ _ _ _ _ _ _ Hf Hr) as Hx.
    destruct Hr as (Hv & Hrl & Hrr).
    apply (view_slot _ _ _ _ _ Hf) in Hv as (s & Hs & Hrd & Hnk & _ & _).
    cbn [height nodes] in *. rewrite length_app in *. cbn [length] in *.
    destruct fuel as [|fuel]; [lia|].
    cbn [scan_from link]. rewrite (proj2 (Z.ltb_lt _ _) Hx), Hrd.
    cbn [mbind res_mbind res_bind]. rewrite Hnk. cbn [nl nr nb].
    rewrite wrap64_small by lia.
    assert ((if 0 <? link l lo
             then '(h', c, e) ← scan_from fuel f k (link l lo) (count + 1) emsg;
                  Ok (wrap32 (1 + h'), c, e)
             else Ok (1, count + 1, emsg)) =
            Ok (1 + height l, count + 1 + Z.of_nat (length (nodes l)),
                if bals_ok l then emsg else Some 51)) as ->.
    { destruct (0 <? link l lo) eqn:El.
      - rewrite (IHl fuel lo x lo (count + 1) emsg) by (try done; lia).
        cbn [mbind res_mbind res_bind]. by rewrite wrap32_small by lia.
      - destruct l as [|ll lx lb ld lr]; [cbn [height nodes length bals_ok]; by rewrite !Z.add_0_r|].
        apply Z.ltb_ge in El.
        pose proof (repr_root_pos _ _ _ _ _ _ _ _ _ Hf Hrl). simpl in El. lia. }
    cbn [mbind res_mbind res_bind].
    assert (∀ c e,
            c = count + 1 + Z.of_nat (length (nodes l)) →
            (if 0 <? link r hi
             then '(h', c, e) ← scan_from fuel f k (link r hi) c e;
                  Ok (wrap32 (1 + h'), c, e)
             else Ok (1, c, e)) =
            Ok (1 + height r, c + Z.of_nat (length (nodes r)),
                if bals_ok r then e else Some 51)) as Hrt.
    { intros c e ->. destruct (0 <? link r hi) eqn:El.
      - rewrite (IHr fuel x hi hi _ e) by (try done; lia).
        cbn [mbind res_mbind res_bind]. by rewrite wrap32_small by lia.
      - destruct r as [|rl rx rb rd rr]; [cbn [height nodes length bals_ok]; by rewrite !Z.add_0_r|].
        apply Z.ltb_ge in El.
        pose proof (repr_root_pos _ _ _ _ _ _ _ _ _ Hf Hrr). simpl in El. lia. }
    rewrite (Hrt _ _ eq_refl). cbn [mbind res_mbind res_bind]. f_equal.
    replace (1 + height l - (1 + height r)) with (height l - height r) by lia.
    rewrite <- Z.add_max_distr_l.
    replace (count + 1 + Z.of_nat (length (nodes l)) + Z.of_nat (length (nodes r)))
      with (count + Z.of_nat (length (nodes l) + S (length (nodes r)))) by lia.
    do 2 f_equal. cbn [bals_ok].
    destruct (bal =? height l - height r), (bals_ok l), (bals_ok r); done.
Qed.

Lemma key_in_bounds k : (k < n_keys)%nat → key_out_of_bounds (Z.of_nat k) = false.
Proof.
  intros Hk. unfold key_out_of_bounds.
  rewrite (proj2 (Z.ltb_ge _ _)), (proj2 (Z.leb_gt _ _)) by lia. done.
Qed.

(** X5: the check of a tree accepts a consistent file: the records of
    key k form a tree [t] from the root of the header on, whose nodes are
    the tree records, and the check, called as the source asks (sp and
    count 0), returns the height of [t] and the number of tree records
    and sets no message; the height is at most twice the logarithm of
    the number of records. *)
Theorem scan_accepts_consistent_file f hs Ls k fuel emsg :
  live (mk_sys f hs) Ls → (k < n_keys)%nat → enough f fuel →
  ∃ t, repr (view f k) 0 0 t ∧ root_k (hdr f) k = link t 0 ∧ nodes t ≡ₚ Ls ∧
       avl_file_scan fuel f (Z.of_nat k) 0 0 emsg =
         Ok (height t, Z.of_nat (length Ls), emsg) ∧
       2 ^ (height t / 2) ≤ Z.of_nat (length Ls) + 1.
Proof.
  intros (Lf & Lc & ts & Hinv) Hk Hfu. simpl in Hinv.
  pose proof (inv_height_fuel _ _ _ _ _ _ _ k Hinv Hfu Hk) as Hhf.
  destruct Hinv as [Hlo [Hcnt Hlt] Htr].
  destruct (Htr k Hk) as (Hr & Hroot & Hperm & Ha & _).
  pose proof (lists_fwf _ _ _ _ _ _ Hlo) as Hf.
  assert (length (nodes (ts k)) = length Ls) as Hlen by by rewrite Hperm.
  pose proof (avl_height_bound (ts k) Ha) as Hhb. unfold path_max in Hhb.
  exists (ts k). split; [done|]. split; [done|]. split; [done|]. split.
  - unfold avl_file_scan. rewrite key_in_bounds by done. rewrite Nat2Z.id.
    cbn [Z.eqb]. rewrite Hroot.
    assert ((if 0 <? link (ts k) 0
             then scan_from fuel f k (link (ts k) 0) 0 emsg
             else Ok (0, 0, emsg)) =
            Ok (height (ts k), Z.of_nat (length Ls), emsg)) as ->.
    { destruct (0 <? link (ts k) 0) eqn:El.
      - rewrite (scan_from_spec f k Hf (ts k) fuel 0 0 0) by (try done; lia).
        rewrite avl_bals_ok by done. by rewrite Hlen.
      - destruct (ts k) as [|l x bal d r]; [by rewrite <- Hlen|].
        apply Z.ltb_ge in El.
        pose proof (repr_root_pos _ _ _ _ _ _ _ _ _ Hf Hr). simpl in El. lia. }
    cbn [mbind res_mbind res_bind]. by rewrite Hcnt, Z.eqb_refl.
  - rewrite <- Hlen. by apply avl_size.
Qed.

(** X6: on a file whose records of key k form a tree from the root of
    the header, balanced or not, the check returns the height of the
    tree and the number of its records, and it sets message 50 when that
    number is not LiveCount, message 51 when the count is right and some
    balance field is not the difference of the heights below it, and no
    message otherwise. *)
Theorem scan_reports_count_and_balance f k t fuel emsg :
  fwf f → (k < n_keys)%nat →
  repr (view f k) 0 0 t → root_k (hdr f) k = link t 0 →
  height t < 2 ^ 31 - 1 → Z.of_nat (length (nodes t)) < 2 ^ 63 →
  (Z.to_nat (height t) < fuel)%nat →
  avl_file_scan fuel f (Z.of_nat k) 0 0 emsg =
  Ok (height t, Z.of_nat (length (nodes t)),
      if Z.of_nat (length (nodes t)) =? n_avl (hdr f)
      then (if bals_ok t then emsg else Some 51)
      else Some 50).
Proof.
  intros Hf Hk Hr Hroot Hh Hn Hfu.
  unfold avl_file_scan. rewrite key_in_bounds by done. rewrite Nat2Z.id.
  cbn [Z.eqb]. rewrite Hroot.
  assert ((if 0 <? link t 0
           then scan_from fuel f k (link t 0) 0 emsg
           else Ok (0, 0, emsg)) =
          Ok (height t, Z.of_nat (length (nodes t)),
              if bals_ok t then emsg else Some 51)) as ->; [|done].
  destruct (0 <? link t 0) eqn:El.
  - by rewrite (scan_from_spec f k Hf t fuel 0 0 0) by (try done; lia).
  - destruct t as [|l x bal d r]; [done|].
    apply Z.ltb_ge in El.
    pose proof (repr_root_pos _ _ _ _ _ _ _ _ _ Hf Hr). simpl in El. lia.
Qed.

(** ** The neighbours in key order: the threads and the walks *)

(** The offset of the first and of the last record of a list in key
    order, [dflt] when there is none. *)
Definition hd_def (dflt : Z) (L : list (Z * data)) : Z := default dflt (fst <$> head L).
Definition last_def (dflt : Z) (L : list (Z * data)) : Z := default dflt (fst <$> last L).

Lemma hd_def_app dflt dflt' A B : A ≠ [] → hd_def dflt (A ++ B) = hd_def dflt' A.
Proof. by destruct A. Qed.

Lemma hd_def_app_cons dflt A e B : hd_def dflt (A ++ e :: B) = hd_def e.1 A.
Proof. by destruct A. Qed.

Lemma last_def_app dflt dflt' A B : B ≠ [] → last_def dflt (A ++ B) = last_def dflt' B.
Proof.
  intros HB. destruct B as [|e B _] using rev_ind; [done|].
  unfold last_def. by rewrite app_assoc, !last_snoc.
Qed.

Lemma last_def_cons_app dflt A e B : last_def dflt (A ++ e :: B) = last_def e.1 B.
Proof.
  destruct B as [|e' B _] using rev_ind.
  - unfold last_def. by rewrite last_snoc.
  - unfold last_def. by rewrite app_comm_cons, app_assoc, !last_snoc.
Qed.

Lemma hd_def_ne dflt dflt' A : A ≠ [] → hd_def dflt A = hd_def dflt' A.
Proof. by destruct A. Qed.

Lemma last_def_ne dflt dflt' A : A ≠ [] → last_def dflt A = last_def dflt' A.
Proof. apply (last_def_app _ _ []). Qed.

Lemma inord_T_ne l x bal d r : inord (T l x bal d r) ≠ [].
Proof. simpl. by destruct (inord l). Qed.

Lemma inord_nil t : inord t = [] → t = E.
Proof. destruct t as [|l x bal d r]; [done|]. simpl. by destruct (inord l). Qed.

Lemma link_T_any t thr thr' : is_T t = true → link t thr = link t thr'.
Proof. by destruct t. Qed.

(** [while (sr.n[k].l > 0)]: the walk to the left from the root of a
    subtree ends at its first record. *)
Lemma walk_left_spec f k :
  fwf f →
  ∀ l x bal d r fuel lo hi sr,
    repr (view f k) lo hi (T l x bal d r) → 0 ≤ lo →
    slots f !! x = Some sr →
    (Z.to_nat (height (T l x bal d r)) ≤ fuel)%nat →
    ∃ sr', walk_left fuel f k x sr = Ok (hd_def 0 (inord (T l x bal d r)), sr').
Proof.
  intros Hf. induction l as [|ll IHl lx lb ld lr _];
    intros x bal d r fuel lo hi sr Hr Hlo Hs Hfu.
  - destruct Hr as (Hv & _ & _).
    destruct (view_slot_eq _ _ _ _ _ _ Hs Hv) as [Hnk _].
    pose proof (height_nonneg r). cbn [height] in Hfu.
    destruct fuel as [|fuel]; [lia|]. simpl. rewrite Hnk. simpl.
    rewrite (proj2 (Z.ltb_ge _ _)) by lia. by exists sr.
  - pose proof Hr as (Hv & Hrl & _).
    destruct (view_slot_eq _ _ _ _ _ _ Hs Hv) as [Hnk _].
    pose proof (repr_root_pos _ _ _ _ _ _ _ _ _ Hf Hrl) as Hpos.
    pose proof Hrl as (Hvl & _).
    apply (view_slot _ _ _ _ _ Hf) in Hvl as (sl & Hsl & Hrd & _).
    pose proof (height_nonneg r). pose proof (height_nonneg ll).
    pose proof (height_nonneg lr).
    destruct fuel as [|fuel]; [cbn [height] in Hfu; lia|].
    cbn [walk_left]. rewrite Hnk. cbn [nl link].
    rewrite (proj2 (Z.ltb_lt _ _) Hpos), Hrd. cbn [mbind res_mbind res_bind].
    destruct (IHl lx lb ld lr fuel lo x sl Hrl Hlo Hsl) as (sr' & Hw).
    { cbn [height] in *. lia. }
    exists sr'. rewrite Hw. f_equal. f_equal.
    cbn [inord]. rewrite <- !app_assoc. simpl.
    by destruct (inord ll).
Qed.

Lemma walk_right_spec f k :
  fwf f →
  ∀ r l x bal d fuel lo hi sr,
    repr (view f k) lo hi (T l x bal d r) → 0 ≤ hi →
    slots f !! x = Some sr →
    (Z.to_nat (height (T l x bal d r)) ≤ fuel)%nat →
    ∃ sr', walk_right fuel f k x sr = Ok (last_def 0 (inord (T l x bal d r)), sr').
Proof.
  intros Hf. induction r as [|rl _ rx rb rd rr IHr];
    intros l x bal d fuel lo hi sr Hr Hhi Hs Hfu.
  - destruct Hr as (Hv & _ & _).
    destruct (view_slot_eq _ _ _ _ _ _ Hs Hv) as [Hnk _].
    pose proof (height_nonneg l). cbn [height] in Hfu.
    destruct fuel as [|fuel]; [lia|]. simpl. rewrite Hnk. simpl.
    rewrite (proj2 (Z.ltb_ge _ _)) by lia. exists sr.
    unfold last_def. by rewrite last_snoc.
  - pose proof Hr as (Hv & _ & Hrr).
    destruct (view_slot_eq _ _ _ _ _ _ Hs Hv) as [Hnk _].
    pose proof (repr_root_pos _ _ _ _ _ _ _ _ _ Hf Hrr) as Hpos.
    pose proof Hrr as (Hvr & _).
    apply (view_slot _ _ _ _ _ Hf) in Hvr as (sl & Hsl & Hrd & _).
    pose proof (height_nonneg l). pose proof (height_nonneg rl).
    pose proof (height_nonneg rr).
    destruct fuel as [|fuel]; [cbn [height] in Hfu; lia|].
    cbn [walk_right]. rewrite Hnk. cbn [nr link].
    rewrite (proj2 (Z.ltb_lt _ _) Hpos), Hrd. cbn [mbind res_mbind res_bind].
    destruct (IHr rl rx rb rd fuel x hi sl Hrr Hhi Hsl) as (sr' & Hw).
    { cbn [height] in *. lia. }
    exists sr'. rewrite Hw. f_equal. f_equal.
    change (inord (T l x bal d (T rl rx rb rd rr)))
      with (inord l ++ (x, d) :: inord (T rl rx rb rd rr)).
    rewrite (last_def_cons_app 0). apply (last_def_app _ _ []). simpl. by destruct (inord rl).
Qed.

Lemma app_cons_split {A} (X Y L1 L2 : list A) (a y : A) :
  X ++ a :: Y = L1 ++ y :: L2 →
  (∃ M, X = L1 ++ y :: M ∧ L2 = M ++ a :: Y) ∨
  (L1 = X ∧ y = a ∧ L2 = Y) ∨
  (∃ M, Y = M ++ y :: L2 ∧ L1 = X ++ a :: M).
Proof.
  intros He. apply app_eq_app in He as (M & [[-> He]|[-> He]]).
  - destruct M as [|m M]; simpl in He.
    + injection He as -> ->. right. left. by rewrite app_nil_r.
    + injection He as -> ->. left. by exists M.
  - destruct M as [|m M]; simpl in He.
    + injection He as -> ->. right. left. by rewrite app_nil_r.
    + injection He as -> ->. right. right. by exists M.
Qed.

(** The neighbours of a record in key order, as [find_prev] and
    [find_next] get them from its child fields: through the walk when
    there is a child, from the thread otherwise. *)
Lemma find_nbr_spec f k :
  fwf f →
  ∀ t lo hi L1 y d L2 ar fuel,
    repr (view f k) lo hi t → 0 ≤ lo → 0 ≤ hi →
    inord t = L1 ++ (y, d) :: L2 →
    slots f !! y = Some ar →
    (Z.to_nat (height t) ≤ fuel)%nat →
    find_prev fuel f k ar = Ok (last_def lo L1) ∧
    find_next fuel f k ar = Ok (hd_def hi L2) ∧
    b ar = d.
Proof.
  intros Hf. induction t as [|l IHl x bal dx r IHr];
    intros lo hi L1 y d L2 ar fuel Hr Hlo Hhi Hin Hs Hfu.
  - by destruct L1.
  - pose proof (height_nonneg l). pose proof (height_nonneg r).
    pose proof (repr_root_pos _ _ _ _ _ _ _ _ _ Hf Hr) as Hx.
    cbn [height] in Hfu. pose proof Hr as (Hv & Hrl & Hrr).
    cbn [inord] in Hin.
    apply app_cons_split in Hin as [(M & Hl & ->)|[(-> & Hy & ->)|(M & Hrt & ->)]].
    + destruct (IHl lo x L1 y d M ar fuel Hrl Hlo ltac:(lia) Hl Hs ltac:(lia))
        as (Hp & Hn & Hb).
      split; [done|]. split; [|done]. by rewrite (hd_def_app_cons hi M (x, dx)).
    + injection Hy as -> ->.
      destruct (view_slot_eq _ _ _ _ _ _ Hs Hv) as [Hnk Hb].
      split; [|split; [|done]].
      * unfold find_prev. rewrite Hnk. cbn [nl].
        rewrite (link_test f k lo x l lo Hf Hrl Hlo).
        destruct l as [|ll lx lb ld lr]; [unfold last_def; simpl; f_equal; lia|].
        cbn [is_T link]. pose proof Hrl as (Hvl & _).
        apply (view_slot _ _ _ _ _ Hf) in Hvl as (sl & Hsl & Hrd & _).
        rewrite Hrd. cbn [mbind res_mbind res_bind].
        destruct (walk_right_spec f k Hf lr ll lx lb ld fuel lo x sl Hrl ltac:(lia) Hsl)
          as (sr' & ->); [lia|].
        cbn [mbind res_mbind res_bind fst]. f_equal.
        apply last_def_ne, inord_T_ne.
      * unfold find_next. rewrite Hnk. cbn [nr].
        rewrite (link_test f k x hi r hi Hf Hrr Hhi).
        destruct r as [|rl rx rb rd rr]; [unfold hd_def; simpl; f_equal; lia|].
        cbn [is_T link]. pose proof Hrr as (Hvr & _).
        apply (view_slot _ _ _ _ _ Hf) in Hvr as (sl & Hsl & Hrd & _).
        rewrite Hrd. cbn [mbind res_mbind res_bind].
        destruct (walk_left_spec f k Hf rl rx rb rd rr fuel x hi sl Hrr ltac:(lia) Hsl)
          as (sr' & ->); [lia|].
        cbn [mbind res_mbind res_bind fst]. f_equal.
        apply hd_def_ne, inord_T_ne.
    + destruct (IHr x hi M y d L2 ar fuel Hrr ltac:(lia) Hhi Hrt Hs ltac:(lia))
        as (Hp & Hn & Hb).
      split; [|done]. by rewrite (last_def_cons_app lo (inord l) (x, dx) M).
Qed.

(** ** The descents of startge and startlt *)

Lemma split_left {A} (P : A → Prop) (X Y L1 L2 : list A) (a : A) :
  X ++ a :: Y = L1 ++ L2 → Forall P L1 → ¬ P a →
  ∃ M, X = L1 ++ M ∧ L2 = M ++ a :: Y.
Proof.
  intros He H1 Ha. apply app_eq_app in He as (M & [[-> He]|[-> He]]).
  - by exists M.
  - destruct M as [|m M]; simpl in He.
    + exists []. by rewrite !app_nil_r.
    + injection He as -> ->. apply Forall_app in H1 as [_ H1].
      by apply Forall_cons in H1 as [? _].
Qed.

Lemma split_right {A} (Q : A → Prop) (X Y L1 L2 : list A) (a : A) :
  X ++ a :: Y = L1 ++ L2 → Forall Q L2 → ¬ Q a →
  ∃ M, L1 = X ++ a :: M ∧ Y = M ++ L2.
Proof.
  intros He H2 Ha. apply app_eq_app in He as (M & [[-> He]|[-> He]]).
  - subst L2. apply Forall_app in H2 as [_ H2].
    by apply Forall_cons in H2 as [? _].
  - destruct M as [|m M]; simpl in He.
    + subst L2. by apply Forall_cons in H2 as [? _].
    + injection He as -> ->. by exists M.
Qed.

(** On a tree whose records in key order are [L1], all less than the
    probe, followed by [L2], none less than it, the descent of startge
    ends at the first record of [L2] and that of startlt at the last
    record of [L1]; with nothing there, they end at the neighbour of the
    tree on that side. *)
Lemma ge_descend_spec f k p :
  fwf f →
  ∀ t fuel lo hi L1 L2,
    repr (view f k) lo hi t → 0 ≤ lo → 0 ≤ hi →
    inord t = L1 ++ L2 →
    Forall (λ e, 0 < cmp (Z.of_nat k) p e.2) L1 →
    Forall (λ e, cmp (Z.of_nat k) p e.2 ≤ 0) L2 →
    is_T t = true →
    (Z.to_nat (height t) ≤ fuel)%nat →
    ge_descend fuel f k p (link t 0) = Ok (hd_def hi L2).
Proof.
  intros Hf. induction t as [|l IHl x bal dx r IHr];
    intros fuel lo hi L1 L2 Hr Hlo Hhi Hin H1 H2 HT Hfu; [done|].
  pose proof (height_nonneg l). pose proof (height_nonneg r).
  pose proof (repr_root_pos _ _ _ _ _ _ _ _ _ Hf Hr) as Hx.
  cbn [height] in Hfu. pose proof Hr as (Hv & Hrl & Hrr).
  apply (view_slot _ _ _ _ _ Hf) in Hv as (ar & Hs & Hrd & Hnk & Hb & _).
  cbn [inord] in Hin.
  destruct fuel as [|fuel]; [lia|].
  cbn [ge_descend link]. rewrite (proj2 (Z.ltb_lt _ _) Hx), Hrd.
  cbn [mbind res_mbind res_bind]. rewrite Hb, Hnk. cbn [nl nr].
  destruct (cmp (Z.of_nat k) p dx <=? 0) eqn:Ec.
  - apply Z.leb_le in Ec.
    destruct (split_left _ _ _ _ _ _ Hin H1) as (M & Hl & ->); [simpl; lia|].
    apply Forall_app in H2 as [H2 _].
    rewrite (link_test f k lo x l lo Hf Hrl Hlo).
    destruct (is_T l) eqn:El.
    + rewrite (link_T_any l lo 0 El).
      rewrite (IHl fuel lo x L1 M) by (try done; lia).
      by rewrite (hd_def_app_cons hi M (x, dx)).
    + destruct l; [|done]. by destruct L1, M.
  - apply Z.leb_gt in Ec.
    destruct (split_right _ _ _ _ _ _ Hin H2) as (M & -> & Hrt); [simpl; lia|].
    apply Forall_app in H1 as [_ H1]. apply Forall_cons in H1 as [_ H1].
    rewrite (link_test f k x hi r hi Hf Hrr Hhi).
    destruct (is_T r) eqn:Er.
    + rewrite (link_T_any r hi 0 Er).
      by rewrite (IHr fuel x hi M L2) by (try done; lia).
    + destruct r; [|done]. destruct M, L2; try done.
      unfold hd_def. simpl. f_equal. lia.
Qed.

Lemma lt_descend_spec f k p :
  fwf f →
  ∀ t fuel lo hi L1 L2,
    repr (view f k) lo hi t → 0 ≤ lo → 0 ≤ hi →
    inord t = L1 ++ L2 →
    Forall (λ e, 0 < cmp (Z.of_nat k) p e.2) L1 →
    Forall (λ e, cmp (Z.of_nat k) p e.2 ≤ 0) L2 →
    is_T t = true →
    (Z.to_nat (height t) ≤ fuel)%nat →
    lt_descend fuel f k p (link t 0) = Ok (last_def lo L1).
Proof.
  intros Hf. induction t as [|l IHl x bal dx r IHr];
    intros fuel lo hi L1 L2 Hr Hlo Hhi Hin H1 H2 HT Hfu; [done|].
  pose proof (height_nonneg l). pose proof (height_nonneg r).
  pose proof (repr_root_pos _ _ _ _ _ _ _ _ _ Hf Hr) as Hx.
  cbn [height] in Hfu. pose proof Hr as (Hv & Hrl & Hrr).
  apply (view_slot _ _ _ _ _ Hf) in Hv as (ar & Hs & Hrd & Hnk & Hb & _).
  cbn [inord] in Hin.
  destruct fuel as [|fuel]; [lia|].
  cbn [lt_descend link]. rewrite (proj2 (Z.ltb_lt _ _) Hx), Hrd.
  cbn [mbind res_mbind res_bind]. rewrite Hb, Hnk. cbn [nl nr].
  destruct (cmp (Z.of_nat k) p dx <=? 0) eqn:Ec.
  - apply Z.leb_le in Ec.
    destruct (split_left _ _ _ _ _ _ Hin H1) as (M & Hl & ->); [simpl; lia|].
    apply Forall_app in H2 as [H2 _].
    rewrite (link_test f k lo x l lo Hf Hrl Hlo).
    destruct (is_T l) eqn:El.
    + rewrite (link_T_any l lo 0 El).
      by rewrite (IHl fuel lo x L1 M) by (try done; lia).
    + destruct l; [|done]. destruct L1, M; try done.
      unfold last_def. simpl. f_equal. lia.
  - apply Z.leb_gt in Ec.
    destruct (split_right _ _ _ _ _ _ Hin H2) as (M & -> & Hrt); [simpl; lia|].
    apply Forall_app in H1 as [_ H1]. apply Forall_cons in H1 as [_ H1].
    rewrite (link_test f k x hi r hi Hf Hrr Hhi).
    destruct (is_T r) eqn:Er.
    + rewrite (link_T_any r hi 0 Er).
      rewrite (IHr fuel x hi M L2) by (try done; lia).
      by rewrite (last_def_cons_app lo (inord l) (x, dx) M).
    + destruct r; [|done]. destruct M; [|done].
      unfold last_def. by rewrite last_snoc.
Qed.

(** ** What the navigation by key returns *)

(** The pointers of the handle at [cp] for key [k]: the record that prev
    returns next and the one that next returns next, 0 for none. *)
Definition cursor (f : file) (cp : Z) (k : nat) : option (Z * Z) :=
  (λ s, (nl (nk s k), nr (nk s k))) <$> slots f !! cp.

(** The file is consistent and [L] is the list of its tree records, with
    their payloads, in the order of key [k]. *)
Definition key_order (s : sys) (k : nat) (L : list (Z * data)) : Prop :=
  ∃ Ls Lf Lc ts, inv_with (s_file s) (s_handles s) Ls Lf Lc ts ∧ inord (ts k) = L.

Lemma inv_handle_slot f hs Ls Lf Lc ts hd k :
  inv_with f hs Ls Lf Lc ts → hd ∈ hs → (k < n_keys)%nat →
  ∃ cpr, slots f !! h_cpr hd = Some cpr ∧ lread f (h_cpr hd) = Ok cpr ∧
         (k < length (n cpr))%nat.
Proof.
  intros [Hlo _ _] Hhd Hk.
  destruct (lo_handles _ _ _ _ _ _ Hlo) as [_ Hall].
  destruct (Hall hd Hhd) as [Hin _].
  assert (is_Some (slots f !! h_cpr hd)) as [cpr Hs].
  { apply (lo_cover _ _ _ _ _ _ Hlo). rewrite !elem_of_app. auto. }
  pose proof (lists_fwf _ _ _ _ _ _ Hlo) as Hf.
  exists cpr. split; [done|]. split; [by apply lread_ok|].
  by rewrite (lo_nlen _ _ _ _ _ _ Hlo _ _ Hs).
Qed.

Lemma cursor_upd f cp k s :
  cursor (upd f cp s) cp k = Some (nl (nk s k), nr (nk s k)).
Proof. unfold cursor, upd. simpl. by rewrite lookup_insert_eq. Qed.

Lemma length_set_kl k v s : length (n (set_kl k v s)) = length (n s).
Proof. unfold set_kl. apply length_set_nk. Qed.

Lemma inord_slot f k lo hi t y d :
  repr (view f k) lo hi t → (y, d) ∈ inord t → ∃ ar, slots f !! y = Some ar.
Proof.
  intros Hr Hin.
  assert (y ∈ nodes t) as Hy.
  { rewrite nodes_inord. apply list_elem_of_fmap. by exists (y, d). }
  destruct (repr_nodes_Some _ _ _ _ _ Hr Hy) as [[nd d'] Hv].
  apply view_Some in Hv as (s & Hs & _). by exists s.
Qed.

(** The tail of startlt and startge at a record of the tree. *)
Lemma start_at_some f hs Ls Lf Lc ts hd k fuel buf A y d B :
  inv_with f hs Ls Lf Lc ts → hd ∈ hs → (k < n_keys)%nat → enough f fuel →
  inord (ts k) = A ++ (y, d) :: B →
  ∃ f', start_at fuel (h_cpr hd) f buf k y = Ok (0, d, f') ∧
        cstep (h_cpr hd) f f' ∧
        cursor f' (h_cpr hd) k = Some (last_def 0 A, hd_def 0 B).
Proof.
  intros Hinv Hhd Hk Hfu Hin.
  destruct (inv_handle_slot _ _ _ _ _ _ _ k Hinv Hhd Hk) as (cpr & Hcs & Hcr & Hcl).
  pose proof (inv_height_fuel _ _ _ _ _ _ _ k Hinv Hfu Hk) as Hhf.
  pose proof (lists_fwf _ _ _ _ _ _ (iw_lists _ _ _ _ _ _ Hinv)) as Hf.
  destruct (iw_trees _ _ _ _ _ _ Hinv k Hk) as (Hr & _).
  destruct (inord_slot f k 0 0 (ts k) y d Hr) as (ar & Hs).
  { rewrite Hin. apply elem_of_app. right. by left. }
  destruct (find_nbr_spec f k Hf (ts k) 0 0 A y d B ar fuel Hr) as (Hp & Hn & Hb);
    [done|done|done|done|lia|].
  destruct (Hf _ _ Hs) as (Hy & _).
  set (cpr' := set_kr k (hd_def 0 B) (set_kl k (last_def 0 A) cpr)).
  assert (start_at fuel (h_cpr hd) f buf k y = Ok (0, d, upd f (h_cpr hd) cpr')) as Hrun.
  { unfold start_at. rewrite Hcr. cbn [mbind res_mbind res_bind].
    rewrite (proj2 (Z.ltb_lt _ _) Hy), (lread_ok _ _ _ Hf Hs).
    cbn [mbind res_mbind res_bind]. rewrite Hp, Hn. cbn [mbind res_mbind res_bind].
    rewrite (lwrite_ok _ _ cpr _ Hf Hcs). cbn [mbind res_mbind res_bind].
    by rewrite Hb. }
  exists (upd f (h_cpr hd) cpr'). split; [done|]. split.
  - by eapply start_at_cstep.
  - rewrite cursor_upd. unfold cpr'.
    rewrite nk_set_kr by by rewrite length_set_kl.
    rewrite nk_set_kl by done. by destruct (nk cpr k).
Qed.

Lemma start_at_none f hs Ls Lf Lc ts hd k fuel buf a :
  inv_with f hs Ls Lf Lc ts → hd ∈ hs → (k < n_keys)%nat → a ≤ 0 →
  ∃ f', start_at fuel (h_cpr hd) f buf k a = Ok (-1, buf, f') ∧
        cstep (h_cpr hd) f f' ∧
        cursor f' (h_cpr hd) k = Some (0, 0).
Proof.
  intros Hinv Hhd Hk Ha.
  destruct (inv_handle_slot _ _ _ _ _ _ _ k Hinv Hhd Hk) as (cpr & Hcs & Hcr & Hcl).
  pose proof (lists_fwf _ _ _ _ _ _ (iw_lists _ _ _ _ _ _ Hinv)) as Hf.
  set (cpr' := set_kr k 0 (set_kl k 0 cpr)).
  assert (start_at fuel (h_cpr hd) f buf k a = Ok (-1, buf, upd f (h_cpr hd) cpr')) as Hrun.
  { unfold start_at. rewrite Hcr. cbn [mbind res_mbind res_bind].
    rewrite (proj2 (Z.ltb_ge _ _) Ha).
    by rewrite (lwrite_ok _ _ cpr _ Hf Hcs). }
  exists (upd f (h_cpr hd) cpr'). split; [done|]. split.
  - by eapply start_at_cstep.
  - rewrite cursor_upd. unfold cpr'.
    rewrite nk_set_kr by by rewrite length_set_kl.
    rewrite nk_set_kl by done. by destruct (nk cpr k).
Qed.

Lemma inv_root_descend f hs Ls Lf Lc ts k fuel :
  inv_with f hs Ls Lf Lc ts → (k < n_keys)%nat → enough f fuel →
  fwf f ∧ repr (view f k) 0 0 (ts k) ∧ root_k (hdr f) k = link (ts k) 0 ∧
  (Z.to_nat (height (ts k)) + 1 < fuel)%nat.
Proof.
  intros Hinv Hk Hfu.
  pose proof (inv_height_fuel _ _ _ _ _ _ _ k Hinv Hfu Hk) as Hhf.
  pose proof (lists_fwf _ _ _ _ _ _ (iw_lists _ _ _ _ _ _ Hinv)) as Hf.
  destruct (iw_trees _ _ _ _ _ _ Hinv k Hk) as (Hr & Hroot & _). done.
Qed.

Lemma startge_spec f hs Ls Lf Lc ts hd k fuel buf L1 L2 :
  inv_with f hs Ls Lf Lc ts → hd ∈ hs → (k < n_keys)%nat → enough f fuel →
  inord (ts k) = L1 ++ L2 →
  Forall (λ e, 0 < cmp (Z.of_nat k) buf e.2) L1 →
  Forall (λ e, cmp (Z.of_nat k) buf e.2 ≤ 0) L2 →
  ∃ f', avl_file_startge fuel (h_cpr hd) f buf (Z.of_nat k) =
          Ok (match L2 with [] => (-1, buf) | e :: _ => (0, e.2) end, f') ∧
        cstep (h_cpr hd) f f' ∧
        cursor f' (h_cpr hd) k =
          Some (match L2 with
                | [] => (0, 0)
                | _ :: B => (last_def 0 L1, hd_def 0 B)
                end).
Proof.
  intros Hinv Hhd Hk Hfu Hin H1 H2.
  destruct (inv_root_descend _ _ _ _ _ _ k fuel Hinv Hk Hfu) as (Hf & Hr & Hroot & Hhf).
  unfold avl_file_startge. rewrite key_in_bounds by done. rewrite Nat2Z.id, Hroot.
  assert (ge_descend fuel f k buf (link (ts k) 0) = Ok (hd_def 0 L2)) as ->.
  { destruct (is_T (ts k)) eqn:ET.
    - apply (ge_descend_spec f k buf Hf (ts k) fuel 0 0 L1 L2); try done. lia.
    - destruct (ts k); [|done]. destruct L1, L2; try done.
      destruct fuel; [lia|]. done. }
  cbn [mbind res_mbind res_bind].
  destruct L2 as [|[y d] B].
  - by apply (start_at_none f hs Ls Lf Lc ts).
  - by apply (start_at_some f hs Ls Lf Lc ts).
Qed.

Lemma startlt_spec f hs Ls Lf Lc ts hd k fuel buf L1 L2 :
  inv_with f hs Ls Lf Lc ts → hd ∈ hs → (k < n_keys)%nat → enough f fuel →
  inord (ts k) = L1 ++ L2 →
  Forall (λ e, 0 < cmp (Z.of_nat k) buf e.2) L1 →
  Forall (λ e, cmp (Z.of_nat k) buf e.2 ≤ 0) L2 →
  ∃ f', avl_file_startlt fuel (h_cpr hd) f buf (Z.of_nat k) =
          Ok (match last L1 with None => (-1, buf) | Some e => (0, e.2) end, f') ∧
        cstep (h_cpr hd) f f' ∧
        cursor f' (h_cpr hd) k =
          Some (match last L1 with
                | None => (0, 0)
                | Some _ => (last_def 0 (removelast L1), hd_def 0 L2)
                end).
Proof.
  intros Hinv Hhd Hk Hfu Hin H1 H2.
  destruct (inv_root_descend _ _ _ _ _ _ k fuel Hinv Hk Hfu) as (Hf & Hr & Hroot & Hhf).
  unfold avl_file_startlt. rewrite key_in_bounds by done. rewrite Nat2Z.id, Hroot.
  assert (lt_descend fuel f k buf (link (ts k) 0) = Ok (last_def 0 L1)) as ->.
  { destruct (is_T (ts k)) eqn:ET.
    - apply (lt_descend_spec f k buf Hf (ts k) fuel 0 0 L1 L2); try done. lia.
    - destruct (ts k); [|done]. destruct L1, L2; try done.
      destruct fuel; [lia|]. done. }
  cbn [mbind res_mbind res_bind].
  destruct L1 as [|[y d] A _] using rev_ind.
  - by apply (start_at_none f hs Ls Lf Lc ts).
  - unfold last_def. rewrite last_snoc, removelast_last. simpl.
    apply (start_at_some f hs Ls Lf Lc ts); try done.
    by rewrite Hin, <- app_assoc.
Qed.

Lemma cursor_Some f cp k l r :
  cursor f cp k = Some (l, r) →
  ∃ cpr, slots f !! cp = Some cpr ∧ nl (nk cpr k) = l ∧ nr (nk cpr k) = r.
Proof.
  unfold cursor. destruct (slots f !! cp) as [cpr|]; [|done].
  simpl. intros [= <- <-]. by exists cpr.
Qed.

Lemma next_spec f hs Ls Lf Lc ts hd k fuel buf A B l :
  inv_with f hs Ls Lf Lc ts → hd ∈ hs → (k < n_keys)%nat → enough f fuel →
  inord (ts k) = A ++ B →
  cursor f (h_cpr hd) k = Some (l, hd_def 0 B) →
  ∃ f', avl_file_next fuel (h_cpr hd) f buf (Z.of_nat k) =
          Ok (match B with [] => (-1, buf) | e :: _ => (0, e.2) end, f') ∧
        cstep (h_cpr hd) f f' ∧
        cursor f' (h_cpr hd) k = Some (l, hd_def 0 (tail B)).
Proof.
  intros Hinv Hhd Hk Hfu Hin Hcur.
  destruct (inv_root_descend _ _ _ _ _ _ k fuel Hinv Hk Hfu) as (Hf & Hr & Hroot & Hhf).
  destruct (inv_handle_slot _ _ _ _ _ _ _ k Hinv Hhd Hk) as (cpr & Hcs & Hcr & Hcl).
  apply cursor_Some in Hcur as (cpr0 & Hcs0 & Hl & Hrt).
  assert (cpr0 = cpr) as -> by congruence.
  destruct B as [|[y d] B].
  - change (hd_def 0 []) with 0 in Hrt.
    unfold avl_file_next. rewrite key_in_bounds by done. rewrite Nat2Z.id, Hcr.
    cbn [mbind res_mbind res_bind]. rewrite Hrt.
    exists f. split; [done|]. split; [by left|].
    unfold cursor. rewrite Hcs. simpl. by rewrite Hl, Hrt.
  - change (hd_def 0 ((y, d) :: B)) with y in Hrt.
    destruct (inord_slot f k 0 0 (ts k) y d Hr) as (ar & Hs).
    { rewrite Hin. apply elem_of_app. right. by left. }
    destruct (find_nbr_spec f k Hf (ts k) 0 0 A y d B ar fuel Hr) as (_ & Hn & Hb);
      [done|done|done|done|lia|].
    destruct (Hf _ _ Hs) as (Hy & _).
    assert (avl_file_next fuel (h_cpr hd) f buf (Z.of_nat k) =
            Ok (0, d, upd f (h_cpr hd) (set_kr k (hd_def 0 B) cpr))) as Hrun.
    { unfold avl_file_next. rewrite key_in_bounds by done. rewrite Nat2Z.id, Hcr.
      cbn [mbind res_mbind res_bind]. rewrite Hrt.
      rewrite (proj2 (Z.ltb_lt _ _) Hy), (lread_ok _ _ _ Hf Hs).
      cbn [mbind res_mbind res_bind]. rewrite Hn. cbn [mbind res_mbind res_bind].
      rewrite (lwrite_ok _ _ cpr _ Hf Hcs). cbn [mbind res_mbind res_bind].
      by rewrite Hb. }
    exists (upd f (h_cpr hd) (set_kr k (hd_def 0 B) cpr)). split; [exact Hrun|].
    split.
    + by eapply (next_cstep fuel (h_cpr hd) f buf (Z.of_nat k)).
    + rewrite cursor_upd. rewrite nk_set_kr by done.
      simpl. by rewrite <- Hl; destruct (nk cpr k).
Qed.

Lemma last_def_snoc dflt A e : last_def dflt (A ++ [e]) = e.1.
Proof. unfold last_def. by rewrite last_snoc. Qed.

Lemma prev_spec f hs Ls Lf Lc ts hd k fuel buf A B r :
  inv_with f hs Ls Lf Lc ts → hd ∈ hs → (k < n_keys)%nat → enough f fuel →
  inord (ts k) = A ++ B →
  cursor f (h_cpr hd) k = Some (last_def 0 A, r) →
  ∃ f', avl_file_prev fuel (h_cpr hd) f buf (Z.of_nat k) =
          Ok (match last A with None => (-1, buf) | Some e => (0, e.2) end, f') ∧
        cstep (h_cpr hd) f f' ∧
        cursor f' (h_cpr hd) k = Some (last_def 0 (removelast A), r).
Proof.
  intros Hinv Hhd Hk Hfu Hin Hcur.
  destruct (inv_root_descend _ _ _ _ _ _ k fuel Hinv Hk Hfu) as (Hf & Hr & Hroot & Hhf).
  destruct (inv_handle_slot _ _ _ _ _ _ _ k Hinv Hhd Hk) as (cpr & Hcs & Hcr & Hcl).
  apply cursor_Some in Hcur as (cpr0 & Hcs0 & Hl & Hrt).
  assert (cpr0 = cpr) as -> by congruence.
  destruct A as [|[y d] A _] using rev_ind.
  - change (last_def 0 []) with 0 in Hl.
    unfold avl_file_prev. rewrite key_in_bounds by done. rewrite Nat2Z.id, Hcr.
    cbn [mbind res_mbind res_bind]. rewrite Hl.
    exists f. split; [done|]. split; [by left|].
    unfold cursor. rewrite Hcs. simpl. by rewrite Hl, Hrt.
  - rewrite last_def_snoc in Hl. simpl in Hl.
    rewrite <- app_assoc in Hin. simpl in Hin.
    destruct (inord_slot f k 0 0 (ts k) y d Hr) as (ar & Hs).
    { rewrite Hin. apply elem_of_app. right. by left. }
    destruct (find_nbr_spec f k Hf (ts k) 0 0 A y d B ar fuel Hr) as (Hp & _ & Hb);
      [done|done|done|done|lia|].
    destruct (Hf _ _ Hs) as (Hy & _).
    assert (avl_file_prev fuel (h_cpr hd) f buf (Z.of_nat k) =
            Ok (0, d, upd f (h_cpr hd) (set_kl k (last_def 0 A) cpr))) as Hrun.
    { unfold avl_file_prev. rewrite key_in_bounds by done. rewrite Nat2Z.id, Hcr.
      cbn [mbind res_mbind res_bind]. rewrite Hl.
      rewrite (proj2 (Z.ltb_lt _ _) Hy), (lread_ok _ _ _ Hf Hs).
      cbn [mbind res_mbind res_bind]. rewrite Hp. cbn [mbind res_mbind res_bind].
      rewrite (lwrite_ok _ _ cpr _ Hf Hcs). cbn [mbind res_mbind res_bind].
      by rewrite Hb. }
    rewrite last_snoc, removelast_last.
    exists (upd f (h_cpr hd) (set_kl k (last_def 0 A) cpr)). split; [exact Hrun|].
    split.
    + by eapply (prev_cstep fuel (h_cpr hd) f buf (Z.of_nat k)).
    + rewrite cursor_upd. rewrite nk_set_kl by done.
      simpl. by rewrite <- Hrt; destruct (nk cpr k).
Qed.

Lemma cstep_trans cp f1 f2 f3 : cstep cp f1 f2 → cstep cp f2 f3 → cstep cp f1 f3.
Proof.
  intros [->|(c1 & c1' & Hs1 & Hc1 & ->)]; [done|].
  intros [->|(c2 & c2' & Hs2 & Hc2 & ->)].
  - right. by exists c1, c1'.
  - right. exists c1, c2'. split; [done|].
    unfold upd in Hs2. simpl in Hs2. rewrite lookup_insert_eq in Hs2.
    injection Hs2 as <-. split; [by eapply ceq_trans|].
    unfold upd. simpl. by rewrite insert_insert_eq.
Qed.

Lemma key_order_cstep f f' hs hd k L :
  key_order (mk_sys f hs) k L → hd ∈ hs → cstep (h_cpr hd) f f' →
  key_order (mk_sys f' hs) k L.
Proof.
  intros (Ls & Lf & Lc & ts & Hinv & HL) Hhd Hstep.
  exists Ls, Lf, Lc, ts. split; [|done]. simpl in *. by eapply inv_cstep.
Qed.

(** The records determine the tree. *)
Lemma repr_inj f k :
  fwf f →
  ∀ t t' lo hi thr,
    repr (view f k) lo hi t → repr (view f k) lo hi t' →
    0 ≤ lo → 0 ≤ hi → 0 ≤ thr →
    link t thr = link t' thr → t = t'.
Proof.
  intros Hf. induction t as [|l IHl x bal d r IHr];
    intros t' lo hi thr Hr Hr' Hlo Hhi Hthr Hlk.
  - destruct t' as [|l' x' bal' d' r']; [done|].
    pose proof (repr_root_pos _ _ _ _ _ _ _ _ _ Hf Hr'). simpl in Hlk. lia.
  - pose proof (repr_root_pos _ _ _ _ _ _ _ _ _ Hf Hr) as Hx.
    destruct t' as [|l' x' bal' d' r']; [simpl in Hlk; lia|].
    simpl in Hlk. subst x'.
    destruct Hr as (Hv & Hrl & Hrr). destruct Hr' as (Hv' & Hrl' & Hrr').
    rewrite Hv in Hv'. injection Hv' as <- El Er <-.
    rewrite (IHl l' lo x lo Hrl Hrl') by (try done; lia).
    by rewrite (IHr r' x hi hi Hrr Hrr') by (try done; lia).
Qed.

Lemma inv_key_order f hs Ls Lf Lc ts k t :
  inv_with f hs Ls Lf Lc ts → (k < n_keys)%nat →
  repr (view f k) 0 0 t → root_k (hdr f) k = link t 0 → ts k = t.
Proof.
  intros Hinv Hk Hr Hroot.
  pose proof (lists_fwf _ _ _ _ _ _ (iw_lists _ _ _ _ _ _ Hinv)) as Hf.
  destruct (iw_trees _ _ _ _ _ _ Hinv k Hk) as (Hr' & Hroot' & _).
  apply (repr_inj f k Hf (ts k) t 0 0 0); try done. congruence.
Qed.

Lemma live_key_order f hs Ls k t :
  live (mk_sys f hs) Ls → (k < n_keys)%nat →
  repr (view f k) 0 0 t → root_k (hdr f) k = link t 0 →
  key_order (mk_sys f hs) k (inord t).
Proof.
  intros (Lf & Lc & ts & Hinv) Hk Hr Hroot. simpl in Hinv.
  exists Ls, Lf, Lc, ts. split; [done|].
  by rewrite (inv_key_order _ _ _ _ _ _ k t Hinv Hk Hr Hroot).
Qed.

Lemma key_order_unique s k L L' :
  (k < n_keys)%nat → key_order s k L → key_order s k L' → L = L'.
Proof.
  intros Hk (Ls & Lf & Lc & ts & Hinv & <-) (Ls' & Lf' & Lc' & ts' & Hinv' & <-).
  destruct (iw_trees _ _ _ _ _ _ Hinv' k Hk) as (Hr' & Hroot' & _).
  by rewrite (inv_key_order _ _ _ _ _ _ k (ts' k) Hinv Hk Hr' Hroot').
Qed.

(** A sorted list splits at any probe. *)
Lemma sorted_split k p (L : list (Z * data)) :
  StronglySorted (kle2 k) L →
  ∃ L1 L2, L = L1 ++ L2 ∧
           Forall (λ e, 0 < cmp (Z.of_nat k) p e.2) L1 ∧
           Forall (λ e, cmp (Z.of_nat k) p e.2 ≤ 0) L2.
Proof.
  induction L as [|e L IH]; intros Hs.
  - by exists [], [].
  - apply StronglySorted_cons in Hs as (He & Hs).
    destruct (Z_le_gt_dec (cmp (Z.of_nat k) p e.2) 0) as [Hle|Hgt].
    + exists [], (e :: L). split; [done|]. split; [done|].
      constructor; [done|]. eapply Forall_impl; [exact He|].
      intros e' He'. by apply (kle_trans k p e.2 e'.2).
    + destruct (IH Hs) as (L1 & L2 & -> & H1 & H2).
      exists (e :: L1), L2. split; [done|]. split; [|done].
      constructor; [lia|done].
Qed.

Lemma key_order_sorted s k L :
  (k < n_keys)%nat → key_order s k L → StronglySorted (kle2 k) L.
Proof.
  intros Hk (Ls & Lf & Lc & ts & Hinv & <-).
  destruct (iw_trees _ _ _ _ _ _ Hinv k Hk) as (_ & _ & _ & _ & Hs).
  by apply sorted_inord.
Qed.

Lemma enough_cstep cp f f' fuel : cstep cp f f' → enough f fuel → enough f' fuel.
Proof.
  intros [->|(c & c' & Hs & _ & ->)]; [done|].
  unfold enough, upd. simpl. by rewrite map_size_insert_Some by by exists c.
Qed.

(** ** The loops of a caller

    The loop of the example in the header of the source,
    [n = avl_file_startge (ap, &r, k);
     while (n == 0) { ...; n = avl_file_next (ap, &r, k); }],
    and the same with startlt and prev, with the payloads they go
    through; [n] bounds the number of passes. *)
Fixpoint next_loop (n : nat) (fuel : nat) (cp : Z) (f : file) (ret : Z) (buf : data)
    (k : Z) : res (list data * file) :=
  match n with
  | O => Timeout
  | S n =>
      if ret =? 0 then
        '(ret', buf', f') ← avl_file_next fuel cp f buf k;
        '(ds, f'') ← next_loop n fuel cp f' ret' buf' k;
        Ok (buf :: ds, f'')
      else Ok ([], f)
  end.

Definition read_ge (n : nat) (fuel : nat) (cp : Z) (f : file) (buf : data) (k : Z)
  : res (list data * file) :=
  '(ret, buf', f') ← avl_file_startge fuel cp f buf k;
  next_loop n fuel cp f' ret buf' k.

Fixpoint prev_loop (n : nat) (fuel : nat) (cp : Z) (f : file) (ret : Z) (buf : data)
    (k : Z) : res (list data * file) :=
  match n with
  | O => Timeout
  | S n =>
      if ret =? 0 then
        '(ret', buf', f') ← avl_file_prev fuel cp f buf k;
        '(ds, f'') ← prev_loop n fuel cp f' ret' buf' k;
        Ok (buf :: ds, f'')
      else Ok ([], f)
  end.

Definition read_lt (n : nat) (fuel : nat) (cp : Z) (f : file) (buf : data) (k : Z)
  : res (list data * file) :=
  '(ret, buf', f') ← avl_file_startlt fuel cp f buf k;
  prev_loop n fuel cp f' ret buf' k.

Lemma next_loop_spec hs Ls Lf Lc ts hd k fuel :
  hd ∈ hs → (k < n_keys)%nat →
  ∀ B A f d l n,
    inv_with f hs Ls Lf Lc ts → enough f fuel →
    inord (ts k) = A ++ B →
    cursor f (h_cpr hd) k = Some (l, hd_def 0 B) →
    (length B + 1 < n)%nat →
    ∃ f', next_loop n fuel (h_cpr hd) f 0 d (Z.of_nat k) = Ok (d :: B.*2, f') ∧
          cstep (h_cpr hd) f f'.
Proof.
  intros Hhd Hk. induction B as [|e B IH]; intros A f d l n Hinv Hfu Hin Hcur Hn.
  - destruct (next_spec f hs Ls Lf Lc ts hd k fuel d A [] l Hinv Hhd Hk Hfu Hin Hcur)
      as (f1 & Hrun & Hstep & Hcur1).
    destruct n as [|[|n]]; [simpl in Hn; lia..|].
    exists f1. split; [|done]. cbn [next_loop Z.eqb]. rewrite Hrun. done.
  - destruct (next_spec f hs Ls Lf Lc ts hd k fuel d A (e :: B) l Hinv Hhd Hk Hfu Hin Hcur)
      as (f1 & Hrun & Hstep & Hcur1).
    destruct n as [|n]; [simpl in Hn; lia|].
    destruct (IH (A ++ [e]) f1 e.2 l n) as (f2 & Hrun2 & Hstep2).
    { by eapply inv_cstep. }
    { by eapply enough_cstep. }
    { by rewrite <- app_assoc. }
    { done. }
    { simpl in Hn. lia. }
    exists f2. split; [|by eapply cstep_trans].
    cbn [next_loop Z.eqb]. rewrite Hrun. cbn [mbind res_mbind res_bind].
    rewrite Hrun2. done.
Qed.

Lemma prev_loop_spec hs Ls Lf Lc ts hd k fuel :
  hd ∈ hs → (k < n_keys)%nat →
  ∀ A B f d r n,
    inv_with f hs Ls Lf Lc ts → enough f fuel →
    inord (ts k) = A ++ B →
    cursor f (h_cpr hd) k = Some (last_def 0 A, r) →
    (length A + 1 < n)%nat →
    ∃ f', prev_loop n fuel (h_cpr hd) f 0 d (Z.of_nat k) = Ok (d :: reverse A.*2, f') ∧
          cstep (h_cpr hd) f f'.
Proof.
  intros Hhd Hk. induction A as [|e A IH] using rev_ind;
    intros B f d r n Hinv Hfu Hin Hcur Hn.
  - destruct (prev_spec f hs Ls Lf Lc ts hd k fuel d [] B r Hinv Hhd Hk Hfu Hin Hcur)
      as (f1 & Hrun & Hstep & Hcur1).
    destruct n as [|[|n]]; [simpl in Hn; lia..|].
    exists f1. split; [|done]. cbn [prev_loop Z.eqb]. rewrite Hrun. done.
  - destruct (prev_spec f hs Ls Lf Lc ts hd k fuel d (A ++ [e]) B r Hinv Hhd Hk Hfu Hin Hcur)
      as (f1 & Hrun & Hstep & Hcur1).
    rewrite last_snoc in Hrun. rewrite removelast_last in Hcur1.
    rewrite length_app in Hn. simpl in Hn.
    destruct n as [|n]; [lia|].
    destruct (IH (e :: B) f1 e.2 r n) as (f2 & Hrun2 & Hstep2).
    { by eapply inv_cstep. }
    { by eapply enough_cstep. }
    { by rewrite Hin, <- app_assoc. }
    { done. }
    { lia. }
    exists f2. split; [|by eapply cstep_trans].
    cbn [prev_loop Z.eqb]. rewrite Hrun. cbn [mbind res_mbind res_bind].
    rewrite Hrun2. cbn [mbind res_mbind res_bind].
    by rewrite fmap_app, reverse_app.
Qed.

Lemma find_skip {A} (p : A → bool) (L1 L2 : list A) :
  Forall (λ x, p x = false) L1 → find p (L1 ++ L2) = find p L2.
Proof.
  induction 1 as [|x L1 Hx _ IH]; [done|]. simpl. by rewrite Hx.
Qed.

Lemma find_none_all {A} (p : A → bool) (L : list A) :
  Forall (λ x, p x = false) L → find p L = None.
Proof.
  induction 1 as [|x L Hx _ IH]; [done|]. simpl. by rewrite Hx.
Qed.

Lemma cmp_zero_sym k a c : cmp k a c = 0 → cmp k c a = 0.
Proof.
  intros H0. pose proof (cmp_sym k a c). pose proof (cmp_sym k c a). lia.
Qed.

(** find returns the first record in key order that compares equal to
    the buffer. *)
Lemma find_spec f hs Ls Lf Lc ts hd k fuel buf :
  inv_with f hs Ls Lf Lc ts → hd ∈ hs → (k < n_keys)%nat → enough f fuel →
  ∃ f', avl_file_find fuel (h_cpr hd) f buf (Z.of_nat k) =
          Ok (match find (λ e, cmp (Z.of_nat k) e.2 buf =? 0) (inord (ts k)) with
              | Some e => (0, e.2)
              | None => (-1, buf)
              end, f') ∧
        cstep (h_cpr hd) f f'.
Proof.
  intros Hinv Hhd Hk Hfu.
  destruct (iw_trees _ _ _ _ _ _ Hinv k Hk) as (_ & _ & _ & _ & Hs).
  apply sorted_inord in Hs.
  destruct (sorted_split k buf _ Hs) as (L1 & L2 & Hin & H1 & H2).
  destruct (startge_spec f hs Ls Lf Lc ts hd k fuel buf L1 L2 Hinv Hhd Hk Hfu Hin H1 H2)
    as (f1 & Hrun & Hstep & _).
  exists f1. split; [|done].
  unfold avl_file_find. rewrite Hrun, Hin.
  rewrite find_skip.
  2:{ eapply Forall_impl; [exact H1|]. intros e He. simpl in He.
      apply Z.eqb_neq. intros H0. apply cmp_zero_sym in H0. lia. }
  destruct L2 as [|e B]; [done|].
  cbn [mbind res_mbind res_bind Z.eqb find].
  destruct (cmp (Z.of_nat k) e.2 buf =? 0) eqn:Ee; [done|].
  apply Z.eqb_neq in Ee.
  rewrite find_none_all; [done|].
  rewrite Hin in Hs. apply StronglySorted_app in Hs as (_ & _ & Hs).
  apply StronglySorted_cons in Hs as (HeB & _).
  apply Forall_cons in H2 as [He _].
  eapply Forall_impl; [exact HeB|]. intros e' Hle.
  apply Z.eqb_neq. intros H0. unfold kle2, kle in Hle.
  assert (cmp (Z.of_nat k) e.2 buf ≤ 0) as Hc.
  { apply (cmp_trans _ e.2 e'.2 buf); [done|lia]. }
  pose proof (cmp_sym (Z.of_nat k) buf e.2). pose proof (cmp_sym (Z.of_nat k) e.2 buf). lia.
Qed.

(** X7: startge on a consistent file whose records in the order of key
    k are [L1], all less than the probe, followed by [L2], none less than
    it: it returns 0 with the payload of the first record of [L2] and
    leaves the handle between the last record of [L1] and the second of
    [L2]; when [L2] is empty it returns -1, keeps the buffer and clears
    both pointers. The orders of all keys stay as they are. *)
Theorem startge_returns_first_not_less f hs hd k fuel buf L1 L2 :
  key_order (mk_sys f hs) k (L1 ++ L2) → hd ∈ hs → (k < n_keys)%nat →
  enough f fuel →
  Forall (λ e, 0 < cmp (Z.of_nat k) buf e.2) L1 →
  Forall (λ e, cmp (Z.of_nat k) buf e.2 ≤ 0) L2 →
  ∃ f', avl_file_startge fuel (h_cpr hd) f buf (Z.of_nat k) =
          Ok (match L2 with [] => (-1, buf) | e :: _ => (0, e.2) end, f') ∧
        cursor f' (h_cpr hd) k =
          Some (match L2 with
                | [] => (0, 0)
                | _ :: B => (last_def 0 L1, hd_def 0 B)
                end) ∧
        ∀ k' L', key_order (mk_sys f hs) k' L' → key_order (mk_sys f' hs) k' L'.
Proof.
  intros (Ls & Lf & Lc & ts & Hinv & Hin) Hhd Hk Hfu H1 H2. simpl in Hinv.
  destruct (startge_spec f hs Ls Lf Lc ts hd k fuel buf L1 L2 Hinv Hhd Hk Hfu Hin H1 H2)
    as (f' & Hrun & Hstep & Hcur).
  exists f'. split; [done|]. split; [done|].
  intros k' L' HL'. by eapply key_order_cstep.
Qed.

(** X8: startlt, on the same split of the records in key order: it
    returns 0 with the payload of the last record of [L1] and leaves the
    handle between the record before it and the first record of [L2];
    when [L1] is empty it returns -1, keeps the buffer and clears both
    pointers. *)
Theorem startlt_returns_last_less f hs hd k fuel buf L1 L2 :
  key_order (mk_sys f hs) k (L1 ++ L2) → hd ∈ hs → (k < n_keys)%nat →
  enough f fuel →
  Forall (λ e, 0 < cmp (Z.of_nat k) buf e.2) L1 →
  Forall (λ e, cmp (Z.of_nat k) buf e.2 ≤ 0) L2 →
  ∃ f', avl_file_startlt fuel (h_cpr hd) f buf (Z.of_nat k) =
          Ok (match last L1 with None => (-1, buf) | Some e => (0, e.2) end, f') ∧
        cursor f' (h_cpr hd) k =
          Some (match last L1 with
                | None => (0, 0)
                | Some _ => (last_def 0 (removelast L1), hd_def 0 L2)
                end) ∧
        ∀ k' L', key_order (mk_sys f hs) k' L' → key_order (mk_sys f' hs) k' L'.
Proof.
  intros (Ls & Lf & Lc & ts & Hinv & Hin) Hhd Hk Hfu H1 H2. simpl in Hinv.
  destruct (startlt_spec f hs Ls Lf Lc ts hd k fuel buf L1 L2 Hinv Hhd Hk Hfu Hin H1 H2)
    as (f' & Hrun & Hstep & Hcur).
  exists f'. split; [done|]. split; [done|].
  intros k' L' HL'. by eapply key_order_cstep.
Qed.

(** X9: next, when the right pointer of the handle for key k is at the
    first record of the rest [B] of the key order: it returns 0 with the
    payload of that record and moves the right pointer to the record
    after it, leaving the left pointer where it was; when [B] is empty
    (the pointer is 0) it returns -1 and changes nothing. *)
Theorem next_returns_successor f hs hd k fuel buf A B l :
  key_order (mk_sys f hs) k (A ++ B) → hd ∈ hs → (k < n_keys)%nat →
  enough f fuel →
  cursor f (h_cpr hd) k = Some (l, hd_def 0 B) →
  ∃ f', avl_file_next fuel (h_cpr hd) f buf (Z.of_nat k) =
          Ok (match B with [] => (-1, buf) | e :: _ => (0, e.2) end, f') ∧
        cursor f' (h_cpr hd) k = Some (l, hd_def 0 (tail B)) ∧
        (B = [] → f' = f) ∧
        ∀ k' L', key_order (mk_sys f hs) k' L' → key_order (mk_sys f' hs) k' L'.
Proof.
  intros (Ls & Lf & Lc & ts & Hinv & Hin) Hhd Hk Hfu Hcur. simpl in Hinv.
  destruct (next_spec f hs Ls Lf Lc ts hd k fuel buf A B l Hinv Hhd Hk Hfu Hin Hcur)
    as (f' & Hrun & Hstep & Hcur').
  exists f'. split; [done|]. split; [done|]. split.
  - intros ->. simpl in Hcur.
    apply cursor_Some in Hcur as (cpr & Hcs & _ & Hr0).
    pose proof (lists_fwf _ _ _ _ _ _ (iw_lists _ _ _ _ _ _ Hinv)) as Hf.
    unfold avl_file_next in Hrun. rewrite key_in_bounds in Hrun by done.
    rewrite Nat2Z.id, (lread_ok _ _ _ Hf Hcs) in Hrun.
    cbn [mbind res_mbind res_bind] in Hrun.
    change (hd_def 0 []) with 0 in Hr0. rewrite Hr0 in Hrun. simpl in Hrun. congruence.
  - intros k' L' HL'. by eapply key_order_cstep.
Qed.

(** X10: prev, when the left pointer of the handle for key k is at the
    last record of the part [A] of the key order: it returns 0 with the
    payload of that record and moves the left pointer to the record
    before it, leaving the right pointer where it was; when [A] is empty
    it returns -1 and changes nothing. *)
Theorem prev_returns_predecessor f hs hd k fuel buf A B r :
  key_order (mk_sys f hs) k (A ++ B) → hd ∈ hs → (k < n_keys)%nat →
  enough f fuel →
  cursor f (h_cpr hd) k = Some (last_def 0 A, r) →
  ∃ f', avl_file_prev fuel (h_cpr hd) f buf (Z.of_nat k) =
          Ok (match last A with None => (-1, buf) | Some e => (0, e.2) end, f') ∧
        cursor f' (h_cpr hd) k = Some (last_def 0 (removelast A), r) ∧
        (A = [] → f' = f) ∧
        ∀ k' L', key_order (mk_sys f hs) k' L' → key_order (mk_sys f' hs) k' L'.
Proof.
  intros (Ls & Lf & Lc & ts & Hinv & Hin) Hhd Hk Hfu Hcur. simpl in Hinv.
  destruct (prev_spec f hs Ls Lf Lc ts hd k fuel buf A B r Hinv Hhd Hk Hfu Hin Hcur)
    as (f' & Hrun & Hstep & Hcur').
  exists f'. split; [done|]. split; [done|]. split.
  - intros ->. simpl in Hcur.
    apply cursor_Some in Hcur as (cpr & Hcs & Hl0 & _).
    pose proof (lists_fwf _ _ _ _ _ _ (iw_lists _ _ _ _ _ _ Hinv)) as Hf.
    unfold avl_file_prev in Hrun. rewrite key_in_bounds in Hrun by done.
    rewrite Nat2Z.id, (lread_ok _ _ _ Hf Hcs) in Hrun.
    cbn [mbind res_mbind res_bind] in Hrun.
    change (last_def 0 []) with 0 in Hl0. rewrite Hl0 in Hrun. simpl in Hrun. congruence.
  - intros k' L' HL'. by eapply key_order_cstep.
Qed.


(** X12: startlt and then prev until it fails goes through the payloads
    of exactly the records that are less than the probe, from the
    greatest down. *)
Theorem read_lt_enumerates f hs hd k fuel n buf L1 L2 :
  key_order (mk_sys f hs) k (L1 ++ L2) → hd ∈ hs → (k < n_keys)%nat →
  enough f fuel → (length L1 + 1 < n)%nat →
  Forall (λ e, 0 < cmp (Z.of_nat k) buf e.2) L1 →
  Forall (λ e, cmp (Z.of_nat k) buf e.2 ≤ 0) L2 →
  ∃ f', read_lt n fuel (h_cpr hd) f buf (Z.of_nat k) = Ok (reverse L1.*2, f') ∧
        ∀ k' L', key_order (mk_sys f hs) k' L' → key_order (mk_sys f' hs) k' L'.
Proof.
  intros (Ls & Lf & Lc & ts & Hinv & Hin) Hhd Hk Hfu Hn H1 H2. simpl in Hinv.
  destruct (startlt_spec f hs Ls Lf Lc ts hd k fuel buf L1 L2 Hinv Hhd Hk Hfu Hin H1 H2)
    as (f1 & Hrun & Hstep & Hcur).
  unfold read_lt. rewrite Hrun.
  destruct L1 as [|e A _] using rev_ind.
  - exists f1. split.
    + destruct n as [|n]; [simpl in Hn; lia|]. done.
    + intros k' L' HL'. by eapply key_order_cstep.
  - rewrite last_snoc in *. rewrite removelast_last in Hcur.
    rewrite length_app in Hn. simpl in Hn.
    destruct (prev_loop_spec hs Ls Lf Lc ts hd k fuel Hhd Hk A (e :: L2) f1 e.2
                (hd_def 0 L2) n) as (f2 & Hrun2 & Hstep2).
    { by eapply inv_cstep. }
    { by eapply enough_cstep. }
    { by rewrite Hin, <- app_assoc. }
    { done. }
    { lia. }
    exists f2. split.
    + cbn [mbind res_mbind res_bind]. rewrite Hrun2.
      by rewrite fmap_app, reverse_app.
    + intros k' L' HL'. eapply key_order_cstep; [done|done|]. by eapply cstep_trans.
Qed.

(** X13: find returns 0 with the payload of the first record in the
    order of key k that compares equal to the buffer under that key, and
    -1 with the buffer as it was when no record does. *)
Theorem find_returns_first_equal f hs hd k fuel buf L :
  key_order (mk_sys f hs) k L → hd ∈ hs → (k < n_keys)%nat → enough f fuel →
  ∃ f', avl_file_find fuel (h_cpr hd) f buf (Z.of_nat k) =
          Ok (match find (λ e, cmp (Z.of_nat k) e.2 buf =? 0) L with
              | Some e => (0, e.2)
              | None => (-1, buf)
              end, f') ∧
        ∀ k' L', key_order (mk_sys f hs) k' L' → key_order (mk_sys f' hs) k' L'.
Proof.
  intros (Ls & Lf & Lc & ts & Hinv & <-) Hhd Hk Hfu. simpl in Hinv.
  destruct (find_spec f hs Ls Lf Lc ts hd k fuel buf Hinv Hhd Hk Hfu)
    as (f' & Hrun & Hstep).
  exists f'. split; [done|].
  intros k' L' HL'. by eapply key_order_cstep.
Qed.


(** ** The sequential reading *)

(** The sequential pointer of the handle at [cp]: the record that
    readseq returns next, 0 for none. *)
Definition seq_cursor (f : file) (cp : Z) : option Z := prev <$> slots f !! cp.

(** The loop of a caller that reads the file sequentially:
    [avl_file_startseq (ap); while (avl_file_readseq (ap, &r) == 0) ...],
    with the payloads it goes through; [n] bounds the number of passes. *)
Fixpoint readseq_loop (n : nat) (cp : Z) (f : file) (buf : data)
  : res (list data * file) :=
  match n with
  | O => Timeout
  | S n =>
      '(ret, buf', f') ← avl_file_readseq cp f buf;
      if ret =? 0 then
        '(ds, f'') ← readseq_loop n cp f' buf';
        Ok (buf' :: ds, f'')
      else Ok ([], f')
  end.

Definition read_seq (n : nat) (cp : Z) (f : file) (buf : data) : res (list data * file) :=
  f' ← avl_file_startseq cp f;
  readseq_loop n cp f' buf.

Definition hdz (L : list Z) : Z := default 0 (head L).

Lemma chain_hdz f p L : chain f p L → p = hdz L.
Proof. destruct L as [|x L]; simpl; [done|]. by intros (-> & _). Qed.

Lemma chain_app_inv f p A B : chain f p (A ++ B) → chain f (hdz B) B.
Proof.
  revert p. induction A as [|x A IH]; intros p Hc; simpl in Hc.
  - by rewrite <- (chain_hdz f p B Hc).
  - destruct Hc as (_ & s & _ & Hc). by eapply IH.
Qed.

Lemma cstep_payload cp f f' x : cstep cp f f' → payload f' x = payload f x.
Proof.
  intros [->|(c & c' & Hs & (_ & Hb & _) & ->)]; [done|].
  unfold payload, upd. simpl. destruct (decide (x = cp)) as [->|Hx].
  - rewrite lookup_insert_eq, Hs. simpl. by rewrite Hb.
  - by rewrite lookup_insert_ne.
Qed.

Lemma startseq_spec f hs Ls Lf Lc ts hd :
  inv_with f hs Ls Lf Lc ts → hd ∈ hs →
  ∃ f', avl_file_startseq (h_cpr hd) f = Ok f' ∧
        cstep (h_cpr hd) f f' ∧
        seq_cursor f' (h_cpr hd) = Some (hdz Ls).
Proof.
  intros Hinv Hhd.
  pose proof (iw_lists _ _ _ _ _ _ Hinv) as Hlo.
  pose proof (lists_fwf _ _ _ _ _ _ Hlo) as Hf.
  destruct (lo_handles _ _ _ _ _ _ Hlo) as [_ Hall].
  destruct (Hall hd Hhd) as [Hin _].
  assert (is_Some (slots f !! h_cpr hd)) as [cpr Hcs].
  { apply (lo_cover _ _ _ _ _ _ Hlo). rewrite !elem_of_app. auto. }
  assert (avl_file_startseq (h_cpr hd) f =
          Ok (upd f (h_cpr hd) (set_prev (head_seq (hdr f)) cpr))) as Hrun.
  { unfold avl_file_startseq. rewrite (lread_ok _ _ _ Hf Hcs).
    cbn [mbind res_mbind res_bind]. by rewrite (lwrite_ok _ _ cpr _ Hf Hcs). }
  eexists. split; [exact Hrun|]. split; [by eapply startseq_cstep|].
  unfold seq_cursor, upd. simpl. rewrite lookup_insert_eq. simpl.
  f_equal. apply (chain_hdz f). eapply dchain_chain. exact (lo_seq _ _ _ _ _ _ Hlo).
Qed.

Lemma readseq_spec f hs Ls Lf Lc ts hd buf A B :
  inv_with f hs Ls Lf Lc ts → hd ∈ hs → Ls = A ++ B →
  seq_cursor f (h_cpr hd) = Some (hdz B) →
  match B with
  | [] => avl_file_readseq (h_cpr hd) f buf = Ok (-1, buf, f)
  | x :: B' =>
      ∃ d f', payload f x = Some d ∧
              avl_file_readseq (h_cpr hd) f buf = Ok (0, d, f') ∧
              cstep (h_cpr hd) f f' ∧
              seq_cursor f' (h_cpr hd) = Some (hdz B')
  end.
Proof.
  intros Hinv Hhd -> Hcur.
  pose proof (iw_lists _ _ _ _ _ _ Hinv) as Hlo.
  pose proof (lists_fwf _ _ _ _ _ _ Hlo) as Hf.
  unfold seq_cursor in Hcur.
  destruct (slots f !! h_cpr hd) as [cpr|] eqn:Hcs; [|done].
  simpl in Hcur. injection Hcur as Hp.
  pose proof (dchain_chain _ _ _ _ (lo_seq _ _ _ _ _ _ Hlo)) as Hc.
  apply chain_app_inv in Hc.
  destruct B as [|x B'].
  - unfold avl_file_readseq. rewrite (lread_ok _ _ _ Hf Hcs).
    cbn [mbind res_mbind res_bind]. by rewrite Hp.
  - simpl in Hc. destruct Hc as (_ & s & Hs & Hc).
    change (hdz (x :: B')) with x in Hp.
    destruct (Hf _ _ Hs) as (Hx & _).
    assert (avl_file_readseq (h_cpr hd) f buf =
            Ok (0, b s, upd f (h_cpr hd) (set_prev (next s) cpr))) as Hrun.
    { unfold avl_file_readseq. rewrite (lread_ok _ _ _ Hf Hcs).
      cbn [mbind res_mbind res_bind]. rewrite Hp.
      rewrite (proj2 (Z.eqb_neq _ _)) by lia.
      rewrite (lread_ok _ _ _ Hf Hs). cbn [mbind res_mbind res_bind].
      by rewrite (lwrite_ok _ _ cpr _ Hf Hcs). }
    exists (b s). eexists. split; [unfold payload; by rewrite Hs|].
    split; [exact Hrun|]. split; [by eapply readseq_cstep|].
    unfold seq_cursor, upd. simpl. rewrite lookup_insert_eq. simpl.
    f_equal. by apply (chain_hdz f).
Qed.

Lemma readseq_loop_spec hs Ls Lf Lc ts hd :
  hd ∈ hs →
  ∀ B A f buf n,
    inv_with f hs Ls Lf Lc ts → Ls = A ++ B →
    seq_cursor f (h_cpr hd) = Some (hdz B) →
    (length B < n)%nat →
    ∃ ds f', readseq_loop n (h_cpr hd) f buf = Ok (ds, f') ∧
             cstep (h_cpr hd) f f' ∧
             Forall2 (λ x d, payload f x = Some d) B ds.
Proof.
  intros Hhd. induction B as [|x B IH]; intros A f buf n Hinv HL Hcur Hn.
  - pose proof (readseq_spec f hs Ls Lf Lc ts hd buf A [] Hinv Hhd HL Hcur) as Hrun.
    destruct n as [|n]; [simpl in Hn; lia|].
    exists [], f. split; [|split; [by left|constructor]].
    cbn [readseq_loop]. by rewrite Hrun.
  - destruct (readseq_spec f hs Ls Lf Lc ts hd buf A (x :: B) Hinv Hhd HL Hcur)
      as (d & f1 & Hpay & Hrun & Hstep & Hcur1).
    destruct n as [|n]; [simpl in Hn; lia|].
    destruct (IH (A ++ [x]) f1 d n) as (ds & f2 & Hrun2 & Hstep2 & Hall).
    { by eapply inv_cstep. }
    { by rewrite <- app_assoc. }
    { done. }
    { simpl in Hn. lia. }
    exists (d :: ds), f2. split; [|split; [by eapply cstep_trans|]].
    + cbn [readseq_loop]. rewrite Hrun. cbn [mbind res_mbind res_bind Z.eqb].
      by rewrite Hrun2.
    + constructor; [done|]. eapply Forall2_impl; [exact Hall|].
      intros y dy Hy. simpl in Hy. by rewrite <- (cstep_payload _ _ _ y Hstep).
Qed.

(** X14: readseq returns 0 with the payload of the record at the
    sequential pointer of the handle and moves the pointer to the next
    record of the sequential list; at the end of the list (the pointer is
    0) it returns -1 and leaves the buffer and the file as they are. *)
Theorem readseq_returns_next_in_list f hs hd buf A B :
  live (mk_sys f hs) (A ++ B) → hd ∈ hs →
  seq_cursor f (h_cpr hd) = Some (hdz B) →
  match B with
  | [] => avl_file_readseq (h_cpr hd) f buf = Ok (-1, buf, f)
  | x :: B' =>
      ∃ d f', payload f x = Some d ∧
              avl_file_readseq (h_cpr hd) f buf = Ok (0, d, f') ∧
              seq_cursor f' (h_cpr hd) = Some (hdz B') ∧
              live (mk_sys f' hs) (A ++ B)
  end.
Proof.
  intros (Lf & Lc & ts & Hinv) Hhd Hcur. simpl in Hinv.
  pose proof (readseq_spec f hs _ Lf Lc ts hd buf A B Hinv Hhd eq_refl Hcur) as Hrun.
  destruct B as [|x B']; [done|].
  destruct Hrun as (d & f' & Hpay & Hrun & Hstep & Hcur').
  exists d, f'. split; [done|]. split; [done|]. split; [done|].
  exists Lf, Lc, ts. simpl. by eapply inv_cstep.
Qed.

(** X15: startseq followed by readseq until it fails goes through the
    payloads of all the tree records, each once, in the order of the
    sequential list (the most recently inserted first). *)
Theorem read_seq_enumerates f hs hd buf Ls n :
  live (mk_sys f hs) Ls → hd ∈ hs → (length Ls < n)%nat →
  ∃ ds f', read_seq n (h_cpr hd) f buf = Ok (ds, f') ∧
           Forall2 (λ x d, payload f x = Some d) Ls ds ∧
           live (mk_sys f' hs) Ls.
Proof.
  intros (Lf & Lc & ts & Hinv) Hhd Hn. simpl in Hinv.
  destruct (startseq_spec f hs Ls Lf Lc ts hd Hinv Hhd) as (f1 & Hrun1 & Hstep1 & Hcur1).
  destruct (readseq_loop_spec hs Ls Lf Lc ts hd Hhd Ls [] f1 buf n)
    as (ds & f2 & Hrun2 & Hstep2 & Hall); [by eapply inv_cstep|done|done|done|].
  exists ds, f2. split; [|split].
  - unfold read_seq. rewrite Hrun1. exact Hrun2.
  - eapply Forall2_impl; [exact Hall|].
    intros y dy Hy. simpl in Hy. by rewrite <- (cstep_payload _ _ _ y Hstep1).
  - exists Lf, Lc, ts. simpl. eapply inv_cstep; [|done|]; [by eapply inv_cstep|done].
Qed.

Lemma live_cstep f f' hs Ls hd :
  live (mk_sys f hs) Ls → hd ∈ hs → cstep (h_cpr hd) f f' → live (mk_sys f' hs) Ls.
Proof.
  intros (Lf & Lc & ts & Hinv) Hhd Hstep. exists Lf, Lc, ts. simpl in *.
  by eapply inv_cstep.
Qed.

(** ** Where insert puts the new record in the order of a key *)

(** The descent of insert goes left only at a greater record: all that
    is to the right of the new leaf is greater. *)
Lemma descend_cr_strict k yb c :
  Forall (λ g, fdir g = L ↔ cmp (Z.of_nat k) yb (fd g) < 0) c →
  StronglySorted (kle2 k) (cl c ++ cr c) →
  Forall (λ e, cmp (Z.of_nat k) yb e.2 < 0) (cr c).
Proof.
  induction c as [|g c IH]; intros Hd Hs; simpl; [done|].
  inversion Hd as [|? ? Hg Hd']; subst.
  simpl in Hs. destruct g as [[] x bal d sib]; simpl in *.
  - rewrite app_nil_r in Hs.
    assert (StronglySorted (kle2 k) (cl c ++ cr c)) as Hs'.
    { eapply StronglySorted_sublist; [|exact Hs]. apply sublist_app; [done|].
      apply sublist_cons. by apply sublist_inserts_l. }
    apply StronglySorted_app in Hs as (_ & _ & H2).
    apply StronglySorted_cons in H2 as (Hx & _).
    apply Forall_app in Hx as [Hx1 _].
    assert (cmp (Z.of_nat k) yb d < 0) as Hlt by tauto.
    constructor; [done|]. apply Forall_app. split; [|by apply IH].
    eapply Forall_impl; [exact Hx1|]. intros e Hle. by eapply cmp_lt_le_trans.
  - apply IH; [done|].
    eapply StronglySorted_sublist; [|exact Hs]. apply sublist_app; [|done].
    by apply sublist_inserts_r.
Qed.

Lemma tins_position k y yb t :
  avl t → sorted k t →
  ∃ L1 L2, inord t = L1 ++ L2 ∧
           inord (tins k y yb t) = L1 ++ (y, yb) :: L2 ∧
           Forall (λ e, cmp (Z.of_nat k) e.2 yb ≤ 0) L1 ∧
           Forall (λ e, cmp (Z.of_nat k) yb e.2 < 0) L2.
Proof.
  intros Ha Hs. destruct (tins_inord k y yb t Ha) as (E1 & E2).
  exists (cl (descend k yb [] t)), (cr (descend k yb [] t)).
  split; [done|]. split; [done|].
  apply sorted_inord in Hs. rewrite E1 in Hs.
  pose proof (descend_dirs k yb [] t) as Hd.
  split.
  - by destruct (descend_sorted k yb _ (Hd ltac:(done)) Hs) as [Hl _].
  - by apply descend_cr_strict; [apply Hd|].
Qed.

Lemma cover_size (m : gmap Z avl_struct) (l : list Z) :
  NoDup l → (∀ x, is_Some (m !! x) ↔ x ∈ l) → size m = length l.
Proof.
  intros Hnd Hcov. rewrite <- size_dom.
  assert (dom m = list_to_set (C := gset Z) l) as ->.
  { apply set_eq. intros x. by rewrite elem_of_dom, elem_of_list_to_set. }
  by apply size_list_to_set.
Qed.

Lemma inv_size f hs Ls Lf Lc ts :
  inv_with f hs Ls Lf Lc ts → size (slots f) = length (Ls ++ Lf ++ Lc).
Proof.
  intros [Hlo _ _]. apply cover_size.
  - exact (lo_nodup _ _ _ _ _ _ Hlo).
  - exact (lo_cover _ _ _ _ _ _ Hlo).
Qed.

Lemma inv_order_length f hs Ls Lf Lc ts k :
  inv_with f hs Ls Lf Lc ts → (k < n_keys)%nat → length (inord (ts k)) = length Ls.
Proof.
  intros Hinv Hk. destruct (iw_trees _ _ _ _ _ _ Hinv k Hk) as (_ & _ & Hperm & _).
  by rewrite <- Hperm, nodes_inord, length_fmap.
Qed.

(** X16: insert puts the new record, in the order of every key, after
    all the records that are not greater under that key (those that
    compare equal among them) and before all the greater ones; the other
    records keep their order. *)
Theorem insert_goes_after_equal_keys f hs fuel buf k L :
  key_order (mk_sys f hs) k L → (k < n_keys)%nat → enough f fuel →
  Z.of_nat (length L) + 1 < 2 ^ 63 →
  ∃ y f' L1 L2,
    avl_file_insert fuel f buf = Ok (0, f') ∧
    L = L1 ++ L2 ∧
    Forall (λ e, cmp (Z.of_nat k) e.2 buf ≤ 0) L1 ∧
    Forall (λ e, cmp (Z.of_nat k) buf e.2 < 0) L2 ∧
    key_order (mk_sys f' hs) k (L1 ++ (y, buf) :: L2) ∧
    head_seq (hdr f') = y.
Proof.
  intros (Ls & Lf & Lc & ts & Hinv & <-) Hk Hfu Hn. simpl in Hinv.
  rewrite (inv_order_length _ _ _ _ _ _ k Hinv Hk) in Hn.
  destruct (insert_inv f hs Ls Lf Lc ts fuel buf Hinv Hfu Hn)
    as (y & f' & Hrun & Hinv' & _).
  destruct (iw_trees _ _ _ _ _ _ Hinv k Hk) as (_ & _ & _ & Ha & Hs).
  destruct (tins_position k y buf (ts k) Ha Hs) as (L1 & L2 & E1 & E2 & H1 & H2).
  exists y, f', L1, L2. split; [done|]. split; [done|]. split; [done|]. split; [done|].
  split.
  - exists (y :: Ls), (tail Lf), Lc, (λ k, tins k y buf (ts k)). by split.
  - pose proof (lo_seq _ _ _ _ _ _ (iw_lists _ _ _ _ _ _ Hinv')) as Hseq.
    simpl in Hseq. by destruct Hseq.
Qed.

(** X17: after insert, find with the same data succeeds for every key
    and returns a record that compares equal under the key: the first
    such record in key order, which is the new one when no record
    compared equal before. *)
Theorem insert_then_find f hs hd fuel buf k L :
  key_order (mk_sys f hs) k L → hd ∈ hs → (k < n_keys)%nat →
  (3 * size (slots f) + 11 ≤ fuel)%nat →
  Z.of_nat (length L) + 1 < 2 ^ 63 →
  ∃ f1 f2 d,
    avl_file_insert fuel f buf = Ok (0, f1) ∧
    avl_file_find fuel (h_cpr hd) f1 buf (Z.of_nat k) = Ok (0, d, f2) ∧
    cmp (Z.of_nat k) d buf = 0 ∧
    (Forall (λ e, cmp (Z.of_nat k) e.2 buf ≠ 0) L → d = buf).
Proof.
  intros (Ls & Lf & Lc & ts & Hinv & <-) Hhd Hk Hfu Hn. simpl in Hinv.
  rewrite (inv_order_length _ _ _ _ _ _ k Hinv Hk) in Hn.
  assert (enough f fuel) as Hfu0 by (unfold enough; lia).
  destruct (insert_inv f hs Ls Lf Lc ts fuel buf Hinv Hfu0 Hn)
    as (y & f1 & Hrun & Hinv1 & _).
  assert (enough f1 fuel) as Hfu1.
  { unfold enough. rewrite (inv_size _ _ _ _ _ _ Hinv1).
    rewrite (inv_size _ _ _ _ _ _ Hinv) in Hfu.
    rewrite !length_app in *. simpl. destruct Lf; simpl in *; lia. }
  destruct (find_spec f1 hs _ _ _ _ hd k fuel buf Hinv1 Hhd Hk Hfu1)
    as (f2 & Hfind & _).
  destruct (iw_trees _ _ _ _ _ _ Hinv k Hk) as (_ & _ & _ & Ha & Hs).
  destruct (tins_position k y buf (ts k) Ha Hs) as (L1 & L2 & E1 & E2 & H1 & H2).
  simpl in Hfind. rewrite E2 in Hfind.
  destruct (find _ (L1 ++ (y, buf) :: L2)) as [e|] eqn:Efind.
  - apply find_some in Efind as [Hin He]. apply Z.eqb_eq in He.
    exists f1, f2, e.2. split; [done|]. split; [done|]. split; [done|].
    intros Hnone. rewrite E1 in Hnone. apply Forall_app in Hnone as [Hn1 Hn2].
    apply list_elem_of_In, elem_of_app in Hin as [Hin|Hin].
    + by destruct (proj1 (Forall_forall _ _) Hn1 e Hin).
    + apply elem_of_cons in Hin as [->|Hin]; [done|].
      by destruct (proj1 (Forall_forall _ _) Hn2 e Hin).
  - pose proof (find_none _ _ Efind (y, buf)) as Hc. simpl in Hc.
    rewrite cmp_refl in Hc. discriminate Hc.
    apply list_elem_of_In, elem_of_app. right. by left.
Qed.

(** ** avl_file_close *)

Lemma NoDup_fmap_eq {A B} (g : A → B) (l : list A) x y :
  NoDup (g <$> l) → x ∈ l → y ∈ l → g x = g y → x = y.
Proof.
  intros Hnd [i Hi]%list_elem_of_lookup [j Hj]%list_elem_of_lookup Heq.
  assert ((g <$> l) !! i = Some (g x)) as Hi' by by rewrite list_lookup_fmap, Hi.
  assert ((g <$> l) !! j = Some (g x)) as Hj' by by rewrite list_lookup_fmap, Hj, Heq.
  pose proof (NoDup_lookup _ _ _ _ Hnd Hi' Hj') as ->. congruence.
Qed.

(** The loop of close ends at the record before [cp] in the list of
    current-pointer records and makes it skip [cp]. *)
Lemma unlink_cpr_spec f cp nxt B :
  fwf f →
  ∀ A sp fuel,
    chain f sp (A ++ cp :: B) → A ≠ [] → cp ∉ A → (length A < fuel)%nat →
    ∃ A' p pr, A = A' ++ [p] ∧ slots f !! p = Some pr ∧ next pr = cp ∧
               unlink_cpr fuel f cp nxt sp = Ok (upd f p (set_next nxt pr)).
Proof.
  intros Hf. induction A as [|x A IH]; intros sp fuel Hc Hne Hnin Hfu; [done|].
  simpl in Hc. destruct Hc as (-> & s & Hs & Hc).
  destruct (Hf _ _ Hs) as (Hx & _).
  destruct fuel as [|fuel]; [simpl in Hfu; lia|].
  cbn [unlink_cpr]. rewrite (proj2 (Z.ltb_lt _ _) Hx), (lread_ok _ _ _ Hf Hs).
  cbn [mbind res_mbind res_bind].
  destruct A as [|x2 A].
  - simpl in Hc. destruct Hc as (Hn & _). rewrite Hn, Z.eqb_refl.
    exists [], x, s. split; [done|]. split; [done|]. split; [done|].
    by rewrite (lwrite_ok _ _ s _ Hf Hs).
  - pose proof Hc as (Hn & _). simpl in Hn.
    assert (next s ≠ cp) as Hne2.
    { rewrite Hn. intros ->. apply Hnin. right. by left. }
    rewrite (proj2 (Z.eqb_neq _ _) Hne2).
    destruct (IH (next s) fuel) as (A' & p & pr & HA & Hp & Hnp & Hrun);
      [done|done| |simpl in *; lia|].
    { intros Hin. apply Hnin. by right. }
    exists (x :: A'), p, pr. split; [by rewrite HA|]. done.
Qed.

Lemma chain_unlink f f' cp cpr p pr B :
  slots f !! cp = Some cpr →
  ∀ A sp,
    chain f sp (A ++ p :: cp :: B) → NoDup (A ++ p :: cp :: B) →
    (∀ x, x ∈ A ++ B → slots f' !! x = slots f !! x) →
    slots f' !! p = Some pr → next pr = next cpr →
    chain f' sp (A ++ p :: B).
Proof.
  intros Hcs. induction A as [|x A IH]; intros sp Hc Hnd Hsame Hp Hn; simpl in *.
  - destruct Hc as (-> & s & Hs & _ & s2 & Hs2 & Hc). split; [done|].
    exists pr. split; [done|]. rewrite Hn.
    assert (s2 = cpr) as -> by congruence.
    eapply chain_ext; [|exact Hc]. intros y Hy. by apply Hsame.
  - destruct Hc as (-> & s & Hs & Hc). split; [done|].
    apply NoDup_cons in Hnd as [Hx Hnd].
    exists s. split; [rewrite Hsame; [done|by left]|].
    apply IH; try done. intros y Hy. apply Hsame. by right.
Qed.

Lemma lists_close_gen f f' h h' hs Ls Lf A B hd :
  lists_ok f h hs Ls Lf (A ++ h_cpr hd :: B) → hd ∈ hs →
  flen f' = flen f →
  (∀ x, is_Some (slots f' !! x) ↔ is_Some (slots f !! x)) →
  (∀ x, x ∈ Ls ++ Lf → slots f' !! x = slots f !! x) →
  (∀ x s, x ∈ A ++ B → slots f !! x = Some s →
          ∃ s', slots f' !! x = Some s' ∧ n s' = n s ∧ b s' = b s) →
  (∃ s, slots f' !! h_cpr hd = Some s ∧ next s = head_empty h ∧ length (n s) = n_keys) →
  chain f' (head_cpr h') (A ++ B) →
  h_n_keys h' = h_n_keys h → h_reclen h' = h_reclen h → root h' = root h →
  head_seq h' = head_seq h → head_empty h' = h_cpr hd →
  lists_ok f' h' (filter (λ h0, h0 ≠ hd) hs) Ls (h_cpr hd :: Lf) (A ++ B).
Proof.
  intros Hlo Hhd Hlen Hdom HSF HAB (cs & Hcs & Hcn & Hcl) Hch E1 E2 E3 E4 E5.
  pose proof (lo_nodup _ _ _ _ _ _ Hlo) as Hnd.
  assert (Ls ++ (h_cpr hd :: Lf) ++ A ++ B ≡ₚ Ls ++ Lf ++ A ++ h_cpr hd :: B) as Hperm
    by solve_Permutation.
  destruct Hlo as [H1 H2 H3 H4 H5 H6 H7 H8 H9 H10 H11 [Hndh Hall]].
  split.
  - congruence.
  - congruence.
  - congruence.
  - destruct H4 as (N & HN & Hd). exists N. split; [congruence|].
    intros x. by rewrite Hdom.
  - intros x s Hs.
    assert (x ∈ Ls ++ Lf ++ A ++ h_cpr hd :: B) as Hx.
    { apply H10, Hdom. by exists s. }
    rewrite <- Hperm in Hx.
    rewrite !elem_of_app, elem_of_cons in Hx.
    destruct Hx as [Hx|[[->|Hx]|Hx]].
    + rewrite HSF in Hs by (apply elem_of_app; by left). by eapply H5.
    + congruence.
    + rewrite HSF in Hs by (apply elem_of_app; by right). by eapply H5.
    + rewrite <- elem_of_app in Hx.
      destruct (proj1 (Hdom x) ltac:(by exists s)) as [s0 Hs0].
      destruct (HAB x s0 Hx Hs0) as (s' & Hs' & Hn' & _).
      assert (s' = s) as -> by congruence. rewrite Hn'. by eapply H5.
  - rewrite E4. eapply dchain_ext; [|exact H6]. intros x s Hx Hs. exists s.
    split; [|done]. rewrite HSF; [done|]. apply elem_of_app. by left.
  - rewrite E5. simpl. split; [done|]. exists cs. split; [done|]. rewrite Hcn.
    eapply chain_ext; [|exact H7]. intros x Hx. apply HSF, elem_of_app. by right.
  - done.
  - by rewrite Hperm.
  - intros x. rewrite Hdom, H10. by rewrite Hperm.
  - intros c s Hc Hs Hk.
    destruct (proj1 (Hdom c) ltac:(by exists s)) as [s0 Hs0].
    destruct (HAB c s0 Hc Hs0) as (s' & Hs' & Hn' & _).
    assert (s' = s) as -> by congruence.
    unfold nk. rewrite Hn'. apply (H11 c s0); [|done|done].
    apply elem_of_app in Hc as [Hc|Hc]; apply elem_of_app; [by left|right; by right].
  - split.
    + eapply sublist_NoDup; [exact Hndh|]. apply fmap_sublist, sublist_filter.
    + intros h0 [Hne Hh0]%list_elem_of_filter.
      destruct (Hall h0 Hh0) as [Hin Hpid].
      assert (h_cpr h0 ≠ h_cpr hd) as Hcne.
      { intros Heq. apply Hne. by eapply (NoDup_fmap_eq h_cpr hs). }
      assert (h_cpr h0 ∈ A ++ B) as Hin'.
      { apply elem_of_app in Hin as [Hin|Hin]; apply elem_of_app; [by left|].
        apply elem_of_cons in Hin as [Hin|Hin]; [done|by right]. }
      split; [done|]. intros Hfit s Hs.
      destruct (proj1 (Hdom (h_cpr h0)) ltac:(by exists s)) as [s0 Hs0].
      destruct (HAB _ s0 Hin' Hs0) as (s' & Hs' & _ & Hb').
      assert (s' = s) as -> by congruence. rewrite Hb'. by apply Hpid.
Qed.

Lemma close_inv f hs Ls Lf Lc ts hd fuel :
  inv_with f hs Ls Lf Lc ts → hd ∈ hs → enough f fuel →
  ∃ f' A B,
    avl_file_close fuel (h_cpr hd) f = Ok f' ∧
    Lc = A ++ h_cpr hd :: B ∧
    inv_with f' (filter (λ h0, h0 ≠ hd) hs) Ls (h_cpr hd :: Lf) (A ++ B) ts ∧
    (∀ x, x ∈ Ls → slots f' !! x = slots f !! x) ∧
    nextnum (hdr f') = nextnum (hdr f).
Proof.
  intros Hinv Hhd Hfu.
  destruct (inv_list_fuel _ _ _ _ _ _ _ Hinv Hfu) as (_ & _ & Hfc).
  destruct Hinv as [Hlo Hcnt Htr].
  pose proof (lists_fwf _ _ _ _ _ _ Hlo) as Hf.
  pose proof (lists_hdr_size _ _ _ _ _ _ Hlo) as Hsz.
  destruct (lo_handles _ _ _ _ _ _ Hlo) as [_ Hall].
  destruct (Hall hd Hhd) as [Hin _].
  set (cp := h_cpr hd) in *.
  apply list_elem_of_split in Hin as (A & B & ->).
  pose proof (lo_nodup _ _ _ _ _ _ Hlo) as Hnd.
  assert (NoDup (A ++ cp :: B)) as HndC.
  { apply NoDup_app in Hnd as (_ & _ & Hnd). apply NoDup_app in Hnd as (_ & _ & Hnd).
    exact Hnd. }
  assert ((cp ∉ A) ∧ (cp ∉ B)) as [HcA HcB].
  { apply NoDup_app in HndC as (_ & Hd & HB). apply NoDup_cons in HB as [HB _].
    split; [|done]. intros HA. apply (Hd cp HA). by left. }
  assert (cp ∉ Ls ++ Lf) as HcSF.
  { intros [Hx|Hx]%elem_of_app.
    - eapply lists_disjoint_sc; [exact Hlo|exact Hx|]. apply elem_of_app. right. by left.
    - eapply lists_disjoint_fc; [exact Hlo|exact Hx|]. apply elem_of_app. right. by left. }
  pose proof (lo_cpr _ _ _ _ _ _ Hlo) as Hch.
  pose proof (chain_app_inv _ _ _ _ Hch) as Hch2. simpl in Hch2.
  destruct Hch2 as (_ & cpr & Hcs & HchB).
  pose proof (lo_nlen _ _ _ _ _ _ Hlo _ _ Hcs) as Hcl.
  destruct (clear_nodes_fields 64 cpr) as (_ & _ & _ & Hcn).
  set (cpr' h1 := set_next (head_empty h1) (clear_nodes 64 cpr)).
  assert (∀ f1 h1 h',
    flen f1 = flen f →
    (∀ x, is_Some (slots f1 !! x) ↔ is_Some (slots f !! x)) →
    (∀ x, x ∈ Ls ++ Lf → slots f1 !! x = slots f !! x) →
    (∀ x s, x ∈ A ++ B → slots f !! x = Some s →
            ∃ s', slots f1 !! x = Some s' ∧ n s' = n s ∧ b s' = b s) →
    (∀ f2, (∀ x, x ∈ A ++ B → slots f2 !! x = slots f1 !! x) →
           chain f2 (head_cpr h') (A ++ B)) →
    head_empty h1 = head_empty (hdr f) →
    h' = set_head_empty cp h1 →
    h_n_keys h1 = h_n_keys (hdr f) → h_reclen h1 = h_reclen (hdr f) →
    root h1 = root (hdr f) → head_seq h1 = head_seq (hdr f) →
    n_avl h1 = n_avl (hdr f) → nextnum h1 = nextnum (hdr f) →
    inv_with (hwrite (upd f1 cp (cpr' h1)) h') (filter (λ h0, h0 ≠ hd) hs) Ls
             (cp :: Lf) (A ++ B) ts ∧
    (∀ x, x ∈ Ls → slots (hwrite (upd f1 cp (cpr' h1)) h') !! x = slots f !! x) ∧
    nextnum (hdr (hwrite (upd f1 cp (cpr' h1)) h')) = nextnum (hdr f)) as Hgen.
  { intros f1 h1 h' Hlen Hdom HSF HAB Hchain He -> E1 E2 E3 E4 E5 E6.
    assert (∀ x, x ≠ cp → slots (hwrite (upd f1 cp (cpr' h1)) (set_head_empty cp h1)) !! x
                          = slots f1 !! x) as Hne.
    { intros x Hx. cbn [hwrite upd slots]. by rewrite lookup_insert_ne. }
    assert (∀ x, x ∈ Ls ++ Lf →
              slots (hwrite (upd f1 cp (cpr' h1)) (set_head_empty cp h1)) !! x
              = slots f !! x) as HSF'.
    { intros x Hx. rewrite Hne; [by apply HSF|]. by intros ->. }
    split; [|split].
    - split.
      + apply (lists_close_gen f _ (hdr f) _ hs Ls Lf A B hd); try done.
        * cbn [hwrite flen upd]. lia.
        * intros x. cbn [hwrite upd slots]. rewrite lookup_insert_is_Some.
          rewrite Hdom. split; [intros [<-|[_ ?]]; [by exists cpr|done]|].
          intros Hx. destruct (decide (cp = x)); [by left|by right].
        * intros x s Hx Hs. rewrite Hne; [by apply HAB|].
          intros ->. apply elem_of_app in Hx as [?|?]; done.
        * exists (cpr' h1). cbn [hwrite upd slots]. rewrite lookup_insert_eq.
          split; [done|]. split; [done|]. unfold cpr'. simpl. congruence.
        * apply Hchain. intros x Hx. apply Hne.
          intros ->. apply elem_of_app in Hx as [?|?]; done.
      + simpl. by rewrite E5.
      + apply (trees_ext f _ Ls ts); [|by simpl|done].
        intros x s Hx Hs. exists s. rewrite HSF'; [done|]. apply elem_of_app. by left.
    - intros x Hx. apply HSF', elem_of_app. by left.
    - done. }
  destruct A as [|a0 A0] eqn:EA.
  - (* cp is the head of the list *)
    simpl in Hch. destruct Hch as (Hhead & _).
    set (h1 := set_head_cpr (next cpr) (hdr f)).
    exists (hwrite (upd f cp (cpr' h1)) (set_head_empty cp h1)), [], B.
    split.
    + unfold avl_file_close. rewrite (lread_ok _ _ _ Hf Hcs).
      cbn [mbind res_mbind res_bind]. rewrite Hhead, Z.eqb_refl.
      cbn [mbind res_mbind res_bind].
      by rewrite (lwrite_ok _ _ cpr _ Hf Hcs).
    + split; [done|]. apply Hgen; try done.
      * intros x s Hx Hs. by exists s.
      * intros f2 Hsame. simpl. eapply chain_ext; [|exact HchB]. done.
  - (* cp has a predecessor *)
    rewrite <- EA in *.
    assert (A ≠ []) as HAne by by rewrite EA.
    destruct (unlink_cpr_spec f cp (next cpr) B Hf A (head_cpr (hdr f)) fuel Hch HAne HcA)
      as (A' & p & pr & HA & Hp & Hnp & Hrun); [rewrite length_app in Hfc; lia|].
    assert (head_cpr (hdr f) ≠ cp) as Hhne.
    { rewrite EA in Hch. simpl in Hch. destruct Hch as (-> & _).
      intros ->. apply HcA. rewrite EA. by left. }
    assert (p ≠ cp) as Hpc.
    { intros ->. apply HcA. rewrite HA. apply elem_of_app. right. by left. }
    assert (p ∈ A ++ B) as HpAB.
    { rewrite HA. apply elem_of_app. left. apply elem_of_app. right. by left. }
    assert (p ∉ Ls ++ Lf) as HpSF.
    { intros [Hx|Hx]%elem_of_app.
      - eapply lists_disjoint_sc; [exact Hlo|exact Hx|].
        rewrite HA. rewrite !elem_of_app, !elem_of_cons. left. right. by left.
      - eapply lists_disjoint_fc; [exact Hlo|exact Hx|].
        rewrite HA. rewrite !elem_of_app, !elem_of_cons. left. right. by left. }
    set (f1 := upd f p (set_next (next cpr) pr)).
    assert (fwf f1) as Hf1.
    { apply (fwf_upd f p pr); [done|done|]. simpl. by eapply lo_nlen. }
    assert (slots f1 !! cp = Some cpr) as Hcs1.
    { unfold f1, upd. simpl. by rewrite lookup_insert_ne. }
    exists (hwrite (upd f1 cp (cpr' (hdr f))) (set_head_empty cp (hdr f))), A, B.
    split.
    + unfold avl_file_close. rewrite (lread_ok _ _ _ Hf Hcs).
      cbn [mbind res_mbind res_bind]. rewrite (proj2 (Z.eqb_neq _ _) Hhne), Hrun.
      cbn [mbind res_mbind res_bind].
      by rewrite (lwrite_ok _ _ cpr _ Hf1 Hcs1).
    + split; [done|]. apply Hgen; try done.
      * intros x. unfold f1, upd. simpl. rewrite lookup_insert_is_Some.
        split; [intros [<-|[_ ?]]; [by exists pr|done]|].
        intros Hx. destruct (decide (p = x)); [by left|by right].
      * intros x Hx. unfold f1, upd. simpl. rewrite lookup_insert_ne; [done|].
        by intros <-.
      * intros x s Hx Hs. unfold f1, upd. simpl.
        destruct (decide (p = x)) as [<-|Hne].
        -- rewrite lookup_insert_eq. exists (set_next (next cpr) pr).
           split; [done|]. assert (s = pr) as -> by congruence. done.
        -- rewrite lookup_insert_ne by done. by exists s.
      * intros f2 Hsame. rewrite HA, <- app_assoc. simpl.
        apply (chain_unlink f f2 cp cpr p (set_next (next cpr) pr) B Hcs A').
        -- rewrite HA, <- app_assoc in Hch. exact Hch.
        -- rewrite HA, <- app_assoc in HndC. exact HndC.
        -- intros x Hx. rewrite Hsame.
           ++ unfold f1, upd. simpl. rewrite lookup_insert_ne; [done|].
              intros <-. rewrite HA, <- app_assoc in HndC.
              apply NoDup_app in HndC as (_ & Hd & HB2).
              apply NoDup_cons in HB2 as [HB2 _].
              apply elem_of_app in Hx as [Hx|Hx].
              ** apply (Hd p Hx). by left.
              ** apply HB2. by right.
           ++ rewrite HA, <- app_assoc. simpl.
              apply elem_of_app in Hx as [Hx|Hx]; apply elem_of_app; [by left|].
              right. by right.
        -- rewrite Hsame by done. unfold f1, upd. simpl. by rewrite lookup_insert_eq.
        -- done.
Qed.

(** X18: close on a consistent file takes the current-pointer record of
    the handle out of its list and puts it at the head of the list of
    empty records; the file stays consistent for the other handles, and
    the tree records and NextNumber are as they were. *)
Theorem close_frees_cursor_record f hs Ls hd fuel :
  live (mk_sys f hs) Ls → hd ∈ hs → enough f fuel →
  ∃ f', avl_file_close fuel (h_cpr hd) f = Ok f' ∧
        live (mk_sys f' (filter (λ h0, h0 ≠ hd) hs)) Ls ∧
        head_empty (hdr f') = h_cpr hd ∧
        (∃ s, slots f' !! h_cpr hd = Some s ∧ next s = head_empty (hdr f)) ∧
        (∀ x, x ∈ Ls → slots f' !! x = slots f !! x) ∧
        nextnum (hdr f') = nextnum (hdr f).
Proof.
  intros (Lf & Lc & ts & Hinv) Hhd Hfu. simpl in Hinv.
  destruct (close_inv f hs Ls Lf Lc ts hd fuel Hinv Hhd Hfu)
    as (f' & A & B & Hrun & HLc & Hinv' & Hsame & Hnx).
  exists f'. split; [done|]. split; [by exists (h_cpr hd :: Lf), (A ++ B), ts|].
  pose proof (lo_empty _ _ _ _ _ _ (iw_lists _ _ _ _ _ _ Hinv')) as He.
  simpl in He. destruct He as (He & s & Hs & Hc).
  split; [done|]. split; [|done].
  exists s. split; [done|].
  pose proof (lo_empty _ _ _ _ _ _ (iw_lists _ _ _ _ _ _ Hinv)) as He0.
  rewrite (chain_hdz _ _ _ Hc). by rewrite (chain_hdz _ _ _ He0).
Qed.

(** ** avl_file_update *)

(** The tree with the payload [v] at the record [x]. *)
Fixpoint tset (x : Z) (v : data) (t : tree) : tree :=
  match t with
  | E => E
  | T l y bal d r => T (tset x v l) y bal (if decide (y = x) then v else d) (tset x v r)
  end.

Definition eset (x : Z) (v : data) (e : Z * data) : Z * data :=
  (e.1, if decide (e.1 = x) then v else e.2).

Lemma nodes_tset x v t : nodes (tset x v t) = nodes t.
Proof. induction t as [|l IHl y bal d r IHr]; simpl; [done|]. by rewrite IHl, IHr. Qed.

Lemma height_tset x v t : height (tset x v t) = height t.
Proof. induction t as [|l IHl y bal d r IHr]; simpl; [done|]. by rewrite IHl, IHr. Qed.

Lemma avl_tset x v t : avl t → avl (tset x v t).
Proof.
  induction t as [|l IHl y bal d r IHr]; simpl; [done|].
  rewrite !height_tset. intros (? & ? & ? & ?). auto.
Qed.

Lemma link_tset x v t thr : link (tset x v t) thr = link t thr.
Proof. by destruct t. Qed.

Lemma inord_tset x v t : inord (tset x v t) = eset x v <$> inord t.
Proof.
  induction t as [|l IHl y bal d r IHr]; simpl; [done|].
  by rewrite fmap_app, fmap_cons, IHl, IHr.
Qed.

Lemma repr_tset f k x s v :
  slots f !! x = Some s →
  ∀ t lo hi, repr (view f k) lo hi t →
             repr (view (upd f x (set_data v s)) k) lo hi (tset x v t).
Proof.
  intros Hs. induction t as [|l IHl y bal d r IHr]; intros lo hi; simpl; [done|].
  intros (Hv & Hl & Hr). rewrite !link_tset. split; [|split; [by apply IHl|by apply IHr]].
  destruct (decide (y = x)) as [->|Hne].
  - rewrite view_upd_eq.
    destruct (view_slot_eq _ _ _ _ _ _ Hs Hv) as [Hnk _].
    change (nk (set_data v s) k) with (nk s k). by rewrite Hnk.
  - by rewrite view_upd_ne.
Qed.

Lemma inord_payload f k lo hi t y d :
  repr (view f k) lo hi t → (y, d) ∈ inord t → ∃ s, slots f !! y = Some s ∧ b s = d.
Proof.
  revert lo hi. induction t as [|l IHl x bal dx r IHr]; intros lo hi; simpl.
  - intros _ Hin. by apply elem_of_nil in Hin.
  - intros (Hv & Hl & Hr) Hin.
    apply elem_of_app in Hin as [Hin|Hin]; [by eapply IHl|].
    apply elem_of_cons in Hin as [[= -> ->]|Hin]; [|by eapply IHr].
    apply view_Some in Hv as (s & Hs & _ & Hb). by exists s.
Qed.

(** A record may take a payload that compares equal under the key
    without leaving its place in the order. *)
Lemma sorted_tset f k x s v t lo hi :
  repr (view f k) lo hi t → slots f !! x = Some s →
  cmp (Z.of_nat k) v (b s) = 0 →
  sorted k t → sorted k (tset x v t).
Proof.
  intros Hr Hs Hc. rewrite !sorted_inord, inord_tset.
  assert (∀ e, e ∈ inord t → kle k (eset x v e).2 e.2 ∧ kle k e.2 (eset x v e).2) as Heq.
  { intros [y d] Hin. unfold eset. simpl. destruct (decide (y = x)) as [->|Hne].
    - simpl. destruct (inord_payload _ _ _ _ _ _ _ Hr Hin) as (s' & Hs' & <-).
      assert (s' = s) as -> by congruence. unfold kle.
      pose proof (cmp_eq_sym _ _ _ Hc). lia.
    - split; apply kle_refl. }
  induction (inord t) as [|e L IH]; [constructor|].
  intros Hso. apply StronglySorted_cons in Hso as (HeL & Hso).
  csimpl. apply StronglySorted_cons. split.
  - apply Forall_fmap. apply Forall_forall. intros e' He'. simpl. unfold kle2.
    destruct (Heq e ltac:(by left)) as [H1 _].
    destruct (Heq e' ltac:(by right)) as [_ H2].
    pose proof (proj1 (Forall_forall _ _) HeL e' He') as H3. unfold kle2 in H3.
    eapply kle_trans; [exact H1|]. by eapply kle_trans.
  - apply IH; [|done]. intros e' He'. apply Heq. by right.
Qed.

Lemma lists_set_data f h hs Ls Lf Lc x s v :
  lists_ok f h hs Ls Lf Lc → x ∈ Ls → slots f !! x = Some s →
  lists_ok (upd f x (set_data v s)) h hs Ls Lf Lc.
Proof.
  intros Hlo Hx Hs.
  assert (x ∉ Lc) as HxC by by eapply lists_disjoint_sc.
  assert (∀ y, is_Some (slots (upd f x (set_data v s)) !! y) ↔ is_Some (slots f !! y))
    as Hdom.
  { intros y. unfold upd. simpl. rewrite lookup_insert_is_Some.
    split; [intros [<-|[_ ?]]; [by exists s|done]|].
    intros Hy. destruct (decide (x = y)); [by left|by right]. }
  assert (∀ y r, slots f !! y = Some r →
            ∃ r', slots (upd f x (set_data v s)) !! y = Some r' ∧
                  next r' = next r ∧ prev r' = prev r ∧ n r' = n r ∧
                  (y ≠ x → r' = r)) as Hlk.
  { intros y r Hr. unfold upd. simpl. destruct (decide (x = y)) as [<-|Hne].
    - rewrite lookup_insert_eq. assert (r = s) as -> by congruence.
      by exists (set_data v s).
    - rewrite lookup_insert_ne by done. by exists r. }
  destruct Hlo as [H1 H2 H3 H4 H5 H6 H7 H8 H9 H10 H11 H12].
  split; try done.
  - destruct H4 as (N & HN & Hd). exists N. split; [done|].
    intros y. by rewrite Hdom.
  - intros y r' Hr'.
    destruct (proj1 (Hdom y) ltac:(by exists r')) as [r Hr].
    destruct (Hlk y r Hr) as (r'' & Hr'' & _ & _ & Hn & _).
    assert (r'' = r') as -> by congruence. rewrite Hn. by eapply H5.
  - eapply dchain_ext; [|done]. intros y r _ Hr.
    destruct (Hlk y r Hr) as (r' & ? & ? & ? & _). by exists r'.
  - eapply chain_next_ext; [|done]. intros y r _ Hr.
    destruct (Hlk y r Hr) as (r' & ? & ? & _). by exists r'.
  - eapply chain_next_ext; [|done]. intros y r _ Hr.
    destruct (Hlk y r Hr) as (r' & ? & ? & _). by exists r'.
  - intros y. by rewrite Hdom.
  - intros c r Hc Hr. apply (H11 c r); [done|].
    unfold upd in Hr. simpl in Hr. rewrite lookup_insert_ne in Hr; [done|].
    by intros ->.
  - destruct H12 as [Hnd Hall]. split; [done|]. intros hd Hhd.
    destruct (Hall hd Hhd) as [Hin Hpid]. split; [done|].
    intros Hfit r Hr. apply Hpid; [done|].
    unfold upd in Hr. simpl in Hr. rewrite lookup_insert_ne in Hr; [done|].
    by intros ->.
Qed.

Lemma inv_set_data f hs Ls Lf Lc ts x s v :
  inv_with f hs Ls Lf Lc ts → x ∈ Ls → slots f !! x = Some s →
  (∀ k, (k < n_keys)%nat → cmp (Z.of_nat k) v (b s) = 0) →
  inv_with (upd f x (set_data v s)) hs Ls Lf Lc (λ k, tset x v (ts k)).
Proof.
  intros [Hlo Hcnt Htr] Hx Hs Hc. split.
  - by apply lists_set_data.
  - done.
  - intros k Hk. destruct (Htr k Hk) as (Hr & Hroot & Hperm & Ha & Hso).
    split; [by apply repr_tset|]. split; [by rewrite link_tset|].
    split; [by rewrite nodes_tset|]. split; [by apply avl_tset|].
    eapply sorted_tset; try done. by apply Hc.
Qed.

(** The search from the root of the tree of key [k]. *)
Lemma path_start_spec f hs Ls Lf Lc ts k yb hit fuel :
  inv_with f hs Ls Lf Lc ts → (k < n_keys)%nat → enough f fuel →
  ∃ res, path_start fuel f (hdr f) k yb hit = Ok res ∧
         path_post f k yb hit (ts k) res.
Proof.
  intros Hinv Hk Hfu.
  pose proof (lists_fwf _ _ _ _ _ _ (iw_lists _ _ _ _ _ _ Hinv)) as Hf.
  pose proof (inv_order_length _ _ _ _ _ _ k Hinv Hk) as Hlen.
  pose proof (inv_size _ _ _ _ _ _ Hinv) as Hsz.
  destruct (iw_count _ _ _ _ _ _ Hinv) as [_ Hcnt].
  destruct (iw_trees _ _ _ _ _ _ Hinv k Hk) as (Hr & Hroot & Hperm & Ha & Hso).
  apply (path_search_spec f k yb hit Hf Hk fuel [] (ts k)).
  - unfold mu. simpl. rewrite Hlen. unfold enough in Hfu.
    rewrite Hsz, !length_app in Hfu. lia.
  - split; [done|]. split; [constructor|]. split; [by intros i g Hi|].
    split; [by rewrite fn_lookup_insert|].
    split; [split; [done|intros j Hj; simpl in Hj; lia]|].
    split; [constructor|]. split; [by intros x d r Hin; apply elem_of_nil in Hin|].
    split; [by apply sorted_inord|]. simpl. apply avl_height_bound; [done|].
    rewrite Hperm. done.
Qed.

Lemma all_keys_equal_spec yb r :
  all_keys_equal yb r = true ↔ ∀ k, (k < n_keys)%nat → cmp (Z.of_nat k) yb (b r) = 0.
Proof.
  unfold all_keys_equal. rewrite forallb_forall. split.
  - intros Hall k Hk. apply Z.eqb_eq, Hall. apply list_elem_of_In, elem_of_seq. lia.
  - intros Hall k Hin. apply list_elem_of_In, elem_of_seq in Hin.
    apply Z.eqb_eq, Hall. lia.
Qed.

(** update looks for a record that compares equal to the buffer under
    every key, and writes the buffer over its payload. *)
Lemma update_spec f hs Ls Lf Lc ts fuel buf :
  inv_with f hs Ls Lf Lc ts → (0 < n_keys)%nat → enough f fuel →
  (∃ y yr, y ∈ Ls ∧ slots f !! y = Some yr ∧ all_keys_equal buf yr = true ∧
           avl_file_update fuel f buf = Ok (0, upd f y (set_data buf yr)) ∧
           inv_with (upd f y (set_data buf yr)) hs Ls Lf Lc (λ k, tset y buf (ts k))) ∨
  ((∀ y yr, y ∈ Ls → slots f !! y = Some yr → all_keys_equal buf yr = false) ∧
   avl_file_update fuel f buf = Ok (-1, f)).
Proof.
  intros Hinv Hk Hfu.
  pose proof (lists_fwf _ _ _ _ _ _ (iw_lists _ _ _ _ _ _ Hinv)) as Hf.
  destruct (path_start_spec f hs Ls Lf Lc ts 0 buf (λ _ r, all_keys_equal buf r) fuel
              Hinv Hk Hfu) as (res & Hrun & Hpost).
  destruct (iw_trees _ _ _ _ _ _ Hinv 0%nat Hk) as (Hr & Hroot & Hperm & Ha & Hso).
  unfold avl_file_update. rewrite (proj2 (Nat.ltb_lt _ _) Hk), Hrun.
  cbn [mbind res_mbind res_bind].
  destruct res as [[[l pa] par]|].
  - left. destruct Hpost as (c' & sl & x & bal & d & sr & Hplug & Hl & Hpth & Hpa & Hs &
                             Hhit & Hc).
    destruct (Hf _ _ Hs) as (Hx & _).
    assert (x ∈ Ls) as HxL.
    { rewrite <- Hperm, <- Hplug. apply elem_of_nodes_plug. left. simpl.
      apply elem_of_app. right. by left. }
    exists x, (par l). split; [done|]. split; [done|]. split; [done|]. split.
    + rewrite Hpa. rewrite (proj2 (Z.eqb_neq _ _)) by lia.
      by rewrite (lwrite_ok _ _ (par l) _ Hf Hs).
    + apply inv_set_data; try done. by apply all_keys_equal_spec.
  - right. split; [|done]. intros y yr Hy Hs.
    destruct (all_keys_equal buf yr) eqn:Eh; [|done].
    assert (y ∈ nodes (ts 0%nat)) as Hin by by rewrite Hperm.
    rewrite nodes_inord in Hin. apply list_elem_of_fmap in Hin as ([y' d] & -> & Hin).
    destruct (inord_payload _ _ _ _ _ _ _ Hr Hin) as (s & Hs' & <-). simpl in Hs.
    assert (s = yr) as -> by congruence.
    rewrite <- (Hpost y' (b yr) yr Hin); [done| |done].
    by apply (proj1 (all_keys_equal_spec buf yr) Eh 0%nat).
Qed.


(** X20: when no tree record compares equal to the buffer under every
    key, update returns -1 and leaves the file as it is; so it does on
    a file without keys, where it does not search. *)
Theorem update_without_match f hs Ls fuel buf :
  live (mk_sys f hs) Ls → enough f fuel →
  (∀ y yr, y ∈ Ls → slots f !! y = Some yr →
           ∃ k, (k < n_keys)%nat ∧ cmp (Z.of_nat k) buf (b yr) ≠ 0) →
  avl_file_update fuel f buf = Ok (-1, f).
Proof.
  intros (Lf & Lc & ts & Hinv) Hfu Hnone. simpl in Hinv.
  destruct (Nat.ltb_spec 0 n_keys) as [Hk|Hk0].
  2:{ unfold avl_file_update. by rewrite (proj2 (Nat.ltb_ge 0 n_keys)) by lia. }
  destruct (update_spec f hs Ls Lf Lc ts fuel buf Hinv Hk Hfu)
    as [(y & yr & Hy & Hs & Hall & _)|[_ Hrun]]; [|done].
  destruct (Hnone y yr Hy Hs) as (k & Hkn & Hne).
  by destruct Hne; apply (proj1 (all_keys_equal_spec buf yr) Hall k).
Qed.

(** ** Deletion on trees

    What delete does to the tree of one key once the record is out of
    its place: a subtree [x] that is one level lower than before stands
    in the hole of the path [c]; going up the path, the balance of every
    node is adjusted, a node of balance 2 or -2 is rotated, and the walk
    ends at the first subtree that keeps its height. *)
Definition shrink (g : frame) : frame := set_fbal (fbal g - dsign (fdir g)) g.

(** The rotations of delete at a node of balance 2 or -2. *)
Definition reb_rot (s : tree) : tree :=
  match s with
  | E => E
  | T l a ab ad r =>
      if ab =? 2 then
        match l with
        | T bl b_ bb bd brt =>
            if (bb =? 0) || (bb =? 1) then
              if bb =? 0 then T bl b_ (-1) bd (T brt a 1 ad r)
              else T bl b_ 0 bd (T brt a 0 ad r)
            else dbl_left a ab ad l r
        | E => s
        end
      else if ab =? -2 then
        match r with
        | T bl b_ bb bd brt =>
            if (bb =? 0) || (bb =? -1) then
              if bb =? 0 then T (T l a (-1) ad bl) b_ 1 bd brt
              else T (T l a 0 ad bl) b_ 0 bd brt
            else dbl_right a ab ad r l
        | E => s
        end
      else s
  end.

Fixpoint del_hole (c : list frame) (x : tree) : tree :=
  match c with
  | [] => x
  | g :: c' =>
      let s := reb_rot (fill (shrink g) x) in
      if root_bal s =? 0 then del_hole c' s else plug c' s
  end.

(** The shape that the rotations of delete rely on. *)
Definition reb_shape (s : tree) : Prop :=
  match s with
  | E => True
  | T l a ab ad r =>
      (ab = 2 → match l with
                | T bl b_ bb bd brt => bb ≠ 0 → bb ≠ 1 → is_T brt = true
                | E => False
                end) ∧
      (ab = -2 → match r with
                 | T bl b_ bb bd brt => bb ≠ 0 → bb ≠ -1 → is_T bl = true
                 | E => False
                 end)
  end.

Lemma inord_fill_shrink g x : inord (fill (shrink g) x) = inord (fill g x).
Proof. by destruct g as [[] ? ? ? ?]. Qed.

Ltac bal_cases v :=
  let E1 := fresh "E1" in let E2 := fresh "E2" in let E3 := fresh "E3" in
  destruct (v =? 1) eqn:E1; [apply Z.eqb_eq in E1|apply Z.eqb_neq in E1;
    destruct (v =? -1) eqn:E2; [apply Z.eqb_eq in E2|apply Z.eqb_neq in E2;
      destruct (v =? 0) eqn:E3; [apply Z.eqb_eq in E3|apply Z.eqb_neq in E3]]].

(** A node one of whose subtrees has lost a level: after the adjustment
    of its balance and the rotation it is balanced again; it has lost a
    level itself exactly when its balance is 0. *)
Lemma reb_rot_ok g x0 x :
  avl (fill g x0) → avl x → height x = height x0 - 1 →
  avl (reb_rot (fill (shrink g) x)) ∧
  inord (reb_rot (fill (shrink g) x)) = inord (fill g x) ∧
  height (reb_rot (fill (shrink g) x)) =
    height (fill g x0) - (if root_bal (reb_rot (fill (shrink g) x)) =? 0 then 1 else 0) ∧
  reb_shape (fill (shrink g) x) ∧
  -2 ≤ root_bal (fill (shrink g) x) ≤ 2.
Proof.
  intros Ha Hx Hh.
  pose proof (height_nonneg x). pose proof (height_nonneg x0).
  pose proof (height_nonneg (fsib g)).
  unfold fill, shrink in *. destruct g as [[] a ab ad sib]; simpl in *.
  - destruct Ha as (Hab & Hb1 & Hx0 & Hsib).
    destruct (ab - 1 =? 2) eqn:E2; [apply Z.eqb_eq in E2; lia|].
    destruct (ab - 1 =? -2) eqn:Em2.
    + apply Z.eqb_eq in Em2.
      destruct sib as [|bl b_ bb bd brt]; [simpl in *; lia|].
      pose proof (height_nonneg bl). pose proof (height_nonneg brt).
      simpl in Hsib. destruct Hsib as (Hbb & Hbb1 & Hbl & Hbrt).
      destruct (bb =? 0) eqn:Eb0; [apply Z.eqb_eq in Eb0|apply Z.eqb_neq in Eb0].
      * simpl in *. repeat split; try tauto; try lia.
        by rewrite <- !app_assoc.
      * destruct (bb =? -1) eqn:Eb1; [apply Z.eqb_eq in Eb1|apply Z.eqb_neq in Eb1].
        -- simpl in *. repeat split; try tauto; try lia.
           by rewrite <- !app_assoc.
        -- cbn [orb]. unfold dbl_right.
           destruct bl as [|cl c cb cd cr]; [simpl in *; lia|].
           pose proof (height_nonneg cl). pose proof (height_nonneg cr).
           simpl in Hbl. destruct Hbl as (Hcb & Hcb1 & Hcl & Hcr).
           unfold dbl_right_bals.
           bal_cases cb; simpl in *; repeat split; try tauto; try lia;
             by repeat (rewrite <- ?app_assoc; simpl).
    + apply Z.eqb_neq in Em2. simpl.
      destruct (ab - 1 =? 0) eqn:E0; [apply Z.eqb_eq in E0|apply Z.eqb_neq in E0];
        repeat split; try tauto; lia.
  - destruct Ha as (Hab & Hb1 & Hsib & Hx0).
    destruct (ab - -1 =? 2) eqn:E2.
    + apply Z.eqb_eq in E2.
      destruct sib as [|bl b_ bb bd brt]; [simpl in *; lia|].
      pose proof (height_nonneg bl). pose proof (height_nonneg brt).
      simpl in Hsib. destruct Hsib as (Hbb & Hbb1 & Hbl & Hbrt).
      destruct (bb =? 0) eqn:Eb0; [apply Z.eqb_eq in Eb0|apply Z.eqb_neq in Eb0].
      * simpl in *. repeat split; try tauto; try lia.
        by rewrite <- !app_assoc.
      * destruct (bb =? 1) eqn:Eb1; [apply Z.eqb_eq in Eb1|apply Z.eqb_neq in Eb1].
        -- simpl in *. repeat split; try tauto; try lia.
           by rewrite <- !app_assoc.
        -- cbn [orb]. unfold dbl_left.
           destruct brt as [|cl c cb cd cr]; [simpl in *; lia|].
           pose proof (height_nonneg cl). pose proof (height_nonneg cr).
           simpl in Hbrt. destruct Hbrt as (Hcb & Hcb1 & Hcl & Hcr).
           unfold dbl_left_bals.
           bal_cases cb; simpl in *; repeat split; try tauto; try lia;
             by repeat (rewrite <- ?app_assoc; simpl).
    + apply Z.eqb_neq in E2.
      destruct (ab - -1 =? -2) eqn:Em2; [apply Z.eqb_eq in Em2; lia|].
      simpl.
      destruct (ab - -1 =? 0) eqn:E0; [apply Z.eqb_eq in E0|apply Z.eqb_neq in E0];
        repeat split; try tauto; lia.
Qed.

Lemma del_hole_ok c : ∀ x0 x,
  avl (plug c x0) → avl x → height x = height x0 - 1 →
  avl (del_hole c x) ∧ inord (del_hole c x) = inord (plug c x).
Proof.
  induction c as [|g c IH]; intros x0 x Ha Hx Hh; simpl; [done|].
  simpl in Ha. pose proof (avl_plug_inv _ _ Ha) as Hg.
  destruct (reb_rot_ok g x0 x Hg Hx Hh) as (Hs & Hin & Hhs & _).
  destruct (root_bal (reb_rot (fill (shrink g) x)) =? 0) eqn:E0.
  - destruct (IH (fill g x0) (reb_rot (fill (shrink g) x)) Ha Hs Hhs) as (Ha' & Hin').
    split; [done|]. by rewrite Hin', !inord_plug, Hin.
  - rewrite Z.sub_0_r in Hhs.
    destruct (avl_plug_replace c _ _ Ha Hs Hhs) as (Ha' & _).
    split; [done|]. by rewrite !inord_plug, Hin.
Qed.

(** ** The rotations of delete on the file *)

Lemma reb_rot_left_spec k f a ar lo hi bl b_ bb bd brt ad sib :
  fwf f → (k < n_keys)%nat → 0 ≤ lo → 0 ≤ hi →
  repr (view f k) lo hi (T (T bl b_ bb bd brt) a 2 ad sib) →
  NoDup (nodes (T (T bl b_ bb bd brt) a 2 ad sib)) →
  slots f !! a = Some ar →
  (bb ≠ 0 → bb ≠ 1 → is_T brt = true) →
  ∃ f' cr',
    reb_rot_left k f a ar
      = Ok (f', link (reb_rot (T (T bl b_ bb bd brt) a 2 ad sib)) 0, cr') ∧
    slots f' !! link (reb_rot (T (T bl b_ bb bd brt) a 2 ad sib)) 0 = Some cr' ∧
    repr (view f' k) lo hi (reb_rot (T (T bl b_ bb bd brt) a 2 ad sib)) ∧
    fframe k (nodes (T (T bl b_ bb bd brt) a 2 ad sib)) f f' ∧ fwf f'.
Proof.
  intros Hf Hk Hlo Hhi Hr Hnd Ha Hsh.
  pose proof Hr as Hr0.
  simpl in Hr. destruct Hr as (Hva & (Hvb & Hbl & Hbrt) & Hsib).
  destruct (view_slot_eq _ _ _ _ _ _ Ha Hva) as (Hna & Hda).
  apply (view_slot _ _ _ _ _ Hf) in Hvb as (br & Hb & Hrb & Hnb & Hdb & Hbpos).
  assert (0 < a) as Hapos by (by destruct (Hf _ _ Ha)).
  assert (a ≠ b_) as Hab by (clear -Hnd; nd_ne Hnd).
  pose proof (fwf_len _ _ _ _ Hf Ha Hk) as Hla.
  pose proof (fwf_len _ _ _ _ Hf Hb Hk) as Hlb.
  unfold reb_rot_left, reb_rot. rewrite Hna. cbn [nl]. change (2 =? 2) with true.
  cbn iota. rewrite Hrb. cbn [mbind res_mbind res_bind]. rewrite Hnb. cbn [nb nl nr].
  destruct ((bb =? 0) || (bb =? 1)) eqn:Ebb.
  - rewrite (relink (λ v, set_kl k v ar) f k b_ a brt a b_) by (done || lia).
    nk_norm. rewrite Hnb. cbn [set_r nb].
    set (bv := if bb =? 0 then (1, -1) else (0, 0)).
    assert ((if bb =? 0
             then (set_kb k 1 (set_kl k (link brt b_) ar), set_kb k (-1) (set_kr k a br))
             else (set_kb k 0 (set_kl k (link brt b_) ar), set_kb k 0 (set_kr k a br)))
            = (set_kb k bv.1 (set_kl k (link brt b_) ar),
               set_kb k bv.2 (set_kr k a br))) as ->.
    { unfold bv. by destruct (bb =? 0). }
    set (ar' := set_kb k bv.1 (set_kl k (link brt b_) ar)).
    set (br' := set_kb k bv.2 (set_kr k a br)).
    destruct (rmw k [a; b_] f a ar ar') as (Hw1 & Hff1 & Hf1 & Hs1 & Hv1);
      [done|done|by apply eqv_set_kb, eqv_set_kl, eqv_refl|by left|].
    rewrite Hw1. cbn [mbind res_mbind res_bind].
    destruct (rmw k [a; b_] (upd f a ar') b_ br br') as (Hw2 & Hff2 & Hf2 & Hs2 & Hv2);
      [done|by rewrite upd_lookup_ne|by apply eqv_set_kb, eqv_set_kr, eqv_refl
      |by right; left|].
    rewrite Hw2. cbn [mbind res_mbind res_bind].
    assert (reb_rot_single :
      (if bb =? 0 then T bl b_ (-1) bd (T brt a 1 ad sib)
       else T bl b_ 0 bd (T brt a 0 ad sib))
      = T bl b_ bv.2 bd (T brt a bv.1 ad sib)).
    { unfold bv. by destruct (bb =? 0). }
    rewrite reb_rot_single. cbn [link].
    eexists _, _. split; [done|]. split; [done|]. split; [|split; [|done]].
    2:{ eapply fframe_mono; [|eapply fframe_trans; [exact Hff1|exact Hff2]].
        sub_nodes. }
    simpl. repeat split.
    + rewrite Hv2. unfold br'. nk_norm. rewrite Hnb. by rewrite Hdb.
    + eapply repr_ext; [|exact Hbl]. nd_ext Hnd.
    + rewrite view_upd_ne, Hv1 by done. unfold ar'. nk_norm. rewrite Hna. by rewrite Hda.
    + eapply repr_ext; [|exact Hbrt]. nd_ext Hnd.
    + eapply repr_ext; [|exact Hsib]. nd_ext Hnd.
  - apply orb_false_iff in Ebb as [E0 E1].
    apply Z.eqb_neq in E0. apply Z.eqb_neq in E1. specialize (Hsh E0 E1).
    destruct brt as [|cl c cb cd cr]; [done|].
    destruct (rot_double_left_spec k f a ar b_ br lo hi bl bb bd cl c cb cd cr 2 ad sib)
      as (f' & cr' & Hrun & Hc' & Hr' & Hff & Hf'); try done.
    rewrite Hrun.
    assert (link (dbl_left a 2 ad (T bl b_ bb bd (T cl c cb cd cr)) sib) 0 = c) as Hlk.
    { unfold dbl_left. by destruct (dbl_left_bals cb 2 bb). }
    rewrite Hlk.
    eexists _, _. split; [done|]. split; [done|]. split; [done|]. split; [|done].
    eapply fframe_mono; [|exact Hff]. sub_nodes.
Qed.

Lemma reb_rot_right_spec k f a ar lo hi bl b_ bb bd brt ad sib :
  fwf f → (k < n_keys)%nat → 0 ≤ lo → 0 ≤ hi →
  repr (view f k) lo hi (T sib a (-2) ad (T bl b_ bb bd brt)) →
  NoDup (nodes (T sib a (-2) ad (T bl b_ bb bd brt))) →
  slots f !! a = Some ar →
  (bb ≠ 0 → bb ≠ -1 → is_T bl = true) →
  ∃ f' cr',
    reb_rot_right k f a ar
      = Ok (f', link (reb_rot (T sib a (-2) ad (T bl b_ bb bd brt))) 0, cr') ∧
    slots f' !! link (reb_rot (T sib a (-2) ad (T bl b_ bb bd brt))) 0 = Some cr' ∧
    repr (view f' k) lo hi (reb_rot (T sib a (-2) ad (T bl b_ bb bd brt))) ∧
    fframe k (nodes (T sib a (-2) ad (T bl b_ bb bd brt))) f f' ∧ fwf f'.
Proof.
  intros Hf Hk Hlo Hhi Hr Hnd Ha Hsh.
  pose proof Hr as Hr0.
  simpl in Hr. destruct Hr as (Hva & Hsib & Hvb & Hbl & Hbrt).
  destruct (view_slot_eq _ _ _ _ _ _ Ha Hva) as (Hna & Hda).
  apply (view_slot _ _ _ _ _ Hf) in Hvb as (br & Hb & Hrb & Hnb & Hdb & Hbpos).
  assert (0 < a) as Hapos by (by destruct (Hf _ _ Ha)).
  assert (a ≠ b_) as Hab by (clear -Hnd; nd_ne Hnd).
  pose proof (fwf_len _ _ _ _ Hf Ha Hk) as Hla.
  pose proof (fwf_len _ _ _ _ Hf Hb Hk) as Hlb.
  unfold reb_rot_right, reb_rot. rewrite Hna. cbn [nr].
  change (-2 =? 2) with false. change (-2 =? -2) with true.
  cbn iota. rewrite Hrb. cbn [mbind res_mbind res_bind]. rewrite Hnb. cbn [nb nl nr].
  destruct ((bb =? 0) || (bb =? -1)) eqn:Ebb.
  - rewrite (relink (λ v, set_kr k v ar) f k a b_ bl a b_) by (done || lia).
    nk_norm. rewrite Hnb. cbn [set_l nb].
    set (bv := if bb =? 0 then (-1, 1) else (0, 0)).
    assert ((if bb =? 0
             then (set_kb k (-1) (set_kr k (link bl b_) ar), set_kb k 1 (set_kl k a br))
             else (set_kb k 0 (set_kr k (link bl b_) ar), set_kb k 0 (set_kl k a br)))
            = (set_kb k bv.1 (set_kr k (link bl b_) ar),
               set_kb k bv.2 (set_kl k a br))) as ->.
    { unfold bv. by destruct (bb =? 0). }
    set (ar' := set_kb k bv.1 (set_kr k (link bl b_) ar)).
    set (br' := set_kb k bv.2 (set_kl k a br)).
    destruct (rmw k [a; b_] f a ar ar') as (Hw1 & Hff1 & Hf1 & Hs1 & Hv1);
      [done|done|by apply eqv_set_kb, eqv_set_kr, eqv_refl|by left|].
    rewrite Hw1. cbn [mbind res_mbind res_bind].
    destruct (rmw k [a; b_] (upd f a ar') b_ br br') as (Hw2 & Hff2 & Hf2 & Hs2 & Hv2);
      [done|by rewrite upd_lookup_ne|by apply eqv_set_kb, eqv_set_kl, eqv_refl
      |by right; left|].
    rewrite Hw2. cbn [mbind res_mbind res_bind].
    assert (reb_rot_single :
      (if bb =? 0 then T (T sib a (-1) ad bl) b_ 1 bd brt
       else T (T sib a 0 ad bl) b_ 0 bd brt)
      = T (T sib a bv.1 ad bl) b_ bv.2 bd brt).
    { unfold bv. by destruct (bb =? 0). }
    rewrite reb_rot_single. cbn [link].
    eexists _, _. split; [done|]. split; [done|]. split; [|split; [|done]].
    2:{ eapply fframe_mono; [|eapply fframe_trans; [exact Hff1|exact Hff2]].
        sub_nodes. }
    simpl. repeat split.
    + rewrite Hv2. unfold br'. nk_norm. rewrite Hnb. by rewrite Hdb.
    + rewrite view_upd_ne, Hv1 by done. unfold ar'. nk_norm. rewrite Hna. by rewrite Hda.
    + eapply repr_ext; [|exact Hsib]. nd_ext Hnd.
    + eapply repr_ext; [|exact Hbl]. nd_ext Hnd.
    + eapply repr_ext; [|exact Hbrt]. nd_ext Hnd.
  - apply orb_false_iff in Ebb as [E0 E1].
    apply Z.eqb_neq in E0. apply Z.eqb_neq in E1. specialize (Hsh E0 E1).
    destruct bl as [|cl c cb cd cr]; [done|].
    destruct (rot_double_right_spec k f a ar b_ br lo hi brt bb bd cl c cb cd cr (-2) ad sib)
      as (f' & cr' & Hrun & Hc' & Hr' & Hff & Hf'); try done.
    rewrite Hrun.
    assert (link (dbl_right a (-2) ad (T (T cl c cb cd cr) b_ bb bd brt) sib) 0 = c) as Hlk.
    { unfold dbl_right. by destruct (dbl_right_bals cb (-2) bb). }
    rewrite Hlk.
    eexists _, _. split; [done|]. split; [done|]. split; [done|]. split; [|done].
    eapply fframe_mono; [|exact Hff]. sub_nodes.
Qed.

(** ** The way back up the path of delete on the file *)

Definition reb (c : list frame) (s : tree) : tree :=
  if root_bal (reb_rot s) =? 0 then del_hole c (reb_rot s) else plug c (reb_rot s).

Lemma del_hole_cons g c x : del_hole (g :: c) x = reb c (fill (shrink g) x).
Proof. done. Qed.

Lemma wrap8_small x : -128 ≤ x < 128 → wrap8 x = x.
Proof. intros Hx. unfold wrap8. rewrite Z.mod_small by lia. lia. Qed.

Lemma roots_changed_mono ks ks' h h' :
  ks ⊆ ks' → roots_changed ks h h' → roots_changed ks' h h'.
Proof.
  intros Hsub (Hh & Hl & Hr). split; [done|]. split; [done|].
  intros j Hj. apply Hr. intros Hin. by apply Hj, Hsub.
Qed.

Lemma roots_changed_trans ks h1 h2 h3 :
  roots_changed ks h1 h2 → roots_changed ks h2 h3 → roots_changed ks h1 h3.
Proof.
  intros (Hh & Hl & Hr) (Hh' & Hl' & Hr'). split; [|split].
  - rewrite Hh', Hh at 1. done.
  - congruence.
  - intros j Hj. rewrite Hr', Hr by done. done.
Qed.

Lemma roots_changed_one k v h : roots_changed [k] h (set_root k v h).
Proof.
  apply (roots_changed_mono [k; k]); [set_solver|].
  apply (roots_changed_set_root k v [k] h), roots_changed_refl.
Qed.

Lemma pth_file f f' c pa par :
  pth f c pa par → (∀ x, x ∈ cnodes c → slots f' !! x = slots f !! x) →
  pth f' c pa par.
Proof.
  intros Hp Hsame i g Hi. destruct (Hp i g Hi) as [H1 H2]. split; [done|].
  rewrite Hsame; [done|]. apply fx_cnodes, list_elem_of_fmap. exists g. split; [done|].
  by eapply list_elem_of_lookup_2.
Qed.

Lemma pth_set_fbal f v g c pa par : pth f (g :: c) pa par → pth f (set_fbal v g :: c) pa par.
Proof.
  intros Hp [|i] g' Hi; simpl in Hi.
  - injection Hi as <-. by apply (Hp 0%nat g).
  - by apply (Hp (S i) g').
Qed.

Lemma nodes_plug_set_fbal v g c s :
  nodes (plug (set_fbal v g :: c) s) ≡ₚ nodes (plug (g :: c) s).
Proof. by rewrite !nodes_plug. Qed.

(** The parent of the node [a] in the hole of [g :: c], seen from its
    record: which of its child fields is [a]. *)
Lemma parent_side g c a sib_link :
  0 < a → sib_link = link (fsib g) (cbounds c).1 →
  (fdir g = R → a ≠ sib_link) →
  (nl (fnode g c a) =? a) = match fdir g with L => true | R => false end ∧
  (nr (fnode g c a) =? a) = match fdir g with L => (link (fsib g) (cbounds c).2 =? a) | R => true end.
Proof.
  intros Ha -> Hne. unfold fnode. destruct (fdir g); cbn [nl nr].
  - by rewrite Z.eqb_refl.
  - rewrite Z.eqb_refl. split; [|done]. apply Z.eqb_neq. intros Heq. by apply Hne.
Qed.

Lemma shrink_code k g c a pm :
  (k < length (n pm))%nat → nk pm k = fnode g c a → 0 < a →
  (fdir g = R → a ≠ link (fsib g) (cbounds c).1) →
  -1 ≤ fbal g ≤ 1 →
  (if nl (nk pm k) =? a then set_kb k (wrap8 (nb (nk pm k) - 1)) pm
   else if nr (nk pm k) =? a then set_kb k (wrap8 (nb (nk pm k) + 1)) pm
   else pm) = set_kb k (fbal (shrink g)) pm.
Proof.
  intros Hl Hn Ha Hne Hb. rewrite Hn.
  destruct (parent_side g c a _ Ha eq_refl Hne) as [-> ->].
  rewrite nb_fnode. unfold shrink. destruct g as [[] x bal d sib]; simpl in *.
  - by rewrite wrap8_small by lia.
  - rewrite wrap8_small by lia. f_equal; lia.
Qed.

Lemma relink_code k g c a a' pm :
  (k < length (n pm))%nat → nk pm k = fnode g c a → 0 < a →
  (fdir g = R → a ≠ link (fsib g) (cbounds c).1) →
  let pm' := if nl (nk pm k) =? a then set_kl k a' pm
             else if nr (nk pm k) =? a then set_kr k a' pm
             else pm in
  nk pm' k = fnode g c a' ∧ eqv k pm pm'.
Proof.
  intros Hl Hn Ha Hne. simpl. rewrite Hn.
  destruct (parent_side g c a _ Ha eq_refl Hne) as [-> ->].
  unfold fnode in *. destruct (fdir g).
  - nk_norm. rewrite Hn. split; [done|apply eqv_set_nk].
  - nk_norm. rewrite Hn. split; [done|apply eqv_set_nk].
Qed.

(** The node in the hole is not the other child of its parent. *)
Lemma hole_not_sib g c s x :
  cpos (g :: c) → NoDup (nodes (plug (g :: c) s)) → x ∈ nodes s → 0 < x →
  ∀ thr, 0 ≤ thr → x ≠ link (fsib g) thr.
Proof.
  intros Hpos Hnd Hx Hx0 thr Hthr Heq.
  pose proof (nodup_plug_cons _ _ _ Hnd) as (_ & _ & _ & _ & _ & _ & Hd & _).
  destruct (fsib g) as [|sl sx sb sd sr] eqn:Es; simpl in Heq; [lia|].
  destruct (Hd x Hx) as [Hns _]. apply Hns. simpl. rewrite Heq.
  apply elem_of_app. right. by left.
Qed.

(** After the subtree in the hole has been replaced by one with another
    root, the parent is made to point to the new root. *)
Lemma relink_parent_spec k f g c s s' fr :
  fwf f → (k < n_keys)%nat → cpos (g :: c) →
  crepr (view f k) (g :: c) (link s 0) → is_T s = true → 0 < link s 0 →
  link s 0 ∈ nodes s →
  NoDup (nodes (plug (g :: c) s)) → nodes s' ≡ₚ nodes s → is_T s' = true →
  repr (view f k) (cbounds (g :: c)).1 (cbounds (g :: c)).2 s' →
  slots f !! fx g = Some fr →
  let fr' := if nl (nk fr k) =? link s 0 then set_kl k (link s' 0) fr
             else if nr (nk fr k) =? link s 0 then set_kr k (link s' 0) fr
             else fr in
  lwrite f (fx g) fr' = Ok (upd f (fx g) fr') ∧
  repr (view (upd f (fx g) fr') k) 0 0 (plug (g :: c) s') ∧
  fframe k [fx g] f (upd f (fx g) fr') ∧ fwf (upd f (fx g) fr').
Proof.
  intros Hf Hk Hpos Hc HT Ha Hain Hnd Hperm HT' Hs' Hfr. cbv zeta.
  inversion Hpos as [|? ? Hgpos Hcpos]; subst.
  pose proof (cbounds_nonneg _ Hcpos) as [Hlo Hhi].
  pose proof (nodup_plug_cons _ _ _ Hnd) as (Hn1 & Hn2 & Hn3 & Hn4 & Hn5 & Hn6 & Hn7 & Hn8).
  simpl in Hc. destruct Hc as (Hx & Hsib & Hc).
  destruct (view_slot_eq _ _ _ _ _ _ Hfr Hx) as (Hnf & Hdf).
  pose proof (fwf_len _ _ _ _ Hf Hfr Hk) as Hlf.
  destruct (relink_code k g c (link s 0) (link s' 0) fr Hlf Hnf Ha) as [Hnf' Heqv].
  { intros _. by apply (hole_not_sib g c s). }
  set (fr' := if nl (nk fr k) =? link s 0 then set_kl k (link s' 0) fr
              else if nr (nk fr k) =? link s 0 then set_kr k (link s' 0) fr
              else fr) in *.
  destruct (rmw k [fx g] f (fx g) fr fr') as (Hw & Hff & Hf1 & Hs1 & Hv1);
    [done|done|done|by left|].
  split; [done|]. split; [|done].
  apply repr_plug. split.
  - simpl. split; [|split].
    + rewrite Hv1, Hnf', Hdf. do 3 f_equal. unfold hlink. by apply link_is_T.
    + unfold frepr in *. destruct (fdir g);
        (eapply repr_ext; [|exact Hsib]); intros x Hx';
        apply view_upd_ne; by intros <-.
    + eapply crepr_ext; [|exact Hc]. intros x Hx'.
      apply view_upd_ne. by intros <-.
  - eapply repr_ext; [|exact Hs']. intros x Hx'.
    apply view_upd_ne. intros <-. apply Hn1. by rewrite <- Hperm.
Qed.

Lemma reb_rot_settled s : -1 ≤ root_bal s ≤ 1 → reb_rot s = s.
Proof.
  destruct s as [|l a ab ad r]; [done|]. simpl. intros Hb.
  rewrite (proj2 (Z.eqb_neq _ _)) by lia. by rewrite (proj2 (Z.eqb_neq _ _)) by lia.
Qed.

(** What the loop of [del_rebalance] does from the node in the hole of
    the path [c] on, whose balance has been adjusted; [rot] tells
    whether the node may still have to be rotated. *)
Definition reb_spec (k : nat) (rot : bool) (c : list frame) : Prop :=
  ∀ s f h pa par fuel,
    fwf f → (k < length (root h))%nat → cpos c → is_T s = true →
    repr (view f k) 0 0 (plug c s) →
    NoDup (nodes (plug c s)) →
    pth f c pa par →
    pa (Z.of_nat (length c)) = link s 0 →
    slots f !! link s 0 = Some (par (Z.of_nat (length c))) →
    root_k h k = link (plug c s) 0 →
    reb_shape s → -2 ≤ root_bal s ≤ 2 →
    avl (reb_rot s) → nodes (reb_rot s) ≡ₚ nodes s →
    (root_bal (reb_rot s) = 0 →
     ∃ x0, avl (plug c x0) ∧ height (reb_rot s) = height x0 - 1) →
    (rot = false → -1 ≤ root_bal s ≤ 1) →
    (2 * length c + (if rot then 2 else 1) < fuel)%nat →
    ∃ f' h',
      del_rebalance fuel k f h (Z.of_nat (length c)) pa par = Ok (f', h') ∧
      roots_changed [k] h h' ∧ root_k h' k = link (reb c s) 0 ∧
      repr (view f' k) 0 0 (reb c s) ∧
      fframe k (nodes (plug c s)) f f' ∧ fwf f'.

Lemma reb_node f k c s ar :
  repr (view f k) 0 0 (plug c s) → is_T s = true → slots f !! link s 0 = Some ar →
  nb (nk ar k) = root_bal s.
Proof.
  intros Hr HT Hs. apply repr_plug in Hr as (_ & Hr).
  destruct s as [|l a ab ad r]; [done|]. simpl in *. destruct Hr as (Hv & _).
  by destruct (view_slot_eq _ _ _ _ _ _ Hs Hv) as [-> _].
Qed.

Lemma reb_spec_settled_nil k : (k < n_keys)%nat → reb_spec k false [].
Proof.
  intros Hk s f h pa par fuel Hf Hkr Hpos HT Hr Hnd Hp Hpa Hs Hroot Hsh Hrg Ha Hperm Hx0
    Hset Hfu.
  specialize (Hset eq_refl). rewrite (reb_rot_settled s Hset) in *.
  pose proof (reb_node f k [] s _ Hr HT Hs) as Hnb.
  destruct fuel as [|[|fuel]]; [simpl in Hfu; lia..|].
  cbn [length Z.of_nat] in *.
  cbn [del_rebalance]. change (0 <? 0) with false. cbn iota. cbv zeta. rewrite Hnb.
  unfold reb. rewrite (reb_rot_settled s Hset).
  destruct ((root_bal s =? 1) || (root_bal s =? -1)) eqn:E1.
  - exists f, h. split; [done|]. split; [apply roots_changed_refl|].
    rewrite (proj2 (Z.eqb_neq _ _)) by (apply orb_true_iff in E1 as [?%Z.eqb_eq|?%Z.eqb_eq]; lia).
    simpl. split; [done|]. split; [done|]. split; [apply fframe_refl|done].
  - apply orb_false_iff in E1 as [E1 E2]. apply Z.eqb_neq in E1, E2.
    assert (root_bal s = 0) as E0 by lia. rewrite E0. cbn [Z.eqb].
    cbn [mbind res_mbind res_bind]. change (0 - 1 <? 0) with true. cbn iota.
    exists f, h. split; [done|]. split; [apply roots_changed_refl|].
    simpl. split; [done|]. split; [done|]. split; [apply fframe_refl|done].
Qed.

Lemma avl_fill_bal g x : avl (fill g x) → -1 ≤ fbal g ≤ 1.
Proof. unfold fill. destruct (fdir g); simpl; tauto. Qed.

Lemma is_T_fill g x : is_T (fill g x) = true.
Proof. unfold fill. by destruct (fdir g). Qed.

Lemma link_fill g x thr : link (fill g x) thr = fx g.
Proof. unfold fill. by destruct (fdir g). Qed.

Lemma pth_head f g c pa par :
  pth f (g :: c) pa par →
  pa (Z.of_nat (length c)) = fx g ∧ slots f !! fx g = Some (par (Z.of_nat (length c))).
Proof.
  intros Hp. destruct (Hp 0%nat g eq_refl) as [H1 H2].
  replace (length (g :: c) - 1 - 0)%nat with (length c) in * by (simpl; lia). done.
Qed.

Lemma pth_tail f f' g c pa par pm :
  pth f (g :: c) pa par → NoDup (fx g :: cnodes c) →
  (∀ x, x ≠ fx g → slots f' !! x = slots f !! x) →
  pth f' c pa (<[Z.of_nat (length c) := pm]> par).
Proof.
  intros Hp Hnd Hsame i g' Hi.
  destruct (Hp (S i) g' Hi) as [H1 H2].
  pose proof (lookup_lt_Some _ _ _ Hi) as Hlt.
  replace (length (g :: c) - 1 - S i)%nat with (length c - 1 - i)%nat in * by (simpl; lia).
  split; [done|]. rewrite fn_lookup_insert_ne by lia.
  rewrite Hsame; [done|]. intros Heq. apply NoDup_cons in Hnd as [Hn _]. apply Hn.
  rewrite <- Heq. apply fx_cnodes, list_elem_of_fmap. exists g'. split; [done|].
  by eapply list_elem_of_lookup_2.
Qed.

Lemma reb_spec_settled_cons k g c :
  (k < n_keys)%nat → reb_spec k true c → reb_spec k false (g :: c).
Proof.
  intros Hk IH s f h pa par fuel Hf Hkr Hpos HT Hr Hnd Hp Hpa Hs Hroot Hsh Hrg Ha Hperm Hx0
    Hset Hfu.
  specialize (Hset eq_refl). rewrite (reb_rot_settled s Hset) in *.
  pose proof (reb_node f k (g :: c) s _ Hr HT Hs) as Hnb.
  destruct fuel as [|fuel]; [simpl in Hfu; lia|].
  cbn [del_rebalance]. rewrite (proj2 (Z.ltb_ge _ _)) by lia. cbv zeta. rewrite Hnb.
  unfold reb. rewrite (reb_rot_settled s Hset).
  destruct ((root_bal s =? 1) || (root_bal s =? -1)) eqn:E1.
  { exists f, h. split; [done|]. split; [apply roots_changed_refl|].
    rewrite (proj2 (Z.eqb_neq _ _)) by (apply orb_true_iff in E1 as [?%Z.eqb_eq|?%Z.eqb_eq]; lia).
    split; [done|]. split; [done|]. split; [apply fframe_refl|done]. }
  apply orb_false_iff in E1 as [E1 E2]. apply Z.eqb_neq in E1, E2.
  assert (root_bal s = 0) as E0 by lia. rewrite E0. cbn [Z.eqb].
  rewrite (proj2 (Z.ltb_lt 0 (Z.of_nat (length (g :: c))))) by (simpl; lia).
  replace (Z.of_nat (length (g :: c)) - 1) with (Z.of_nat (length c)) by (simpl; lia).
  destruct (pth_head _ _ _ _ _ Hp) as [Hpg Hsg]. rewrite Hpg, Hpa.
  set (pm := par (Z.of_nat (length c))) in *.
  destruct (Hx0 E0) as (x0 & Hax & Hhx).
  simpl in Hax. pose proof (avl_plug_inv _ _ Hax) as Hg.
  pose proof (avl_fill_bal _ _ Hg) as Hgb.
  inversion Hpos as [|? ? Hgpos Hcpos]; subst.
  pose proof (cbounds_nonneg _ Hcpos) as [Hlo Hhi].
  pose proof (nodup_plug_cons _ _ _ Hnd) as (Hn1 & Hn2 & Hn3 & Hn4 & Hn5 & Hn6 & Hn7 & Hn8).
  pose proof Hr as Hr0. apply repr_plug in Hr0 as (Hc & Hrs).
  simpl in Hc. destruct Hc as (Hx & Hsib & Hc).
  destruct (view_slot_eq _ _ _ _ _ _ Hsg Hx) as (Hnf & Hdf).
  unfold hlink in Hnf. rewrite (link_is_T s _ 0 HT) in Hnf.
  pose proof (fwf_len _ _ _ _ Hf Hsg Hk) as Hlf.
  assert (0 < link s 0) as Hpos_s.
  { destruct s as [|l a ab ad r]; [done|]. by eapply repr_root_pos. }
  assert (link s 0 ∈ nodes s) as Hin_s.
  { destruct s as [|l a ab ad r]; [done|]. simpl. apply elem_of_app. right. by left. }
  rewrite (shrink_code k g c (link s 0) pm Hlf Hnf Hpos_s); [|
    intros _; by apply (hole_not_sib g c s)|done].
  rewrite fn_lookup_insert.
  destruct (set_bal_spec k f g c s pm (fbal (shrink g)) Hf Hk Hr Hnd Hsg)
    as (Hw & Hr1 & Hff1 & Hf1).
  rewrite Hw. cbn [mbind res_mbind res_bind].
  set (pm' := set_kb k (fbal (shrink g)) pm) in *.
  set (f1 := upd f (fx g) pm') in *.
  change (set_fbal (fbal (shrink g)) g) with (shrink g) in Hr1.
  change (plug (shrink g :: c) s) with (plug c (fill (shrink g) s)) in Hr1.
  destruct (reb_rot_ok g x0 s Hg Ha Hhx) as (Hs' & Hin' & Hh' & Hsh' & Hrg').
  destruct (IH (fill (shrink g) s) f1 h pa (<[Z.of_nat (length c) := pm']> par) fuel)
    as (f' & h' & Hrun & Hrc & Hroot' & Hr' & Hff' & Hf'); try done.
  - apply is_T_fill.
  - change (plug c (fill (shrink g) s)) with (plug (set_fbal (fbal (shrink g)) g :: c) s).
    by rewrite nodes_plug_set_fbal.
  - apply (pth_tail f f1 g c pa par pm' Hp).
    + apply NoDup_cons. done.
    + intros x Hx'. unfold f1, upd. simpl. by rewrite lookup_insert_ne.
  - by rewrite link_fill.
  - rewrite link_fill, fn_lookup_insert. unfold f1, upd. simpl. by rewrite lookup_insert_eq.
  - rewrite Hroot. simpl. rewrite !link_plug. destruct (last c); [done|].
    by rewrite !link_fill.
  - by rewrite !nodes_inord, Hin', inord_fill_shrink.
  - intros E. exists (fill g x0). split; [done|]. rewrite Hh'.
    rewrite (proj2 (Z.eqb_eq _ _) E). done.
  - simpl in Hfu. lia.
  - exists f', h'. split; [done|]. split; [done|].
    rewrite del_hole_cons. split; [done|]. split; [done|]. split; [|done].
    eapply fframe_trans.
    + eapply fframe_mono; [|exact Hff1]. intros x ->%list_elem_of_singleton.
      rewrite nodes_plug. apply elem_of_app. right. simpl. by left.
    + eapply fframe_mono; [|exact Hff']. intros x.
      change (plug c (fill (shrink g) s)) with (plug (set_fbal (fbal (shrink g)) g :: c) s).
      by rewrite nodes_plug_set_fbal.
Qed.

Lemma pth_relink f f2 g c pa par a cr pm :
  pth f (g :: c) pa par → NoDup (fx g :: cnodes c) →
  (∀ x, x ∈ cnodes c → slots f2 !! x = slots f !! x) →
  slots f2 !! fx g = Some pm →
  pth f2 (g :: c) (<[Z.of_nat (S (length c)) := a]> pa)
    (<[Z.of_nat (length c) := pm]> (<[Z.of_nat (S (length c)) := cr]> par)).
Proof.
  intros Hp Hnd Hsame Hpm [|i] g' Hi.
  - injection Hi as <-. destruct (pth_head _ _ _ _ _ Hp) as [H1 H2].
    replace (length (g :: c) - 1 - 0)%nat with (length c) by (simpl; lia).
    rewrite fn_lookup_insert_ne by lia. rewrite fn_lookup_insert. done.
  - destruct (Hp (S i) g' Hi) as [H1 H2]. simpl in Hi.
    pose proof (lookup_lt_Some _ _ _ Hi) as Hlt.
    replace (length (g :: c) - 1 - S i)%nat with (length c - 1 - i)%nat in * by (simpl; lia).
    rewrite !fn_lookup_insert_ne by lia. split; [done|].
    rewrite Hsame; [done|]. apply fx_cnodes, list_elem_of_fmap. exists g'.
    split; [done|]. by eapply list_elem_of_lookup_2.
Qed.

Lemma avl_root_bal t : avl t → -1 ≤ root_bal t ≤ 1.
Proof. destruct t; simpl; [lia|tauto]. Qed.

Lemma reb_shape_settled t : -1 ≤ root_bal t ≤ 1 → reb_shape t.
Proof. destruct t; simpl; [done|]. intros Hb. split; intros ->; lia. Qed.

Lemma is_T_perm s s' : nodes s' ≡ₚ nodes s → is_T s = true → is_T s' = true.
Proof.
  intros Hp HT. destruct s' as [|l x bl d r]; [|done]. simpl in Hp.
  destruct s as [|l a ab ad r]; [done|]. simpl in Hp.
  apply Permutation_length in Hp. rewrite length_app in Hp. simpl in Hp. lia.
Qed.

Lemma link_in_nodes s thr : is_T s = true → link s thr ∈ nodes s.
Proof.
  destruct s as [|l a ab ad r]; [done|]. intros _. simpl. apply elem_of_app. right. by left.
Qed.

(** After a rotation at the node in the hole of [c]: the link from above
    is set, and the walk goes on from the new root of the subtree. *)
Lemma reb_spec_relink k c s s1 f f1 h pa par cr' fuel :
  (k < n_keys)%nat → reb_spec k false c →
  fwf f → (k < length (root h))%nat → cpos c → is_T s = true →
  repr (view f k) 0 0 (plug c s) →
  NoDup (nodes (plug c s)) →
  pth f c pa par →
  root_k h k = link (plug c s) 0 →
  avl s1 → nodes s1 ≡ₚ nodes s →
  (root_bal s1 = 0 → ∃ x0, avl (plug c x0) ∧ height s1 = height x0 - 1) →
  slots f1 !! link s1 0 = Some cr' →
  repr (view f1 k) (cbounds c).1 (cbounds c).2 s1 →
  fframe k (nodes s) f f1 → fwf f1 →
  (2 * length c + 1 < fuel)%nat →
  ∃ f2 h2 par2,
    reb_relink k f1 h (link s 0) (Z.of_nat (length c))
      (<[Z.of_nat (length c) := link s1 0]> pa) (<[Z.of_nat (length c) := cr']> par)
      = Ok (f2, h2, par2) ∧
    ∃ f' h',
      del_rebalance fuel k f2 h2 (Z.of_nat (length c))
        (<[Z.of_nat (length c) := link s1 0]> pa) par2 = Ok (f', h') ∧
      roots_changed [k] h h' ∧ root_k h' k = link (reb c s1) 0 ∧
      repr (view f' k) 0 0 (reb c s1) ∧
      fframe k (nodes (plug c s)) f f' ∧ fwf f'.
Proof.
  intros Hk Hset Hf Hkr Hpos HT Hr Hnd Hp Hroot Ha Hperm Hx0 Hcr Hr1 Hff1 Hf1 Hfu.
  pose proof (avl_root_bal _ Ha) as Hb1.
  pose proof (reb_rot_settled _ Hb1) as Hrot1.
  pose proof (is_T_perm _ _ Hperm HT) as HT1.
  assert (NoDup (nodes s ++ cnodes c)) as Hnd0 by (by rewrite <- nodes_plug).
  apply NoDup_app in Hnd0 as (Hnds & Hdisj & Hndc).
  assert (nodes s ⊆ nodes (plug c s)) as Hsub.
  { intros x Hx. rewrite nodes_plug. apply elem_of_app. by left. }
  destruct c as [|g c].
  - cbn [length Z.of_nat] in *. unfold reb_relink. change (0 =? 0) with true. cbn iota.
    rewrite fn_lookup_insert. do 3 eexists. split; [done|].
    assert (-2 ≤ root_bal s1 ≤ 2) as Hb2 by lia.
    assert (avl (reb_rot s1)) as Ha1 by (by rewrite Hrot1).
    assert (nodes (reb_rot s1) ≡ₚ nodes s1) as Hp1 by (by rewrite Hrot1).
    assert (root_bal (reb_rot s1) = 0 →
            ∃ x0, avl (plug [] x0) ∧ height (reb_rot s1) = height x0 - 1) as Hx1
      by (by rewrite Hrot1).
    assert (k < length (root (set_root k (link s1 0) h)))%nat as Hkr1.
    { unfold set_root. simpl. by rewrite length_insert. }
    assert (pth f1 [] (<[0 := link s1 0]> pa) (<[0 := cr']> par)) as Hpt1
      by (by intros i g Hi).
    assert (NoDup (nodes (plug [] s1))) as Hnd1 by (simpl; by rewrite Hperm).
    assert (root_k (set_root k (link s1 0) h) k = link (plug [] s1) 0) as Hroot1.
    { simpl. by rewrite root_k_set_root_eq. }
    destruct (Hset s1 f1 (set_root k (link s1 0) h) (<[0 := link s1 0]> pa)
                (<[0 := cr']> par) fuel Hf1 Hkr1 Hpos HT1 Hr1 Hnd1 Hpt1
                (fn_lookup_insert _ _ _) (eq_ind_r (λ v, _ = Some v) Hcr (fn_lookup_insert _ _ _))
                Hroot1 (reb_shape_settled _ Hb1) Hb2 Ha1 Hp1 Hx1 (λ _, Hb1) Hfu)
      as (f' & h' & Hrun & Hrc & Hroot' & Hr' & Hff' & Hf').
    exists f', h'. split; [done|]. split.
    { eapply roots_changed_trans; [apply roots_changed_one|done]. }
    split; [done|]. split; [done|]. split; [|done].
    eapply fframe_trans; [exact Hff1|]. simpl.
    eapply fframe_mono; [|exact Hff']. intros x. simpl. by rewrite Hperm.
  - inversion Hpos as [|? ? Hgpos Hcpos]; subst.
    pose proof (nodup_plug_cons _ _ _ Hnd) as (Hn1 & Hn2 & Hn3 & Hn4 & Hn5 & Hn6 & Hn7 & Hn8).
    destruct (pth_head _ _ _ _ _ Hp) as [Hpg Hsg].
    set (fr := par (Z.of_nat (length c))) in *.
    pose proof Hr as Hr0. apply repr_plug in Hr0 as (Hc & Hrs).
    unfold hlink in Hc. rewrite (link_is_T s _ 0 HT) in Hc.
    assert (0 < link s 0) as Hpos_s.
    { destruct s as [|l a ab ad r]; [done|]. simpl.
      exact (repr_root_pos f k _ _ _ _ _ _ _ Hf Hrs). }
    assert (∀ x, x ∈ cnodes (g :: c) → slots f1 !! x = slots f !! x) as Hout.
    { intros x Hx. destruct Hff1 as (_ & _ & Ho & _). apply Ho. intros Hin.
      by apply (Hdisj _ Hin). }
    assert (slots f1 !! fx g = Some fr) as Hsg1.
    { rewrite Hout; [done|]. simpl. by left. }
    destruct (relink_parent_spec k f1 g c s s1 fr) as (Hw & Hr2 & Hff2 & Hf2); try done.
    { eapply crepr_ext; [|exact Hc]. intros x Hx. unfold view. by rewrite Hout. }
    { by apply link_in_nodes. }
    unfold reb_relink. rewrite (proj2 (Z.eqb_neq _ 0)) by (simpl; lia).
    cbv zeta.
    replace (Z.of_nat (length (g :: c)) - 1) with (Z.of_nat (length c)) by (simpl; lia).
    change (length (g :: c)) with (S (length c)).
    rewrite (fn_lookup_insert_ne _ (Z.of_nat (S (length c))) (Z.of_nat (length c))) by lia.
    rewrite (fn_lookup_insert_ne _ (Z.of_nat (S (length c))) (Z.of_nat (length c))) by lia.
    rewrite !fn_lookup_insert. fold fr. rewrite Hpg.
    set (fr' := if nl (nk fr k) =? link s 0 then set_kl k (link s1 0) fr
                else if nr (nk fr k) =? link s 0 then set_kr k (link s1 0) fr
                else fr) in *.
    rewrite Hw. cbn [mbind res_mbind res_bind].
    do 3 eexists. split; [done|].
    set (f2 := upd f1 (fx g) fr') in *.
    assert (link s1 0 ≠ fx g) as Hne.
    { intros Heq. apply Hn1. rewrite <- Heq, <- Hperm. by apply link_in_nodes. }
    assert (-2 ≤ root_bal s1 ≤ 2) as Hb2 by lia.
    assert (avl (reb_rot s1)) as Ha1 by (by rewrite Hrot1).
    assert (nodes (reb_rot s1) ≡ₚ nodes s1) as Hp1 by (by rewrite Hrot1).
    assert (root_bal (reb_rot s1) = 0 →
            ∃ x0, avl (plug (g :: c) x0) ∧ height (reb_rot s1) = height x0 - 1) as Hx1
      by (by rewrite Hrot1).
    assert (NoDup (nodes (plug (g :: c) s1))) as Hnd1
      by (by rewrite nodes_plug, Hperm, <- nodes_plug).
    assert (pth f2 (g :: c) (<[Z.of_nat (S (length c)) := link s1 0]> pa)
              (<[Z.of_nat (length c) := fr']>
                 (<[Z.of_nat (S (length c)) := cr']> par))) as Hpt1.
    { apply (pth_relink f f2 g c pa par); [done|by apply NoDup_cons| |].
      * intros x Hx. unfold f2, upd. simpl. rewrite lookup_insert_ne.
        -- apply Hout. simpl. right. apply elem_of_app. by right.
        -- by intros <-.
      * unfold f2, upd. simpl. by rewrite lookup_insert_eq. }
    assert (slots f2 !! link s1 0 =
            Some ((<[Z.of_nat (length c) := fr']>
                 (<[Z.of_nat (S (length c)) := cr']> par)) (Z.of_nat (length (g :: c)))))
      as Hs1.
    { change (length (g :: c)) with (S (length c)).
      rewrite fn_lookup_insert_ne by lia. rewrite fn_lookup_insert.
      unfold f2, upd. simpl. by rewrite lookup_insert_ne. }
    assert (root_k h k = link (plug (g :: c) s1) 0) as Hroot1.
    { rewrite Hroot. simpl. rewrite !link_plug. destruct (last c); [done|].
      by rewrite !link_fill. }
    destruct (Hset s1 f2 h (<[Z.of_nat (S (length c)) := link s1 0]> pa)
                (<[Z.of_nat (length c) := fr']>
                   (<[Z.of_nat (S (length c)) := cr']> par)) fuel
                Hf2 Hkr Hpos HT1 Hr2 Hnd1 Hpt1 (fn_lookup_insert _ _ _) Hs1
                Hroot1 (reb_shape_settled _ Hb1) Hb2 Ha1 Hp1 Hx1 (λ _, Hb1) Hfu)
      as (f' & h' & Hrun & Hrc & Hroot' & Hr' & Hff' & Hf').
    exists f', h'. split; [done|]. split; [done|]. split; [done|]. split; [done|].
    split; [|done].
    eapply fframe_trans; [eapply fframe_mono; [|exact Hff1]; done|].
    eapply fframe_trans.
    * eapply fframe_mono; [|exact Hff2]. intros x ->%list_elem_of_singleton.
      rewrite nodes_plug. apply elem_of_app. right. simpl. by left.
    * eapply fframe_mono; [|exact Hff']. intros x.
      by rewrite !nodes_plug, Hperm.
Qed.

Lemma reb_spec_rot k c : (k < n_keys)%nat → reb_spec k false c → reb_spec k true c.
Proof.
  intros Hk Hset s f h pa par fuel Hf Hkr Hpos HT Hr Hnd Hp Hpa Hs Hroot Hsh Hrg Ha Hperm Hx0
    _ Hfu.
  destruct (decide (-1 ≤ root_bal s ≤ 1)) as [Hb|Hb].
  { apply Hset; try done. lia. }
  pose proof (reb_node f k c s _ Hr HT Hs) as Hnb.
  pose proof (cbounds_nonneg _ Hpos) as [Hlo Hhi].
  pose proof Hr as Hr0. apply repr_plug in Hr0 as (Hc & Hrs).
  assert (NoDup (nodes s ++ cnodes c)) as Hnd0 by (by rewrite <- nodes_plug).
  apply NoDup_app in Hnd0 as (Hnds & _ & _).
  pose proof (avl_root_bal _ Ha) as Hb1.
  pose proof (reb_rot_settled _ Hb1) as Hrot1.
  destruct fuel as [|fuel]; [lia|].
  cbn [del_rebalance]. rewrite (proj2 (Z.ltb_ge _ _)) by lia. cbv zeta. rewrite Hnb, Hpa.
  destruct s as [|l a ab ad r]; [done|]. cbn [root_bal link] in *.
  destruct Hsh as [Hsh2 Hshm].
  rewrite (proj2 (Z.eqb_neq ab 1)) by lia. rewrite (proj2 (Z.eqb_neq ab (-1))) by lia.
  rewrite (proj2 (Z.eqb_neq ab 0)) by lia. cbn [orb].
  destruct (decide (ab = 2)) as [->|Hne2].
  - change (2 =? 2) with true. cbn iota. specialize (Hsh2 eq_refl).
    destruct l as [|bl b_ bb bd brt]; [done|].
    destruct (reb_rot_left_spec k f a _ _ _ bl b_ bb bd brt ad r Hf Hk Hlo Hhi Hrs Hnds Hs Hsh2)
      as (f1 & cr' & Hrun1 & Hcr & Hr1 & Hff1 & Hf1).
    rewrite Hrun1. cbn [mbind res_mbind res_bind].
    set (s0 := T (T bl b_ bb bd brt) a 2 ad r) in *.
    destruct (reb_spec_relink k c s0 (reb_rot s0) f f1 h pa par cr' fuel)
      as (f2 & h2 & par2 & Hrel & f' & h' & Hrun & Hrc & Hroot' & Hr' & Hff' & Hf');
      try done; [lia|].
    change (link s0 0) with a in Hrel. rewrite Hrel. cbn [mbind res_mbind res_bind].
    exists f', h'. split; [done|]. split; [done|].
    unfold reb in *. rewrite Hrot1 in Hroot', Hr'. done.
  - assert (ab = -2) as -> by lia.
    change (-2 =? 2) with false. change (-2 =? -2) with true. cbn iota.
    specialize (Hshm eq_refl).
    destruct r as [|bl b_ bb bd brt]; [done|].
    destruct (reb_rot_right_spec k f a _ _ _ bl b_ bb bd brt ad l Hf Hk Hlo Hhi Hrs Hnds Hs Hshm)
      as (f1 & cr' & Hrun1 & Hcr & Hr1 & Hff1 & Hf1).
    rewrite Hrun1. cbn [mbind res_mbind res_bind].
    set (s0 := T l a (-2) ad (T bl b_ bb bd brt)) in *.
    destruct (reb_spec_relink k c s0 (reb_rot s0) f f1 h pa par cr' fuel)
      as (f2 & h2 & par2 & Hrel & f' & h' & Hrun & Hrc & Hroot' & Hr' & Hff' & Hf');
      try done; [lia|].
    change (link s0 0) with a in Hrel. rewrite Hrel. cbn [mbind res_mbind res_bind].
    exists f', h'. split; [done|]. split; [done|].
    unfold reb in *. rewrite Hrot1 in Hroot', Hr'. done.
Qed.

Lemma del_rebalance_spec k c : (k < n_keys)%nat → reb_spec k true c.
Proof.
  intros Hk. induction c as [|g c IH].
  - by apply reb_spec_rot, reb_spec_settled_nil.
  - by apply reb_spec_rot, reb_spec_settled_cons.
Qed.

(** ** The searches of delete *)

(** What a search of delete may return: a tree record that holds the
    bytes of the buffer. *)
Definition del_found (f : file) (Ls : list Z) (buf : data)
    (r : option (Z * avl_struct)) : Prop :=
  ∀ y yr, r = Some (y, yr) → y ∈ Ls ∧ slots f !! y = Some yr ∧ b yr = buf.

Lemma del_search_key_spec f hs Ls Lf Lc ts fuel buf k :
  inv_with f hs Ls Lf Lc ts → (k < n_keys)%nat → enough f fuel →
  ∃ r, del_search_key fuel f (hdr f) buf k = Ok r ∧ del_found f Ls buf r.
Proof.
  intros Hinv Hk Hfu.
  destruct (inv_root_descend _ _ _ _ _ _ k fuel Hinv Hk Hfu) as (Hf & Hr & Hroot & Hhf).
  destruct (iw_trees _ _ _ _ _ _ Hinv k Hk) as (_ & _ & Hperm & _ & Hs).
  apply sorted_inord in Hs.
  destruct (sorted_split k buf _ Hs) as (L1 & L2 & Hin & H1 & H2).
  unfold del_search_key. rewrite Hroot.
  assert (ge_descend fuel f k buf (link (ts k) 0) = Ok (hd_def 0 L2)) as ->.
  { destruct (is_T (ts k)) eqn:ET.
    - apply (ge_descend_spec f k buf Hf (ts k) fuel 0 0 L1 L2); try done. lia.
    - destruct (ts k); [|done]. destruct L1, L2; try done.
      destruct fuel; [lia|]. done. }
  cbn [mbind res_mbind res_bind].
  destruct L2 as [|[a d] B]; [by exists None|].
  change (hd_def 0 ((a, d) :: B)) with a.
  assert (a ∈ nodes (ts k)) as Ha.
  { rewrite nodes_inord, Hin, fmap_app. apply elem_of_app. right. by left. }
  destruct (repr_nodes_Some _ _ _ _ _ Hr Ha) as [[nd d'] Hv].
  unfold view in Hv. destruct (slots f !! a) as [ar|] eqn:Has; [|done].
  destruct (Hf _ _ Has) as (Hpos & _).
  rewrite (proj2 (Z.ltb_lt _ _)) by done. rewrite (lread_ok _ _ _ Hf Has).
  cbn [mbind res_mbind res_bind].
  destruct ((cmp (Z.of_nat k) buf (b ar) =? 0) && bool_decide (buf = b ar)) eqn:E.
  - exists (Some (a, ar)). split; [done|]. intros y yr [= <- <-].
    apply andb_true_iff in E as [_ E]. apply bool_decide_eq_true in E.
    split; [by rewrite <- Hperm|]. by split.
  - by exists None.
Qed.

Lemma del_search_keys_spec f hs Ls Lf Lc ts fuel buf ks :
  inv_with f hs Ls Lf Lc ts → Forall (λ k, (k < n_keys)%nat) ks → enough f fuel →
  ∃ r, del_search_keys fuel f (hdr f) buf ks = Ok r ∧ del_found f Ls buf r.
Proof.
  intros Hinv Hks Hfu. induction Hks as [|k ks Hk Hks IH].
  - by exists None.
  - destruct (del_search_key_spec f hs Ls Lf Lc ts fuel buf k Hinv Hk Hfu) as (r & Hr & Hp).
    simpl. rewrite Hr. cbn [mbind res_mbind res_bind].
    destruct r as [x|]; [by exists (Some x)|done].
Qed.

Lemma del_search_dups_spec f hs Ls Lf Lc ts fuel buf :
  inv_with f hs Ls Lf Lc ts → enough f fuel →
  ∃ r, del_search_dups fuel f (hdr f) buf = Ok r ∧ del_found f Ls buf r.
Proof.
  intros Hinv Hfu. unfold del_search_dups.
  destruct (0 <? n_keys)%nat eqn:E0; [|by exists None].
  apply Nat.ltb_lt in E0.
  destruct (path_start_spec f hs Ls Lf Lc ts 0 buf
              (λ _ r, all_keys_equal buf r && bool_decide (buf = b r)) fuel Hinv E0 Hfu)
    as (res & -> & Hpost).
  cbn [mbind res_mbind res_bind].
  destruct res as [[[l pa] par]|]; [|by exists None].
  exists (Some (pa l, par l)). split; [done|]. intros y yr [= <- <-].
  destruct Hpost as (c' & sl & x & bal & d & sr & Ht & -> & Hp & Hx & Hs & Hhit & _).
  destruct (iw_trees _ _ _ _ _ _ Hinv 0%nat E0) as (_ & _ & Hperm & _).
  apply andb_true_iff in Hhit as [_ Hb]. apply bool_decide_eq_true in Hb.
  rewrite Hx. split; [|by split].
  rewrite <- Hperm, <- Ht, nodes_plug. apply elem_of_app. left. simpl.
  apply elem_of_app. right. by left.
Qed.

Lemma del_search_seq_spec f buf :
  fwf f → ∀ Lx fuel a, chain f a Lx → (length Lx < fuel)%nat →
  ∃ r, del_search_seq fuel f buf a = Ok r ∧ del_found f Lx buf r ∧
       (r = None → ∀ y yr, y ∈ Lx → slots f !! y = Some yr → b yr ≠ buf).
Proof.
  intros Hf. induction Lx as [|x Lx IH]; intros fuel a Hc Hfu.
  - simpl in Hc. subst a. destruct fuel; [lia|]. exists None. split; [done|].
    split; [done|]. intros _ y yr Hy. by apply elem_of_nil in Hy.
  - pose proof (chain_head_pos _ _ _ Hf Hc) as Hpos.
    simpl in Hc. destruct Hc as (-> & s & Hs & Hc).
    destruct (Hf _ _ Hs) as (Hx & _).
    destruct fuel as [|fuel]; [lia|]. cbn [del_search_seq].
    rewrite (proj2 (Z.ltb_lt _ _)) by done. rewrite (lread_ok _ _ _ Hf Hs).
    cbn [mbind res_mbind res_bind].
    destruct (bool_decide (buf = b s)) eqn:E.
    + apply bool_decide_eq_true in E. exists (Some (x, s)). split; [done|]. split; [|done].
      intros y yr [= <- <-]. split; [by left|by split].
    + apply bool_decide_eq_false in E.
      destruct (IH fuel (next s) Hc) as (r & Hrun & Hfound & Hnone); [simpl in Hfu; lia|].
      exists r. split; [done|]. split.
      * intros y yr Hr. destruct (Hfound y yr Hr) as (? & ? & ?). split; [by right|by split].
      * intros Hr y yr [->|Hy]%elem_of_cons Hys.
        -- assert (yr = s) as -> by congruence. by intros <-.
        -- by apply (Hnone Hr y yr).
Qed.

(** The three searches of delete: the record they return is a tree
    record with the bytes of the buffer, and they return one whenever
    there is such a record. *)
Lemma del_search_spec f hs Ls Lf Lc ts fuel buf :
  inv_with f hs Ls Lf Lc ts → enough f fuel →
  ∃ r, del_search fuel f (hdr f) buf = Ok r ∧ del_found f Ls buf r ∧
       (r = None → ∀ y yr, y ∈ Ls → slots f !! y = Some yr → b yr ≠ buf).
Proof.
  intros Hinv Hfu.
  pose proof (iw_lists _ _ _ _ _ _ Hinv) as Hlo.
  pose proof (lists_fwf _ _ _ _ _ _ Hlo) as Hf.
  unfold del_search.
  destruct (del_search_keys_spec f hs Ls Lf Lc ts fuel buf (seq 0 n_keys) Hinv)
    as (r1 & -> & Hp1); [|done|].
  { apply Forall_forall. intros k Hk%elem_of_seq. lia. }
  cbn [mbind res_mbind res_bind].
  destruct r1 as [x|].
  { cbn [mbind res_mbind res_bind]. exists (Some x). split; [done|]. by split. }
  destruct (del_search_dups_spec f hs Ls Lf Lc ts fuel buf Hinv Hfu) as (r2 & -> & Hp2).
  cbn [mbind res_mbind res_bind].
  destruct r2 as [x|].
  { exists (Some x). split; [done|]. by split. }
  apply (del_search_seq_spec f buf Hf Ls fuel (head_seq (hdr f))).
  - apply (dchain_chain _ 0). exact (lo_seq _ _ _ _ _ _ Hlo).
  - pose proof (inv_size _ _ _ _ _ _ Hinv) as Hsz. rewrite length_app in Hsz.
    unfold enough in Hfu. lia.
Qed.

(** X21: when no tree record holds the bytes of the buffer, delete
    returns -1 and leaves the file as it is. *)
Theorem delete_without_match f hs Ls fuel buf :
  live (mk_sys f hs) Ls → enough f fuel →
  (∀ y yr, y ∈ Ls → slots f !! y = Some yr → b yr ≠ buf) →
  avl_file_delete fuel f buf = Ok (-1, f).
Proof.
  intros (Lf & Lc & ts & Hinv) Hfu Hnone. simpl in Hinv.
  destruct (del_search_spec f hs Ls Lf Lc ts fuel buf Hinv Hfu) as (r & Hrun & Hfound & _).
  unfold avl_file_delete. rewrite Hrun. cbn [mbind res_mbind res_bind].
  destruct r as [[y yr]|]; [|done].
  destruct (Hfound y yr eq_refl) as (Hy & Hs & Hb).
  by destruct (Hnone y yr Hy Hs).
Qed.

Lemma pth_tail0 f g c pa par : pth f (g :: c) pa par → pth f c pa par.
Proof.
  intros Hp i g' Hi. destruct (Hp (S i) g' Hi) as [H1 H2].
  pose proof (lookup_lt_Some _ _ _ Hi) as Hlt.
  replace (length (g :: c) - 1 - S i)%nat with (length c - 1 - i)%nat in * by (simpl; lia).
  done.
Qed.

(** The walk of delete back up the path: the subtree [x] in the hole of
    [g :: c] is one level lower than the subtree [x0] that was there, and
    the balance of [g] has been adjusted. *)
Lemma del_walk_spec k g c x x0 f h pa par fuel :
  (k < n_keys)%nat → fwf f → (k < length (root h))%nat → cpos (g :: c) →
  repr (view f k) 0 0 (plug (shrink g :: c) x) →
  NoDup (nodes (plug (g :: c) x)) →
  pth f (g :: c) pa par →
  root_k h k = link (plug (g :: c) x) 0 →
  avl (plug (g :: c) x0) → avl x → height x = height x0 - 1 →
  (2 * length c + 2 < fuel)%nat →
  ∃ f' h',
    del_rebalance fuel k f h (Z.of_nat (length c)) pa par = Ok (f', h') ∧
    roots_changed [k] h h' ∧ root_k h' k = link (del_hole (g :: c) x) 0 ∧
    repr (view f' k) 0 0 (del_hole (g :: c) x) ∧
    fframe k (nodes (plug (g :: c) x)) f f' ∧ fwf f'.
Proof.
  intros Hk Hf Hkr Hpos Hr Hnd Hp Hroot Hax Hx Hh Hfu.
  simpl in Hax. pose proof (avl_plug_inv _ _ Hax) as Hg.
  destruct (reb_rot_ok g x0 x Hg Hx Hh) as (Hs' & Hin' & Hh' & Hsh' & Hrg').
  destruct (pth_head _ _ _ _ _ Hp) as [Hpg Hsg].
  inversion Hpos as [|? ? Hgpos Hcpos]; subst.
  assert (NoDup (nodes (plug c (fill (shrink g) x)))) as Hnd1.
  { change (plug c (fill (shrink g) x)) with (plug (set_fbal (fbal (shrink g)) g :: c) x).
    by rewrite nodes_plug_set_fbal. }
  assert (root_k h k = link (plug c (fill (shrink g) x)) 0) as Hroot1.
  { rewrite Hroot. simpl. rewrite !link_plug. destruct (last c); [done|].
    by rewrite !link_fill. }
  assert (nodes (reb_rot (fill (shrink g) x)) ≡ₚ nodes (fill (shrink g) x)) as Hperm.
  { by rewrite !nodes_inord, Hin', inord_fill_shrink. }
  assert (root_bal (reb_rot (fill (shrink g) x)) = 0 →
          ∃ x1, avl (plug c x1) ∧ height (reb_rot (fill (shrink g) x)) = height x1 - 1)
    as Hx1.
  { intros E. exists (fill g x0). split; [done|]. rewrite Hh'.
    by rewrite (proj2 (Z.eqb_eq _ _) E). }
  assert (slots f !! link (fill (shrink g) x) 0 = Some (par (Z.of_nat (length c)))) as Hs1
    by (by rewrite link_fill).
  assert (pa (Z.of_nat (length c)) = link (fill (shrink g) x) 0) as Hpa1
    by (by rewrite link_fill).
  destruct (del_rebalance_spec k c Hk (fill (shrink g) x) f h pa par fuel Hf Hkr Hcpos
              (is_T_fill _ _) Hr Hnd1 (pth_tail0 _ _ _ _ _ Hp) Hpa1 Hs1 Hroot1 Hsh' Hrg' Hs'
              Hperm Hx1)
    as (f' & h' & Hrun & Hrc & Hroot' & Hr' & Hff' & Hf'); [done|done|].
  exists f', h'. split; [done|]. split; [done|]. rewrite del_hole_cons.
  split; [done|]. split; [done|]. split; [|done].
  eapply fframe_mono; [|exact Hff']. intros y.
  change (plug c (fill (shrink g) x)) with (plug (set_fbal (fbal (shrink g)) g :: c) x).
  by rewrite nodes_plug_set_fbal.
Qed.

(** The search of a path in the tree of one key, with the header that
    is held in memory. *)
Lemma path_start_tree f h k yb hit t fuel :
  fwf f → (k < n_keys)%nat → repr (view f k) 0 0 t → root_k h k = link t 0 →
  avl t → sorted k t → Z.of_nat (length (nodes t)) < 2 ^ 63 →
  (3 * length (nodes t) + 1 ≤ fuel)%nat →
  ∃ res, path_start fuel f h k yb hit = Ok res ∧ path_post f k yb hit t res.
Proof.
  intros Hf Hk Hr Hroot Ha Hso Hn Hfu.
  apply (path_search_spec f k yb hit Hf Hk fuel [] t).
  - unfold mu. simpl. rewrite nodes_inord, length_fmap in Hfu. lia.
  - split; [done|]. split; [constructor|]. split; [by intros i g Hi|].
    split; [by rewrite fn_lookup_insert|].
    split; [split; [done|intros j Hj; simpl in Hj; lia]|].
    split; [constructor|]. split; [by intros x d r Hin; apply elem_of_nil in Hin|].
    split; [by apply sorted_inord|]. simpl. by apply avl_height_bound.
Qed.

(** ** Taking the record out of its place *)

(** The record has no subtree: its parent gets the thread of the record
    on the side where it was. *)
Lemma leaf_code k g c y yr pm :
  (k < length (n pm))%nat → nk pm k = fnode g c y → 0 < y →
  (fdir g = R → y ≠ link (fsib g) (cbounds c).1) →
  -1 ≤ fbal g ≤ 1 →
  nl (nk yr k) = - (cbounds (g :: c)).1 → nr (nk yr k) = - (cbounds (g :: c)).2 →
  let pm' :=
    if nl (nk pm k) =? y then
      let pm := set_kl k (nl (nk yr k)) pm in
      set_kb k (wrap8 (nb (nk pm k) - 1)) pm
    else if nr (nk pm k) =? y then
      let pm := set_kr k (nr (nk yr k)) pm in
      set_kb k (wrap8 (nb (nk pm k) + 1)) pm
    else pm in
  nk pm' k = fnode (shrink g) c (hlink (g :: c) E) ∧ eqv k pm pm'.
Proof.
  intros Hl Hn Ha Hne Hb Hyl Hyr. cbv zeta. rewrite Hn.
  destruct (parent_side g c y _ Ha eq_refl Hne) as [-> ->].
  unfold hlink, hthr, shrink, fnode in *. destruct g as [[] x bal d sib]; simpl in *.
  - nk_norm. rewrite Hn. simpl. rewrite wrap8_small by lia. rewrite Hyl.
    split; [done|]. apply eqv_set_kb, eqv_set_kl, eqv_refl.
  - nk_norm. rewrite Hn. simpl. rewrite wrap8_small by lia. rewrite Hyr.
    split; [f_equal; lia|]. apply eqv_set_kb, eqv_set_kr, eqv_refl.
Qed.

Lemma pth_upd_head f f' g c pa par pm :
  pth f (g :: c) pa par → NoDup (fx g :: cnodes c) →
  (∀ x, x ≠ fx g → slots f' !! x = slots f !! x) →
  slots f' !! fx g = Some pm →
  pth f' (g :: c) pa (<[Z.of_nat (length c) := pm]> par).
Proof.
  intros Hp Hnd Hsame Hpm. apply pth_cons.
  - by apply (pth_tail f f' g c pa par pm).
  - by destruct (pth_head _ _ _ _ _ Hp).
  - by rewrite fn_lookup_insert.
Qed.

Lemma del_leaf_spec k c y yd f h yr pa par fuel :
  (k < n_keys)%nat → fwf f → (k < length (root h))%nat → cpos c →
  repr (view f k) 0 0 (plug c (T E y 0 yd E)) →
  NoDup (nodes (plug c (T E y 0 yd E))) →
  avl (plug c (T E y 0 yd E)) →
  root_k h k = link (plug c (T E y 0 yd E)) 0 →
  pth f c pa par →
  nl (nk yr k) = - (cbounds c).1 → nr (nk yr k) = - (cbounds c).2 →
  (2 * length c + 2 < fuel)%nat →
  ∃ v' f' h',
    del_leaf k y (Z.of_nat (length c)) (mk_dv f h yr (Z.of_nat (length c)) pa par) = Ok v' ∧
    dv_yr v' = yr ∧
    del_rebalance fuel k (dv_f v') (dv_h v') (dv_l v') (dv_pa v') (dv_par v') = Ok (f', h') ∧
    roots_changed [k] h h' ∧ root_k h' k = link (del_hole c E) 0 ∧
    repr (view f' k) 0 0 (del_hole c E) ∧
    fframe k (nodes (plug c E)) f f' ∧ fwf f'.
Proof.
  intros Hk Hf Hkr Hpos Hr Hnd Ha Hroot Hp Hyl Hyr Hfu.
  unfold del_leaf. cbn [dv_f dv_h dv_yr dv_l dv_pa dv_par].
  destruct c as [|g c].
  - cbn [length Z.of_nat]. change (0 =? 0) with true. cbn iota.
    do 3 eexists. split; [done|]. split; [done|].
    cbn [dv_f dv_h dv_yr dv_l dv_pa dv_par].
    destruct fuel as [|fuel]; [lia|]. cbn [del_rebalance]. change (0 - 1 <? 0) with true.
    cbn iota. split; [done|]. split; [apply roots_changed_one|].
    split; [simpl; by rewrite root_k_set_root_eq|]. split; [done|].
    split; [apply fframe_refl|done].
  - rewrite (proj2 (Z.eqb_neq _ 0)) by (simpl; lia).
    replace (Z.of_nat (length (g :: c)) - 1) with (Z.of_nat (length c)) by (simpl; lia).
    destruct (pth_head _ _ _ _ _ Hp) as [Hpg Hsg].
    set (pm := par (Z.of_nat (length c))) in *.
    inversion Hpos as [|? ? Hgpos Hcpos]; subst.
    pose proof (nodup_plug_cons _ _ _ Hnd) as (Hn1 & Hn2 & Hn3 & Hn4 & Hn5 & Hn6 & Hn7 & Hn8).
    pose proof Hr as Hr0. apply repr_plug in Hr0 as (Hc & Hrs).
    simpl in Hc. destruct Hc as (Hx & Hsib & Hc).
    destruct (view_slot_eq _ _ _ _ _ _ Hsg Hx) as (Hnf & Hdf).
    unfold hlink in Hnf. cbn [link] in Hnf.
    pose proof (fwf_len _ _ _ _ Hf Hsg Hk) as Hlf.
    assert (0 < y) as Hy by exact (repr_root_pos f k _ _ _ _ _ _ _ Hf Hrs).
    simpl in Ha. pose proof (avl_plug_inv _ _ Ha) as Hg.
    pose proof (avl_fill_bal _ _ Hg) as Hgb.
    destruct (leaf_code k g c y yr pm Hlf Hnf Hy) as [Hnf' Heqv]; [|done|done|done|].
    { intros _. apply (hole_not_sib g c (T E y 0 yd E)); [by constructor|done| |done|].
      - simpl. by left.
      - by destruct (cbounds_nonneg _ Hcpos). }
    cbv zeta in Hnf', Heqv.
    set (pm' := if nl (nk pm k) =? y then _ else _) in *.
    rewrite fn_lookup_insert.
    destruct (rmw k [fx g] f (fx g) pm pm') as (Hw & Hff & Hf1 & Hs1 & Hv1);
      [done|done|done|by left|].
    rewrite Hpg, Hw. cbn [mbind res_mbind res_bind].
    set (f1 := upd f (fx g) pm') in *.
    assert (repr (view f1 k) 0 0 (plug (shrink g :: c) E)) as Hr1.
    { apply repr_plug. split; [|done]. simpl. split; [|split].
      - rewrite Hv1, Hnf', Hdf. done.
      - unfold frepr in *. destruct g as [[] a ab ad sib]; simpl in *;
          (eapply repr_ext; [|exact Hsib]); intros x Hx';
          apply view_upd_ne; by intros <-.
      - eapply crepr_ext; [|exact Hc]. intros x Hx'.
        apply view_upd_ne. by intros <-. }
    assert (NoDup (nodes (plug (g :: c) E))) as Hnd1.
    { rewrite nodes_plug. rewrite nodes_plug in Hnd. simpl in Hnd. by apply NoDup_cons in Hnd as [_ ?]. }
    assert (pth f1 (g :: c) pa (<[Z.of_nat (length c) := pm']> par)) as Hp1.
    { apply (pth_upd_head f f1 g c pa par pm' Hp); [by apply NoDup_cons| |done].
      intros x Hx'. unfold f1, upd. simpl. by rewrite lookup_insert_ne. }
    assert (root_k h k = link (plug (g :: c) E) 0) as Hroot1.
    { rewrite Hroot. simpl. rewrite !link_plug. destruct (last c); [done|].
      by rewrite !link_fill. }
    destruct (del_walk_spec k g c E (T E y 0 yd E) f1 h pa (<[Z.of_nat (length c) := pm']> par)
                fuel Hk Hf1 Hkr Hpos Hr1 Hnd1 Hp1 Hroot1 Ha)
      as (f' & h' & Hrun & Hrc & Hroot' & Hr' & Hff' & Hf'); [done|done|simpl in Hfu; lia|].
    eexists _, f', h'. split; [done|]. split; [done|].
    cbn [dv_f dv_h dv_yr dv_l dv_pa dv_par].
    replace (Z.of_nat (length (g :: c)) - 1) with (Z.of_nat (length c)) by (simpl; lia).
    split; [exact Hrun|]. split; [done|]. split; [done|]. split; [done|]. split; [|done].
    eapply fframe_trans; [|exact Hff'].
    eapply fframe_mono; [|exact Hff]. intros x ->%list_elem_of_singleton.
    rewrite nodes_plug. apply elem_of_app. right. simpl. by left.
Qed.

(** The spine of a subtree: the path from its root to its rightmost
    (leftmost) node. *)
Lemma rspine_decomp s :
  is_T s = true →
  ∃ cq pl p pb pd, s = plug cq (T pl p pb pd E) ∧ Forall (λ g, fdir g = R) cq.
Proof.
  induction s as [|sl _ x bal d sr IH]; [done|]. intros _.
  destruct sr as [|rl rx rb rd rr].
  - exists [], sl, x, bal, d. by split.
  - destruct (IH eq_refl) as (cq & pl & p & pb & pd & Heq & Hall).
    exists (cq ++ [F R x bal d sl]), pl, p, pb, pd. split.
    + rewrite plug_app, <- Heq. done.
    + apply Forall_app. split; [done|]. by constructor.
Qed.

Lemma lspine_decomp s :
  is_T s = true →
  ∃ cq pr p pb pd, s = plug cq (T E p pb pd pr) ∧ Forall (λ g, fdir g = L) cq.
Proof.
  induction s as [|sl IH x bal d sr _]; [done|]. intros _.
  destruct sl as [|ll lx lb ld lr].
  - exists [], sr, x, bal, d. by split.
  - destruct (IH eq_refl) as (cq & pr & p & pb & pd & Heq & Hall).
    exists (cq ++ [F L x bal d sr]), pr, p, pb, pd. split.
    + rewrite plug_app, <- Heq. done.
    + apply Forall_app. split; [done|]. by constructor.
Qed.

Definition ctop (c : list frame) (child : Z) : Z :=
  match last c with
  | Some g => fx g
  | None => child
  end.

Lemma ctop_cons g c child : ctop (g :: c) child = ctop c (fx g).
Proof.
  unfold ctop. destruct c as [|g' c]; [done|].
  change (last (g :: g' :: c)) with (last (g' :: c)).
  destruct (last (g' :: c)) eqn:El; [done|]. by apply last_None in El.
Qed.

Lemma cbounds_spine_R1 cq g1 g2 c :
  Forall (λ g, fdir g = R) cq → fdir g1 = L → fdir g2 = L →
  (cbounds (cq ++ g1 :: c)).1 = (cbounds (cq ++ g2 :: c)).1.
Proof.
  intros Hall H1 H2. destruct cq as [|g cq]; simpl.
  - by rewrite H1, H2.
  - apply Forall_cons in Hall as [-> _]. done.
Qed.

Lemma cbounds_spine_R2 cq c0 :
  Forall (λ g, fdir g = R) cq → (cbounds (cq ++ c0)).2 = (cbounds c0).2.
Proof.
  induction 1 as [|g cq Hg Hall IH]; simpl; [done|]. by rewrite Hg.
Qed.

Lemma cbounds_spine_L2 cq g1 g2 c :
  Forall (λ g, fdir g = L) cq → fdir g1 = R → fdir g2 = R →
  (cbounds (cq ++ g1 :: c)).2 = (cbounds (cq ++ g2 :: c)).2.
Proof.
  intros Hall H1 H2. destruct cq as [|g cq]; simpl.
  - by rewrite H1, H2.
  - apply Forall_cons in Hall as [-> _]. done.
Qed.

Lemma cbounds_spine_L1 cq c0 :
  Forall (λ g, fdir g = L) cq → (cbounds (cq ++ c0)).1 = (cbounds c0).1.
Proof.
  induction 1 as [|g cq Hg Hall IH]; simpl; [done|]. by rewrite Hg.
Qed.

(** The records of a right spine do not depend on the node above it. *)
Lemma crepr_spine_R S S' cq g1 g2 c child :
  Forall (λ g, fdir g = R) cq → fdir g1 = L → fdir g2 = L →
  (∀ x, x ∈ cnodes cq → S' x = S x) →
  crepr S (cq ++ g1 :: c) child →
  crepr S' (g2 :: c) (ctop cq child) →
  crepr S' (cq ++ g2 :: c) child.
Proof.
  intros Hall H1 H2. revert child.
  induction Hall as [|g cq Hg Hall IH]; intros child Hsame Hc Hup; [done|].
  cbn [app crepr] in *. destruct Hc as (Hx & Hsib & Hc).
  split; [|split].
  - rewrite Hsame by (simpl; by left). rewrite Hx. unfold fnode. rewrite Hg.
    by rewrite (cbounds_spine_R1 cq g1 g2 c).
  - unfold frepr in *. rewrite Hg in *.
    rewrite <- (cbounds_spine_R1 cq g1 g2 c) by done.
    eapply repr_ext; [|exact Hsib]. intros x Hx'. apply Hsame. simpl.
    right. apply elem_of_app. by left.
  - apply IH; [|done|by rewrite <- (ctop_cons g cq child)].
    intros x Hx'. apply Hsame. simpl. right. apply elem_of_app. by right.
Qed.

Lemma crepr_spine_L S S' cq g1 g2 c child :
  Forall (λ g, fdir g = L) cq → fdir g1 = R → fdir g2 = R →
  (∀ x, x ∈ cnodes cq → S' x = S x) →
  crepr S (cq ++ g1 :: c) child →
  crepr S' (g2 :: c) (ctop cq child) →
  crepr S' (cq ++ g2 :: c) child.
Proof.
  intros Hall H1 H2. revert child.
  induction Hall as [|g cq Hg Hall IH]; intros child Hsame Hc Hup; [done|].
  cbn [app crepr] in *. destruct Hc as (Hx & Hsib & Hc).
  split; [|split].
  - rewrite Hsame by (simpl; by left). rewrite Hx. unfold fnode. rewrite Hg.
    by rewrite (cbounds_spine_L2 cq g1 g2 c).
  - unfold frepr in *. rewrite Hg in *.
    rewrite <- (cbounds_spine_L2 cq g1 g2 c) by done.
    eapply repr_ext; [|exact Hsib]. intros x Hx'. apply Hsame. simpl.
    right. apply elem_of_app. by left.
  - apply IH; [|done|by rewrite <- (ctop_cons g cq child)].
    intros x Hx'. apply Hsame. simpl. right. apply elem_of_app. by right.
Qed.

(** The leftmost node of a subtree holds the thread to the neighbour on
    the left of the subtree. *)
Definition lmost (t : tree) : Z := hd_def 0 (inord t).

Lemma lmost_T l x bal d r :
  lmost (T l x bal d r) = if is_T l then lmost l else x.
Proof.
  unfold lmost. simpl. destruct l as [|ll lx lb ld lr]; [done|].
  simpl. by destruct (inord ll).
Qed.

Lemma lmost_in t : is_T t = true → lmost t ∈ nodes t.
Proof.
  induction t as [|l IHl x bal d r _]; [done|]. intros _. rewrite lmost_T. simpl.
  destruct (is_T l) eqn:El.
  - apply elem_of_app. left. by apply IHl.
  - apply elem_of_app. right. by left.
Qed.

Lemma repr_relo S S' lo lo' hi t :
  repr S lo hi t → NoDup (nodes t) →
  (∀ x, x ∈ nodes t → x ≠ lmost t → S' x = S x) →
  (∀ nd d, S (lmost t) = Some (nd, d) → S' (lmost t) = Some (set_l (- lo') nd, d)) →
  repr S' lo' hi t.
Proof.
  revert lo lo' hi. induction t as [|l IHl x bal d r _]; intros lo lo' hi Hr Hnd Hsame Hlm;
    [done|].
  simpl in Hr. destruct Hr as (Hx & Hl & Hrr).
  simpl in Hnd. apply NoDup_app in Hnd as (Hndl & Hdl & Hndr).
  apply NoDup_cons in Hndr as [Hxr Hndr].
  rewrite lmost_T in Hsame, Hlm.
  destruct l as [|ll lx lb ld lr].
  - cbn [is_T] in *. simpl. split; [|split; [done|]].
    + by rewrite (Hlm _ _ Hx).
    + eapply repr_ext; [|exact Hrr]. intros z Hz. apply Hsame.
      * simpl. by right.
      * by intros ->.
  - cbn [is_T] in *.
    pose proof (lmost_in (T ll lx lb ld lr) eq_refl) as Hin.
    split; [|split].
    + rewrite Hsame; [done| |].
      * apply elem_of_app. right. by left.
      * intros Heq. apply (Hdl _ Hin). rewrite <- Heq. by left.
    + apply (IHl lo lo' x); [done|done| |done].
      intros z Hz Hne. apply Hsame; [|done]. apply elem_of_app. by left.
    + eapply repr_ext; [|exact Hrr]. intros z Hz. apply Hsame.
      * apply elem_of_app. right. by right.
      * intros Heq. apply (Hdl _ Hin). rewrite <- Heq. by right.
Qed.

Lemma ctop_snoc c g child : ctop (c ++ [g]) child = fx g.
Proof. unfold ctop. by rewrite last_snoc. Qed.

Lemma link_plug_ctop c s thr : link (plug c s) thr = ctop c (link s thr).
Proof. apply link_plug. Qed.

Lemma is_T_plug_cons g c s : is_T (plug (g :: c) s) = true.
Proof.
  revert g s. induction c as [|g' c IH]; intros g s; simpl; [apply is_T_fill|].
  apply (IH g' (fill g s)).
Qed.

(** [while (par[l].n[k].r > 0)]: down the right spine [cq] of a subtree
    to its rightmost node [p]. *)
Lemma del_go_right_spec k f :
  fwf f → ∀ cq, Forall (λ g, fdir g = R) cq →
  ∀ c0 pl p pb pd pa par fuel,
    repr (view f k) 0 0 (plug (cq ++ c0) (T pl p pb pd E)) → cpos (cq ++ c0) →
    pth f c0 pa par → pa (Z.of_nat (length c0)) = ctop cq p →
    slots f !! ctop cq p = Some (par (Z.of_nat (length c0))) →
    Z.of_nat (length (cq ++ c0)) < path_max → (length cq < fuel)%nat →
    ∃ pa' par',
      del_go_right fuel f k (Z.of_nat (length c0)) pa par
        = Ok (Z.of_nat (length (cq ++ c0)), pa', par') ∧
      pth f (cq ++ c0) pa' par' ∧
      pa' (Z.of_nat (length (cq ++ c0))) = p ∧
      slots f !! p = Some (par' (Z.of_nat (length (cq ++ c0)))) ∧
      ∀ i, i ≤ Z.of_nat (length c0) → pa' i = pa i ∧ par' i = par i.
Proof.
  intros Hf cq. induction cq as [|g cq IH] using rev_ind;
    intros Hall c0 pl p pb pd pa par fuel Hr Hpos Hp Hpa Hs Hb Hfu.
  - simpl in *. unfold ctop in Hpa, Hs. simpl in Hpa, Hs.
    destruct fuel as [|fuel]; [lia|]. cbn [del_go_right].
    apply repr_plug in Hr as (_ & Hrs). simpl in Hrs. destruct Hrs as (Hv & _).
    destruct (view_slot_eq _ _ _ _ _ _ Hs Hv) as (Hn & _). rewrite Hn. cbn [nr].
    pose proof (cbounds_nonneg _ Hpos) as [_ Hhi].
    rewrite (proj2 (Z.ltb_ge _ _)) by lia.
    exists pa, par. split; [done|]. split; [done|]. split; [done|]. split; [done|].
    by intros.
  - apply Forall_app in Hall as [Hall Hg]. apply Forall_cons in Hg as [Hg _].
    rewrite <- app_assoc in Hr, Hpos, Hb |- *. cbn [app] in Hr, Hpos, Hb |- *.
    rewrite ctop_snoc in Hpa, Hs.
    assert (cpos (g :: c0)) as Hpos0.
    { unfold cpos in *. by apply Forall_app in Hpos as [_ ?]. }
    pose proof Hr as Hr0. rewrite plug_app in Hr0.
    apply repr_plug in Hr0 as (Hc & Hrs).
    cbn [crepr] in Hc. destruct Hc as (Hx & _ & _).
    destruct (view_slot_eq _ _ _ _ _ _ Hs Hx) as (Hn & _).
    unfold hlink in Hn. rewrite link_plug_ctop in Hn. cbn [link] in Hn.
    assert (is_T (plug cq (T pl p pb pd E)) = true) as HT.
    { destruct cq; [done|apply is_T_plug_cons]. }
    assert (0 < ctop cq p) as Hcpos.
    { pose proof (link_test f k _ _ _ 0 Hf Hrs (Z.le_refl 0)) as Ht.
      rewrite HT, link_plug_ctop in Ht. by apply Z.ltb_lt in Ht. }
    assert (ctop cq p ∈ nodes (plug cq (T pl p pb pd E))) as Hin.
    { change (ctop cq p) with (ctop cq (link (T pl p pb pd E) 0)).
      rewrite <- (link_plug_ctop cq (T pl p pb pd E) 0). by apply link_in_nodes. }
    destruct (repr_nodes_Some _ _ _ _ _ Hrs Hin) as [[nd d'] Hv].
    unfold view in Hv. destruct (slots f !! ctop cq p) as [r|] eqn:Hsr; [|done].
    destruct fuel as [|fuel]; [rewrite length_app in Hfu; simpl in Hfu; lia|].
    cbn [del_go_right]. rewrite Hn. unfold fnode. rewrite Hg. cbn [nr].
    rewrite (proj2 (Z.ltb_lt _ _)) by done.
    rewrite length_app in Hb. cbn [length] in Hb.
    rewrite in_bounds_ok by lia.
    cbv zeta. rewrite fn_lookup_insert, (lread_ok _ _ _ Hf Hsr).
    cbn [mbind res_mbind res_bind].
    replace (Z.of_nat (length c0) + 1) with (Z.of_nat (length (g :: c0))) by (simpl; lia).
    destruct (IH Hall (g :: c0) pl p pb pd
                (<[Z.of_nat (length (g :: c0)) := ctop cq p]> pa)
                (<[Z.of_nat (length (g :: c0)) := r]> par) fuel)
      as (pa' & par' & Hrun & Hp' & Hpa' & Hs' & Hsame); try done.
    + apply pth_cons.
      * eapply pth_ext; [exact Hp|]. intros i Hi.
        rewrite !fn_lookup_insert_ne by (simpl; lia). done.
      * rewrite fn_lookup_insert_ne by (simpl; lia). done.
      * rewrite fn_lookup_insert_ne by (simpl; lia). done.
    + by rewrite fn_lookup_insert.
    + by rewrite fn_lookup_insert.
    + rewrite length_app. simpl. lia.
    + rewrite length_app in Hfu. simpl in Hfu. lia.
    + exists pa', par'. split; [done|]. split; [done|]. split; [done|]. split; [done|].
      intros i Hi. destruct (Hsame i) as [-> ->]; [simpl; lia|].
      rewrite !fn_lookup_insert_ne by (simpl; lia). done.
Qed.

Lemma del_go_left_spec k f :
  fwf f → ∀ cq, Forall (λ g, fdir g = L) cq →
  ∀ c0 pr p pb pd pa par fuel,
    repr (view f k) 0 0 (plug (cq ++ c0) (T E p pb pd pr)) → cpos (cq ++ c0) →
    pth f c0 pa par → pa (Z.of_nat (length c0)) = ctop cq p →
    slots f !! ctop cq p = Some (par (Z.of_nat (length c0))) →
    Z.of_nat (length (cq ++ c0)) < path_max → (length cq < fuel)%nat →
    ∃ pa' par',
      del_go_left fuel f k (Z.of_nat (length c0)) pa par
        = Ok (Z.of_nat (length (cq ++ c0)), pa', par') ∧
      pth f (cq ++ c0) pa' par' ∧
      pa' (Z.of_nat (length (cq ++ c0))) = p ∧
      slots f !! p = Some (par' (Z.of_nat (length (cq ++ c0)))) ∧
      ∀ i, i ≤ Z.of_nat (length c0) → pa' i = pa i ∧ par' i = par i.
Proof.
  intros Hf cq. induction cq as [|g cq IH] using rev_ind;
    intros Hall c0 pr p pb pd pa par fuel Hr Hpos Hp Hpa Hs Hb Hfu.
  - simpl in *. unfold ctop in Hpa, Hs. simpl in Hpa, Hs.
    destruct fuel as [|fuel]; [lia|]. cbn [del_go_left].
    apply repr_plug in Hr as (_ & Hrs). simpl in Hrs. destruct Hrs as (Hv & _).
    destruct (view_slot_eq _ _ _ _ _ _ Hs Hv) as (Hn & _). rewrite Hn. cbn [nl].
    pose proof (cbounds_nonneg _ Hpos) as [Hlo _].
    rewrite (proj2 (Z.ltb_ge _ _)) by lia.
    exists pa, par. split; [done|]. split; [done|]. split; [done|]. split; [done|].
    by intros.
  - apply Forall_app in Hall as [Hall Hg]. apply Forall_cons in Hg as [Hg _].
    rewrite <- app_assoc in Hr, Hpos, Hb |- *. cbn [app] in Hr, Hpos, Hb |- *.
    rewrite ctop_snoc in Hpa, Hs.
    assert (cpos (g :: c0)) as Hpos0.
    { unfold cpos in *. by apply Forall_app in Hpos as [_ ?]. }
    pose proof Hr as Hr0. rewrite plug_app in Hr0.
    apply repr_plug in Hr0 as (Hc & Hrs).
    cbn [crepr] in Hc. destruct Hc as (Hx & _ & _).
    destruct (view_slot_eq _ _ _ _ _ _ Hs Hx) as (Hn & _).
    unfold hlink in Hn. rewrite link_plug_ctop in Hn. cbn [link] in Hn.
    assert (is_T (plug cq (T E p pb pd pr)) = true) as HT.
    { destruct cq; [done|apply is_T_plug_cons]. }
    assert (0 < ctop cq p) as Hcpos.
    { pose proof (link_test f k _ _ _ 0 Hf Hrs (Z.le_refl 0)) as Ht.
      rewrite HT, link_plug_ctop in Ht. by apply Z.ltb_lt in Ht. }
    assert (ctop cq p ∈ nodes (plug cq (T E p pb pd pr))) as Hin.
    { change (ctop cq p) with (ctop cq (link (T E p pb pd pr) 0)).
      rewrite <- (link_plug_ctop cq (T E p pb pd pr) 0). by apply link_in_nodes. }
    destruct (repr_nodes_Some _ _ _ _ _ Hrs Hin) as [[nd d'] Hv].
    unfold view in Hv. destruct (slots f !! ctop cq p) as [r|] eqn:Hsr; [|done].
    destruct fuel as [|fuel]; [rewrite length_app in Hfu; simpl in Hfu; lia|].
    cbn [del_go_left]. rewrite Hn. unfold fnode. rewrite Hg. cbn [nl].
    rewrite (proj2 (Z.ltb_lt _ _)) by done.
    rewrite length_app in Hb. cbn [length] in Hb.
    rewrite in_bounds_ok by lia.
    cbv zeta. rewrite fn_lookup_insert, (lread_ok _ _ _ Hf Hsr).
    cbn [mbind res_mbind res_bind].
    replace (Z.of_nat (length c0) + 1) with (Z.of_nat (length (g :: c0))) by (simpl; lia).
    destruct (IH Hall (g :: c0) pr p pb pd
                (<[Z.of_nat (length (g :: c0)) := ctop cq p]> pa)
                (<[Z.of_nat (length (g :: c0)) := r]> par) fuel)
      as (pa' & par' & Hrun & Hp' & Hpa' & Hs' & Hsame); try done.
    + apply pth_cons.
      * eapply pth_ext; [exact Hp|]. intros i Hi.
        rewrite !fn_lookup_insert_ne by (simpl; lia). done.
      * rewrite fn_lookup_insert_ne by (simpl; lia). done.
      * rewrite fn_lookup_insert_ne by (simpl; lia). done.
    + by rewrite fn_lookup_insert.
    + by rewrite fn_lookup_insert.
    + rewrite length_app. simpl. lia.
    + rewrite length_app in Hfu. simpl in Hfu. lia.
    + exists pa', par'. split; [done|]. split; [done|]. split; [done|]. split; [done|].
      intros i Hi. destruct (Hsame i) as [-> ->]; [simpl; lia|].
      rewrite !fn_lookup_insert_ne by (simpl; lia). done.
Qed.

(** The leftmost node of the right subtree of the deleted record gets
    the thread to the record that takes its place. *)
Lemma pred_thread_fix k f r p y hi ur :
  fwf f → (k < n_keys)%nat → repr (view f k) y hi r → NoDup (nodes r) →
  (is_T r = true → ur_r ur k = lmost r) → 0 ≤ hi →
  ∃ f',
    (if 0 <? link r hi then
       spr ← lread f (ur_r ur k);
       lwrite f (ur_r ur k) (set_kl k (- p) spr)
     else Ok f) = Ok f' ∧
    repr (view f' k) p hi r ∧ fframe k (nodes r) f f' ∧ fwf f'.
Proof.
  intros Hf Hk Hr Hnd Hur Hhi.
  rewrite (link_test f k _ _ _ _ Hf Hr Hhi).
  destruct (is_T r) eqn:HT.
  - specialize (Hur eq_refl). rewrite Hur.
    pose proof (lmost_in r HT) as Hin.
    destruct (repr_nodes_Some _ _ _ _ _ Hr Hin) as [[nd d] Hv].
    destruct (view_slot f k _ _ _ Hf Hv) as (spr & Hs & Hread & Hn & Hb & Hpos).
    rewrite Hread. cbn [mbind res_mbind res_bind].
    pose proof (fwf_len _ _ _ _ Hf Hs Hk) as Hlen.
    destruct (rmw k (nodes r) f (lmost r) spr (set_kl k (- p) spr))
      as (Hw & Hff & Hf1 & Hs1 & Hv1); [done|done|apply eqv_set_kl, eqv_refl|done|].
    exists (upd f (lmost r) (set_kl k (- p) spr)). split; [done|]. split; [|done].
    apply (repr_relo (view f k) _ y p hi r Hr Hnd).
    + intros x Hx Hne. by apply view_upd_ne.
    + intros nd' d' Hv'. rewrite Hv1. rewrite Hv in Hv'. injection Hv' as <- <-.
      by rewrite nk_set_kl, Hn, Hb by done.
  - exists f. split; [done|]. split; [by destruct r|]. split; [apply fframe_refl|done].
Qed.

(** The end of the replacement: the parent of the deleted record, or
    the root, points to the record that takes its place. *)
Lemma del_relink_spec k c y f h yr l pa par :
  (k < n_keys)%nat → fwf f → (k < length (root h))%nat → cpos c → 0 < y →
  crepr (view f k) c y → y ∉ cnodes c → NoDup (cnodes c) →
  pth f c pa par → root_k h k = ctop c y →
  ∃ v',
    del_relink k y (Z.of_nat (length c)) (mk_dv f h yr l pa par) = Ok v' ∧
    dv_yr v' = yr ∧ dv_l v' = l ∧ dv_pa v' = pa ∧
    (∀ i, Z.of_nat (length c) ≤ i → dv_par v' i = par i) ∧
    crepr (view (dv_f v') k) c (pa (Z.of_nat (length c))) ∧ fwf (dv_f v') ∧
    fframe k (fx <$> c) f (dv_f v') ∧
    roots_changed [k] h (dv_h v') ∧
    root_k (dv_h v') k = ctop c (pa (Z.of_nat (length c))) ∧
    pth (dv_f v') c pa (dv_par v').
Proof.
  intros Hk Hf Hkr Hpos Hy Hc Hyc Hnd Hp Hroot.
  unfold del_relink. cbn [dv_f dv_h dv_yr dv_l dv_pa dv_par].
  destruct c as [|g c].
  - cbn [length Z.of_nat]. change (0 =? 0) with true. cbn iota.
    eexists. split; [done|]. cbn [dv_f dv_h dv_yr dv_l dv_pa dv_par].
    split; [done|]. split; [done|]. split; [done|]. split; [done|]. split; [done|].
    split; [done|]. split; [apply fframe_refl|]. split; [apply roots_changed_one|].
    split; [|done]. unfold ctop. simpl. by rewrite root_k_set_root_eq.
  - rewrite (proj2 (Z.eqb_neq _ 0)) by (simpl; lia).
    replace (Z.of_nat (length (g :: c)) - 1) with (Z.of_nat (length c)) by (simpl; lia).
    destruct (pth_head _ _ _ _ _ Hp) as [Hpg Hsg].
    set (pm := par (Z.of_nat (length c))) in *.
    set (p := pa (Z.of_nat (length (g :: c)))) in *.
    inversion Hpos as [|? ? Hgpos Hcpos]; subst.
    pose proof (cbounds_nonneg _ Hcpos) as [Hlo Hhi].
    cbn [crepr] in Hc. destruct Hc as (Hx & Hsib & Hc).
    destruct (view_slot_eq _ _ _ _ _ _ Hsg Hx) as (Hnf & Hdf).
    pose proof (fwf_len _ _ _ _ Hf Hsg Hk) as Hlf.
    cbn [cnodes] in Hnd, Hyc. apply NoDup_cons in Hnd as [Hgn Hnd].
    assert (fdir g = R → y ≠ link (fsib g) (cbounds c).1) as Hns.
    { intros _ Heq. destruct (fsib g) as [|sl sx sb sd sr] eqn:Es; simpl in Heq; [lia|].
      apply Hyc. right. apply elem_of_app. left. simpl. rewrite Heq.
      apply elem_of_app. right. by left. }
    destruct (parent_side g c y _ Hy eq_refl Hns) as [Hsl Hsr].
    set (pm' := if nl (nk pm k) =? y then set_kl k p pm else set_kr k p pm).
    assert (nk pm' k = fnode g c p ∧ eqv k pm pm') as [Hnf' Heqv].
    { unfold pm'. rewrite Hnf, Hsl. unfold fnode in *. destruct (fdir g).
      - nk_norm. rewrite Hnf. split; [done|apply eqv_set_nk].
      - nk_norm. rewrite Hnf. split; [done|apply eqv_set_nk]. }
    rewrite fn_lookup_insert, Hpg.
    destruct (rmw k (fx <$> g :: c) f (fx g) pm pm') as (Hw & Hff & Hf1 & Hs1 & Hv1);
      [done|done|done|by left|].
    rewrite Hw. cbn [mbind res_mbind res_bind].
    eexists. split; [done|]. cbn [dv_f dv_h dv_yr dv_l dv_pa dv_par].
    split; [done|]. split; [done|]. split; [done|].
    split; [intros i Hi; rewrite fn_lookup_insert_ne by (simpl in Hi; lia); done|].
    split; [|split; [done|split; [done|]]].
    + cbn [crepr]. split; [|split].
      * by rewrite Hv1, Hnf', Hdf.
      * unfold frepr in *. destruct (fdir g);
          (eapply repr_ext; [|exact Hsib]); intros x Hx';
          apply view_upd_ne; intros <-; apply Hgn, elem_of_app; by left.
      * eapply crepr_ext; [|exact Hc]. intros x Hx'.
        apply view_upd_ne. intros <-. apply Hgn, elem_of_app. by right.
    + split; [apply roots_changed_refl|]. split.
      * rewrite Hroot, !ctop_cons. done.
      * apply (pth_upd_head f _ g c pa par pm' Hp); [| |done].
        -- apply NoDup_cons. split; [intros ?; apply Hgn, elem_of_app; by right|].
           by apply NoDup_app in Hnd as (_ & _ & ?).
        -- intros x Hx'. unfold upd. simpl. by rewrite lookup_insert_ne.
Qed.

Lemma fframe_slots_out k X f f' x : fframe k X f f' → x ∉ X → slots f' !! x = slots f !! x.
Proof. intros (_ & _ & Ho & _) Hx. by apply Ho. Qed.

Lemma fx_in_cnodes c x : x ∈ fx <$> c → x ∈ cnodes c.
Proof. apply fx_cnodes. Qed.

(** The record [p] takes the place of [y] above the left subtree: it
    gets the node of [y], the right subtree of [y] gets the thread to
    [p], and the parent of [y] the link to [p]. *)
Lemma pred_place k c y r p pd f1 h yr1 pf l pa2 par2 ur b' top :
  (k < n_keys)%nat → fwf f1 → (k < length (root h))%nat → cpos c → 0 < y →
  crepr (view f1 k) c y →
  repr (view f1 k) y (cbounds c).2 r →
  NoDup (y :: p :: nodes r ++ cnodes c) →
  slots f1 !! p = Some pf → b pf = pd →
  nk yr1 k = mk_node b' top (link r (cbounds c).2) →
  (is_T r = true → ur_r ur k = lmost r) →
  pth f1 c pa2 par2 → pa2 (Z.of_nat (length c)) = p → par2 (Z.of_nat (length c)) = pf →
  root_k h k = ctop c y →
  let m := Z.of_nat (length c) in
  ∃ v',
    (f ← lwrite f1 (pa2 m) (<[m := set_nk k (nk yr1 k) (par2 m)]> par2 m);
     f ← (if 0 <? nr (nk yr1 k) then
            spr ← lread f (ur_r ur k);
            lwrite f (ur_r ur k) (set_kl k (- pa2 m) spr)
          else Ok f);
     del_relink k y m (mk_dv f h yr1 l pa2 (<[m := set_nk k (nk yr1 k) (par2 m)]> par2)))
      = Ok v' ∧
    dv_yr v' = yr1 ∧ dv_l v' = l ∧ dv_pa v' = pa2 ∧
    (∀ i, m < i → dv_par v' i = par2 i) ∧
    crepr (view (dv_f v') k) (F L p b' pd r :: c) top ∧ fwf (dv_f v') ∧
    fframe k (p :: nodes r ++ (fx <$> c)) f1 (dv_f v') ∧
    roots_changed [k] h (dv_h v') ∧ root_k (dv_h v') k = ctop c p ∧
    pth (dv_f v') (F L p b' pd r :: c) pa2 (dv_par v').
Proof.
  intros Hk Hf Hkr Hpos Hy Hc Hr Hnd Hpf Hpd Hyr Hur Hp Hpa Hpar Hroot m.
  pose proof (cbounds_nonneg _ Hpos) as [Hlo Hhi].
  apply NoDup_cons in Hnd as [Hyn Hnd]. apply NoDup_cons in Hnd as [Hpn Hnd].
  apply NoDup_app in Hnd as (Hndr & Hdisj & Hndc).
  rewrite !elem_of_cons, !elem_of_app in Hyn. rewrite elem_of_app in Hpn.
  pose proof (fwf_len _ _ _ _ Hf Hpf Hk) as Hlpf.
  rewrite fn_lookup_insert. fold m in Hpa, Hpar. rewrite Hpa, Hpar.
  set (pf' := set_nk k (nk yr1 k) pf).
  destruct (rmw k (p :: nodes r ++ (fx <$> c)) f1 p pf pf')
    as (Hw & Hff2 & Hf2 & Hs2 & Hv2); [done|done|apply eqv_set_nk|by left|].
  rewrite Hw. cbn [mbind res_mbind res_bind].
  set (f2 := upd f1 p pf') in *.
  assert (repr (view f2 k) y (cbounds c).2 r) as Hr2.
  { eapply repr_ext; [|exact Hr]. intros x Hx. apply view_upd_ne. intros <-. tauto. }
  destruct (pred_thread_fix k f2 r p y (cbounds c).2 ur Hf2 Hk Hr2 Hndr Hur Hhi)
    as (f3 & Hfix & Hr3 & Hff3 & Hf3).
  rewrite Hyr. cbn [nr]. rewrite Hfix. cbn [mbind res_mbind res_bind].
  assert (∀ x, x ∈ cnodes c → slots f3 !! x = slots f1 !! x) as Hout.
  { intros x Hx. rewrite (fframe_slots_out _ _ _ _ x Hff3).
    - unfold f2, upd. simpl. rewrite lookup_insert_ne; [done|]. intros <-. tauto.
    - intros Hin. by apply (Hdisj x). }
  assert (crepr (view f3 k) c y) as Hc3.
  { eapply crepr_ext; [|exact Hc]. intros x Hx. unfold view. by rewrite Hout. }
  assert (pth f3 c pa2 (<[m := pf']> par2)) as Hp3.
  { apply (pth_file f1); [|done]. eapply pth_ext; [exact Hp|].
    intros i Hi. rewrite fn_lookup_insert_ne by (unfold m; lia). done. }
  destruct (del_relink_spec k c y f3 h yr1 l pa2 (<[m := pf']> par2))
    as (v' & Hrel & Hvy & Hvl & Hvpa & Hvpar & Hc4 & Hf4 & Hff4 & Hrc & Hroot4 & Hp4);
    try done; [tauto|].
  fold m in Hrel, Hvpar, Hc4, Hroot4. rewrite Hpa in Hc4, Hroot4.
  exists v'. split; [exact Hrel|]. split; [done|]. split; [done|]. split; [done|].
  assert (p ∉ fx <$> c) as Hpc by (intros Hin; apply fx_in_cnodes in Hin; tauto).
  assert (slots (dv_f v') !! p = Some pf') as Hs4.
  { rewrite (fframe_slots_out _ _ _ _ p Hff4) by done.
    rewrite (fframe_slots_out _ _ _ _ p Hff3) by tauto. done. }
  split; [intros i Hi; rewrite Hvpar by lia; by rewrite fn_lookup_insert_ne by lia|].
  split; [|split; [done|split; [|split; [done|split; [done|]]]]].
  - cbn [crepr]. split; [|split; [|done]].
    + cbn [fx fd]. unfold view. rewrite Hs4. simpl. unfold pf'.
      rewrite nk_set_nk_eq by done. rewrite Hyr. unfold fnode. simpl. by rewrite <- Hpd.
    + unfold frepr. simpl. eapply repr_ext; [|exact Hr3]. intros x Hx.
      apply (fframe_view_out _ _ _ _ _ Hff4). intros Hin. apply fx_in_cnodes in Hin.
      by apply (Hdisj x).
  - eapply fframe_trans; [exact Hff2|]. eapply fframe_trans.
    + eapply fframe_mono; [|exact Hff3]. intros x Hx. right. apply elem_of_app. by left.
    + eapply fframe_mono; [|exact Hff4]. intros x Hx. right. apply elem_of_app. by right.
  - apply pth_cons; [exact Hp4|exact Hpa|].
    cbn [fx]. fold m. rewrite Hs4, Hvpar by lia. by rewrite fn_lookup_insert.
Qed.

Lemma cpos_of_repr f k c s : fwf f → repr (view f k) 0 0 (plug c s) → cpos c.
Proof.
  intros Hf Hr. apply Forall_forall. intros g Hg.
  assert (fx g ∈ nodes (plug c s)) as Hin.
  { rewrite nodes_plug. apply elem_of_app. right. apply fx_cnodes, list_elem_of_fmap.
    by exists g. }
  destruct (repr_nodes_Some _ _ _ _ _ Hr Hin) as [[nd d] Hv].
  by destruct (view_slot f k _ _ _ Hf Hv) as (? & ? & ? & ? & ? & ?).
Qed.

Lemma cr_spine_R cq : Forall (λ g, fdir g = R) cq → cr cq = [].
Proof. induction 1 as [|g cq Hg Hall IH]; simpl; [done|]. by rewrite Hg, IH. Qed.

Lemma cl_spine_L cq : Forall (λ g, fdir g = L) cq → cl cq = [].
Proof. induction 1 as [|g cq Hg Hall IH]; simpl; [done|]. by rewrite Hg, IH. Qed.

Lemma ctop_app_cons c1 g c child : ctop (c1 ++ g :: c) child = ctop c (fx g).
Proof.
  induction c1 as [|g1 c1 IH] in child |- *; simpl.
  - apply ctop_cons.
  - rewrite ctop_cons. apply IH.
Qed.

(** The path arrays below a node that has been replaced. *)
Lemma pth_splice f f' c1 g1 g2 c pa par pa' par' :
  pth f (c1 ++ g1 :: c) pa par → pth f' (g2 :: c) pa' par' →
  (∀ x, x ∈ fx <$> c1 → slots f' !! x = slots f !! x) →
  (∀ i, Z.of_nat (length c) < i ≤ Z.of_nat (length c + length c1) →
        pa' i = pa i ∧ par' i = par i) →
  pth f' (c1 ++ g2 :: c) pa' par'.
Proof.
  induction c1 as [|g c1 IH]; intros Hp Hp' Hsame Hext; [done|].
  cbn [app] in *. destruct (pth_head _ _ _ _ _ Hp) as [H1 H2].
  assert (length (c1 ++ g2 :: c) = length (c1 ++ g1 :: c)) as Hlen
    by (rewrite !length_app; done).
  apply pth_cons.
  - apply IH; [by eapply pth_tail0|done| |].
    + intros x Hx. apply Hsame. rewrite fmap_cons. by right.
    + intros i Hi. apply Hext. simpl. lia.
  - rewrite Hlen. destruct (Hext (Z.of_nat (length (c1 ++ g1 :: c)))) as [-> _]; [|done].
    rewrite length_app. simpl. lia.
  - rewrite Hlen. destruct (Hext (Z.of_nat (length (c1 ++ g1 :: c)))) as [_ ->].
    + rewrite length_app. simpl. lia.
    + rewrite Hsame; [done|]. rewrite fmap_cons. by left.
Qed.

(** Another record in the place of [y]: the shape of the tree stays. *)
Lemma avl_relabel c l y yb yd r p pd :
  avl (plug c (T l y yb yd r)) → avl (plug c (T l p yb pd r)).
Proof.
  intros Ha. pose proof (avl_plug_inv _ _ Ha) as Hs.
  by destruct (avl_plug_replace c (T l y yb yd r) (T l p yb pd r) Ha).
Qed.

Lemma nodes_pred_swap cq c y yb yd r pl p pb pd :
  y :: nodes (plug (cq ++ F L p yb pd r :: c) pl)
  ≡ₚ nodes (plug (cq ++ F L y yb yd r :: c) (T pl p pb pd E)).
Proof. rewrite !nodes_plug, !cnodes_app. simpl. solve_Permutation. Qed.

Lemma nodes_succ_swap cq c y yb yd pr p pb pd :
  y :: nodes (plug (cq ++ F R p yb pd E :: c) pr)
  ≡ₚ nodes (plug (cq ++ F R y yb yd E :: c) (T E p pb pd pr)).
Proof. rewrite !nodes_plug, !cnodes_app. simpl. solve_Permutation. Qed.

(** What the replacement by the predecessor leaves of the tree. *)
Lemma pred_pure cq c y yb yd r pl p pb pd :
  Forall (λ g, fdir g = R) cq →
  avl (plug (cq ++ F L y yb yd r :: c) (T pl p pb pd E)) →
  avl (plug (cq ++ F L p yb pd r :: c) (T pl p pb pd E)) ∧ avl pl ∧
  height pl = height (T pl p pb pd E) - 1 ∧
  inord (plug (cq ++ F L p yb pd r :: c) pl)
    = cl c ++ inord (plug cq (T pl p pb pd E)) ++ inord r ++ cr c.
Proof.
  intros Hall Ha. split; [|split; [|split]].
  - rewrite plug_app in Ha |- *. simpl in *. unfold fill in *. simpl in *.
    by eapply avl_relabel.
  - apply avl_plug_inv in Ha. simpl in Ha. tauto.
  - simpl. pose proof (height_nonneg pl). lia.
  - rewrite !inord_plug, cl_app, cr_app, (cr_spine_R cq Hall). simpl.
    rewrite <- !app_assoc. simpl. done.
Qed.

Lemma del_pred_shallow k c y yb yd r pl p pb pd f h yr pa par ur fuel :
  (k < n_keys)%nat → fwf f → (k < length (root h))%nat → cpos c →
  repr (view f k) 0 0 (plug c (T (T pl p pb pd E) y yb yd r)) →
  NoDup (nodes (plug c (T (T pl p pb pd E) y yb yd r))) →
  avl (plug c (T (T pl p pb pd E) y yb yd r)) →
  root_k h k = link (plug c (T (T pl p pb pd E) y yb yd r)) 0 →
  height (plug c (T (T pl p pb pd E) y yb yd r)) < path_max →
  pth f c pa par → pa (Z.of_nat (length c)) = y →
  slots f !! y = Some (par (Z.of_nat (length c))) →
  nk yr k = nk (par (Z.of_nat (length c))) k → (k < length (n yr))%nat →
  (is_T r = true → ur_r ur k = lmost r) →
  (2 * length c + 4 < fuel)%nat →
  ∃ v' f' h',
    del_replace_pred fuel k y (Z.of_nat (length c)) ur
      (mk_dv f h yr (Z.of_nat (length c)) pa par) = Ok v' ∧
    eqv k yr (dv_yr v') ∧
    del_rebalance fuel k (dv_f v') (dv_h v') (dv_l v') (dv_pa v') (dv_par v') = Ok (f', h') ∧
    roots_changed [k] h h' ∧
    root_k h' k = link (del_hole (F L p yb pd r :: c) pl) 0 ∧
    repr (view f' k) 0 0 (del_hole (F L p yb pd r :: c) pl) ∧
    fframe k (nodes (plug (F L p yb pd r :: c) pl)) f f' ∧ fwf f'.
Proof.
  intros Hk Hf Hkr Hpos Hr Hnd Ha Hroot Hh Hp Hpa Hsy Hyr Hlyr Hur Hfu.
  set (m := Z.of_nat (length c)) in *.
  pose proof (cbounds_nonneg _ Hpos) as [Hlo Hhi].
  pose proof (plug_height c (T (T pl p pb pd E) y yb yd r)) as Hph.
  assert (2 ≤ height (T (T pl p pb pd E) y yb yd r)) as Hh2.
  { simpl. pose proof (height_nonneg pl). pose proof (height_nonneg r). lia. }
  pose proof Hr as Hr0. apply repr_plug in Hr0 as (Hc & Hrs).
  unfold hlink in Hc. cbn [link] in Hc.
  cbn [repr link] in Hrs. destruct Hrs as (Hvy & (Hvp & Hrpl & _) & Hrr).
  destruct (view_slot_eq _ _ _ _ _ _ Hsy Hvy) as (Hny & Hby).
  destruct (view_slot f k _ _ _ Hf Hvp) as (pf & Hsp & Hreadp & Hnp & Hbp & Hppos).
  destruct (view_slot f k _ _ _ Hf Hvy) as (_ & _ & _ & _ & _ & Hypos).
  pose proof (avl_plug_inv _ _ Ha) as Hay. simpl in Hay.
  pose proof (nodes_pred_swap [] c y yb yd r pl p pb pd) as Hswap.
  cbn [app] in Hswap. change (plug (F L y yb yd r :: c) (T pl p pb pd E))
    with (plug c (T (T pl p pb pd E) y yb yd r)) in Hswap.
  assert (NoDup (y :: nodes (plug (F L p yb pd r :: c) pl))) as Hnd1 by (by rewrite Hswap).
  rewrite nodes_plug in Hnd1. cbn [cnodes fx fsib] in Hnd1.
  unfold del_replace_pred. cbn [dv_f dv_h dv_yr dv_l dv_pa dv_par].
  rewrite in_bounds_ok by (unfold m; lia).
  cbv zeta. rewrite !fn_lookup_insert. rewrite Hny. cbn [nl]. rewrite Hreadp. cbn [mbind res_mbind res_bind].
  rewrite !fn_lookup_insert. rewrite Hnp. cbn [nr nl]. rewrite (proj2 (Z.ltb_ge 0 (- y))) by lia.
  cbn [mbind res_mbind res_bind].
  set (yr1 := set_kb k _ (set_kl k (link pl (cbounds c).1) yr)).
  assert (nk yr1 k = mk_node (yb - 1) (link pl (cbounds c).1) (link r (cbounds c).2)) as Hyr1.
  { unfold yr1. nk_norm. rewrite Hyr, Hny. simpl.
    rewrite wrap8_small by lia. done. }
  assert (eqv k yr yr1) as Heqv by apply eqv_set_kb, eqv_set_kl, eqv_refl.
  set (pa1 := <[m + 1 := p]> pa).
  set (par1 := <[m + 1 := pf]> par).
  assert (pa1 (m + 1) = p) as Hpa1 by (unfold pa1; by rewrite fn_lookup_insert).
  assert (par1 (m + 1) = pf) as Hpar1 by (unfold par1; by rewrite fn_lookup_insert).
  rewrite Hpa1, Hpar1. rewrite !fn_lookup_insert.
  assert (NoDup (y :: p :: nodes r ++ cnodes c)) as Hnd2.
  { apply NoDup_cons in Hnd1 as [Hy1 Hnd1]. apply NoDup_app in Hnd1 as (_ & _ & Hnd1).
    apply NoDup_cons. split; [|done]. intros Hin. apply Hy1, elem_of_app. by right. }
  destruct (pred_place k c y r p pd f h yr1 pf (m + 1 - 1) (<[m := p]> pa1)
              (<[m := pf]> par1) ur (yb - 1) (link pl (cbounds c).1))
    as (v' & Hrun & Hvy' & Hvl & Hvpa & Hvpar & Hc' & Hf' & Hff' & Hrc' & Hroot' & Hp');
    try done.
  { eapply pth_ext; [exact Hp|]. intros i Hi. unfold pa1, par1.
    rewrite !fn_lookup_insert_ne by (unfold m; lia). done. }
  { by rewrite fn_lookup_insert. }
  { by rewrite fn_lookup_insert. }
  { rewrite Hroot. apply link_plug_ctop. }
  cbv zeta in Hrun. fold m in Hrun. rewrite !fn_lookup_insert in Hrun.
  set (cs := F L p yb pd r :: c).
  assert (repr (view (dv_f v') k) 0 0 (plug (shrink (F L p yb pd r) :: c) pl)) as Hr1.
  { apply repr_plug. split; [exact Hc'|].
    change (cbounds (shrink (F L p yb pd r) :: c)) with ((cbounds c).1, p). cbn [fst snd].
    eapply repr_ext; [|exact Hrpl]. intros x Hx.
    apply (fframe_view_out _ _ _ _ _ Hff'). intros Hin.
    apply NoDup_cons in Hnd1 as [_ Hnd1]. apply NoDup_app in Hnd1 as (_ & Hd & _).
    apply (Hd x Hx). apply elem_of_cons in Hin as [->|Hin]; [by left|].
    right. apply elem_of_app in Hin as [Hin|Hin]; apply elem_of_app; [by left|right].
    by apply fx_cnodes. }
  destruct (pred_pure [] c y yb yd r pl p pb pd) as (Ha1 & Ha2 & Hh1 & _); [done|done|].
  assert (k < length (root (dv_h v')))%nat as Hkr'.
  { destruct Hrc' as (_ & -> & _). done. }
  assert (cpos (F L p yb pd r :: c)) as Hpos' by (by constructor).
  assert (NoDup (nodes (plug (F L p yb pd r :: c) pl))) as Hnd'.
  { rewrite nodes_plug. by apply NoDup_cons in Hnd1 as [_ ?]. }
  assert (root_k (dv_h v') k = link (plug (F L p yb pd r :: c) pl) 0) as Hroot1.
  { rewrite Hroot'. rewrite link_plug_ctop. by rewrite ctop_cons. }
  destruct (del_walk_spec k (F L p yb pd r) c pl (T pl p pb pd E) (dv_f v') (dv_h v')
              (<[m := p]> pa1) (dv_par v') fuel Hk Hf' Hkr' Hpos' Hr1 Hnd'
              (pth_set_fbal _ yb _ _ _ _ Hp') Hroot1 Ha1 Ha2 Hh1)
    as (f' & h' & Hrun' & Hrc'' & Hroot'' & Hr' & Hff'' & Hf''); [lia|].
  exists v', f', h'. split; [exact Hrun|]. split; [by rewrite Hvy'|].
  rewrite Hvl, Hvpa. replace (m + 1 - 1) with m by lia.
  split; [exact Hrun'|]. split; [by eapply roots_changed_trans|].
  split; [done|]. split; [done|]. split; [|done].
  eapply fframe_trans; [|exact Hff''].
  eapply fframe_mono; [|exact Hff']. intros x Hx. rewrite nodes_plug.
  apply elem_of_app. right. cbn [cnodes fx fsib].
  apply elem_of_cons in Hx as [->|Hx]; [by left|]. right.
  apply elem_of_app in Hx as [Hx|Hx]; apply elem_of_app; [by left|right].
  by apply fx_cnodes.
Qed.

(** The root of a subtree that is not its own rightmost (leftmost) node
    has a right (left) child. *)
Lemma spine_root_right f k lo hi cq X r0 :
  fwf f → cq ≠ [] → Forall (λ g, fdir g = R) cq → is_T X = true →
  0 ≤ hi → repr (view f k) lo hi (plug cq X) →
  slots f !! link (plug cq X) 0 = Some r0 → 0 < nr (nk r0 k).
Proof.
  intros Hf Hne Hall HT Hhi Hr Hs.
  destruct cq as [|g cq _] using rev_ind; [done|].
  apply Forall_app in Hall as [_ Hg]. apply Forall_cons in Hg as [Hg _].
  rewrite plug_app in Hr, Hs. cbn [plug] in Hr, Hs. unfold fill in Hr, Hs.
  rewrite Hg in Hr, Hs. cbn [link repr] in Hr, Hs. destruct Hr as (Hv & _ & Hrr).
  destruct (view_slot_eq _ _ _ _ _ _ Hs Hv) as (-> & _). cbn [nr].
  assert (is_T (plug cq X) = true) as HT' by (destruct cq; [done|apply is_T_plug_cons]).
  pose proof (link_test f k _ _ _ hi Hf Hrr Hhi) as Ht. rewrite HT' in Ht.
  by apply Z.ltb_lt in Ht.
Qed.

Lemma spine_root_left f k lo hi cq X r0 :
  fwf f → cq ≠ [] → Forall (λ g, fdir g = L) cq → is_T X = true →
  0 ≤ lo → repr (view f k) lo hi (plug cq X) →
  slots f !! link (plug cq X) 0 = Some r0 → 0 < nl (nk r0 k).
Proof.
  intros Hf Hne Hall HT Hlo Hr Hs.
  destruct cq as [|g cq _] using rev_ind; [done|].
  apply Forall_app in Hall as [_ Hg]. apply Forall_cons in Hg as [Hg _].
  rewrite plug_app in Hr, Hs. cbn [plug] in Hr, Hs. unfold fill in Hr, Hs.
  rewrite Hg in Hr, Hs. cbn [link repr] in Hr, Hs. destruct Hr as (Hv & Hrl & _).
  destruct (view_slot_eq _ _ _ _ _ _ Hs Hv) as (-> & _). cbn [nl].
  assert (is_T (plug cq X) = true) as HT' by (destruct cq; [done|apply is_T_plug_cons]).
  pose proof (link_test f k _ _ _ lo Hf Hrl Hlo) as Ht. rewrite HT' in Ht.
  by apply Z.ltb_lt in Ht.
Qed.

Lemma del_pred_deep k c y yb yd r q cq pl p pb pd f h yr pa par ur fuel :
  (k < n_keys)%nat → fwf f → (k < length (root h))%nat → cpos c →
  Forall (λ g, fdir g = R) (q :: cq) →
  repr (view f k) 0 0 (plug ((q :: cq) ++ F L y yb yd r :: c) (T pl p pb pd E)) →
  NoDup (nodes (plug ((q :: cq) ++ F L y yb yd r :: c) (T pl p pb pd E))) →
  avl (plug ((q :: cq) ++ F L y yb yd r :: c) (T pl p pb pd E)) →
  root_k h k = link (plug ((q :: cq) ++ F L y yb yd r :: c) (T pl p pb pd E)) 0 →
  height (plug ((q :: cq) ++ F L y yb yd r :: c) (T pl p pb pd E)) < path_max →
  pth f c pa par → pa (Z.of_nat (length c)) = y →
  slots f !! y = Some (par (Z.of_nat (length c))) →
  nk yr k = nk (par (Z.of_nat (length c))) k → (k < length (n yr))%nat →
  (is_T r = true → ur_r ur k = lmost r) →
  (2 * length ((q :: cq) ++ F L y yb yd r :: c) + 4 < fuel)%nat →
  ∃ v' f' h',
    del_replace_pred fuel k y (Z.of_nat (length c)) ur
      (mk_dv f h yr (Z.of_nat (length c)) pa par) = Ok v' ∧
    eqv k yr (dv_yr v') ∧
    del_rebalance fuel k (dv_f v') (dv_h v') (dv_l v') (dv_pa v') (dv_par v') = Ok (f', h') ∧
    roots_changed [k] h h' ∧
    root_k h' k = link (del_hole ((q :: cq) ++ F L p yb pd r :: c) pl) 0 ∧
    repr (view f' k) 0 0 (del_hole ((q :: cq) ++ F L p yb pd r :: c) pl) ∧
    fframe k (nodes (plug ((q :: cq) ++ F L p yb pd r :: c) pl)) f f' ∧ fwf f'.
Proof.
  intros Hk Hf Hkr Hpos Hall Hr Hnd Ha Hroot Hh Hp Hpa Hsy Hyr Hlyr Hur Hfu.
  set (m := Z.of_nat (length c)) in *.
  set (gy := F L y yb yd r) in *. set (gp := F L p yb pd r).
  set (X := T pl p pb pd E) in *.
  pose proof (cbounds_nonneg _ Hpos) as [Hlo Hhi].
  pose proof (cpos_of_repr _ _ _ _ Hf Hr) as Hposa.
  pose proof (plug_height ((q :: cq) ++ gy :: c) X) as Hph.
  assert (1 ≤ height X) as HhX.
  { unfold X. simpl. pose proof (height_nonneg pl). lia. }
  apply Forall_cons in Hall as [Hq Hallq].
  (* the records of the old tree *)
  pose proof Hr as Hr0. apply repr_plug in Hr0 as (Hcq & HrX).
  cbn [app crepr] in Hcq. destruct Hcq as (Hvq & Hqsib & Hc').
  unfold hlink in Hvq. cbn [link X] in Hvq.
  change (cbounds ((q :: cq) ++ gy :: c)) with (cbounds (q :: cq ++ gy :: c)) in HrX.
  cbn [cbounds] in HrX. rewrite Hq in HrX. cbn [fst snd] in HrX.
  rewrite (cbounds_spine_R2 cq (gy :: c) Hallq) in HrX. cbn [cbounds gy fdir fx snd] in HrX.
  unfold X in HrX. cbn [repr link] in HrX. destruct HrX as (Hvp & Hrpl & _).
  pose proof Hr as Hr1. rewrite plug_app in Hr1. cbn [plug] in Hr1.
  unfold fill at 1 in Hr1. cbn [gy fdir fx fbal fd fsib] in Hr1.
  set (lsub := plug (q :: cq) X) in *.
  apply repr_plug in Hr1 as (Hc & Hry).
  unfold hlink in Hc. cbn [link] in Hc.
  cbn [repr] in Hry. destruct Hry as (Hvy & Hrl & Hrr).
  assert (is_T lsub = true) as HTl by apply is_T_plug_cons.
  rewrite (link_is_T lsub _ 0 HTl) in Hvy.
  assert (link lsub 0 = ctop cq (fx q)) as Hltop.
  { unfold lsub. rewrite link_plug_ctop. cbn [link X]. apply ctop_cons. }
  rewrite Hltop in Hvy.
  destruct (view_slot_eq _ _ _ _ _ _ Hsy Hvy) as (Hny & Hby).
  destruct (view_slot f k _ _ _ Hf Hvp) as (pf & Hsp & Hreadp & Hnp & Hbp & Hppos).
  destruct (view_slot f k _ _ _ Hf Hvy) as (_ & _ & _ & _ & _ & Hypos).
  destruct (view_slot f k _ _ _ Hf Hvq) as (qf & Hsq & Hreadq & Hnq & Hbq & Hqpos).
  assert (ctop cq (fx q) ∈ nodes lsub) as Htin.
  { rewrite <- Hltop. by apply link_in_nodes. }
  destruct (repr_nodes_Some _ _ _ _ _ Hrl Htin) as [[nd0 d0] Hv0].
  destruct (view_slot f k _ _ _ Hf Hv0) as (r0 & Hs0 & Hread0 & _ & _ & Htpos).
  assert (0 ≤ y) as Hy0 by lia.
  pose proof (spine_root_right f k _ y (q :: cq) X r0 Hf ltac:(done)
                ltac:(by constructor) eq_refl Hy0 Hrl) as Hnr0.
  fold lsub in Hnr0. rewrite Hltop in Hnr0. specialize (Hnr0 Hs0).
  (* the nodes *)
  pose proof (nodes_pred_swap (q :: cq) c y yb yd r pl p pb pd) as Hswap.
  fold gy gp X in Hswap.
  assert (NoDup (y :: nodes (plug ((q :: cq) ++ gp :: c) pl))) as Hnd1 by (by rewrite Hswap).
  apply NoDup_cons in Hnd1 as [Hy1 Hnd1].
  pose proof Hnd1 as Hnd2. rewrite nodes_plug, cnodes_app in Hnd2.
  cbn [app cnodes gp fx fsib] in Hnd2.
  apply NoDup_app in Hnd2 as (Hndpl & Hdpl & Hnd2).
  apply NoDup_cons in Hnd2 as [Hq2 Hnd2].
  apply NoDup_app in Hnd2 as (Hndlow & Hdlow & Hnd3).
  assert (y ∉ p :: nodes r ++ cnodes c) as Hyout.
  { intros Hin. apply Hy1. rewrite nodes_plug, cnodes_app.
    apply elem_of_app. right. apply elem_of_app. right. exact Hin. }
  assert (fx q ∉ p :: nodes r ++ cnodes c) as Hqout.
  { intros Hin. apply Hq2. apply elem_of_app. by right. }
  (* the balances *)
  pose proof Ha as Ha0. change ((q :: cq) ++ gy :: c) with (q :: cq ++ gy :: c) in Ha0.
  cbn [plug] in Ha0. pose proof (avl_plug_inv _ _ Ha0) as Haq.
  pose proof (avl_fill_bal _ _ Haq) as Hqb.
  pose proof Ha as Ha1. rewrite plug_app in Ha1. cbn [plug] in Ha1.
  pose proof (avl_plug_inv _ _ Ha1) as Hay. pose proof (avl_fill_bal _ _ Hay) as Hyb.
  cbn [gy fbal] in Hyb.
  (* the walk to the predecessor *)
  unfold del_replace_pred. cbn [dv_f dv_h dv_yr dv_l dv_pa dv_par].
  assert (Z.of_nat (length ((q :: cq) ++ gy :: c)) < path_max) as Hlen by lia.
  rewrite length_app in Hlen. cbn [length] in Hlen.
  rewrite in_bounds_ok by (unfold m; lia).
  cbv zeta. rewrite !fn_lookup_insert. rewrite Hny. cbn [nl]. rewrite Hread0.
  cbn [mbind res_mbind res_bind]. rewrite !fn_lookup_insert.
  rewrite (proj2 (Z.ltb_lt _ _) Hnr0).
  set (pa1 := <[m + 1 := ctop cq (fx q)]> pa).
  set (par1 := <[m + 1 := r0]> par).
  replace (m + 1) with (Z.of_nat (length (gy :: c))) by (unfold m; simpl; lia).
  destruct (del_go_right_spec k f Hf (q :: cq) ltac:(by constructor) (gy :: c)
              pl p pb pd pa1 par1 fuel Hr Hposa)
    as (pa' & par' & Hgo & Hp' & Hpa' & Hsp' & Hsame).
  { apply pth_cons.
    - eapply pth_ext; [exact Hp|]. intros i Hi. unfold pa1, par1.
      rewrite !fn_lookup_insert_ne by (unfold m; lia). done.
    - unfold pa1. rewrite fn_lookup_insert_ne by (unfold m; lia). exact Hpa.
    - unfold par1. rewrite fn_lookup_insert_ne by (unfold m; lia). exact Hsy. }
  { unfold pa1. replace (Z.of_nat (length (gy :: c))) with (m + 1) by (unfold m; simpl; lia).
    rewrite fn_lookup_insert. by rewrite ctop_cons. }
  { unfold par1. replace (Z.of_nat (length (gy :: c))) with (m + 1) by (unfold m; simpl; lia).
    rewrite fn_lookup_insert. by rewrite ctop_cons. }
  { rewrite length_app. cbn [length]. lia. }
  { rewrite length_app in Hfu. cbn [length] in Hfu. cbn [length]. lia. }
  rewrite Hgo. cbn [mbind res_mbind res_bind].
  set (li := Z.of_nat (length ((q :: cq) ++ gy :: c))) in *.
  assert (li - 1 = Z.of_nat (length (cq ++ gy :: c))) as Hli by (unfold li; simpl; lia).
  assert (Z.of_nat (length (cq ++ gy :: c)) = m + 1 + Z.of_nat (length cq)) as Hli2.
  { rewrite length_app. unfold m. simpl. lia. }
  change ((q :: cq) ++ gy :: c) with (q :: cq ++ gy :: c) in Hp'.
  destruct (pth_head _ _ _ _ _ Hp') as [Hpq Hsq'].
  rewrite <- Hli in Hpq, Hsq'.
  assert (par' (li - 1) = qf) as Hparq by congruence.
  assert (par' li = pf) as Hparp by congruence.
  rewrite Hpa', Hparq, Hparp, Hpq. rewrite Hnp. cbn [nl].
  rewrite (relink (λ v, set_kr k v qf) f k _ _ pl (fx q) p Hf Hrpl) by lia.
  pose proof (fwf_len _ _ _ _ Hf Hsq Hk) as Hlq.
  set (p1 := set_kb k _ (set_kr k (link pl p) qf)).
  assert (nk p1 k = mk_node (fbal q + 1) (link (fsib q) (cbounds (cq ++ gy :: c)).1)
                       (link pl p)) as Hnp1.
  { unfold p1. nk_norm. rewrite Hnq. unfold fnode. rewrite Hq. simpl.
    rewrite wrap8_small by lia. done. }
  assert (eqv k qf p1) as Heqv1 by apply eqv_set_kb, eqv_set_kr, eqv_refl.
  rewrite fn_lookup_insert.
  destruct (rmw k [fx q] f (fx q) qf p1) as (Hw1 & Hff1 & Hf1 & Hs1 & Hv1);
    [done|done|done|by left|].
  rewrite Hw1. cbn [mbind res_mbind res_bind].
  set (f1 := upd f (fx q) p1) in *.
  set (par'' := <[li - 1 := p1]> par').
  assert (par'' li = pf) as Hpar''p.
  { unfold par''. rewrite fn_lookup_insert_ne by lia. done. }
  rewrite Hpar''p.
  assert (∀ x, x ≠ fx q → slots f1 !! x = slots f !! x) as Hout1.
  { intros x Hx. unfold f1, upd. simpl. by rewrite lookup_insert_ne. }
  assert (∀ x, x ≠ fx q → view f1 k x = view f k x) as Hvout1.
  { intros x Hx. unfold view. by rewrite Hout1. }
  (* the upper part *)
  assert ((fx q ∉ cnodes c) ∧ (fx q ∉ nodes r) ∧ fx q ≠ p ∧ fx q ≠ y)
    as (Hqc & Hqr & Hqp & Hqy).
  { rewrite !elem_of_cons, !elem_of_app in Hqout. split; [tauto|]. split; [tauto|].
    split; [tauto|]. intros Heq. apply Hy1. rewrite <- Heq, nodes_plug, cnodes_app.
    apply elem_of_app. right. apply elem_of_app. left. cbn [cnodes]. by left. }
  destruct (pred_place k c y r p pd f1 h yr pf (li - 1) (<[m := p]> pa')
              (<[m := pf]> par'') ur yb (ctop cq (fx q)))
    as (v' & Hrun & Hvy' & Hvl & Hvpa & Hvpar & Hcup & Hf' & Hff' & Hrc' & Hroot' & Hpup);
    try done.
  { eapply crepr_ext; [|exact Hc]. intros x Hx. apply Hvout1. by intros ->. }
  { eapply repr_ext; [|exact Hrr]. intros x Hx. apply Hvout1. by intros ->. }
  { apply NoDup_cons. split; [done|exact Hnd3]. }
  { rewrite Hout1 by done. done. }
  { by rewrite Hyr, Hny. }
  { apply (pth_file f); [|intros x Hx; apply Hout1; by intros ->].
    eapply pth_ext; [exact Hp|]. intros i Hi. fold m in Hi.
    destruct (Hsame i) as [E1 E2]; [simpl; lia|].
    rewrite !fn_lookup_insert_ne by lia. unfold par''.
    rewrite fn_lookup_insert_ne by lia. rewrite E1, E2. unfold pa1, par1.
    rewrite !fn_lookup_insert_ne by lia. done. }
  { by rewrite fn_lookup_insert. }
  { by rewrite fn_lookup_insert. }
  { rewrite Hroot. rewrite plug_app. cbn [plug]. rewrite link_plug_ctop.
    by rewrite link_fill. }
  cbv zeta in Hrun. fold m in Hrun. rewrite !fn_lookup_insert in Hrun.
  (* the new tree *)
  set (S' := view (dv_f v') k) in *.
  assert (∀ x, x ∉ p :: nodes r ++ (fx <$> c) → x ≠ fx q → S' x = view f k x) as HS'.
  { intros x Hx Hxq. unfold S'. rewrite (fframe_view_out _ _ _ _ _ Hff' Hx).
    by apply Hvout1. }
  assert (∀ x, x ∈ nodes pl ∨ x ∈ nodes (fsib q) ∨ x ∈ cnodes cq →
               (x ∉ p :: nodes r ++ (fx <$> c)) ∧ x ≠ fx q) as Hlow.
  { intros x Hx. split.
    - intros Hin. assert (x ∈ p :: nodes r ++ cnodes c) as Hin'.
      { apply elem_of_cons in Hin as [->|Hin]; [by left|right].
        apply elem_of_app in Hin as [?|?]; apply elem_of_app; [by left|right].
        by apply fx_cnodes. }
      destruct Hx as [Hx|[Hx|Hx]].
      + apply (Hdpl x Hx). right. apply elem_of_app. by right.
      + apply (Hdlow x); [apply elem_of_app; by left|done].
      + apply (Hdlow x); [apply elem_of_app; by right|done].
    - intros ->. destruct Hx as [Hx|[Hx|Hx]].
      + apply (Hdpl _ Hx). by left.
      + apply Hq2. apply elem_of_app. left. apply elem_of_app. by left.
      + apply Hq2. apply elem_of_app. left. apply elem_of_app. by right. }
  assert (repr S' 0 0 (plug (shrink q :: cq ++ gp :: c) pl)) as Hr'.
  { apply repr_plug. split.
    - cbn [crepr]. split; [|split].
      + change (fx (shrink q)) with (fx q). change (fd (shrink q)) with (fd q).
        unfold S'. rewrite (fframe_view_out _ _ _ _ _ Hff').
        2:{ intros Hin. apply Hqout. apply elem_of_cons in Hin as [->|Hin]; [by left|right].
            apply elem_of_app in Hin as [?|?]; apply elem_of_app; [by left|right].
            by apply fx_cnodes. }
        rewrite Hv1, Hnp1, Hbq. do 2 f_equal.
        unfold fnode, hlink, hthr, shrink. cbn [fdir set_fbal fbal fsib fx]. rewrite Hq.
        cbn [dsign cbounds fdir set_fbal fx fbal fsib]. rewrite ?Hq. cbn [snd].
        rewrite (cbounds_spine_R2 cq (gp :: c) Hallq). cbn [cbounds gp fdir fx snd].
        rewrite (cbounds_spine_R1 cq gy gp c Hallq eq_refl eq_refl).
        f_equal; lia.
      + unfold frepr in *. change (fdir (shrink q)) with (fdir q).
        change (fsib (shrink q)) with (fsib q). change (fx (shrink q)) with (fx q).
        rewrite Hq in *.
        rewrite <- (cbounds_spine_R1 cq gy gp c Hallq eq_refl eq_refl).
        eapply repr_ext; [|exact Hqsib]. intros x Hx.
        apply HS'; apply Hlow; tauto.
      + change (fx (shrink q)) with (fx q).
        apply (crepr_spine_R (view f k) S' cq gy gp c (fx q) Hallq eq_refl eq_refl);
          [|done|done].
        intros x Hx. apply HS'; apply Hlow; tauto.
    - cbn [cbounds]. change (fdir (shrink q)) with (fdir q). rewrite Hq.
      change (fx (shrink q)) with (fx q). cbn [fst snd].
      rewrite (cbounds_spine_R2 cq (gp :: c) Hallq). cbn [cbounds gp fdir fx snd].
      eapply repr_ext; [|exact Hrpl]. intros x Hx. apply HS'; apply Hlow; tauto. }
  assert (k < length (root (dv_h v')))%nat as Hkr'.
  { destruct Hrc' as (_ & -> & _). done. }
  assert (cpos (q :: cq ++ gp :: c)) as Hpos'.
  { unfold cpos in *. change ((q :: cq) ++ gy :: c) with ((q :: cq) ++ [gy] ++ c) in Hposa.
    apply Forall_app in Hposa as [Hp1 Hp2]. apply Forall_app in Hp2 as [_ Hp2].
    apply Forall_cons in Hp1 as [Hq0 Hp1]. constructor; [done|].
    apply Forall_app. split; [done|]. by constructor. }
  assert (root_k (dv_h v') k = link (plug (q :: cq ++ gp :: c) pl) 0) as Hroot1.
  { rewrite Hroot'. rewrite link_plug_ctop.
    change (q :: cq ++ gp :: c) with ((q :: cq) ++ gp :: c). by rewrite ctop_app_cons. }
  assert (pth (dv_f v') (q :: cq ++ gp :: c) (<[m := p]> pa') (dv_par v')) as Hpth'.
  { assert (length (cq ++ gp :: c) = length (cq ++ gy :: c)) as Hleq
      by (rewrite !length_app; done).
    apply pth_cons.
    - apply (pth_splice f (dv_f v') cq gy gp c pa' par'); [by eapply pth_tail0|done| |].
      + intros x Hx. apply fx_cnodes in Hx.
        rewrite (fframe_slots_out _ _ _ _ x Hff') by (apply Hlow; tauto).
        apply Hout1. apply Hlow. tauto.
      + intros i Hi. fold m in Hi. rewrite fn_lookup_insert_ne by lia.
        split; [done|]. rewrite Hvpar by lia. rewrite fn_lookup_insert_ne by lia.
        unfold par''. rewrite fn_lookup_insert_ne; [done|]. rewrite Hli, Hli2. lia.
    - rewrite Hleq, <- Hli. rewrite fn_lookup_insert_ne by lia. done.
    - rewrite Hleq, <- Hli. rewrite Hvpar by lia. rewrite fn_lookup_insert_ne by lia.
      unfold par''. rewrite fn_lookup_insert.
      rewrite (fframe_slots_out _ _ _ _ (fx q) Hff').
      + done.
      + intros Hin. apply Hqout. apply elem_of_cons in Hin as [->|Hin]; [by left|right].
        apply elem_of_app in Hin as [?|?]; apply elem_of_app; [by left|right].
        by apply fx_cnodes. }
  destruct (pred_pure (q :: cq) c y yb yd r pl p pb pd) as (Hax & Hapl & Hhpl & _);
    [by constructor|done|].
  fold gp X in Hax, Hhpl.
  destruct (del_walk_spec k q (cq ++ gp :: c) pl X (dv_f v') (dv_h v')
              (<[m := p]> pa') (dv_par v') fuel Hk Hf' Hkr' Hpos' Hr' Hnd1 Hpth' Hroot1
              Hax Hapl Hhpl)
    as (f' & h' & Hrun' & Hrc'' & Hroot'' & Hr'' & Hff'' & Hf'').
  { rewrite !length_app in Hfu |- *. cbn [length] in Hfu |- *. lia. }
  rewrite Hpa', !fn_lookup_insert.
  exists v', f', h'. split; [exact Hrun|]. split; [by rewrite Hvy'; apply eqv_refl|].
  rewrite Hvl, Hvpa. rewrite Hli.
  replace (length (cq ++ gy :: c)) with (length (cq ++ gp :: c))
    by (rewrite !length_app; done).
  split; [exact Hrun'|]. split; [by eapply roots_changed_trans|].
  split; [done|]. split; [done|]. split; [|done].
  eapply fframe_trans; [|exact Hff''].
  eapply fframe_trans.
  - eapply fframe_mono; [|exact Hff1]. intros x ->%list_elem_of_singleton.
    rewrite nodes_plug. apply elem_of_app. right. cbn [app cnodes]. by left.
  - eapply fframe_mono; [|exact Hff']. intros x Hx. rewrite nodes_plug, cnodes_app.
    apply elem_of_app. right. apply elem_of_app. right. cbn [cnodes gp fx fsib].
    apply elem_of_cons in Hx as [->|Hx]; [by left|right].
    apply elem_of_app in Hx as [?|?]; apply elem_of_app; [by left|right].
    by apply fx_cnodes.
Qed.

(** The successor in the place of [y], which has no left subtree: no
    thread points to [y] from the left. *)
Lemma succ_place k c y p pd f1 h yr1 pf l pa2 par2 ur b' top :
  (k < n_keys)%nat → fwf f1 → (k < length (root h))%nat → cpos c → 0 < y →
  crepr (view f1 k) c y →
  NoDup (y :: p :: cnodes c) →
  slots f1 !! p = Some pf → b pf = pd →
  nk yr1 k = mk_node b' (- (cbounds c).1) top →
  pth f1 c pa2 par2 → pa2 (Z.of_nat (length c)) = p → par2 (Z.of_nat (length c)) = pf →
  root_k h k = ctop c y →
  let m := Z.of_nat (length c) in
  ∃ v',
    (f ← lwrite f1 (pa2 m) (<[m := set_nk k (nk yr1 k) (par2 m)]> par2 m);
     f ← (if 0 <? nl (nk yr1 k) then
            spr ← lread f (ur_l ur k);
            lwrite f (ur_l ur k) (set_kr k (- pa2 m) spr)
          else Ok f);
     del_relink k y m (mk_dv f h yr1 l pa2 (<[m := set_nk k (nk yr1 k) (par2 m)]> par2)))
      = Ok v' ∧
    dv_yr v' = yr1 ∧ dv_l v' = l ∧ dv_pa v' = pa2 ∧
    (∀ i, m < i → dv_par v' i = par2 i) ∧
    crepr (view (dv_f v') k) (F R p b' pd E :: c) top ∧ fwf (dv_f v') ∧
    fframe k (p :: (fx <$> c)) f1 (dv_f v') ∧
    roots_changed [k] h (dv_h v') ∧ root_k (dv_h v') k = ctop c p ∧
    pth (dv_f v') (F R p b' pd E :: c) pa2 (dv_par v').
Proof.
  intros Hk Hf Hkr Hpos Hy Hc Hnd Hpf Hpd Hyr Hp Hpa Hpar Hroot m.
  pose proof (cbounds_nonneg _ Hpos) as [Hlo Hhi].
  apply NoDup_cons in Hnd as [Hyn Hnd]. apply NoDup_cons in Hnd as [Hpn Hndc].
  rewrite !elem_of_cons in Hyn.
  pose proof (fwf_len _ _ _ _ Hf Hpf Hk) as Hlpf.
  rewrite fn_lookup_insert. fold m in Hpa, Hpar. rewrite Hpa, Hpar.
  set (pf' := set_nk k (nk yr1 k) pf).
  destruct (rmw k (p :: (fx <$> c)) f1 p pf pf')
    as (Hw & Hff2 & Hf2 & Hs2 & Hv2); [done|done|apply eqv_set_nk|by left|].
  rewrite Hw. cbn [mbind res_mbind res_bind].
  set (f2 := upd f1 p pf') in *.
  rewrite Hyr. cbn [nl]. rewrite (proj2 (Z.ltb_ge 0 (- (cbounds c).1))) by lia.
  cbn [mbind res_mbind res_bind].
  assert (∀ x, x ∈ cnodes c → slots f2 !! x = slots f1 !! x) as Hout.
  { intros x Hx. unfold f2, upd. simpl. rewrite lookup_insert_ne; [done|]. by intros <-. }
  assert (crepr (view f2 k) c y) as Hc3.
  { eapply crepr_ext; [|exact Hc]. intros x Hx. unfold view. by rewrite Hout. }
  assert (pth f2 c pa2 (<[m := pf']> par2)) as Hp3.
  { apply (pth_file f1); [|done]. eapply pth_ext; [exact Hp|].
    intros i Hi. rewrite fn_lookup_insert_ne by (unfold m; lia). done. }
  destruct (del_relink_spec k c y f2 h yr1 l pa2 (<[m := pf']> par2))
    as (v' & Hrel & Hvy & Hvl & Hvpa & Hvpar & Hc4 & Hf4 & Hff4 & Hrc & Hroot4 & Hp4);
    try done; [tauto|].
  fold m in Hrel, Hvpar, Hc4, Hroot4. rewrite Hpa in Hc4, Hroot4.
  exists v'. split; [exact Hrel|]. split; [done|]. split; [done|]. split; [done|].
  assert (p ∉ fx <$> c) as Hpc by (intros Hin; apply fx_in_cnodes in Hin; tauto).
  assert (slots (dv_f v') !! p = Some pf') as Hs4.
  { rewrite (fframe_slots_out _ _ _ _ p Hff4) by done. done. }
  split; [intros i Hi; rewrite Hvpar by lia; by rewrite fn_lookup_insert_ne by lia|].
  split; [|split; [done|split; [|split; [done|split; [done|]]]]].
  - cbn [crepr]. split; [|split; [|done]].
    + cbn [fx fd]. unfold view. rewrite Hs4. simpl. unfold pf'.
      rewrite nk_set_nk_eq by done. rewrite Hyr. unfold fnode. simpl. by rewrite <- Hpd.
    + unfold frepr. simpl. done.
  - eapply fframe_trans; [exact Hff2|].
    eapply fframe_mono; [|exact Hff4]. intros x Hx. by right.
  - apply pth_cons; [exact Hp4|exact Hpa|].
    cbn [fx]. fold m. rewrite Hs4, Hvpar by lia. by rewrite fn_lookup_insert.
Qed.

(** What the replacement by the successor leaves of the tree. *)
Lemma succ_pure cq c y yb yd pr p pb pd :
  Forall (λ g, fdir g = L) cq →
  avl (plug (cq ++ F R y yb yd E :: c) (T E p pb pd pr)) →
  avl (plug (cq ++ F R p yb pd E :: c) (T E p pb pd pr)) ∧ avl pr ∧
  height pr = height (T E p pb pd pr) - 1 ∧
  inord (plug (cq ++ F R p yb pd E :: c) pr)
    = cl c ++ inord (plug cq (T E p pb pd pr)) ++ cr c.
Proof.
  intros Hall Ha. split; [|split; [|split]].
  - rewrite plug_app in Ha |- *. simpl in *. unfold fill in *. simpl in *.
    by eapply avl_relabel.
  - apply avl_plug_inv in Ha. simpl in Ha. tauto.
  - simpl. pose proof (height_nonneg pr). lia.
  - rewrite !inord_plug, cl_app, cr_app, (cl_spine_L cq Hall). simpl.
    rewrite <- !app_assoc. simpl. done.
Qed.

Lemma del_succ_shallow k c y yb yd pr p pb pd f h yr pa par ur fuel :
  (k < n_keys)%nat → fwf f → (k < length (root h))%nat → cpos c →
  repr (view f k) 0 0 (plug c (T E y yb yd (T E p pb pd pr))) →
  NoDup (nodes (plug c (T E y yb yd (T E p pb pd pr)))) →
  avl (plug c (T E y yb yd (T E p pb pd pr))) →
  root_k h k = link (plug c (T E y yb yd (T E p pb pd pr))) 0 →
  height (plug c (T E y yb yd (T E p pb pd pr))) < path_max →
  pth f c pa par → pa (Z.of_nat (length c)) = y →
  slots f !! y = Some (par (Z.of_nat (length c))) →
  nk yr k = nk (par (Z.of_nat (length c))) k → (k < length (n yr))%nat →
  (2 * length c + 4 < fuel)%nat →
  ∃ v' f' h',
    del_replace_succ fuel k y (Z.of_nat (length c)) ur
      (mk_dv f h yr (Z.of_nat (length c)) pa par) = Ok v' ∧
    eqv k yr (dv_yr v') ∧
    del_rebalance fuel k (dv_f v') (dv_h v') (dv_l v') (dv_pa v') (dv_par v') = Ok (f', h') ∧
    roots_changed [k] h h' ∧
    root_k h' k = link (del_hole (F R p yb pd E :: c) pr) 0 ∧
    repr (view f' k) 0 0 (del_hole (F R p yb pd E :: c) pr) ∧
    fframe k (nodes (plug (F R p yb pd E :: c) pr)) f f' ∧ fwf f'.
Proof.
  intros Hk Hf Hkr Hpos Hr Hnd Ha Hroot Hh Hp Hpa Hsy Hyr Hlyr Hfu.
  set (m := Z.of_nat (length c)) in *.
  pose proof (cbounds_nonneg _ Hpos) as [Hlo Hhi].
  pose proof (plug_height c (T E y yb yd (T E p pb pd pr))) as Hph.
  assert (2 ≤ height (T E y yb yd (T E p pb pd pr))) as Hh2.
  { simpl. pose proof (height_nonneg pr). lia. }
  pose proof Hr as Hr0. apply repr_plug in Hr0 as (Hc & Hrs).
  unfold hlink in Hc. cbn [link] in Hc.
  cbn [repr link] in Hrs. destruct Hrs as (Hvy & _ & (Hvp & _ & Hrpr)).
  destruct (view_slot_eq _ _ _ _ _ _ Hsy Hvy) as (Hny & Hby).
  destruct (view_slot f k _ _ _ Hf Hvp) as (pf & Hsp & Hreadp & Hnp & Hbp & Hppos).
  destruct (view_slot f k _ _ _ Hf Hvy) as (_ & _ & _ & _ & _ & Hypos).
  pose proof (avl_plug_inv _ _ Ha) as Hay. simpl in Hay.
  pose proof (nodes_succ_swap [] c y yb yd pr p pb pd) as Hswap.
  cbn [app] in Hswap. change (plug (F R y yb yd E :: c) (T E p pb pd pr))
    with (plug c (T E y yb yd (T E p pb pd pr))) in Hswap.
  assert (NoDup (y :: nodes (plug (F R p yb pd E :: c) pr))) as Hnd1 by (by rewrite Hswap).
  rewrite nodes_plug in Hnd1. cbn [cnodes fx fsib nodes app] in Hnd1.
  unfold del_replace_succ. cbn [dv_f dv_h dv_yr dv_l dv_pa dv_par].
  rewrite in_bounds_ok by (unfold m; lia).
  cbv zeta. rewrite !fn_lookup_insert. rewrite Hny. cbn [nr]. rewrite Hreadp.
  cbn [mbind res_mbind res_bind].
  rewrite !fn_lookup_insert. rewrite Hnp. cbn [nr nl]. rewrite (proj2 (Z.ltb_ge 0 (- y))) by lia.
  cbn [mbind res_mbind res_bind].
  set (yr1 := set_kb k _ (set_kr k (link pr (cbounds c).2) yr)).
  assert (nk yr1 k = mk_node (yb + 1) (- (cbounds c).1) (link pr (cbounds c).2)) as Hyr1.
  { unfold yr1. nk_norm. rewrite Hyr, Hny. simpl.
    rewrite wrap8_small by lia. done. }
  assert (eqv k yr yr1) as Heqv by apply eqv_set_kb, eqv_set_kr, eqv_refl.
  set (pa1 := <[m + 1 := p]> pa).
  set (par1 := <[m + 1 := pf]> par).
  assert (pa1 (m + 1) = p) as Hpa1 by (unfold pa1; by rewrite fn_lookup_insert).
  assert (par1 (m + 1) = pf) as Hpar1 by (unfold par1; by rewrite fn_lookup_insert).
  rewrite Hpa1, Hpar1. rewrite !fn_lookup_insert.
  assert (NoDup (y :: p :: cnodes c)) as Hnd2.
  { apply NoDup_cons in Hnd1 as [Hy1 Hnd1]. apply NoDup_app in Hnd1 as (_ & _ & Hnd1).
    apply NoDup_cons. split; [|done]. intros Hin. apply Hy1, elem_of_app. by right. }
  destruct (succ_place k c y p pd f h yr1 pf (m + 1 - 1) (<[m := p]> pa1)
              (<[m := pf]> par1) ur (yb + 1) (link pr (cbounds c).2))
    as (v' & Hrun & Hvy' & Hvl & Hvpa & Hvpar & Hc' & Hf' & Hff' & Hrc' & Hroot' & Hp');
    try done.
  { eapply pth_ext; [exact Hp|]. intros i Hi. unfold pa1, par1.
    rewrite !fn_lookup_insert_ne by (unfold m; lia). done. }
  { by rewrite fn_lookup_insert. }
  { by rewrite fn_lookup_insert. }
  { rewrite Hroot. apply link_plug_ctop. }
  cbv zeta in Hrun. fold m in Hrun. rewrite !fn_lookup_insert in Hrun.
  assert (repr (view (dv_f v') k) 0 0 (plug (shrink (F R p yb pd E) :: c) pr)) as Hr1.
  { apply repr_plug. split; [exact Hc'|].
    change (cbounds (shrink (F R p yb pd E) :: c)) with (p, (cbounds c).2). cbn [fst snd].
    eapply repr_ext; [|exact Hrpr]. intros x Hx.
    apply (fframe_view_out _ _ _ _ _ Hff'). intros Hin.
    apply NoDup_cons in Hnd1 as [_ Hnd1]. apply NoDup_app in Hnd1 as (_ & Hd & _).
    apply (Hd x Hx). apply elem_of_cons in Hin as [->|Hin]; [by left|].
    right. by apply fx_cnodes. }
  destruct (succ_pure [] c y yb yd pr p pb pd) as (Ha1 & Ha2 & Hh1 & _); [done|done|].
  assert (k < length (root (dv_h v')))%nat as Hkr'.
  { destruct Hrc' as (_ & -> & _). done. }
  assert (cpos (F R p yb pd E :: c)) as Hpos' by (by constructor).
  assert (NoDup (nodes (plug (F R p yb pd E :: c) pr))) as Hnd'.
  { rewrite nodes_plug. by apply NoDup_cons in Hnd1 as [_ ?]. }
  assert (root_k (dv_h v') k = link (plug (F R p yb pd E :: c) pr) 0) as Hroot1.
  { rewrite Hroot'. rewrite link_plug_ctop. by rewrite ctop_cons. }
  destruct (del_walk_spec k (F R p yb pd E) c pr (T E p pb pd pr) (dv_f v') (dv_h v')
              (<[m := p]> pa1) (dv_par v') fuel Hk Hf' Hkr' Hpos' Hr1 Hnd'
              (pth_set_fbal _ yb _ _ _ _ Hp') Hroot1 Ha1 Ha2 Hh1)
    as (f' & h' & Hrun' & Hrc'' & Hroot'' & Hr' & Hff'' & Hf''); [lia|].
  exists v', f', h'. split; [exact Hrun|]. split; [by rewrite Hvy'|].
  rewrite Hvl, Hvpa. replace (m + 1 - 1) with m by lia.
  split; [exact Hrun'|]. split; [by eapply roots_changed_trans|].
  split; [done|]. split; [done|]. split; [|done].
  eapply fframe_trans; [|exact Hff''].
  eapply fframe_mono; [|exact Hff']. intros x Hx. rewrite nodes_plug.
  apply elem_of_app. right. cbn [cnodes fx fsib nodes app].
  apply elem_of_cons in Hx as [->|Hx]; [by left|]. right.
  by apply fx_cnodes.
Qed.

Lemma del_succ_deep k c y yb yd q cq pr p pb pd f h yr pa par ur fuel :
  (k < n_keys)%nat → fwf f → (k < length (root h))%nat → cpos c →
  Forall (λ g, fdir g = L) (q :: cq) →
  repr (view f k) 0 0 (plug ((q :: cq) ++ F R y yb yd E :: c) (T E p pb pd pr)) →
  NoDup (nodes (plug ((q :: cq) ++ F R y yb yd E :: c) (T E p pb pd pr))) →
  avl (plug ((q :: cq) ++ F R y yb yd E :: c) (T E p pb pd pr)) →
  root_k h k = link (plug ((q :: cq) ++ F R y yb yd E :: c) (T E p pb pd pr)) 0 →
  height (plug ((q :: cq) ++ F R y yb yd E :: c) (T E p pb pd pr)) < path_max →
  pth f c pa par → pa (Z.of_nat (length c)) = y →
  slots f !! y = Some (par (Z.of_nat (length c))) →
  nk yr k = nk (par (Z.of_nat (length c))) k → (k < length (n yr))%nat →
  (2 * length ((q :: cq) ++ F R y yb yd E :: c) + 4 < fuel)%nat →
  ∃ v' f' h',
    del_replace_succ fuel k y (Z.of_nat (length c)) ur
      (mk_dv f h yr (Z.of_nat (length c)) pa par) = Ok v' ∧
    eqv k yr (dv_yr v') ∧
    del_rebalance fuel k (dv_f v') (dv_h v') (dv_l v') (dv_pa v') (dv_par v') = Ok (f', h') ∧
    roots_changed [k] h h' ∧
    root_k h' k = link (del_hole ((q :: cq) ++ F R p yb pd E :: c) pr) 0 ∧
    repr (view f' k) 0 0 (del_hole ((q :: cq) ++ F R p yb pd E :: c) pr) ∧
    fframe k (nodes (plug ((q :: cq) ++ F R p yb pd E :: c) pr)) f f' ∧ fwf f'.
Proof.
  intros Hk Hf Hkr Hpos Hall Hr Hnd Ha Hroot Hh Hp Hpa Hsy Hyr Hlyr Hfu.
  set (m := Z.of_nat (length c)) in *.
  set (gy := F R y yb yd E) in *. set (gp := F R p yb pd E).
  set (X := T E p pb pd pr) in *.
  pose proof (cbounds_nonneg _ Hpos) as [Hlo Hhi].
  pose proof (cpos_of_repr _ _ _ _ Hf Hr) as Hposa.
  pose proof (plug_height ((q :: cq) ++ gy :: c) X) as Hph.
  assert (1 ≤ height X) as HhX.
  { unfold X. simpl. pose proof (height_nonneg pr). lia. }
  apply Forall_cons in Hall as [Hq Hallq].
  (* the records of the old tree *)
  pose proof Hr as Hr0. apply repr_plug in Hr0 as (Hcq & HrX).
  cbn [app crepr] in Hcq. destruct Hcq as (Hvq & Hqsib & Hc').
  unfold hlink in Hvq. cbn [link X] in Hvq.
  change (cbounds ((q :: cq) ++ gy :: c)) with (cbounds (q :: cq ++ gy :: c)) in HrX.
  cbn [cbounds] in HrX. rewrite Hq in HrX. cbn [fst snd] in HrX.
  rewrite (cbounds_spine_L1 cq (gy :: c) Hallq) in HrX. cbn [cbounds gy fdir fx fst] in HrX.
  unfold X in HrX. cbn [repr link] in HrX. destruct HrX as (Hvp & _ & Hrpr).
  pose proof Hr as Hr1. rewrite plug_app in Hr1. cbn [plug] in Hr1.
  unfold fill at 1 in Hr1. cbn [gy fdir fx fbal fd fsib] in Hr1.
  set (rsub := plug (q :: cq) X) in *.
  apply repr_plug in Hr1 as (Hc & Hry).
  unfold hlink in Hc. cbn [link] in Hc.
  cbn [repr] in Hry. destruct Hry as (Hvy & _ & Hrr).
  assert (is_T rsub = true) as HTl by apply is_T_plug_cons.
  rewrite (link_is_T rsub _ 0 HTl) in Hvy.
  assert (link rsub 0 = ctop cq (fx q)) as Hltop.
  { unfold rsub. rewrite link_plug_ctop. cbn [link X]. apply ctop_cons. }
  rewrite Hltop in Hvy.
  destruct (view_slot_eq _ _ _ _ _ _ Hsy Hvy) as (Hny & Hby).
  destruct (view_slot f k _ _ _ Hf Hvp) as (pf & Hsp & Hreadp & Hnp & Hbp & Hppos).
  destruct (view_slot f k _ _ _ Hf Hvy) as (_ & _ & _ & _ & _ & Hypos).
  destruct (view_slot f k _ _ _ Hf Hvq) as (qf & Hsq & Hreadq & Hnq & Hbq & Hqpos).
  assert (ctop cq (fx q) ∈ nodes rsub) as Htin.
  { rewrite <- Hltop. by apply link_in_nodes. }
  destruct (repr_nodes_Some _ _ _ _ _ Hrr Htin) as [[nd0 d0] Hv0].
  destruct (view_slot f k _ _ _ Hf Hv0) as (r0 & Hs0 & Hread0 & _ & _ & Htpos).
  assert (0 ≤ y) as Hy0 by lia.
  pose proof (spine_root_left f k y _ (q :: cq) X r0 Hf ltac:(done)
                ltac:(by constructor) eq_refl Hy0 Hrr) as Hnl0.
  fold rsub in Hnl0. rewrite Hltop in Hnl0. specialize (Hnl0 Hs0).
  (* the nodes *)
  pose proof (nodes_succ_swap (q :: cq) c y yb yd pr p pb pd) as Hswap.
  fold gy gp X in Hswap.
  assert (NoDup (y :: nodes (plug ((q :: cq) ++ gp :: c) pr))) as Hnd1 by (by rewrite Hswap).
  apply NoDup_cons in Hnd1 as [Hy1 Hnd1].
  pose proof Hnd1 as Hnd2. rewrite nodes_plug, cnodes_app in Hnd2.
  cbn [app cnodes gp fx fsib nodes] in Hnd2.
  apply NoDup_app in Hnd2 as (Hndpr & Hdpr & Hnd2).
  apply NoDup_cons in Hnd2 as [Hq2 Hnd2].
  apply NoDup_app in Hnd2 as (Hndlow & Hdlow & Hnd3).
  assert (y ∉ p :: cnodes c) as Hyout.
  { intros Hin. apply Hy1. rewrite nodes_plug, cnodes_app.
    apply elem_of_app. right. apply elem_of_app. right. exact Hin. }
  assert (fx q ∉ p :: cnodes c) as Hqout.
  { intros Hin. apply Hq2. apply elem_of_app. by right. }
  (* the balances *)
  pose proof Ha as Ha0. change ((q :: cq) ++ gy :: c) with (q :: cq ++ gy :: c) in Ha0.
  cbn [plug] in Ha0. pose proof (avl_plug_inv _ _ Ha0) as Haq.
  pose proof (avl_fill_bal _ _ Haq) as Hqb.
  pose proof Ha as Ha1. rewrite plug_app in Ha1. cbn [plug] in Ha1.
  pose proof (avl_plug_inv _ _ Ha1) as Hay. pose proof (avl_fill_bal _ _ Hay) as Hyb.
  cbn [gy fbal] in Hyb.
  (* the walk to the successor *)
  unfold del_replace_succ. cbn [dv_f dv_h dv_yr dv_l dv_pa dv_par].
  assert (Z.of_nat (length ((q :: cq) ++ gy :: c)) < path_max) as Hlen by lia.
  rewrite length_app in Hlen. cbn [length] in Hlen.
  rewrite in_bounds_ok by (unfold m; lia).
  cbv zeta. rewrite !fn_lookup_insert. rewrite Hny. cbn [nr]. rewrite Hread0.
  cbn [mbind res_mbind res_bind]. rewrite !fn_lookup_insert.
  rewrite (proj2 (Z.ltb_lt _ _) Hnl0).
  set (pa1 := <[m + 1 := ctop cq (fx q)]> pa).
  set (par1 := <[m + 1 := r0]> par).
  replace (m + 1) with (Z.of_nat (length (gy :: c))) by (unfold m; simpl; lia).
  destruct (del_go_left_spec k f Hf (q :: cq) ltac:(by constructor) (gy :: c)
              pr p pb pd pa1 par1 fuel Hr Hposa)
    as (pa' & par' & Hgo & Hp' & Hpa' & Hsp' & Hsame).
  { apply pth_cons.
    - eapply pth_ext; [exact Hp|]. intros i Hi. unfold pa1, par1.
      rewrite !fn_lookup_insert_ne by (unfold m; lia). done.
    - unfold pa1. rewrite fn_lookup_insert_ne by (unfold m; lia). exact Hpa.
    - unfold par1. rewrite fn_lookup_insert_ne by (unfold m; lia). exact Hsy. }
  { unfold pa1. replace (Z.of_nat (length (gy :: c))) with (m + 1) by (unfold m; simpl; lia).
    rewrite fn_lookup_insert. by rewrite ctop_cons. }
  { unfold par1. replace (Z.of_nat (length (gy :: c))) with (m + 1) by (unfold m; simpl; lia).
    rewrite fn_lookup_insert. by rewrite ctop_cons. }
  { rewrite length_app. cbn [length]. lia. }
  { rewrite length_app in Hfu. cbn [length] in Hfu. cbn [length]. lia. }
  rewrite Hgo. cbn [mbind res_mbind res_bind].
  set (li := Z.of_nat (length ((q :: cq) ++ gy :: c))) in *.
  assert (li - 1 = Z.of_nat (length (cq ++ gy :: c))) as Hli by (unfold li; simpl; lia).
  assert (Z.of_nat (length (cq ++ gy :: c)) = m + 1 + Z.of_nat (length cq)) as Hli2.
  { rewrite length_app. unfold m. simpl. lia. }
  change ((q :: cq) ++ gy :: c) with (q :: cq ++ gy :: c) in Hp'.
  destruct (pth_head _ _ _ _ _ Hp') as [Hpq Hsq'].
  rewrite <- Hli in Hpq, Hsq'.
  assert (par' (li - 1) = qf) as Hparq by congruence.
  assert (par' li = pf) as Hparp by congruence.
  rewrite Hpa', Hparq, Hparp, Hpq. rewrite Hnp. cbn [nr].
  rewrite (relink (λ v, set_kl k v qf) f k _ _ pr (fx q) p Hf Hrpr) by lia.
  pose proof (fwf_len _ _ _ _ Hf Hsq Hk) as Hlq.
  set (p1 := set_kb k _ (set_kl k (link pr p) qf)).
  assert (nk p1 k = mk_node (fbal q - 1) (link pr p)
                       (link (fsib q) (cbounds (cq ++ gy :: c)).2)) as Hnp1.
  { unfold p1. nk_norm. rewrite Hnq. unfold fnode. rewrite Hq. simpl.
    rewrite wrap8_small by lia. done. }
  assert (eqv k qf p1) as Heqv1 by apply eqv_set_kb, eqv_set_kl, eqv_refl.
  rewrite fn_lookup_insert.
  destruct (rmw k [fx q] f (fx q) qf p1) as (Hw1 & Hff1 & Hf1 & Hs1 & Hv1);
    [done|done|done|by left|].
  rewrite Hw1. cbn [mbind res_mbind res_bind].
  set (f1 := upd f (fx q) p1) in *.
  set (par'' := <[li - 1 := p1]> par').
  assert (par'' li = pf) as Hpar''p.
  { unfold par''. rewrite fn_lookup_insert_ne by lia. done. }
  rewrite Hpar''p.
  assert (∀ x, x ≠ fx q → slots f1 !! x = slots f !! x) as Hout1.
  { intros x Hx. unfold f1, upd. simpl. by rewrite lookup_insert_ne. }
  assert (∀ x, x ≠ fx q → view f1 k x = view f k x) as Hvout1.
  { intros x Hx. unfold view. by rewrite Hout1. }
  (* the upper part *)
  assert ((fx q ∉ cnodes c) ∧ fx q ≠ p ∧ fx q ≠ y) as (Hqc & Hqp & Hqy).
  { rewrite !elem_of_cons in Hqout. split; [tauto|].
    split; [tauto|]. intros Heq. apply Hy1. rewrite <- Heq, nodes_plug, cnodes_app.
    apply elem_of_app. right. apply elem_of_app. left. cbn [cnodes]. by left. }
  destruct (succ_place k c y p pd f1 h yr pf (li - 1) (<[m := p]> pa')
              (<[m := pf]> par'') ur yb (ctop cq (fx q)))
    as (v' & Hrun & Hvy' & Hvl & Hvpa & Hvpar & Hcup & Hf' & Hff' & Hrc' & Hroot' & Hpup);
    try done.
  { eapply crepr_ext; [|exact Hc]. intros x Hx. apply Hvout1. by intros ->. }
  { apply NoDup_cons. split; [done|exact Hnd3]. }
  { rewrite Hout1 by done. done. }
  { by rewrite Hyr, Hny. }
  { apply (pth_file f); [|intros x Hx; apply Hout1; by intros ->].
    eapply pth_ext; [exact Hp|]. intros i Hi. fold m in Hi.
    destruct (Hsame i) as [E1 E2]; [simpl; lia|].
    rewrite !fn_lookup_insert_ne by lia. unfold par''.
    rewrite fn_lookup_insert_ne by lia. rewrite E1, E2. unfold pa1, par1.
    rewrite !fn_lookup_insert_ne by lia. done. }
  { by rewrite fn_lookup_insert. }
  { by rewrite fn_lookup_insert. }
  { rewrite Hroot. rewrite plug_app. cbn [plug]. rewrite link_plug_ctop.
    by rewrite link_fill. }
  cbv zeta in Hrun. fold m in Hrun. rewrite !fn_lookup_insert in Hrun.
  (* the new tree *)
  set (S' := view (dv_f v') k) in *.
  assert (∀ x, x ∉ p :: (fx <$> c) → x ≠ fx q → S' x = view f k x) as HS'.
  { intros x Hx Hxq. unfold S'. rewrite (fframe_view_out _ _ _ _ _ Hff' Hx).
    by apply Hvout1. }
  assert (∀ x, x ∈ nodes pr ∨ x ∈ nodes (fsib q) ∨ x ∈ cnodes cq →
               (x ∉ p :: (fx <$> c)) ∧ x ≠ fx q) as Hlow.
  { intros x Hx. split.
    - intros Hin. assert (x ∈ p :: cnodes c) as Hin'.
      { apply elem_of_cons in Hin as [->|Hin]; [by left|right]. by apply fx_cnodes. }
      destruct Hx as [Hx|[Hx|Hx]].
      + apply (Hdpr x Hx). right. apply elem_of_app. by right.
      + apply (Hdlow x); [apply elem_of_app; by left|done].
      + apply (Hdlow x); [apply elem_of_app; by right|done].
    - intros ->. destruct Hx as [Hx|[Hx|Hx]].
      + apply (Hdpr _ Hx). by left.
      + apply Hq2. apply elem_of_app. left. apply elem_of_app. by left.
      + apply Hq2. apply elem_of_app. left. apply elem_of_app. by right. }
  assert (repr S' 0 0 (plug (shrink q :: cq ++ gp :: c) pr)) as Hr'.
  { apply repr_plug. split.
    - cbn [crepr]. split; [|split].
      + change (fx (shrink q)) with (fx q). change (fd (shrink q)) with (fd q).
        unfold S'. rewrite (fframe_view_out _ _ _ _ _ Hff').
        2:{ intros Hin. apply Hqout. apply elem_of_cons in Hin as [->|Hin]; [by left|right].
            by apply fx_cnodes. }
        rewrite Hv1, Hnp1, Hbq. do 2 f_equal.
        unfold fnode, hlink, hthr, shrink. cbn [fdir set_fbal fbal fsib fx]. rewrite Hq.
        cbn [dsign cbounds fdir set_fbal fx fbal fsib]. rewrite ?Hq. cbn [fst].
        rewrite (cbounds_spine_L1 cq (gp :: c) Hallq). cbn [cbounds gp fdir fx fst].
        rewrite (cbounds_spine_L2 cq gy gp c Hallq eq_refl eq_refl).
        f_equal; lia.
      + unfold frepr in *. change (fdir (shrink q)) with (fdir q).
        change (fsib (shrink q)) with (fsib q). change (fx (shrink q)) with (fx q).
        rewrite Hq in *.
        rewrite <- (cbounds_spine_L2 cq gy gp c Hallq eq_refl eq_refl).
        eapply repr_ext; [|exact Hqsib]. intros x Hx.
        apply HS'; apply Hlow; tauto.
      + change (fx (shrink q)) with (fx q).
        apply (crepr_spine_L (view f k) S' cq gy gp c (fx q) Hallq eq_refl eq_refl);
          [|done|done].
        intros x Hx. apply HS'; apply Hlow; tauto.
    - cbn [cbounds]. change (fdir (shrink q)) with (fdir q). rewrite Hq.
      change (fx (shrink q)) with (fx q). cbn [fst snd].
      rewrite (cbounds_spine_L1 cq (gp :: c) Hallq). cbn [cbounds gp fdir fx fst].
      eapply repr_ext; [|exact Hrpr]. intros x Hx. apply HS'; apply Hlow; tauto. }
  assert (k < length (root (dv_h v')))%nat as Hkr'.
  { destruct Hrc' as (_ & -> & _). done. }
  assert (cpos (q :: cq ++ gp :: c)) as Hpos'.
  { unfold cpos in *. change ((q :: cq) ++ gy :: c) with ((q :: cq) ++ [gy] ++ c) in Hposa.
    apply Forall_app in Hposa as [Hp1 Hp2]. apply Forall_app in Hp2 as [_ Hp2].
    apply Forall_cons in Hp1 as [Hq0 Hp1]. constructor; [done|].
    apply Forall_app. split; [done|]. by constructor. }
  assert (root_k (dv_h v') k = link (plug (q :: cq ++ gp :: c) pr) 0) as Hroot1.
  { rewrite Hroot'. rewrite link_plug_ctop.
    change (q :: cq ++ gp :: c) with ((q :: cq) ++ gp :: c). by rewrite ctop_app_cons. }
  assert (pth (dv_f v') (q :: cq ++ gp :: c) (<[m := p]> pa') (dv_par v')) as Hpth'.
  { assert (length (cq ++ gp :: c) = length (cq ++ gy :: c)) as Hleq
      by (rewrite !length_app; done).
    apply pth_cons.
    - apply (pth_splice f (dv_f v') cq gy gp c pa' par'); [by eapply pth_tail0|done| |].
      + intros x Hx. apply fx_cnodes in Hx.
        rewrite (fframe_slots_out _ _ _ _ x Hff') by (apply Hlow; tauto).
        apply Hout1. apply Hlow. tauto.
      + intros i Hi. fold m in Hi. rewrite fn_lookup_insert_ne by lia.
        split; [done|]. rewrite Hvpar by lia. rewrite fn_lookup_insert_ne by lia.
        unfold par''. rewrite fn_lookup_insert_ne; [done|]. rewrite Hli, Hli2. lia.
    - rewrite Hleq, <- Hli. rewrite fn_lookup_insert_ne by lia. done.
    - rewrite Hleq, <- Hli. rewrite Hvpar by lia. rewrite fn_lookup_insert_ne by lia.
      unfold par''. rewrite fn_lookup_insert.
      rewrite (fframe_slots_out _ _ _ _ (fx q) Hff').
      + done.
      + intros Hin. apply Hqout. apply elem_of_cons in Hin as [->|Hin]; [by left|right].
        by apply fx_cnodes. }
  destruct (succ_pure (q :: cq) c y yb yd pr p pb pd) as (Hax & Hapr & Hhpr & _);
    [by constructor|done|].
  fold gp X in Hax, Hhpr.
  destruct (del_walk_spec k q (cq ++ gp :: c) pr X (dv_f v') (dv_h v')
              (<[m := p]> pa') (dv_par v') fuel Hk Hf' Hkr' Hpos' Hr' Hnd1 Hpth' Hroot1
              Hax Hapr Hhpr)
    as (f' & h' & Hrun' & Hrc'' & Hroot'' & Hr'' & Hff'' & Hf'').
  { rewrite !length_app in Hfu |- *. cbn [length] in Hfu |- *. lia. }
  rewrite Hpa', !fn_lookup_insert.
  exists v', f', h'. split; [exact Hrun|]. split; [by rewrite Hvy'; apply eqv_refl|].
  rewrite Hvl, Hvpa. rewrite Hli.
  replace (length (cq ++ gy :: c)) with (length (cq ++ gp :: c))
    by (rewrite !length_app; done).
  split; [exact Hrun'|]. split; [by eapply roots_changed_trans|].
  split; [done|]. split; [done|]. split; [|done].
  eapply fframe_trans; [|exact Hff''].
  eapply fframe_trans.
  - eapply fframe_mono; [|exact Hff1]. intros x ->%list_elem_of_singleton.
    rewrite nodes_plug. apply elem_of_app. right. cbn [app cnodes]. by left.
  - eapply fframe_mono; [|exact Hff']. intros x Hx. rewrite nodes_plug, cnodes_app.
    apply elem_of_app. right. apply elem_of_app. right. cbn [cnodes gp fx fsib nodes app].
    apply elem_of_cons in Hx as [->|Hx]; [by left|right].
    by apply fx_cnodes.
Qed.

(** ** One key of a deletion *)

(** The record at the end of the path leaves the tree; what is left is
    balanced and has the other records in their order. *)
Lemma del_splice_spec k c sl y bal d sr f h yr pa par ur fuel :
  (k < n_keys)%nat → fwf f → (k < length (root h))%nat →
  repr (view f k) 0 0 (plug c (T sl y bal d sr)) →
  NoDup (nodes (plug c (T sl y bal d sr))) →
  avl (plug c (T sl y bal d sr)) →
  root_k h k = link (plug c (T sl y bal d sr)) 0 →
  height (plug c (T sl y bal d sr)) < path_max →
  pth f c pa par → pa (Z.of_nat (length c)) = y →
  slots f !! y = Some (par (Z.of_nat (length c))) →
  nk yr k = nk (par (Z.of_nat (length c))) k → (k < length (n yr))%nat →
  (is_T sr = true → ur_r ur k = lmost sr) →
  2 * height (plug c (T sl y bal d sr)) + 2 < Z.of_nat fuel →
  ∃ v' f' h' t',
    del_splice fuel k y (Z.of_nat (length c)) ur
      (mk_dv f h yr (Z.of_nat (length c)) pa par) = Ok v' ∧
    eqv k yr (dv_yr v') ∧
    del_rebalance fuel k (dv_f v') (dv_h v') (dv_l v') (dv_pa v') (dv_par v') = Ok (f', h') ∧
    roots_changed [k] h h' ∧ root_k h' k = link t' 0 ∧ repr (view f' k) 0 0 t' ∧
    fframe k (nodes t') f f' ∧ fwf f' ∧ avl t' ∧
    inord t' = cl c ++ inord sl ++ inord sr ++ cr c.
Proof.
  intros Hk Hf Hkr Hr Hnd Ha Hroot Hh Hp Hpa Hsy Hyr Hlyr Hur Hfu.
  pose proof (cpos_of_repr _ _ _ _ Hf Hr) as Hpos.
  pose proof (cbounds_nonneg _ Hpos) as [Hlo Hhi].
  pose proof Hr as Hr0. apply repr_plug in Hr0 as (Hc & Hrs).
  cbn [repr] in Hrs. destruct Hrs as (Hvy & Hrsl & Hrsr).
  destruct (view_slot_eq _ _ _ _ _ _ Hsy Hvy) as (Hny & Hby).
  destruct (view_slot f k _ _ _ Hf Hvy) as (_ & _ & _ & _ & _ & Hypos).
  unfold del_splice. cbn [dv_l dv_par]. rewrite Hny. cbn [nl nr].
  rewrite (link_test f k _ _ sl _ Hf Hrsl Hlo).
  destruct (is_T sl) eqn:HTl.
  - destruct (rspine_decomp sl HTl) as (cq & pl & p & pb & pd & -> & Hall).
    destruct cq as [|q cq].
    + cbn [plug] in *.
      pose proof (plug_height c (T (T pl p pb pd E) y bal d sr)) as Hph.
      assert (2 ≤ height (T (T pl p pb pd E) y bal d sr)) as Hh2.
      { simpl. pose proof (height_nonneg pl). pose proof (height_nonneg sr). lia. }
      destruct (del_pred_shallow k c y bal d sr pl p pb pd f h yr pa par ur fuel)
        as (v' & f' & h' & Hrun & Heqv & Hreb & Hrc & Hroot' & Hr' & Hff & Hf');
        try done; [lia|].
      destruct (pred_pure [] c y bal d sr pl p pb pd) as (Ha1 & Ha2 & Hh1 & Hin);
        [done|done|].
      cbn [app] in Ha1, Hin.
      destruct (del_hole_ok (F L p bal pd sr :: c) (T pl p pb pd E) pl Ha1 Ha2 Hh1)
        as (Ha' & Hin').
      exists v', f', h', (del_hole (F L p bal pd sr :: c) pl).
      split; [done|]. split; [done|]. split; [done|]. split; [done|]. split; [done|].
      split; [done|]. split; [by rewrite nodes_inord, Hin', <- nodes_inord|].
      split; [done|]. split; [done|]. by rewrite Hin', Hin.
    + assert (plug c (T (plug (q :: cq) (T pl p pb pd E)) y bal d sr)
              = plug ((q :: cq) ++ F L y bal d sr :: c) (T pl p pb pd E)) as Heq
        by (by rewrite plug_app).
      rewrite Heq in *.
      pose proof (plug_height ((q :: cq) ++ F L y bal d sr :: c) (T pl p pb pd E)) as Hph.
      assert (1 ≤ height (T pl p pb pd E)) as Hh2.
      { simpl. pose proof (height_nonneg pl). lia. }
      destruct (del_pred_deep k c y bal d sr q cq pl p pb pd f h yr pa par ur fuel)
        as (v' & f' & h' & Hrun & Heqv & Hreb & Hrc & Hroot' & Hr' & Hff & Hf');
        try done; [lia|].
      destruct (pred_pure (q :: cq) c y bal d sr pl p pb pd) as (Ha1 & Ha2 & Hh1 & Hin);
        [done|done|].
      destruct (del_hole_ok ((q :: cq) ++ F L p bal pd sr :: c) (T pl p pb pd E) pl
                  Ha1 Ha2 Hh1) as (Ha' & Hin').
      exists v', f', h', (del_hole ((q :: cq) ++ F L p bal pd sr :: c) pl).
      split; [done|]. split; [done|]. split; [done|]. split; [done|]. split; [done|].
      split; [done|]. split; [by rewrite nodes_inord, Hin', <- nodes_inord|].
      split; [done|]. split; [done|]. by rewrite Hin', Hin.
  - assert (sl = E) as -> by (by destruct sl).
    cbn [link] in Hny. rewrite (link_test f k _ _ sr _ Hf Hrsr Hhi).
    destruct (is_T sr) eqn:HTr.
    + destruct (lspine_decomp sr HTr) as (cq & pr & p & pb & pd & -> & Hall).
      destruct cq as [|q cq].
      * cbn [plug] in *.
        pose proof (plug_height c (T E y bal d (T E p pb pd pr))) as Hph.
        assert (2 ≤ height (T E y bal d (T E p pb pd pr))) as Hh2.
        { simpl. pose proof (height_nonneg pr). lia. }
        destruct (del_succ_shallow k c y bal d pr p pb pd f h yr pa par ur fuel)
          as (v' & f' & h' & Hrun & Heqv & Hreb & Hrc & Hroot' & Hr' & Hff & Hf');
          try done; [lia|].
        destruct (succ_pure [] c y bal d pr p pb pd) as (Ha1 & Ha2 & Hh1 & Hin);
          [done|done|].
        cbn [app] in Ha1, Hin.
        destruct (del_hole_ok (F R p bal pd E :: c) (T E p pb pd pr) pr Ha1 Ha2 Hh1)
          as (Ha' & Hin').
        exists v', f', h', (del_hole (F R p bal pd E :: c) pr).
        split; [done|]. split; [done|]. split; [done|]. split; [done|]. split; [done|].
        split; [done|]. split; [by rewrite nodes_inord, Hin', <- nodes_inord|].
        split; [done|]. split; [done|]. by rewrite Hin', Hin.
      * assert (plug c (T E y bal d (plug (q :: cq) (T E p pb pd pr)))
                = plug ((q :: cq) ++ F R y bal d E :: c) (T E p pb pd pr)) as Heq
          by (by rewrite plug_app).
        rewrite Heq in *.
        pose proof (plug_height ((q :: cq) ++ F R y bal d E :: c) (T E p pb pd pr)) as Hph.
        assert (1 ≤ height (T E p pb pd pr)) as Hh2.
        { simpl. pose proof (height_nonneg pr). lia. }
        destruct (del_succ_deep k c y bal d q cq pr p pb pd f h yr pa par ur fuel)
          as (v' & f' & h' & Hrun & Heqv & Hreb & Hrc & Hroot' & Hr' & Hff & Hf');
          try done; [lia|].
        destruct (succ_pure (q :: cq) c y bal d pr p pb pd) as (Ha1 & Ha2 & Hh1 & Hin);
          [done|done|].
        destruct (del_hole_ok ((q :: cq) ++ F R p bal pd E :: c) (T E p pb pd pr) pr
                    Ha1 Ha2 Hh1) as (Ha' & Hin').
        exists v', f', h', (del_hole ((q :: cq) ++ F R p bal pd E :: c) pr).
        split; [done|]. split; [done|]. split; [done|]. split; [done|]. split; [done|].
        split; [done|]. split; [by rewrite nodes_inord, Hin', <- nodes_inord|].
        split; [done|]. split; [done|]. by rewrite Hin', Hin.
    + assert (sr = E) as -> by (by destruct sr).
      cbn [link] in Hny.
      pose proof (avl_plug_inv _ _ Ha) as Hay. simpl in Hay.
      assert (bal = 0) as -> by lia.
      pose proof (plug_height c (T E y 0 d E)) as Hph. simpl in Hph.
      destruct (del_leaf_spec k c y d f h yr pa par fuel)
        as (v' & f' & h' & Hrun & Heqv & Hreb & Hrc & Hroot' & Hr' & Hff & Hf');
        try done.
      { by rewrite Hyr, Hny. }
      { by rewrite Hyr, Hny. }
      { lia. }
      destruct (del_hole_ok c (T E y 0 d E) E Ha) as (Ha' & Hin'); [done|done|].
      exists v', f', h', (del_hole c E).
      split; [done|]. split; [by rewrite Heqv; apply eqv_refl|].
      split; [done|]. split; [done|]. split; [done|].
      split; [done|]. split; [by rewrite nodes_inord, Hin', <- nodes_inord|].
      split; [done|]. split; [done|]. by rewrite Hin', inord_plug.
Qed.

Lemma inord_split_nodup t L1 L1' y d d' L2 L2' :
  NoDup (nodes t) → inord t = L1 ++ (y, d) :: L2 → inord t = L1' ++ (y, d') :: L2' →
  L1 = L1' ∧ d = d' ∧ L2 = L2'.
Proof.
  intros Hnd H1 H2. rewrite nodes_inord, H1 in Hnd. rewrite H1 in H2. clear H1.
  revert L1' H2. induction L1 as [|e L1 IH]; intros L1' H2; simpl in *.
  - destruct L1' as [|e' L1']; simpl in H2.
    + by injection H2 as -> ->.
    + injection H2 as <- ->. apply NoDup_cons in Hnd as [Hn _]. exfalso. apply Hn.
      rewrite fmap_app, fmap_cons. apply elem_of_app. right. by left.
  - apply NoDup_cons in Hnd as [Hn Hnd]. destruct L1' as [|e' L1']; simpl in H2.
    + injection H2 as -> <-. exfalso. apply Hn.
      rewrite fmap_app, fmap_cons. apply elem_of_app. right. by left.
    + injection H2 as <- H2. destruct (IH Hnd L1' H2) as (-> & -> & ->). done.
Qed.

Lemma del_key_spec f h y yf yr ur k t fuel :
  fwf f → (k < n_keys)%nat → (k < length (root h))%nat →
  repr (view f k) 0 0 t → root_k h k = link t 0 → avl t → sorted k t →
  NoDup (nodes t) → y ∈ nodes t → Z.of_nat (length (nodes t)) < 2 ^ 63 →
  slots f !! y = Some yf → nk yr k = nk yf k → b yr = b yf → (k < length (n yr))%nat →
  (∀ L1 d L2, inord t = L1 ++ (y, d) :: L2 → ur_r ur k = hd_def 0 L2) →
  (3 * length (nodes t) + 5 ≤ fuel)%nat →
  ∃ f' h' yr' t' L1 d L2,
    del_key fuel f h y yr ur k = Ok (f', h', yr') ∧ eqv k yr yr' ∧
    roots_changed [k] h h' ∧ root_k h' k = link t' 0 ∧ repr (view f' k) 0 0 t' ∧
    fframe k (nodes t') f f' ∧ fwf f' ∧ avl t' ∧
    inord t = L1 ++ (y, d) :: L2 ∧ inord t' = L1 ++ L2.
Proof.
  intros Hf Hk Hkr Hr Hroot Ha Hso Hnd Hy Hn Hsy Hyr Hb Hlyr Hur Hfu.
  destruct (path_start_tree f h k (b yr) (λ p _, p =? y) t fuel) as (res & Hrun & Hpost);
    try done; [lia|].
  unfold del_key. rewrite Hrun. cbn [mbind res_mbind res_bind].
  destruct res as [[[l' pa'] par']|]; cbn [path_post] in Hpost.
  - destruct Hpost as (c & sl & x & bal & d & sr & <- & -> & Hp & Hpa & Hsx & Hhit & Hcmp).
    apply Z.eqb_eq in Hhit as ->.
    assert (par' (Z.of_nat (length c)) = yf) as Hpar by congruence.
    pose proof (avl_height_bound _ Ha Hn) as Hh.
    pose proof (height_le_nodes (plug c (T sl y bal d sr))) as Hhn.
    destruct (del_splice_spec k c sl y bal d sr f h yr pa' par' ur fuel)
      as (v' & f' & h' & t' & Hsp & Heqv & Hreb & Hrc & Hroot' & Hr' & Hff & Hf' & Ha' & Hin);
      try done.
    { by rewrite Hpar. }
    { intros HT. rewrite (Hur (cl c ++ inord sl) d (inord sr ++ cr c)).
      - unfold lmost. apply hd_def_app. by destruct sr as [|? ? ? ? ?]; [|apply inord_T_ne].
      - rewrite inord_plug. simpl. by rewrite <- !app_assoc. }
    { lia. }
    rewrite Hsp. cbn [mbind res_mbind res_bind]. rewrite Hreb.
    cbn [mbind res_mbind res_bind].
    exists f', h', (dv_yr v'), t', (cl c ++ inord sl), d, (inord sr ++ cr c).
    split; [done|]. split; [done|]. split; [done|]. split; [done|]. split; [done|].
    split; [done|]. split; [done|]. split; [done|]. split.
    + rewrite inord_plug. simpl. by rewrite <- !app_assoc.
    + by rewrite Hin, <- !app_assoc.
  - exfalso. rewrite nodes_inord in Hy. apply list_elem_of_fmap in Hy as ([y' d] & -> & Hin).
    simpl in *. destruct (inord_payload f k _ _ _ _ _ Hr Hin) as (s & Hs & Hd).
    assert (s = yf) as -> by congruence.
    specialize (Hpost y' d yf Hin). rewrite Hb, Hd, cmp_refl in Hpost.
    specialize (Hpost eq_refl Hsy). by rewrite Z.eqb_refl in Hpost.
Qed.

(** ** All the keys of a deletion *)

Lemma inord_without_nodes t t' L1 y d L2 :
  NoDup (nodes t) → inord t = L1 ++ (y, d) :: L2 → inord t' = L1 ++ L2 →
  y :: nodes t' ≡ₚ nodes t ∧ (y ∉ nodes t') ∧ NoDup (nodes t').
Proof.
  intros Hnd H1 H2. rewrite !nodes_inord, H1, H2 in *.
  rewrite !fmap_app, fmap_cons in *. simpl in *.
  assert (y :: L1.*1 ++ L2.*1 ≡ₚ L1.*1 ++ y :: L2.*1) as Hp by solve_Permutation.
  split; [done|]. rewrite <- Hp in Hnd. by apply NoDup_cons in Hnd.
Qed.

Lemma sorted_without k t t' L1 e L2 :
  sorted k t → inord t = L1 ++ e :: L2 → inord t' = L1 ++ L2 → sorted k t'.
Proof.
  rewrite !sorted_inord. intros Hs H1 H2. rewrite H1 in Hs. rewrite H2. clear H1 H2.
  induction L1 as [|a L1 IH]; simpl in *.
  - by apply StronglySorted_inv in Hs as [? _].
  - apply StronglySorted_inv in Hs as [Hs Ha]. constructor; [by apply IH|].
    apply Forall_app in Ha as [Ha1 Ha2]. apply Forall_cons in Ha2 as [_ Ha2].
    apply Forall_app. by split.
Qed.

Lemma del_keys_spec fuel y yf ur X (ts : nat → tree) ks :
  NoDup ks → y ∉ X →
  ∀ f h yr,
    fwf f → slots f !! y = Some yf → b yr = b yf → length (n yr) = n_keys →
    (∀ k, k ∈ ks → nk yr k = nk yf k) →
    (∀ k, k ∈ ks →
       (k < n_keys)%nat ∧ (k < length (root h))%nat ∧
       repr (view f k) 0 0 (ts k) ∧ NoDup (nodes (ts k)) ∧ y ∈ nodes (ts k) ∧
       nodes (ts k) ⊆ y :: X ∧ avl (ts k) ∧ sorted k (ts k) ∧
       root_k h k = link (ts k) 0 ∧
       Z.of_nat (length (nodes (ts k))) < 2 ^ 63 ∧
       (∀ L1 d L2, inord (ts k) = L1 ++ (y, d) :: L2 → ur_r ur k = hd_def 0 L2) ∧
       (3 * length (nodes (ts k)) + 5 ≤ fuel)%nat) →
    ∃ f' h' yr' (ts' : nat → tree),
      del_keys fuel f h y yr ur ks = Ok (f', h', yr') ∧ fwf f' ∧ kframe X f f' ∧
      (∀ j x, j ∉ ks → view f' j x = view f j x) ∧
      roots_changed ks h h' ∧
      prev yr' = prev yr ∧ next yr' = next yr ∧ b yr' = b yr ∧
      length (n yr') = n_keys ∧
      ∀ k, k ∈ ks →
        repr (view f' k) 0 0 (ts' k) ∧ root_k h' k = link (ts' k) 0 ∧ avl (ts' k) ∧
        ∃ L1 d L2, inord (ts k) = L1 ++ (y, d) :: L2 ∧ inord (ts' k) = L1 ++ L2.
Proof.
  intros Hndk HyX. induction Hndk as [|k ks Hk Hnd IH]; intros f h yr Hf Hy Hb Hlen Hnk Hall.
  - exists f, h, yr, ts. simpl. split; [done|]. split; [done|]. split; [apply kframe_refl|].
    split; [done|]. split; [apply roots_changed_refl|]. repeat (split; [done|]).
    by intros k ?%elem_of_nil.
  - destruct (Hall k) as (Hkn & Hkr & Hr & Hndk & Hyin & Hsub & Havl & Hso & Hroot & Hn & Hur & Hfu);
      [by left|].
    destruct (del_key_spec f h y yf yr ur k (ts k) fuel)
      as (f1 & h1 & yr1 & t' & L1 & d & L2 & Hrun & Heqv & Hrc1 & Hroot1 & Hr1 & Hff & Hf1
          & Ha1 & Hin & Hin'); try done.
    { apply Hnk. by left. }
    { by rewrite Hlen. }
    destruct (inord_without_nodes _ _ _ _ _ _ Hndk Hin Hin') as (Hperm & Hyt' & Hndt').
    assert (nodes t' ⊆ X) as Hsub'.
    { intros x Hx. assert (x ∈ y :: X) as Hx'.
      { apply Hsub. rewrite <- Hperm. by right. }
      apply elem_of_cons in Hx' as [->|?]; [done|done]. }
    assert (slots f1 !! y = Some yf) as Hy1.
    { by rewrite (fframe_slots_out _ _ _ _ y Hff). }
    pose proof Heqv as (Hp1 & Hn1 & Hb1 & Hl1 & _).
    destruct (IH f1 h1 yr1) as (f' & h' & yr' & ts' & Hrun' & Hf' & Hkf & Hview & Hrc
                                & Hp' & Hn' & Hb' & Hl' & Hall'); try done.
    { congruence. }
    { congruence. }
    { intros k' Hk'. rewrite <- (eqv_nk _ _ _ _ Heqv) by (by intros ->).
      apply Hnk. by right. }
    { intros k' Hk'. destruct (Hall k') as (? & ? & ? & ? & ? & ? & ? & ? & ? & ? & ? & ?);
        [by right|].
      assert (k' ≠ k) as Hne by (by intros ->).
      destruct Hrc1 as (_ & Hlr & Hrk).
      split; [done|]. split; [by rewrite Hlr|].
      split; [eapply repr_ext; [|done]; intros x _; by eapply fframe_view_other|].
      split; [done|]. split; [done|]. split; [done|]. split; [done|]. split; [done|].
      split; [|done]. rewrite Hrk; [done|]. by intros ?%list_elem_of_singleton. }
    exists f', h', yr', (λ j, if decide (j = k) then t' else ts' j).
    cbn [del_keys]. rewrite Hrun. cbn [mbind res_mbind res_bind].
    split; [done|]. split; [done|]. split; [|split; [|split]].
    + eapply kframe_trans; [|done]. by eapply fframe_kframe.
    + intros j x Hj. apply not_elem_of_cons in Hj as [Hjk Hj].
      rewrite Hview by done. by eapply fframe_view_other.
    + eapply roots_changed_trans.
      * eapply roots_changed_mono; [|exact Hrc1]. intros j ->%list_elem_of_singleton. by left.
      * eapply roots_changed_mono; [|exact Hrc]. intros j Hj. by right.
    + split; [congruence|]. split; [congruence|]. split; [congruence|]. split; [done|].
      intros k' [->|Hk']%elem_of_cons.
      * rewrite decide_True by done. split; [|split; [|split; [done|]]].
        -- eapply repr_ext; [|done]. intros x _. by apply Hview.
        -- destruct Hrc as (_ & _ & Hrc). by rewrite Hrc.
        -- by exists L1, d, L2.
      * rewrite decide_False by (by intros ->). by apply Hall'.
Qed.

(** ** The neighbours of the record and the pointers of the handles *)

Lemma inv_nodup_seq f hs Ls Lf Lc ts : inv_with f hs Ls Lf Lc ts → NoDup Ls.
Proof.
  intros [Hlo _ _]. pose proof (lo_nodup _ _ _ _ _ _ Hlo) as Hnd.
  by apply NoDup_app in Hnd as (? & _).
Qed.

Lemma inv_tree_split f hs Ls Lf Lc ts k y :
  inv_with f hs Ls Lf Lc ts → (k < n_keys)%nat → y ∈ Ls →
  NoDup (nodes (ts k)) ∧ y ∈ nodes (ts k) ∧
  ∃ L1 d L2, inord (ts k) = L1 ++ (y, d) :: L2.
Proof.
  intros Hinv Hk Hy. destruct (iw_trees _ _ _ _ _ _ Hinv k Hk) as (_ & _ & Hperm & _).
  pose proof (inv_nodup_seq _ _ _ _ _ _ Hinv) as Hnd.
  split; [by rewrite Hperm|]. split; [by rewrite Hperm|].
  rewrite <- Hperm, nodes_inord in Hy.
  apply list_elem_of_fmap in Hy as ([y' d] & -> & Hin).
  apply list_elem_of_split in Hin as (L1 & L2 & Hin). by exists L1, d, L2.
Qed.

Lemma del_neighbours_spec f hs Ls Lf Lc ts fuel y yr :
  inv_with f hs Ls Lf Lc ts → enough f fuel → y ∈ Ls → slots f !! y = Some yr →
  ∀ ks, Forall (λ k, (k < n_keys)%nat) ks →
  ∃ ur, del_neighbours fuel f yr ks = Ok ur ∧ length ur = length ks ∧
        ∀ i k, ks !! i = Some k →
          ∀ L1 d L2, inord (ts k) = L1 ++ (y, d) :: L2 →
            ur !! i = Some (last_def 0 L1, hd_def 0 L2).
Proof.
  intros Hinv Hfu Hy Hs ks. induction ks as [|k ks IH]; intros Hall.
  - exists []. by split.
  - apply Forall_cons in Hall as [Hk Hall]. destruct (IH Hall) as (ur & Hrun & Hlen & Hur).
    destruct (inv_root_descend _ _ _ _ _ _ k fuel Hinv Hk Hfu) as (Hf & Hr & Hroot & Hhf).
    destruct (inv_tree_split _ _ _ _ _ _ k y Hinv Hk Hy) as (Hnd & _ & L1 & d & L2 & Hin).
    destruct (find_nbr_spec f k Hf (ts k) 0 0 L1 y d L2 yr fuel Hr) as (Hp & Hn & _);
      try done; [lia|].
    exists ((last_def 0 L1, hd_def 0 L2) :: ur). cbn [del_neighbours].
    rewrite Hp, Hn. cbn [mbind res_mbind res_bind]. rewrite Hrun.
    cbn [mbind res_mbind res_bind]. split; [done|]. split; [by simpl; rewrite Hlen|].
    intros [|i] k' Hi L1' d' L2' Hin'; simpl in Hi.
    + injection Hi as <-.
      destruct (inord_split_nodup _ _ _ _ _ _ _ _ Hnd Hin Hin') as (-> & _ & ->). done.
    + simpl. by eapply Hur.
Qed.

Lemma del_neighbours_all f hs Ls Lf Lc ts fuel y yr :
  inv_with f hs Ls Lf Lc ts → enough f fuel → y ∈ Ls → slots f !! y = Some yr →
  ∃ ur, del_neighbours fuel f yr (seq 0 n_keys) = Ok ur ∧
        ∀ k, (k < n_keys)%nat →
          ∀ L1 d L2, inord (ts k) = L1 ++ (y, d) :: L2 →
            ur_l ur k = last_def 0 L1 ∧ ur_r ur k = hd_def 0 L2.
Proof.
  intros Hinv Hfu Hy Hs.
  destruct (del_neighbours_spec f hs Ls Lf Lc ts fuel y yr Hinv Hfu Hy Hs (seq 0 n_keys))
    as (ur & Hrun & Hlen & Hur).
  { apply Forall_forall. intros k Hk%elem_of_seq. lia. }
  exists ur. split; [done|]. intros k Hk L1 d L2 Hin.
  assert (seq 0 n_keys !! k = Some k) as Hi by (by apply lookup_seq).
  specialize (Hur k k Hi L1 d L2 Hin).
  unfold ur_l, ur_r. by rewrite (list_lookup_total_correct _ _ _ Hur).
Qed.

Lemma advance_keys_ceq y ur ks : ∀ cpr u, ceq cpr (advance_keys y ur ks cpr u).1.
Proof.
  induction ks as [|k ks IH]; intros cpr u; simpl; [apply ceq_refl|].
  destruct (nl (nk cpr k) =? y).
  - destruct (nr (nk (set_kl k (ur_l ur k) cpr) k) =? y).
    + eapply ceq_trans; [|apply IH].
      eapply ceq_trans; [apply ceq_set_kl|apply ceq_set_kr].
    + eapply ceq_trans; [|apply IH]. apply ceq_set_kl.
  - destruct (nr (nk cpr k) =? y).
    + eapply ceq_trans; [|apply IH]. apply ceq_set_kr.
    + apply IH.
Qed.

(** The loop over the current-pointer records writes nothing but these
    records, and leaves their places in the list and their tags. *)
Lemma del_advance_spec hs Ls Lf Lc ts y yr ur :
  ∀ Lx fuel f p,
    inv_with f hs Ls Lf Lc ts → chain f p Lx → Lx ⊆ Lc → (length Lx < fuel)%nat →
    ∃ f', del_advance fuel f y yr ur p = Ok f' ∧ inv_with f' hs Ls Lf Lc ts ∧
          hdr f' = hdr f ∧ flen f' = flen f ∧
          (∀ x, x ∉ Lc → slots f' !! x = slots f !! x).
Proof.
  induction Lx as [|x Lx IH]; intros fuel f p Hinv Hc Hsub Hfu.
  - simpl in Hc. subst p. destruct fuel as [|fuel]; [lia|]. exists f. by split.
  - pose proof (iw_lists _ _ _ _ _ _ Hinv) as Hlo.
    pose proof (lists_fwf _ _ _ _ _ _ Hlo) as Hf.
    simpl in Hc. destruct Hc as (-> & s & Hs & Hc).
    destruct (Hf _ _ Hs) as (Hx & _).
    destruct fuel as [|fuel]; [simpl in Hfu; lia|]. cbn [del_advance].
    rewrite (proj2 (Z.ltb_lt _ _)) by done. rewrite (lread_ok _ _ _ Hf Hs).
    cbn [mbind res_mbind res_bind].
    set (c1 := if prev s =? y then (set_prev (next yr) s, true) else (s, false)).
    assert (ceq s c1.1) as Hc1.
    { unfold c1. destruct (prev s =? y); [apply ceq_set_prev|apply ceq_refl]. }
    destruct c1 as [cpr1 u1]. cbn [fst] in Hc1.
    pose proof (advance_keys_ceq y ur (seq 0 n_keys) cpr1 u1) as Hc2.
    destruct (advance_keys y ur (seq 0 n_keys) cpr1 u1) as [cpr2 u2]. cbn [fst] in Hc2.
    pose proof (ceq_trans _ _ _ Hc1 Hc2) as (Hnx & Hb & Hlen & Hnb).
    assert (x ∈ Lc) as HxLc by (apply Hsub; by left).
    assert (inv_with (upd f x cpr2) hs Ls Lf Lc ts) as Hinv2.
    { eapply inv_cursor_write; try done.
      - rewrite Hlen. by eapply lo_nlen.
      - intros Hk. rewrite Hnb. by eapply (lo_tags _ _ _ _ _ _ Hlo).
      - intros Hfit hd Hhd Heq. rewrite Hb.
        destruct (lo_handles _ _ _ _ _ _ Hlo) as [_ Hh].
        destruct (Hh hd Hhd) as [_ Hpid]. apply Hpid; [done|]. by rewrite Heq. }
    assert (∃ f1, (if u2 then lwrite f x cpr2 else Ok f) = Ok f1 ∧
                  inv_with f1 hs Ls Lf Lc ts ∧ hdr f1 = hdr f ∧ flen f1 = flen f ∧
                  (∀ z, z ∉ Lc → slots f1 !! z = slots f !! z) ∧
                  (∀ z sz, slots f !! z = Some sz →
                           ∃ sz', slots f1 !! z = Some sz' ∧ next sz' = next sz))
      as (f1 & Hw & Hinv1 & Hh1 & Hl1 & Ho1 & Hn1).
    { destruct u2.
      - exists (upd f x cpr2). split; [by eapply lwrite_ok|]. split; [done|].
        split; [done|]. split; [done|]. split.
        + intros z Hz. unfold upd. simpl. rewrite lookup_insert_ne; [done|]. by intros ->.
        + intros z sz Hz. unfold upd. simpl. destruct (decide (x = z)) as [->|Hne].
          * rewrite lookup_insert_eq. exists cpr2. split; [done|]. congruence.
          * rewrite lookup_insert_ne by done. by exists sz.
      - exists f. repeat (split; [done|]). intros z sz Hz. by exists sz. }
    rewrite Hw. cbn [mbind res_mbind res_bind]. rewrite Hnx.
    destruct (IH fuel f1 (next s) Hinv1) as (f' & Hrun & Hinv' & Hh' & Hl' & Ho').
    { eapply chain_next_ext; [|exact Hc]. intros z sz _ Hz. by apply Hn1. }
    { intros z Hz. apply Hsub. by right. }
    { simpl in Hfu. lia. }
    exists f'. split; [done|]. split; [done|]. split; [congruence|]. split; [congruence|].
    intros z Hz. rewrite Ho' by done. by apply Ho1.
Qed.

End AvlFile.

(** * A concrete instance

    The payload has 8 bytes ([len = 8]), read as one integer with the
    least significant byte first. The key, under every key index, is the
    integer of its first four bytes, compared by difference; [pid_t]
    has four bytes, so [memcpy (&cpr.b, &pid, sizeof (pid_t))] replaces
    the first four bytes of the payload and keeps the other four, and
    [memcmp] compares the first four. One key, one handle of process 7. *)

Definition demo_low (d : Z) : Z := d mod 2 ^ 32.
Definition demo_cmp (k : Z) (a b : Z) : Z := Z.sgn (demo_low a - demo_low b).
Definition demo_uninit : avl_struct (data := Z) := mk_rec [mk_node 0 0 0] 0 0 0.
Definition demo_put_pid (pid : Z) (d : Z) : Z := d - demo_low d + demo_low pid.
Definition demo_has_pid (pid : Z) (d : Z) : bool := demo_low d =? demo_low pid.

Definition demo_open (fo : option (file (data := Z))) (pid : Z) :=
  avl_file_open 1 8 48 72 demo_uninit true demo_put_pid demo_has_pid 10 fo pid (λ _, true).

(** The file after the first open, by process 7. *)
Definition demo_file0 : file (data := Z) :=
  mk_file (mk_hdr 1 8 48 0 0 [0] 0 0 72) {[ 72 := mk_rec [mk_node 32 0 0] 0 0 7 ]} 120.

Example demo_open_new : demo_open None 7 = Ok (Some (72, demo_file0)).
Proof. vm_compute. reflexivity. Qed.

(** A file whose counter is two short of the largest [int64_t]. *)
Definition demo_file_late : file (data := Z) :=
  mk_file (mk_hdr 1 8 48 0 (2 ^ 63 - 2) [0] 0 0 72)
          {[ 72 := mk_rec [mk_node 32 0 0] 0 0 7 ]} 120.

(** C8 as stated fails where the counter wraps: the second of two calls
    returns less than the first. *)
Lemma getnum_wraps :
  ∃ v1 v2 f, getnums 2 demo_file_late = ([v1; v2], f) ∧ v2 < v1.
Proof.
  exists (2 ^ 63 - 1), (- 2 ^ 63). eexists. split.
  - vm_compute. reflexivity.
  - vm_compute. reflexivity.
Qed.

(** The file after two calls of getnum and a close, and after the next
    open. *)
Definition demo_closed : file (data := Z) :=
  match avl_file_close 1 48 72 10 72 (getnums 2 demo_file0).2 with
  | Ok f => f
  | _ => demo_file0
  end.

Definition demo_reopened : file (data := Z) :=
  match demo_open (Some demo_closed) 7 with
  | Ok (Some (_, f)) => f
  | _ => demo_file0
  end.

Lemma getnum_consecutive_witness :
  (getnums 2 demo_file0).1 ++ (getnums 1 demo_reopened).1 = count_from 0 (2 + 1).
Proof.
  apply (getnum_consecutive 1 8 48 72 demo_uninit true demo_put_pid demo_has_pid
           2 1 demo_file0 demo_closed demo_reopened 10 72 10 7 (λ _, true) 72).
  - vm_compute. discriminate.
  - vm_compute. reflexivity.
  - vm_compute. reflexivity.
  - vm_compute. reflexivity.
Defined.

(** ** The instance meets the assumptions on the callbacks *)

Lemma demo_cmp_refl k a : demo_cmp k a a = 0.
Proof. unfold demo_cmp. by rewrite Z.sub_diag. Qed.

Lemma demo_cmp_sym k a c : demo_cmp k a c < 0 ↔ 0 < demo_cmp k c a.
Proof.
  unfold demo_cmp. generalize (demo_low a) (demo_low c). intros x z.
  pose proof (Z.sgn_spec (x - z)). pose proof (Z.sgn_spec (z - x)). lia.
Qed.

Lemma demo_cmp_trans k a c e :
  demo_cmp k a c ≤ 0 → demo_cmp k c e ≤ 0 → demo_cmp k a e ≤ 0.
Proof.
  unfold demo_cmp. generalize (demo_low a) (demo_low c) (demo_low e). intros x z w.
  pose proof (Z.sgn_spec (x - z)). pose proof (Z.sgn_spec (z - w)).
  pose proof (Z.sgn_spec (x - w)). lia.
Qed.

Lemma demo_has_put_pid p d : demo_has_pid p (demo_put_pid p d) = true.
Proof.
  unfold demo_has_pid, demo_put_pid, demo_low. apply Z.eqb_eq.
  replace (d - d mod 2 ^ 32 + p mod 2 ^ 32) with (p mod 2 ^ 32 + d / 2 ^ 32 * 2 ^ 32)
    by (pose proof (Z.div_mod d (2 ^ 32)); lia).
  rewrite Z.mod_add by lia. apply Z.mod_mod. lia.
Qed.

(** ** Files of the instance, with tree records *)

Definition demo_hs : list handle := [mk_handle 7 72].

Definition demo_insert (f : file (data := Z)) (buf : Z) : res (Z * file) :=
  avl_file_insert demo_cmp 1 48 72 demo_uninit 40 f buf.

Definition demo_after (r : res (Z * file (data := Z))) : file :=
  match r with
  | Ok (_, f) => f
  | _ => demo_file0
  end.

(** The file after the insertion of 50, then 30, then 70: the records at
    120, 168 and 216. *)
Definition demo_file1 : file := Eval vm_compute in demo_after (demo_insert demo_file0 50).
Definition demo_file2 : file := Eval vm_compute in demo_after (demo_insert demo_file1 30).
Definition demo_file3 : file := Eval vm_compute in demo_after (demo_insert demo_file2 70).

Lemma demo_insert1 : demo_insert demo_file0 50 = Ok (0, demo_file1).
Proof. vm_compute. reflexivity. Qed.

Lemma demo_insert2 : demo_insert demo_file1 30 = Ok (0, demo_file2).
Proof. vm_compute. reflexivity. Qed.

Lemma demo_insert3 : demo_insert demo_file2 70 = Ok (0, demo_file3).
Proof. vm_compute. reflexivity. Qed.

Abbreviation demo_live := (live demo_cmp 1 48 72 true demo_has_pid).

Lemma demo_live0 : demo_live (mk_sys demo_file0 demo_hs) [].
Proof.
  apply (live_create_step demo_cmp 1 8 48 72 demo_uninit true demo_put_pid demo_has_pid
           ltac:(lia) ltac:(lia) ltac:(reflexivity) demo_has_put_pid 10 7 72 demo_file0);
    [lia|exact demo_open_new].
Qed.

Lemma demo_live1 : demo_live (mk_sys demo_file1 demo_hs) [120].
Proof.
  apply (live_insert_step demo_cmp 1 48 72 demo_uninit true demo_has_pid
           ltac:(lia) ltac:(lia) ltac:(reflexivity) demo_cmp_sym demo_cmp_trans
           demo_file0 demo_hs [] 40 50 0 demo_file1 demo_live0);
    [vm_compute; lia|vm_compute; reflexivity|exact demo_insert1].
Qed.

Lemma demo_live2 : demo_live (mk_sys demo_file2 demo_hs) [168; 120].
Proof.
  apply (live_insert_step demo_cmp 1 48 72 demo_uninit true demo_has_pid
           ltac:(lia) ltac:(lia) ltac:(reflexivity) demo_cmp_sym demo_cmp_trans
           demo_file1 demo_hs [120] 40 30 0 demo_file2 demo_live1);
    [vm_compute; lia|vm_compute; reflexivity|exact demo_insert2].
Qed.

Lemma demo_live3 : demo_live (mk_sys demo_file3 demo_hs) [216; 168; 120].
Proof.
  apply (live_insert_step demo_cmp 1 48 72 demo_uninit true demo_has_pid
           ltac:(lia) ltac:(lia) ltac:(reflexivity) demo_cmp_sym demo_cmp_trans
           demo_file2 demo_hs [168; 120] 40 70 0 demo_file3 demo_live2);
    [vm_compute; lia|vm_compute; reflexivity|exact demo_insert3].
Qed.

(** ** Witnesses *)

Lemma open_creates_consistent_file_witness :
  ∃ f', demo_open None 7 = Ok (Some (72, f')) ∧
        demo_live (mk_sys f' [mk_handle 7 72]) [] ∧
        n_avl (hdr f') = 0 ∧ nextnum (hdr f') = 0 ∧
        (∀ x, is_Some (slots f' !! x) ↔ x = 72).
Proof.
  apply (open_creates_consistent_file demo_cmp 1 8 48 72 demo_uninit true
           demo_put_pid demo_has_pid).
  - lia.
  - lia.
  - reflexivity.
  - exact demo_has_put_pid.
  - lia.
Defined.

Lemma open_keeps_file_consistent_witness :
  ∃ f',
    avl_file_open 1 8 48 72 demo_uninit true demo_put_pid demo_has_pid 40
      (Some demo_file3) 9 (lock_free demo_hs 9) = Ok (Some (264, f')) ∧
    demo_live (mk_sys f' (mk_handle 9 264 :: demo_hs)) [216; 168; 120] ∧
    (∀ x, x ∈ [216; 168; 120] → slots f' !! x = slots demo_file3 !! x) ∧
    nextnum (hdr f') = nextnum (hdr demo_file3).
Proof.
  destruct (open_keeps_file_consistent demo_cmp 1 8 48 72 demo_uninit true
              demo_put_pid demo_has_pid ltac:(lia) ltac:(lia) ltac:(reflexivity)
              demo_has_put_pid 40 demo_file3 demo_hs [216; 168; 120] [72] 9)
    as (cp & f' & Hrun & Hcp & Hlive & Hsame & Hnx).
  - exact demo_live3.
  - vm_compute. lia.
  - split; [reflexivity|]. eexists. split; [reflexivity|]. reflexivity.
  - vm_compute in Hcp. subst cp. by exists f'.
Defined.

Lemma insert_keeps_file_consistent_witness :
  ∃ y f',
    avl_file_insert demo_cmp 1 48 72 demo_uninit 40 demo_file3 60 = Ok (0, f') ∧
    demo_live (mk_sys f' demo_hs) (y :: [216; 168; 120]) ∧
    head_seq (hdr f') = y ∧ payload f' y = Some 60 ∧
    (∀ x, x ∈ [216; 168; 120] → payload f' x = payload demo_file3 x) ∧
    nextnum (hdr f') = nextnum (hdr demo_file3).
Proof.
  apply (insert_keeps_file_consistent demo_cmp 1 48 72 demo_uninit true demo_has_pid).
  - lia.
  - lia.
  - reflexivity.
  - exact demo_cmp_sym.
  - exact demo_cmp_trans.
  - exact demo_live3.
  - vm_compute. lia.
  - vm_compute. reflexivity.
Defined.

(** The file after startge with the probe 40 by the handle at 72. *)
Definition demo_file3_ge : file :=
  Eval vm_compute in
    match avl_file_startge demo_cmp 1 48 40 72 demo_file3 40 0 with
    | Ok (_, _, f) => f
    | _ => demo_file3
    end.

Lemma navigation_writes_own_record_witness :
  demo_live (mk_sys demo_file3_ge demo_hs) [216; 168; 120] ∧
  hdr demo_file3_ge = hdr demo_file3 ∧ flen demo_file3_ge = flen demo_file3 ∧
  ∀ x, x ≠ 72 → slots demo_file3_ge !! x = slots demo_file3 !! x.
Proof.
  apply (navigation_writes_own_record demo_cmp 1 48 72 true demo_has_pid
           ltac:(lia) ltac:(lia) demo_file3 demo_hs [216; 168; 120] (mk_handle 7 72)).
  - exact demo_live3.
  - by left.
  - right. right. right. left. exists 40%nat, 40, 0, 0, 50.
    vm_compute. reflexivity.
Defined.

Lemma demo_fwf3 : fwf 1 48 demo_file3.
Proof.
  destruct demo_live3 as (Lf & Lc & ts & [Hlo _ _]).
  exact (lists_fwf 1 48 72 true demo_has_pid ltac:(lia) ltac:(lia) _ _ _ _ _ _ Hlo).
Qed.

Lemma scan_accepts_consistent_file_witness :
  ∃ t, repr (view demo_file3 0) 0 0 t ∧ root_k (hdr demo_file3) 0 = link t 0 ∧
       nodes t ≡ₚ [216; 168; 120] ∧
       avl_file_scan 1 48 40 demo_file3 (Z.of_nat 0) 0 0 None =
         Ok (height t, Z.of_nat (length [216; 168; 120]), None) ∧
       2 ^ (height t / 2) ≤ Z.of_nat (length [216; 168; 120]) + 1.
Proof.
  apply (scan_accepts_consistent_file demo_cmp 1 48 72 true demo_has_pid
           ltac:(lia) ltac:(lia) demo_file3 demo_hs).
  - exact demo_live3.
  - lia.
  - vm_compute. lia.
Defined.

(** The file with the records of [demo_file3] whose root, at 120, has the
    balance 1 in place of 0, and the tree of its records. *)
Definition demo_root_bal (s : avl_struct (data := Z)) : avl_struct :=
  set_kb 0 1 s.

Definition demo_file3_bad : file :=
  Eval vm_compute in
    match slots demo_file3 !! 120 with
    | Some s => upd demo_file3 120 (demo_root_bal s)
    | None => demo_file3
    end.

Definition demo_tree3_bad : tree (data := Z) :=
  T (T E 168 0 30 E) 120 1 50 (T E 216 0 70 E).

Lemma demo_fwf3_bad : fwf 1 48 demo_file3_bad.
Proof.
  destruct (slots demo_file3 !! 120) as [s|] eqn:Hs; [|by vm_compute in Hs].
  assert (demo_file3_bad = upd demo_file3 120 (demo_root_bal s)) as ->.
  { vm_compute in Hs. injection Hs as <-. vm_compute. reflexivity. }
  apply (fwf_upd 1 48 demo_file3 120 s); [exact demo_fwf3|done|].
  vm_compute in Hs. injection Hs as <-. reflexivity.
Qed.

Lemma scan_reports_count_and_balance_witness :
  avl_file_scan 1 48 40 demo_file3_bad (Z.of_nat 0) 0 0 None =
  Ok (2, 3, Some 51).
Proof.
  apply (scan_reports_count_and_balance 1 48 ltac:(lia) demo_file3_bad 0%nat
           demo_tree3_bad 40 None).
  - exact demo_fwf3_bad.
  - lia.
  - vm_compute. done.
  - reflexivity.
  - vm_compute. reflexivity.
  - vm_compute. reflexivity.
  - vm_compute. lia.
Defined.

(** ** The key order of the instance *)

Definition demo_tree3 : tree (data := Z) :=
  T (T E 168 0 30 E) 120 0 50 (T E 216 0 70 E).

Abbreviation demo_key := (key_order demo_cmp 1 48 72 true demo_has_pid).

Lemma demo_key3 : demo_key (mk_sys demo_file3 demo_hs) 0 [(168, 30); (120, 50); (216, 70)].
Proof.
  apply (live_key_order demo_cmp 1 48 72 true demo_has_pid ltac:(lia) ltac:(lia)
           demo_file3 demo_hs [216; 168; 120] 0 demo_tree3 demo_live3).
  - lia.
  - vm_compute. done.
  - reflexivity.
Qed.

Lemma demo_key3_ge :
  demo_key (mk_sys demo_file3_ge demo_hs) 0 [(168, 30); (120, 50); (216, 70)].
Proof.
  apply (key_order_cstep demo_cmp 1 48 72 true demo_has_pid demo_file3 demo_file3_ge
           demo_hs (mk_handle 7 72) 0 _ demo_key3); [by left|].
  apply (startge_cstep demo_cmp 1 48 ltac:(lia) 40 72 demo_file3 40 0 0 50 demo_file3_ge).
  - exact demo_fwf3.
  - vm_compute. reflexivity.
Qed.

Lemma startge_returns_first_not_less_witness :
  ∃ f', avl_file_startge demo_cmp 1 48 40 72 demo_file3 40 (Z.of_nat 0) = Ok (0, 50, f') ∧
        cursor f' 72 0 = Some (168, 216) ∧
        ∀ k' L', demo_key (mk_sys demo_file3 demo_hs) k' L' →
                 demo_key (mk_sys f' demo_hs) k' L'.
Proof.
  apply (startge_returns_first_not_less demo_cmp 1 48 72 true demo_has_pid
           ltac:(lia) ltac:(lia) demo_file3 demo_hs (mk_handle 7 72) 0 40 40
           [(168, 30)] [(120, 50); (216, 70)]).
  - exact demo_key3.
  - by left.
  - lia.
  - vm_compute. lia.
  - repeat constructor.
  - repeat constructor; vm_compute; discriminate.
Defined.

Lemma startlt_returns_last_less_witness :
  ∃ f', avl_file_startlt demo_cmp 1 48 40 72 demo_file3 60 (Z.of_nat 0) = Ok (0, 50, f') ∧
        cursor f' 72 0 = Some (168, 216) ∧
        ∀ k' L', demo_key (mk_sys demo_file3 demo_hs) k' L' →
                 demo_key (mk_sys f' demo_hs) k' L'.
Proof.
  apply (startlt_returns_last_less demo_cmp 1 48 72 true demo_has_pid
           ltac:(lia) ltac:(lia) demo_file3 demo_hs (mk_handle 7 72) 0 40 60
           [(168, 30); (120, 50)] [(216, 70)]).
  - exact demo_key3.
  - by left.
  - lia.
  - vm_compute. lia.
  - repeat constructor.
  - repeat constructor; vm_compute; discriminate.
Defined.

Lemma next_returns_successor_witness :
  ∃ f', avl_file_next 1 48 40 72 demo_file3_ge 50 (Z.of_nat 0) = Ok (0, 70, f') ∧
        cursor f' 72 0 = Some (168, 0) ∧
        ([(216, 70)] = [] → f' = demo_file3_ge) ∧
        ∀ k' L', demo_key (mk_sys demo_file3_ge demo_hs) k' L' →
                 demo_key (mk_sys f' demo_hs) k' L'.
Proof.
  apply (next_returns_successor demo_cmp 1 48 72 true demo_has_pid
           ltac:(lia) ltac:(lia) demo_file3_ge demo_hs (mk_handle 7 72) 0 40 50
           [(168, 30); (120, 50)] [(216, 70)] 168).
  - exact demo_key3_ge.
  - by left.
  - lia.
  - vm_compute. lia.
  - vm_compute. reflexivity.
Defined.

Lemma prev_returns_predecessor_witness :
  ∃ f', avl_file_prev 1 48 40 72 demo_file3_ge 50 (Z.of_nat 0) = Ok (0, 30, f') ∧
        cursor f' 72 0 = Some (0, 216) ∧
        ([(168, 30)] = [] → f' = demo_file3_ge) ∧
        ∀ k' L', demo_key (mk_sys demo_file3_ge demo_hs) k' L' →
                 demo_key (mk_sys f' demo_hs) k' L'.
Proof.
  apply (prev_returns_predecessor demo_cmp 1 48 72 true demo_has_pid
           ltac:(lia) ltac:(lia) demo_file3_ge demo_hs (mk_handle 7 72) 0 40 50
           [(168, 30)] [(120, 50); (216, 70)] 216).
  - exact demo_key3_ge.
  - by left.
  - lia.
  - vm_compute. lia.
  - vm_compute. reflexivity.
Defined.


Lemma read_lt_enumerates_witness :
  ∃ f', read_lt demo_cmp 1 48 10 40 72 demo_file3 60 (Z.of_nat 0) = Ok ([50; 30], f') ∧
        ∀ k' L', demo_key (mk_sys demo_file3 demo_hs) k' L' →
                 demo_key (mk_sys f' demo_hs) k' L'.
Proof.
  apply (read_lt_enumerates demo_cmp 1 48 72 true demo_has_pid
           ltac:(lia) ltac:(lia) demo_file3 demo_hs (mk_handle 7 72) 0 40 10 60
           [(168, 30); (120, 50)] [(216, 70)]).
  - exact demo_key3.
  - by left.
  - lia.
  - vm_compute. lia.
  - simpl. lia.
  - repeat constructor.
  - repeat constructor; vm_compute; discriminate.
Defined.

Lemma find_returns_first_equal_witness :
  ∃ f', avl_file_find demo_cmp 1 48 40 72 demo_file3 50 (Z.of_nat 0) = Ok (0, 50, f') ∧
        ∀ k' L', demo_key (mk_sys demo_file3 demo_hs) k' L' →
                 demo_key (mk_sys f' demo_hs) k' L'.
Proof.
  apply (find_returns_first_equal demo_cmp 1 48 72 true demo_has_pid
           ltac:(lia) ltac:(lia) demo_cmp_sym demo_cmp_trans
           demo_file3 demo_hs (mk_handle 7 72) 0 40 50
           [(168, 30); (120, 50); (216, 70)]).
  - exact demo_key3.
  - by left.
  - lia.
  - vm_compute. lia.
Defined.

(** The file after startseq by the handle at 72. *)
Definition demo_file3_seq : file :=
  Eval vm_compute in
    match avl_file_startseq 48 72 demo_file3 with
    | Ok f => f
    | _ => demo_file3
    end.

Lemma demo_live3_seq : demo_live (mk_sys demo_file3_seq demo_hs) [216; 168; 120].
Proof.
  apply (live_cstep demo_cmp 1 48 72 true demo_has_pid demo_file3 demo_file3_seq
           demo_hs [216; 168; 120] (mk_handle 7 72) demo_live3); [by left|].
  apply (startseq_cstep 1 48 ltac:(lia) 72 demo_file3 demo_file3_seq).
  - exact demo_fwf3.
  - vm_compute. reflexivity.
Qed.

Lemma readseq_returns_next_in_list_witness :
  ∃ d f', payload demo_file3_seq 216 = Some d ∧
          avl_file_readseq 48 72 demo_file3_seq 0 = Ok (0, d, f') ∧
          seq_cursor f' 72 = Some 168 ∧
          demo_live (mk_sys f' demo_hs) ([] ++ [216; 168; 120]).
Proof.
  apply (readseq_returns_next_in_list demo_cmp 1 48 72 true demo_has_pid
           ltac:(lia) ltac:(lia) demo_file3_seq demo_hs (mk_handle 7 72) 0
           [] [216; 168; 120]).
  - exact demo_live3_seq.
  - by left.
  - vm_compute. reflexivity.
Defined.

Lemma read_seq_enumerates_witness :
  ∃ ds f', read_seq 48 10 72 demo_file3 0 = Ok (ds, f') ∧
           Forall2 (λ x d, payload demo_file3 x = Some d) [216; 168; 120] ds ∧
           demo_live (mk_sys f' demo_hs) [216; 168; 120].
Proof.
  apply (read_seq_enumerates demo_cmp 1 48 72 true demo_has_pid
           ltac:(lia) ltac:(lia) demo_file3 demo_hs (mk_handle 7 72) 0
           [216; 168; 120] 10).
  - exact demo_live3.
  - by left.
  - simpl. lia.
Defined.

Lemma insert_goes_after_equal_keys_witness :
  ∃ y f' L1 L2,
    avl_file_insert demo_cmp 1 48 72 demo_uninit 40 demo_file3 50 = Ok (0, f') ∧
    [(168, 30); (120, 50); (216, 70)] = L1 ++ L2 ∧
    Forall (λ e, demo_cmp (Z.of_nat 0) e.2 50 ≤ 0) L1 ∧
    Forall (λ e, demo_cmp (Z.of_nat 0) 50 e.2 < 0) L2 ∧
    demo_key (mk_sys f' demo_hs) 0 (L1 ++ (y, 50) :: L2) ∧
    head_seq (hdr f') = y.
Proof.
  apply (insert_goes_after_equal_keys demo_cmp 1 48 72 demo_uninit true demo_has_pid
           ltac:(lia) ltac:(lia) ltac:(reflexivity) demo_cmp_sym demo_cmp_trans
           demo_file3 demo_hs 40 50 0 [(168, 30); (120, 50); (216, 70)]).
  - exact demo_key3.
  - lia.
  - vm_compute. lia.
  - vm_compute. reflexivity.
Defined.

Lemma insert_then_find_witness :
  ∃ f1 f2 d,
    avl_file_insert demo_cmp 1 48 72 demo_uninit 40 demo_file3 60 = Ok (0, f1) ∧
    avl_file_find demo_cmp 1 48 40 72 f1 60 (Z.of_nat 0) = Ok (0, d, f2) ∧
    demo_cmp (Z.of_nat 0) d 60 = 0 ∧
    (Forall (λ e, demo_cmp (Z.of_nat 0) e.2 60 ≠ 0) [(168, 30); (120, 50); (216, 70)] →
     d = 60).
Proof.
  apply (insert_then_find demo_cmp 1 48 72 demo_uninit true demo_has_pid
           ltac:(lia) ltac:(lia) ltac:(reflexivity) demo_cmp_refl demo_cmp_sym
           demo_cmp_trans demo_file3 demo_hs (mk_handle 7 72) 40 60 0
           [(168, 30); (120, 50); (216, 70)]).
  - exact demo_key3.
  - by left.
  - lia.
  - vm_compute. lia.
  - vm_compute. reflexivity.
Defined.

Lemma close_frees_cursor_record_witness :
  ∃ f', avl_file_close 1 48 72 40 72 demo_file3 = Ok f' ∧
        demo_live (mk_sys f' (filter (λ h0, h0 ≠ mk_handle 7 72) demo_hs)) [216; 168; 120] ∧
        head_empty (hdr f') = 72 ∧
        (∃ s, slots f' !! 72 = Some s ∧ next s = head_empty (hdr demo_file3)) ∧
        (∀ x, x ∈ [216; 168; 120] → slots f' !! x = slots demo_file3 !! x) ∧
        nextnum (hdr f') = nextnum (hdr demo_file3).
Proof.
  apply (close_frees_cursor_record demo_cmp 1 48 72 true demo_has_pid
           ltac:(lia) ltac:(lia) demo_file3 demo_hs [216; 168; 120] (mk_handle 7 72) 40).
  - exact demo_live3.
  - by left.
  - vm_compute. lia.
Defined.

(** The record of [demo_file3] at 120, with the payload 50. *)
Definition demo_rec120 : avl_struct (data := Z) :=
  Eval vm_compute in default demo_uninit (slots demo_file3 !! 120).


Lemma demo_no_60 y yr :
  y ∈ [216; 168; 120] → slots demo_file3 !! y = Some yr →
  ∃ k, (k < 1)%nat ∧ demo_cmp (Z.of_nat k) 60 (b yr) ≠ 0.
Proof.
  intros Hy Hs. exists 0%nat. split; [lia|].
  repeat (apply elem_of_cons in Hy as [->|Hy]);
    [vm_compute in Hs; injection Hs as <-; vm_compute; discriminate..|].
  by apply elem_of_nil in Hy.
Qed.

Lemma update_without_match_witness :
  avl_file_update demo_cmp 1 48 demo_uninit 40 demo_file3 60 = Ok (-1, demo_file3).
Proof.
  apply (update_without_match demo_cmp 1 48 72 demo_uninit true demo_has_pid
           ltac:(lia) ltac:(lia) demo_cmp_refl demo_cmp_sym demo_cmp_trans
           demo_file3 demo_hs [216; 168; 120] 40 60).
  - exact demo_live3.
  - vm_compute. lia.
  - exact demo_no_60.
Defined.

Lemma demo_none_60 y yr :
  y ∈ [216; 168; 120] → slots demo_file3 !! y = Some yr → b yr ≠ 60.
Proof.
  intros Hy Hs.
  repeat (apply elem_of_cons in Hy as [->|Hy]);
    [vm_compute in Hs; injection Hs as <-; vm_compute; discriminate..|].
  by apply elem_of_nil in Hy.
Qed.

Lemma delete_without_match_witness :
  avl_file_delete demo_cmp 1 48 72 demo_uninit 40 demo_file3 60 = Ok (-1, demo_file3).
Proof.
  apply (delete_without_match demo_cmp 1 48 72 demo_uninit true demo_has_pid
           ltac:(lia) ltac:(lia) demo_cmp_sym demo_cmp_trans
           demo_file3 demo_hs [216; 168; 120] 40 60).
  - exact demo_live3.
  - vm_compute. lia.
  - exact demo_none_60.
Defined.

